(** * RVPF native plumbing: a shallow embedding of the C sources

    The development follows the C translation units of the repository:

    - [Codec]      store/CStoreImpl.c   (typed values, block-split payloads)
    - [HandlesMap] store/HandlesMap.c   (the int -> int handle table)
    - [Pipe]       lib/impl/rvpf_pipe.c (PIPE requests and responses)
    - [Ssl]        lib/impl/rvpf_ssl.c  (the stream context and its status)
    - [Xpvpc]      lib/impl/rvpf_xpvpc.c (the XML point-value port client)

    C integers are modelled as [Z] with the conversions written out, char
    arrays as lists updated by index, pointers into an array as offsets. *)

From stdpp Require Import base numbers list strings.
From Stdlib Require Import ZArith Lia Ascii DecimalString.

Local Open Scope Z_scope.

(** ** Machine integers *)

(** Conversion to a signed integer type of [w] bits (two's complement). *)
Definition wrap_signed (w : Z) (z : Z) : Z :=
  (z + 2 ^ (w - 1)) mod 2 ^ w - 2 ^ (w - 1).

(** Conversion to an unsigned integer type of [w] bits. *)
Definition wrap_unsigned (w : Z) (z : Z) : Z := z mod 2 ^ w.

Definition to_jbyte : Z -> Z := wrap_signed 8.
Definition to_jshort : Z -> Z := wrap_signed 16.
Definition to_jint : Z -> Z := wrap_signed 32.
Definition to_jlong : Z -> Z := wrap_signed 64.
Definition to_uchar : Z -> Z := wrap_unsigned 8.

(** ** Byte arrays addressed by a [size_t] offset *)

Section Memory.
Context {A : Type}.

(** [p[i] = x]; a store outside the allocated block is not recorded. *)
Definition store (mem : list A) (i : Z) (x : A) : list A :=
  if 0 <=? i then <[Z.to_nat i := x]> mem else mem.

(** [p[i]], with [d] read outside the allocated block. *)
Definition load (d : A) (mem : list A) (i : Z) : A :=
  if 0 <=? i then default d (mem !! Z.to_nat i) else d.

(** [memcpy(dst + off, src, length src)], cut at the end of [dst]. *)
Definition memcpy (dst : list A) (off : Z) (src : list A) : list A :=
  let o := Z.to_nat off in
  take o dst ++ take (length dst - o)%nat src
    ++ drop (o + length src)%nat dst.
End Memory.

(** ** Characters and C strings *)

Section Characters.
Local Open Scope nat_scope.

Definition NUL : ascii := Ascii.zero.

(** The double quote. *)
Definition QUOTE : ascii := ascii_of_nat 34.

Definition chars (s : string) : list ascii := String.list_ascii_of_string s.

(** [isspace] in the C locale: space, and the controls from TAB to CR. *)
Definition isspace (c : ascii) : bool :=
  let n := nat_of_ascii c in
  (n =? 32) || ((9 <=? n) && (n <=? 13)).

(** The characters of the C string that starts a block of memory: those
    before the first NUL. *)
Fixpoint c_str (s : list ascii) : list ascii :=
  match s with
  | [] => []
  | c :: s' => if Ascii.eqb c NUL then [] else c :: c_str s'
  end.

Definition strlen (s : list ascii) : nat := length (c_str s).

(** The character at an offset of a block; NUL where nothing was ever
    written. *)
Definition peek (mem : list ascii) (i : nat) : ascii := default NUL (mem !! i).

(** The C string at an offset of a block. *)
Definition string_at (mem : list ascii) (p : nat) : list ascii :=
  c_str (drop p mem).

Definition LF : ascii := ascii_of_nat 10.
Definition CR : ascii := ascii_of_nat 13.

End Characters.

(** * store/CStoreImpl.c *)

Module Codec.

Definition MAX_BYTES_BLOCK : Z := 65534.

(** [enum value_type], as the character codes of CStoreImpl.h. *)
Inductive value_type :=
| VALUE_TYPE_NULL | VALUE_TYPE_DOUBLE | VALUE_TYPE_LONG | VALUE_TYPE_BOOLEAN
| VALUE_TYPE_SHORT | VALUE_TYPE_STRING | VALUE_TYPE_BYTE_ARRAY
| VALUE_TYPE_INTEGER | VALUE_TYPE_FLOAT | VALUE_TYPE_CHARACTER
| VALUE_TYPE_BYTE | VALUE_TYPE_STATE | VALUE_TYPE_OBJECT.

Definition value_type_code (t : value_type) : Z :=
  match t with
  | VALUE_TYPE_NULL => 0
  | VALUE_TYPE_DOUBLE => 100     (* 'd' *)
  | VALUE_TYPE_LONG => 106       (* 'j' *)
  | VALUE_TYPE_BOOLEAN => 122    (* 'z' *)
  | VALUE_TYPE_SHORT => 115      (* 's' *)
  | VALUE_TYPE_STRING => 116     (* 't' *)
  | VALUE_TYPE_BYTE_ARRAY => 97  (* 'a' *)
  | VALUE_TYPE_INTEGER => 105    (* 'i' *)
  | VALUE_TYPE_FLOAT => 102      (* 'f' *)
  | VALUE_TYPE_CHARACTER => 99   (* 'c' *)
  | VALUE_TYPE_BYTE => 98        (* 'b' *)
  | VALUE_TYPE_STATE => 113      (* 'q' *)
  | VALUE_TYPE_OBJECT => 111     (* 'o' *)
  end.

(** [c_store_value_t]: the header fields and the flexible array [value],
    whose elements are [c_store_byte_t] (a signed char). *)
Record c_store_value_t := {
  handle : Z;
  stamp : Z;
  deleted : Z;
  quality : Z;
  size : Z;
  value : list Z
}.

(** [CStore_allocate(sizeof(c_store_value_t) + valueLength)]: zeroed. *)
Definition CStore_allocate_value (valueLength : Z) : c_store_value_t :=
  {| handle := 0; stamp := 0; deleted := 0; quality := 0; size := 0;
     value := replicate (Z.to_nat valueLength) 0 |}.

Definition set_value (v : c_store_value_t) (bytes : list Z) : c_store_value_t :=
  {| handle := handle v; stamp := stamp v; deleted := deleted v;
     quality := quality v; size := size v; value := bytes |}.

Definition set_size (v : c_store_value_t) (n : Z) : c_store_value_t :=
  {| handle := handle v; stamp := stamp v; deleted := deleted v;
     quality := quality v; size := n; value := value v |}.

(** [storeValue->value[i] = x], the right-hand side converted to a
    [c_store_byte_t]. *)
Definition put_byte (v : c_store_value_t) (i : Z) (x : Z) : c_store_value_t :=
  set_value v (store (value v) i (to_jbyte x)).

(** [(unsigned char) storeValue->value[i]] *)
Definition get_uchar (v : c_store_value_t) (i : Z) : Z :=
  to_uchar (load 0 (value v) i).

Definition CStore_getValueType (storeValue : c_store_value_t) : Z :=
  if size storeValue =? 0 then value_type_code VALUE_TYPE_NULL
  else load 0 (value storeValue) 0.

(** ** Block-split payloads *)

Definition _splitLength (joinedLength : Z) : Z :=
  let length := joinedLength + (joinedLength / MAX_BYTES_BLOCK + 1) * 2 in
  if length mod MAX_BYTES_BLOCK =? 0 then length else length + 2.

(** The loop of [_splitValue]. [joined] is what [joinedPointer] points at,
    [splitPointer] an offset into [storeValue->value]. The result carries
    the final [splitPointer], one past the last byte written. Every turn
    but the last consumes a block, so [valueLength / MAX_BYTES_BLOCK + 2]
    turns are enough. *)
Fixpoint _splitValue_loop (turns : nat) (joined : list Z) (valueLength : Z)
    (mem : list Z) (splitPointer : Z) : list Z * Z :=
  match turns with
  | O => (mem, splitPointer)
  | S turns' =>
      let length :=
        if valueLength >? MAX_BYTES_BLOCK then MAX_BYTES_BLOCK
        else valueLength in
      let valueLength := valueLength - length in
      let mem :=
        store mem splitPointer (to_jbyte (Z.land (Z.shiftr length 8) 255)) in
      let mem :=
        store mem (splitPointer + 1) (to_jbyte (Z.land length 255)) in
      let splitPointer := splitPointer + 2 in
      if length =? 0 then (mem, splitPointer)
      else
        let n := Z.to_nat length in
        let mem := memcpy mem splitPointer (take n joined) in
        _splitValue_loop turns' (drop n joined) valueLength mem
          (splitPointer + length)
  end.

Definition _splitValue (bytes : list Z) (valueLength : Z)
    (storeValue : c_store_value_t) (offset : Z) : c_store_value_t * Z :=
  let '(mem, stop) :=
    _splitValue_loop (Z.to_nat (valueLength / MAX_BYTES_BLOCK) + 2)
      bytes valueLength (value storeValue) (1 + offset) in
  (set_value storeValue mem, stop).

(** The number of bytes [_splitValue] writes for a payload. *)
Definition split_written (bytes : list Z) (valueLength : Z)
    (storeValue : c_store_value_t) (offset : Z) : Z :=
  snd (_splitValue bytes valueLength storeValue offset) - (1 + offset).

(** The big-endian length read through [valuePointer] at the head of a
    block (each byte masked with 0xFF); [None] when the two bytes are not
    inside the allocated array. *)
Definition block_length (mem : list Z) (valuePointer : Z) : option Z :=
  if valuePointer <? 0 then None
  else
    match mem !! Z.to_nat valuePointer, mem !! Z.to_nat (valuePointer + 1) with
    | Some hi, Some lo => Some (Z.shiftl (Z.land hi 255) 8 + Z.land lo 255)
    | _, _ => None
    end.

(** The loop of [_joinedValueLength]; [None] when the chain of lengths
    leaves the allocated array without meeting a zero length. *)
Fixpoint _joinedValueLength_loop (turns : nat) (mem : list Z)
    (valuePointer : Z) (valueLength : Z) : option Z :=
  match turns with
  | O => None
  | S turns' =>
      match block_length mem valuePointer with
      | None => None
      | Some length =>
          let valuePointer := valuePointer + 2 in
          if length =? 0 then Some valueLength
          else
            _joinedValueLength_loop turns' mem (valuePointer + length)
              (valueLength + length)
      end
  end.

Definition _joinedValueLength (storeValue : c_store_value_t) : option Z :=
  _joinedValueLength_loop (S (length (value storeValue)))
    (value storeValue) 1 0.

(** The loop of [_joinValue], returning what was copied to [buffer]. *)
Fixpoint _joinValue_loop (turns : nat) (mem : list Z) (valuePointer : Z)
    (buffer : list Z) : option (list Z) :=
  match turns with
  | O => None
  | S turns' =>
      match block_length mem valuePointer with
      | None => None
      | Some length =>
          let valuePointer := valuePointer + 2 in
          if length =? 0 then Some buffer
          else if Z.of_nat (List.length mem) <? valuePointer + length
          then None
          else
            _joinValue_loop turns' mem (valuePointer + length)
              (buffer ++ take (Z.to_nat length)
                           (drop (Z.to_nat valuePointer) mem))
      end
  end.

Definition _joinValue (storeValue : c_store_value_t) : option (list Z) :=
  _joinValue_loop (S (length (value storeValue))) (value storeValue) 1 [].

(** The lengths of the blocks of a split stream, terminator excluded, and
    whether the walk ended on a zero length inside the array. *)
Fixpoint chunk_lengths (turns : nat) (mem : list Z) (valuePointer : Z)
    : list Z * bool :=
  match turns with
  | O => ([], false)
  | S turns' =>
      match block_length mem valuePointer with
      | None => ([], false)
      | Some length =>
          if length =? 0 then ([], true)
          else
            let '(ls, ok) :=
              chunk_lengths turns' mem (valuePointer + 2 + length) in
            (length :: ls, ok)
      end
  end.

(** ** Typed values *)

(** The variable arguments of [CStore_newValue], by value type. Floating
    point arguments are carried as their IEEE-754 bit patterns. *)
Inductive new_value_args :=
| NewNull
| NewDouble (doubleBits : Z)
| NewLong (longValue : Z)
| NewBoolean (intArg : Z)
| NewShort (intArg : Z)
| NewState (stateCode : option Z) (bytes : option (list Z)) (bytesLength : Z)
| NewString (bytes : list Z) (bytesLength : Z)
| NewByteArray (bytes : list Z) (bytesLength : Z)
| NewInteger (intValue : Z)
| NewFloat (floatBits : Z)
| NewCharacter (intArg : Z)
| NewByte (intArg : Z)
| NewObject.

Definition valueType_of (args : new_value_args) : value_type :=
  match args with
  | NewNull => VALUE_TYPE_NULL
  | NewDouble _ => VALUE_TYPE_DOUBLE
  | NewLong _ => VALUE_TYPE_LONG
  | NewBoolean _ => VALUE_TYPE_BOOLEAN
  | NewShort _ => VALUE_TYPE_SHORT
  | NewState _ _ _ => VALUE_TYPE_STATE
  | NewString _ _ => VALUE_TYPE_STRING
  | NewByteArray _ _ => VALUE_TYPE_BYTE_ARRAY
  | NewInteger _ => VALUE_TYPE_INTEGER
  | NewFloat _ => VALUE_TYPE_FLOAT
  | NewCharacter _ => VALUE_TYPE_CHARACTER
  | NewByte _ => VALUE_TYPE_BYTE
  | NewObject => VALUE_TYPE_OBJECT
  end.

(** [sprintf(textBuffer, "%li", n)] as bytes. *)
Definition decimal_bytes (n : Z) : list Z :=
  map (fun c => Z.of_N (N_of_ascii c))
    (String.list_ascii_of_string
       (DecimalString.NilZero.string_of_int (Z.to_int n))).

(** The first [switch] of [CStore_newValue]: [valueLength]. *)
Definition newValue_length (args : new_value_args) : Z :=
  match args with
  | NewNull => 0
  | NewDouble _ | NewLong _ => 1 + 8
  | NewBoolean _ => 1 + 1
  | NewShort _ => 1 + 2
  | NewState stateCode bytes bytesLength =>
      let textLength :=
        match stateCode with
        | Some code => Z.of_nat (length (decimal_bytes (to_jint code)))
        | None => 0
        end in
      let valueLength := 1 + _splitLength textLength in
      match bytes with
      | Some _ => valueLength + 1 + (_splitLength bytesLength - 2)
      | None => valueLength
      end
  | NewString _ bytesLength | NewByteArray _ bytesLength =>
      1 + _splitLength bytesLength
  | NewInteger _ | NewFloat _ => 1 + 4
  | NewCharacter _ | NewByte _ => 1 + 1
  | NewObject => 0
  end.

(** [CStore_newValue]. [None] stands for a failed [ASSERT], which crashes
    the process ([CStore_assert] dereferences a null pointer). *)
Definition CStore_newValue (args : new_value_args) : option c_store_value_t :=
  let valueType := valueType_of args in
  let valueLength := newValue_length args in
  let storeValue := CStore_allocate_value valueLength in
  let storeValue :=
    if valueLength =? 0 then storeValue
    else put_byte (set_size storeValue valueLength) 0
           (value_type_code valueType) in
  match args with
  | NewDouble n | NewLong n =>
      let longValue := to_jlong n in
      let v := put_byte storeValue 1 (Z.shiftr longValue 56) in
      let v := put_byte v 2 (Z.shiftr longValue 48) in
      let v := put_byte v 3 (Z.shiftr longValue 40) in
      let v := put_byte v 4 (Z.shiftr longValue 32) in
      let v := put_byte v 5 (Z.shiftr longValue 24) in
      let v := put_byte v 6 (Z.shiftr longValue 16) in
      let v := put_byte v 7 (Z.shiftr longValue 8) in
      Some (put_byte v 8 (Z.shiftr longValue 0))
  | NewBoolean i =>
      (* number.boolValue is a jboolean (unsigned char), read back
         through number.byteValue *)
      Some (put_byte storeValue 1 (to_jbyte (to_uchar i)))
  | NewCharacter i | NewByte i =>
      Some (put_byte storeValue 1 (to_jbyte i))
  | NewShort i =>
      let shortValue := to_jshort i in
      let v := put_byte storeValue 1 (Z.shiftr shortValue 8) in
      Some (put_byte v 2 (Z.shiftr shortValue 0))
  | NewState stateCode bytes bytesLength =>
      let text :=
        match stateCode with
        | Some code => decimal_bytes (to_jint code)
        | None => []
        end in
      let textLength := Z.of_nat (length text) in
      let splitText := _splitLength textLength in
      match bytes with
      | Some bs =>
          let text := text ++ [58] in
          let textLength := textLength + 1 in
          let v := fst (_splitValue text textLength storeValue 0) in
          let v :=
            fst (_splitValue bs bytesLength v (_splitLength textLength - 2)) in
          if decide (_joinedValueLength v = Some (textLength + bytesLength))
          then Some v else None
      | None =>
          let v := fst (_splitValue text textLength storeValue 0) in
          if decide (_joinedValueLength v = Some (textLength + 0))
          then Some v else None
      end
  | NewString bytes bytesLength | NewByteArray bytes bytesLength =>
      if valueLength =? 0 then None
      else Some (fst (_splitValue bytes bytesLength storeValue 0))
  | NewInteger n | NewFloat n =>
      let intValue := to_jint n in
      let v := put_byte storeValue 1 (Z.shiftr intValue 24) in
      let v := put_byte v 2 (Z.shiftr intValue 16) in
      let v := put_byte v 3 (Z.shiftr intValue 8) in
      Some (put_byte v 4 (Z.shiftr intValue 0))
  | NewNull => Some storeValue
  | NewObject => None
  end.

(** ** Accessors *)

Definition value_type_of_code (c : Z) : option value_type :=
  List.find (fun t => value_type_code t =? c)
    [VALUE_TYPE_NULL; VALUE_TYPE_DOUBLE; VALUE_TYPE_LONG; VALUE_TYPE_BOOLEAN;
     VALUE_TYPE_SHORT; VALUE_TYPE_STRING; VALUE_TYPE_BYTE_ARRAY;
     VALUE_TYPE_INTEGER; VALUE_TYPE_FLOAT; VALUE_TYPE_CHARACTER;
     VALUE_TYPE_BYTE; VALUE_TYPE_STATE; VALUE_TYPE_OBJECT].

(** [CStore_valueToString]: the flag returned and the joined string
    ([None] when the split stream is malformed). *)
Definition CStore_valueToString (storeValue : c_store_value_t)
    : bool * option (list Z) :=
  if CStore_getValueType storeValue =? value_type_code VALUE_TYPE_STRING
  then (true, _joinValue storeValue)
  else (false, None).


Section Accessors.
(** The C library and the floating-point unit are not interpreted:
    [strtol(string, &pointer, 0)] and [strtod(string, &pointer)] give the
    number read and whether [*pointer] is the terminator; a [double] is
    its bit pattern. What a call leaves in [*longValue] or in
    [*doubleValue] is [None] when the call does not determine it: the
    object is not assigned, or it is assigned from a [union number] that
    was never set, which no rule of the language gives a value to. *)
Variable strtol_any_base : list Z -> Z * bool.
Variable strtod : list Z -> Z * bool.
Variable double_to_long : Z -> Z.

(** The 4-byte big-endian composition used for INTEGER and FLOAT: each
    operand is an [int] shifted left, or-ed into a [c_store_long_t]. *)
Definition compose_int (storeValue : c_store_value_t) : Z :=
  let longValue := to_jint (Z.shiftl (get_uchar storeValue 1) 24) in
  let longValue :=
    Z.lor longValue (to_jint (Z.shiftl (get_uchar storeValue 2) 16)) in
  let longValue :=
    Z.lor longValue (to_jint (Z.shiftl (get_uchar storeValue 3) 8)) in
  Z.lor longValue (to_jint (Z.shiftl (get_uchar storeValue 4) 0)).

(** The 8-byte composition used for LONG and DOUBLE. *)
Definition compose_long (storeValue : c_store_value_t) : Z :=
  let longValue := to_jlong (Z.shiftl (get_uchar storeValue 1) 56) in
  let longValue :=
    Z.lor longValue (to_jlong (Z.shiftl (get_uchar storeValue 2) 48)) in
  let longValue :=
    Z.lor longValue (to_jlong (Z.shiftl (get_uchar storeValue 3) 40)) in
  let longValue :=
    Z.lor longValue (to_jlong (Z.shiftl (get_uchar storeValue 4) 32)) in
  let longValue :=
    Z.lor longValue (to_jlong (Z.shiftl (get_uchar storeValue 5) 24)) in
  let longValue :=
    Z.lor longValue (to_jlong (Z.shiftl (get_uchar storeValue 6) 16)) in
  let longValue :=
    Z.lor longValue (to_jlong (Z.shiftl (get_uchar storeValue 7) 8)) in
  Z.lor longValue (to_jlong (Z.shiftl (get_uchar storeValue 8) 0)).

(** The body of [CStore_valueToLong], with the DOUBLE and FLOAT case (a
    call to [CStore_valueToDouble]) left to [floating]. The result is
    the flag returned and [*longValue]. *)
Definition valueToLong_switch
    (floating : c_store_value_t -> bool * option Z)
    (storeValue : c_store_value_t) : bool * option Z :=
  match value_type_of_code (CStore_getValueType storeValue) with
  | Some VALUE_TYPE_LONG => (true, Some (compose_long storeValue))
  | Some VALUE_TYPE_INTEGER => (true, Some (compose_int storeValue))
  | Some VALUE_TYPE_SHORT =>
      let longValue := Z.shiftl (get_uchar storeValue 1) 8 in
      (true, Some (Z.lor longValue (Z.shiftl (get_uchar storeValue 2) 0)))
  | Some VALUE_TYPE_BYTE => (true, Some (load 0 (value storeValue) 1))
  | Some VALUE_TYPE_STRING =>
      match CStore_valueToString storeValue with
      | (true, Some string) =>
          let '(n, whole) := strtol_any_base string in
          if whole then (true, Some (to_jlong n)) else (false, Some 0)
      | _ => (false, Some 0)
      end
  | Some VALUE_TYPE_DOUBLE | Some VALUE_TYPE_FLOAT => floating storeValue
  | Some VALUE_TYPE_BOOLEAN =>
      (true, Some (if load 0 (value storeValue) 1 =? 0 then 0 else 1))
  | _ => (false, Some 0)
  end.

(** [CStore_valueToDouble]: the flag and the bits of [*doubleValue]. A
    STRING that is not a number to its end returns before
    [*doubleValue] is assigned. In the integer case the value stored
    from [CStore_valueToLong] is overwritten after the [switch] by
    [number.doubleValue], and [number] was never set on that path. *)
Definition CStore_valueToDouble (storeValue : c_store_value_t)
    : bool * option Z :=
  match value_type_of_code (CStore_getValueType storeValue) with
  | Some VALUE_TYPE_DOUBLE => (true, Some (compose_long storeValue))
  | Some VALUE_TYPE_FLOAT => (true, Some (compose_int storeValue))
  | Some VALUE_TYPE_STRING =>
      match CStore_valueToString storeValue with
      | (true, Some string) =>
          let '(bits, whole) := strtod string in
          if whole then (true, Some bits) else (false, None)
      | _ => (false, Some 0)
      end
  | Some VALUE_TYPE_LONG | Some VALUE_TYPE_INTEGER
  | Some VALUE_TYPE_SHORT | Some VALUE_TYPE_BYTE =>
      if fst (valueToLong_switch (fun _ => (false, Some 0)) storeValue)
      then (true, None) else (false, Some 0)
  | _ => (false, Some 0)
  end.

(** [CStore_valueToLong]; in the DOUBLE and FLOAT case [*longValue] is
    the conversion of what [CStore_valueToDouble] left in the local
    [doubleValue]. *)
Definition CStore_valueToLong (storeValue : c_store_value_t)
    : bool * option Z :=
  valueToLong_switch
    (fun v =>
       let '(ok, doubleValue) := CStore_valueToDouble v in
       if ok then (true, double_to_long <$> doubleValue)
       else (false, Some 0))
    storeValue.
End Accessors.

(** ** Properties of the block-split encoding *)

(** The bytes a payload of [L] bytes takes once split: a two-byte length
    before every block of at most [MAX_BYTES_BLOCK] bytes, and the two-byte
    terminator. *)
Definition split_size (L : Z) : Z :=
  L + 2 * (L / MAX_BYTES_BLOCK
           + (if L mod MAX_BYTES_BLOCK =? 0 then 0 else 1) + 1).

Lemma _splitValue_loop_stop turns :
  forall joined L mem p,
    0 <= L ->
    (Z.to_nat (L / MAX_BYTES_BLOCK) + 2 <= turns)%nat ->
    snd (_splitValue_loop turns joined L mem p) = p + split_size L.
Proof.
  unfold split_size, MAX_BYTES_BLOCK.
  induction turns as [|turns IH]; intros joined L mem p HL Hturns; [lia|].
  cbn [_splitValue_loop]. unfold MAX_BYTES_BLOCK.
  destruct (Z.gtb_spec L 65534) as [Hbig|Hsmall].
  - replace (65534 =? 0) with false by reflexivity.
    assert (Hq : (L - 65534) / 65534 = L / 65534 - 1).
    { replace L with ((L - 65534) + 1 * 65534) at 2 by lia.
      rewrite Z.div_add by lia. lia. }
    assert (Hr : (L - 65534) mod 65534 = L mod 65534).
    { replace L with ((L - 65534) + 1 * 65534) at 2 by lia.
      now rewrite Z.mod_add by lia. }
    assert (1 <= L / 65534).
    { apply Z.div_le_lower_bound; lia. }
    rewrite IH by lia. rewrite Hq, Hr. lia.
  - destruct (Z.eqb_spec L 0) as [->|Hnz].
    + reflexivity.
    + replace (L - L) with 0 by lia.
      destruct turns as [|turns]; [lia|].
      cbn [_splitValue_loop snd]. unfold MAX_BYTES_BLOCK.
      replace (0 >? 65534) with false by reflexivity.
      replace (0 =? 0) with true by reflexivity. cbn [snd].
      destruct (Z.eqb_spec L 65534) as [->|Hlt].
      * rewrite Z.div_same, Z.mod_same by lia. change (0 =? 0) with true.
        cbv iota. lia.
      * rewrite Z.div_small, Z.mod_small by lia.
        destruct (Z.eqb_spec L 0); lia.
Qed.

(** [_splitValue] writes [split_size valueLength] bytes, whatever the
    payload and the offset. *)
Lemma split_written_size bytes L storeValue offset :
  0 <= L -> split_written bytes L storeValue offset = split_size L.
Proof.
  intros HL. unfold split_written, _splitValue.
  pose proof (_splitValue_loop_stop
                (Z.to_nat (L / MAX_BYTES_BLOCK) + 2) bytes L
                (value storeValue) (1 + offset) HL (le_n _)) as H.
  destruct (_splitValue_loop _ _ _ _ _) as [mem stop]. cbn [snd] in *. lia.
Qed.

(** The reservation tests its own first estimate where the split tests
    the payload length: it is exact when both are multiples of the block
    size or neither is. *)
Lemma _splitLength_exact_iff L :
  0 <= L ->
  _splitLength L = split_size L <->
  ((L + (L / MAX_BYTES_BLOCK + 1) * 2) mod MAX_BYTES_BLOCK = 0 <->
   L mod MAX_BYTES_BLOCK = 0).
Proof.
  intros HL. unfold _splitLength, split_size. cbv zeta.
  destruct (Z.eqb_spec ((L + (L / MAX_BYTES_BLOCK + 1) * 2) mod MAX_BYTES_BLOCK) 0);
    destruct (Z.eqb_spec (L mod MAX_BYTES_BLOCK) 0); lia.
Qed.

(** C6 (the code departs from the claim): a payload of 65 532 bytes is
    given a reservation of 65 534 bytes by [_splitLength], and [_splitValue]
    writes 65 536 bytes for it: the reservation is two bytes short, and
    the terminator falls outside the allocated value. *)
Theorem splitLength_short_of_splitValue :
  forall bytes storeValue offset,
    _splitLength 65532 = 65534 /\
    split_written bytes 65532 storeValue offset = 65536.
Proof.
  intros bytes storeValue offset. split; [reflexivity|].
  now rewrite split_written_size.
Qed.

(** ** Splitting, then joining *)

Lemma lookup_store_eq {A} (mem : list A) i x :
  0 <= i < Z.of_nat (length mem) -> store mem i x !! Z.to_nat i = Some x.
Proof.
  intros H. unfold store. destruct (Z.leb_spec 0 i); [|lia].
  apply list_lookup_insert_eq. lia.
Qed.

Lemma lookup_store_ne {A} (mem : list A) i j x :
  0 <= i -> Z.to_nat i <> j -> store mem i x !! j = mem !! j.
Proof.
  intros Hi H. unfold store. destruct (Z.leb_spec 0 i); [|lia].
  by apply list_lookup_insert_ne.
Qed.

Lemma store_length {A} (mem : list A) i x : length (store mem i x) = length mem.
Proof. unfold store. destruct (0 <=? i); [apply length_insert|done]. Qed.

Lemma take_store {A} (mem : list A) i x n :
  (n <= Z.to_nat i)%nat -> 0 <= i -> take n (store mem i x) = take n mem.
Proof.
  intros Hn Hi. unfold store. destruct (Z.leb_spec 0 i); [|lia].
  by apply take_insert_ge.
Qed.

Lemma memcpy_length {A} (dst : list A) off src :
  0 <= off -> (Z.to_nat off + length src <= length dst)%nat ->
  length (memcpy dst off src) = length dst.
Proof.
  intros Ho H. unfold memcpy.
  rewrite !length_app, length_take, length_take, length_drop. lia.
Qed.

Lemma take_memcpy {A} (dst : list A) off src n :
  (n <= Z.to_nat off)%nat -> (Z.to_nat off + length src <= length dst)%nat ->
  take n (memcpy dst off src) = take n dst.
Proof.
  intros Hn H. unfold memcpy.
  rewrite take_app_le by (rewrite length_take; lia).
  rewrite take_take. f_equal. lia.
Qed.

Lemma drop_memcpy {A} (dst : list A) off src :
  (Z.to_nat off + length src <= length dst)%nat ->
  take (length src) (drop (Z.to_nat off) (memcpy dst off src)) = src.
Proof.
  intros H. unfold memcpy.
  rewrite drop_app_length' by (rewrite length_take; lia).
  rewrite (take_ge src) by lia.
  by rewrite take_app_length.
Qed.

Lemma land_255 y : Z.land y 255 = y mod 256.
Proof. change 255 with (Z.ones 8). by rewrite Z.land_ones. Qed.

Lemma to_jbyte_low x : Z.land (to_jbyte x) 255 = x mod 256.
Proof.
  rewrite land_255. unfold to_jbyte, wrap_signed.
  change (2 ^ (8 - 1)) with 128. change (2 ^ 8) with 256.
  rewrite Zminus_mod, Zmod_mod, <- Zminus_mod.
  f_equal. lia.
Qed.

Lemma header_length l :
  0 <= l < 65536 ->
  Z.shiftl (Z.land (to_jbyte (Z.land (Z.shiftr l 8) 255)) 255) 8
  + Z.land (to_jbyte (Z.land l 255)) 255 = l.
Proof.
  intros Hl. rewrite !to_jbyte_low, !land_255, !Zmod_mod.
  rewrite Z.shiftr_div_pow2, Z.shiftl_mul_pow2 by lia.
  change (2 ^ 8) with 256.
  rewrite (Z.mod_small (l / 256)).
  - pose proof (Z.div_mod l 256 ltac:(lia)). lia.
  - split; [apply Z.div_pos; lia|apply Z.div_lt_upper_bound; lia].
Qed.

Lemma split_size_zero : split_size 0 = 2.
Proof. reflexivity. Qed.

Lemma split_size_small L :
  0 < L <= MAX_BYTES_BLOCK -> split_size L = L + 4.
Proof.
  unfold split_size, MAX_BYTES_BLOCK. intros HL.
  destruct (Z.eq_dec L 65534) as [->|Hne]; [reflexivity|].
  rewrite Z.div_small, Z.mod_small by lia.
  destruct (Z.eqb_spec L 0); lia.
Qed.

Lemma split_size_big L :
  MAX_BYTES_BLOCK < L ->
  split_size L = MAX_BYTES_BLOCK + 2 + split_size (L - MAX_BYTES_BLOCK).
Proof.
  unfold split_size, MAX_BYTES_BLOCK. intros HL.
  assert ((L - 65534) / 65534 = L / 65534 - 1) as ->.
  { replace L with ((L - 65534) + 1 * 65534) at 2 by lia.
    rewrite Z.div_add by lia. lia. }
  assert ((L - 65534) mod 65534 = L mod 65534) as ->.
  { replace L with ((L - 65534) + 1 * 65534) at 2 by lia.
    by rewrite Z.mod_add by lia. }
  lia.
Qed.

Lemma split_size_pos L : 0 <= L -> 2 <= split_size L.
Proof.
  intros HL. unfold split_size, MAX_BYTES_BLOCK.
  pose proof (Z.div_pos L 65534 HL ltac:(lia)).
  destruct (_ =? _); lia.
Qed.

Lemma lookup_take_eq {A} (l l' : list A) n i :
  take n l' = take n l -> (i < n)%nat -> l' !! i = l !! i.
Proof.
  intros H Hi.
  rewrite <- (lookup_take_lt l' n i), <- (lookup_take_lt l n i) by done.
  by rewrite H.
Qed.

Lemma block_length_take mem mem' p n :
  take n mem' = take n mem -> 0 <= p -> (Z.to_nat p + 2 <= n)%nat ->
  block_length mem' p = block_length mem p.
Proof.
  intros H Hp Hn. unfold block_length.
  destruct (Z.ltb_spec p 0); [done|].
  rewrite (lookup_take_eq mem mem' n (Z.to_nat p) H) by lia.
  rewrite (lookup_take_eq mem mem' n (Z.to_nat (p + 1)) H) by lia.
  done.
Qed.

Lemma data_take {A} (mem mem' : list A) o l n :
  take n mem' = take n mem -> (o + l <= n)%nat ->
  take l (drop o mem') = take l (drop o mem).
Proof.
  intros H Hn.
  rewrite !take_drop_commute.
  replace (o + l)%nat with ((o + l) `min` n)%nat by lia.
  rewrite <- !take_take. by rewrite H.
Qed.

(** One block as [_splitValue] writes it. *)
Lemma block_written mem p l data :
  0 <= p -> 0 <= l < 65536 -> Z.of_nat (length data) = l ->
  p + 2 + l <= Z.of_nat (length mem) ->
  let mem1 :=
    memcpy
      (store
         (store mem p (to_jbyte (Z.land (Z.shiftr l 8) 255)))
         (p + 1) (to_jbyte (Z.land l 255)))
      (p + 2) data in
  length mem1 = length mem
  /\ take (Z.to_nat p) mem1 = take (Z.to_nat p) mem
  /\ block_length mem1 p = Some l
  /\ take (Z.to_nat l) (drop (Z.to_nat (p + 2)) mem1) = data.
Proof.
  intros Hp Hl Hdata Hroom mem1.
  set (hi := to_jbyte (Z.land (Z.shiftr l 8) 255)) in *.
  set (lo := to_jbyte (Z.land l 255)) in *.
  set (mem0 := store (store mem p hi) (p + 1) lo) in *.
  assert (mem1 = memcpy mem0 (p + 2) data) as Hmem1 by done.
  clearbody mem1. subst mem1.
  assert (length mem0 = length mem) as Hlen0.
  { unfold mem0. by rewrite !store_length. }
  assert (Z.to_nat (p + 2) + length data <= length mem0)%nat as Hfit by lia.
  split; [|split; [|split]].
  - rewrite memcpy_length by lia. done.
  - rewrite take_memcpy by lia.
    unfold mem0. rewrite !take_store by lia. done.
  - rewrite (block_length_take mem0 (memcpy mem0 (p + 2) data) p (Z.to_nat (p + 2))); [|
      by rewrite take_memcpy by lia|lia|lia].
    unfold block_length. destruct (Z.ltb_spec p 0); [lia|].
    unfold mem0.
    rewrite (lookup_store_ne _ (p + 1)) by lia.
    rewrite lookup_store_eq by lia.
    rewrite lookup_store_eq by (rewrite store_length; lia).
    unfold hi, lo. by rewrite header_length.
  - replace (Z.to_nat l) with (length data) by lia.
    by rewrite drop_memcpy.
Qed.

Lemma memcpy_nil {A} (dst : list A) off : memcpy dst off [] = dst.
Proof.
  unfold memcpy. cbn [length]. rewrite take_nil, Nat.add_0_r. cbn [app].
  apply take_drop.
Qed.

(** What a split stream written at [p] reads back as. *)
Definition reads_back (mem : list Z) (p L : Z) (payload : list Z) : Prop :=
  (forall t acc, L <= (Z.of_nat t - 1) * MAX_BYTES_BLOCK ->
     _joinValue_loop t mem p acc = Some (acc ++ payload))
  /\ (forall t n, L <= (Z.of_nat t - 1) * MAX_BYTES_BLOCK ->
     _joinedValueLength_loop t mem p n = Some (n + L)).

Lemma _splitValue_loop_reads_back turns :
  forall joined L mem p,
    0 <= L <= Z.of_nat (length joined) -> 0 <= p ->
    p + split_size L <= Z.of_nat (length mem) ->
    L <= (Z.of_nat turns - 1) * MAX_BYTES_BLOCK ->
    let mem' := fst (_splitValue_loop turns joined L mem p) in
    length mem' = length mem
    /\ take (Z.to_nat p) mem' = take (Z.to_nat p) mem
    /\ reads_back mem' p L (take (Z.to_nat L) joined).
Proof.
  induction turns as [|turns IH]; intros joined L mem p HL Hp Hroom Hturns;
    [unfold MAX_BYTES_BLOCK in *; lia|].
  cbn [_splitValue_loop].
  set (len := if L >? MAX_BYTES_BLOCK then MAX_BYTES_BLOCK else L).
  assert (0 <= len <= MAX_BYTES_BLOCK /\ (len = MAX_BYTES_BLOCK \/ len = L)
          /\ len <= L /\ (len = 0 -> L = 0)
          /\ (len <> 0 -> split_size L = 2 + len + split_size (L - len)
                /\ L - len <= (Z.of_nat turns - 1) * MAX_BYTES_BLOCK))
    as (Hlen & Hcases & HlenL & Hzero & Hstep).
  { unfold len. destruct (Z.gtb_spec L MAX_BYTES_BLOCK) as [Hbig|Hsmall].
    - rewrite (split_size_big L) by lia. unfold MAX_BYTES_BLOCK in *. lia.
    - split; [unfold MAX_BYTES_BLOCK in *; lia|]. split; [by right|].
      split; [lia|]. split; [done|].
      intros Hnz. rewrite split_size_small by lia.
      replace (L - L) with 0 by lia. rewrite split_size_zero.
      unfold MAX_BYTES_BLOCK in *. lia. }
  destruct (Z.eqb_spec len 0) as [Hz|Hnz].
  - (* the terminator *)
    assert (L = 0) as -> by auto. rewrite Hz. cbn [fst].
    rewrite split_size_zero in Hroom.
    pose proof (block_written mem p 0 [] Hp ltac:(lia) eq_refl ltac:(lia))
      as (Hl & Hpre & Hblock & _).
    cbv zeta in Hl, Hpre, Hblock. rewrite memcpy_nil in Hl, Hpre, Hblock.
    split; [done|]. split; [done|]. split.
    + intros t acc Ht. destruct t as [|t]; [unfold MAX_BYTES_BLOCK in *; lia|].
      cbn [_joinValue_loop]. rewrite Hblock. cbn. by rewrite app_nil_r.
    + intros t n Ht. destruct t as [|t]; [unfold MAX_BYTES_BLOCK in *; lia|].
      cbn [_joinedValueLength_loop]. rewrite Hblock. cbn. f_equal. lia.
  - destruct (Hstep Hnz) as [Hsize Hturns'].
    assert (Z.of_nat (length (take (Z.to_nat len) joined)) = len) as Hdata.
    { rewrite length_take. lia. }
    pose proof (block_written mem p len (take (Z.to_nat len) joined) Hp
                  ltac:(unfold MAX_BYTES_BLOCK in *; lia) Hdata
                  ltac:(pose proof (split_size_pos (L - len)); lia))
      as (Hl1 & Hpre1 & Hblock1 & Hdata1).
    cbv zeta in Hl1, Hpre1, Hblock1, Hdata1.
    set (mem1 := memcpy _ _ _) in *.
    replace (p + 2 + len) with (p + (2 + len)) by lia.
    assert (0 <= L - len <= Z.of_nat (length (drop (Z.to_nat len) joined)))
      as HL'.
    { rewrite length_drop. lia. }
    pose proof (IH (drop (Z.to_nat len) joined) (L - len) mem1 (p + (2 + len))
                  HL' ltac:(lia) ltac:(lia) Hturns') as (Hl2 & Hpre2 & Hj & Hn).
    cbv zeta in Hl2, Hpre2, Hj, Hn.
    set (mem2 := fst (_splitValue_loop _ _ _ _ _)) in *.
    split; [congruence|]. split.
    { rewrite <- Hpre1.
      apply (f_equal (take (Z.to_nat p))) in Hpre2.
      rewrite !take_take in Hpre2.
      by replace (Z.to_nat p `min` Z.to_nat (p + (2 + len)))%nat
        with (Z.to_nat p) in Hpre2 by lia. }
    assert (block_length mem2 p = Some len) as Hblock2.
    { rewrite <- Hblock1.
      apply (block_length_take _ _ _ _ Hpre2); lia. }
    assert (take (Z.to_nat len) (drop (Z.to_nat (p + 2)) mem2)
            = take (Z.to_nat len) joined) as Hdata2.
    { rewrite <- Hdata1. apply (data_take _ _ _ _ _ Hpre2). lia. }
    assert (take (Z.to_nat L) joined
            = take (Z.to_nat len) joined
              ++ take (Z.to_nat (L - len)) (drop (Z.to_nat len) joined))
      as Hjoined.
    { rewrite take_drop_commute.
      replace (Z.to_nat len + Z.to_nat (L - len))%nat with (Z.to_nat L) by lia.
      rewrite <- (take_drop (Z.to_nat len) (take (Z.to_nat L) joined)) at 1.
      f_equal. rewrite take_take. f_equal. lia. }
    split.
    + intros t acc Ht. destruct t as [|t]; [unfold MAX_BYTES_BLOCK in *; lia|].
      cbn [_joinValue_loop]. rewrite Hblock2.
      destruct (Z.eqb_spec len 0); [done|].
      destruct (Z.ltb_spec (Z.of_nat (length mem2)) (p + 2 + len)) as [Hout|_].
      { pose proof (split_size_pos (L - len)). lia. }
      rewrite Hdata2.
      replace (p + 2 + len) with (p + (2 + len)) by lia.
      rewrite Hj by (unfold MAX_BYTES_BLOCK in *; lia).
      by rewrite Hjoined, app_assoc.
    + intros t n Ht. destruct t as [|t]; [unfold MAX_BYTES_BLOCK in *; lia|].
      cbn [_joinedValueLength_loop]. rewrite Hblock2.
      destruct (Z.eqb_spec len 0); [done|].
      replace (p + 2 + len) with (p + (2 + len)) by lia.
      rewrite Hn by (unfold MAX_BYTES_BLOCK in *; lia).
      f_equal. lia.
Qed.

(** ** Bits of the machine integers *)

Lemma wrap_signed_cases w z :
  0 < w ->
  wrap_signed w z
  = if z mod 2 ^ w <? 2 ^ (w - 1) then z mod 2 ^ w else z mod 2 ^ w - 2 ^ w.
Proof.
  intros Hw. unfold wrap_signed.
  assert (2 ^ w = 2 * 2 ^ (w - 1)) as Hpow.
  { rewrite <- Z.pow_succ_r by lia. f_equal. lia. }
  assert (0 < 2 ^ (w - 1)) as Hh by (apply Z.pow_pos_nonneg; lia).
  set (h := 2 ^ (w - 1)) in *. rewrite Hpow. clearbody h. clear Hpow w Hw.
  pose proof (Z.mod_pos_bound z (2 * h) ltac:(lia)) as Hu.
  pose proof (Z.div_mod z (2 * h) ltac:(lia)) as Hz.
  set (u := z mod (2 * h)) in *. set (q := z / (2 * h)) in *.
  destruct (Z.ltb_spec u h).
  - rewrite <- (Z.mod_unique (z + h) (2 * h) q (u + h)); lia.
  - rewrite <- (Z.mod_unique (z + h) (2 * h) (q + 1) (u - h)); lia.
Qed.

Lemma wrap_signed_testbit w z i :
  0 < w -> 0 <= i ->
  Z.testbit (wrap_signed w z) i = Z.testbit z (Z.min i (w - 1)).
Proof.
  intros Hw Hi. rewrite wrap_signed_cases by done.
  assert (2 ^ w = 2 * 2 ^ (w - 1)) as Hpow.
  { rewrite <- Z.pow_succ_r by lia. f_equal. lia. }
  assert (0 < 2 ^ (w - 1)) as Hh by (apply Z.pow_pos_nonneg; lia).
  pose proof (Z.mod_pos_bound z (2 ^ w) ltac:(lia)) as Hu.
  assert (Z.testbit z (w - 1) = negb (z mod 2 ^ w <? 2 ^ (w - 1))) as Htop.
  { rewrite <- (Z.mod_pow2_bits_low z w (w - 1)) by lia.
    rewrite Z.testbit_eqb by lia.
    destruct (Z.ltb_spec (z mod 2 ^ w) (2 ^ (w - 1))).
    - by rewrite Z.div_small by lia.
    - replace (z mod 2 ^ w / 2 ^ (w - 1)) with 1; [done|].
      apply Z.div_unique with (z mod 2 ^ w - 2 ^ (w - 1)); lia. }
  destruct (Z.lt_ge_cases i w) as [Hlow|Hhigh].
  - replace (Z.min i (w - 1)) with i by lia.
    rewrite <- (Z.mod_pow2_bits_low z w i) by lia.
    destruct (_ <? _); [done|].
    rewrite <- (Z.mod_pow2_bits_low (z mod 2 ^ w - 2 ^ w) w i) by lia.
    rewrite <- (Z.mod_pow2_bits_low (z mod 2 ^ w) w i) by lia.
    f_equal. rewrite Zminus_mod, Z.mod_same, Z.sub_0_r, !Zmod_mod by lia.
    done.
  - replace (Z.min i (w - 1)) with (w - 1) by lia. rewrite Htop.
    destruct (Z.ltb_spec (z mod 2 ^ w) (2 ^ (w - 1))); cbn [negb].
    + by rewrite Z.mod_pow2_bits_high by lia.
    + apply Z.bits_iff_neg; [|lia].
      destruct (Z.eq_dec (z mod 2 ^ w - 2 ^ w) (- 2 ^ (w - 1))) as [->|Hne].
      * rewrite Z.abs_opp, Z.abs_eq, Z.log2_pow2 by lia. lia.
      * apply Z.lt_le_trans with (w - 1); [|lia].
        apply Z.log2_lt_pow2; lia.
Qed.

Lemma to_uchar_to_jbyte x : to_uchar (to_jbyte x) = x mod 256.
Proof.
  unfold to_uchar, wrap_unsigned, to_jbyte, wrap_signed.
  change (2 ^ (8 - 1)) with 128. change (2 ^ 8) with 256.
  rewrite Zminus_mod, Zmod_mod, <- Zminus_mod. f_equal. lia.
Qed.

(** One byte of a big-endian composition: bit [i] of the byte at shift [s]
    of [x], put back at its place in a [w]-bit signed integer. *)
Lemma piece_testbit w s x i :
  0 < w -> 0 <= s -> 0 <= i ->
  Z.testbit (wrap_signed w (Z.shiftl (Z.shiftr x s mod 256) s)) i
  = (s <=? Z.min i (w - 1)) && (Z.min i (w - 1) <? s + 8)
    && Z.testbit x (Z.min i (w - 1)).
Proof.
  intros Hw Hs Hi. rewrite wrap_signed_testbit by done.
  set (j := Z.min i (w - 1)). assert (0 <= j) as Hj by lia. clearbody j.
  change 256 with (2 ^ 8).
  destruct (Z.leb_spec s j) as [Hle|Hlt].
  - rewrite Z.shiftl_spec by done.
    destruct (Z.ltb_spec j (s + 8)).
    + rewrite Z.mod_pow2_bits_low by lia.
      rewrite Z.shiftr_spec by lia. cbn [andb]. f_equal. lia.
    + by rewrite Z.mod_pow2_bits_high by lia.
  - by rewrite Z.shiftl_spec_low by lia.
Qed.

Lemma byte_testbit s x i :
  0 <= s -> 0 <= i ->
  Z.testbit (Z.shiftl (Z.shiftr x s mod 256) s) i
  = (s <=? i) && (i <? s + 8) && Z.testbit x i.
Proof.
  intros Hs Hi. change 256 with (2 ^ 8).
  destruct (Z.leb_spec s i) as [Hle|Hlt].
  - rewrite Z.shiftl_spec by done.
    destruct (Z.ltb_spec i (s + 8)).
    + rewrite Z.mod_pow2_bits_low by lia.
      rewrite Z.shiftr_spec by lia. cbn [andb]. f_equal. lia.
    + by rewrite Z.mod_pow2_bits_high by lia.
  - by rewrite Z.shiftl_spec_low by lia.
Qed.

Lemma wrap_signed_range w z :
  0 < w -> - 2 ^ (w - 1) <= wrap_signed w z < 2 ^ (w - 1).
Proof.
  intros Hw. unfold wrap_signed.
  assert (2 ^ w = 2 * 2 ^ (w - 1)) as Hpow.
  { rewrite <- Z.pow_succ_r by lia. f_equal. lia. }
  assert (0 < 2 ^ (w - 1)) as Hh by (apply Z.pow_pos_nonneg; lia).
  pose proof (Z.mod_pos_bound (z + 2 ^ (w - 1)) (2 ^ w) ltac:(lia)). lia.
Qed.

Lemma wrap_signed_small w z :
  0 < w -> - 2 ^ (w - 1) <= z < 2 ^ (w - 1) -> wrap_signed w z = z.
Proof.
  intros Hw Hz. unfold wrap_signed.
  assert (2 ^ w = 2 * 2 ^ (w - 1)) as Hpow.
  { rewrite <- Z.pow_succ_r by lia. f_equal. lia. }
  rewrite Z.mod_small by lia. lia.
Qed.

Lemma wrap_signed_idem w z :
  0 < w -> wrap_signed w (wrap_signed w z) = wrap_signed w z.
Proof. intros Hw. apply wrap_signed_small, wrap_signed_range; done. Qed.

(** Which byte a bit belongs to. *)
Ltac which_byte :=
  repeat match goal with
    | |- context [?a <=? ?b] => destruct (Z.leb_spec a b); try lia
    | |- context [?a <? ?b] => destruct (Z.ltb_spec a b); try lia
    end.

(** The eight bytes of a [c_store_long_t], most significant first, put
    back together. *)
Lemma long_bytes_compose n :
  let x := to_jlong n in
  let piece s := to_jlong (Z.shiftl (Z.shiftr x s mod 256) s) in
  Z.lor (Z.lor (Z.lor (Z.lor (Z.lor (Z.lor (Z.lor
    (piece 56) (piece 48)) (piece 40)) (piece 32)) (piece 24)) (piece 16))
    (piece 8)) (piece 0) = x.
Proof.
  cbv zeta. apply Z.bits_inj'. intros i Hi.
  rewrite !Z.lor_spec. unfold to_jlong.
  rewrite !piece_testbit by lia.
  rewrite !wrap_signed_testbit by lia.
  replace (Z.min (Z.min i (64 - 1)) (64 - 1)) with (Z.min i (64 - 1)) by lia.
  set (j := Z.min i (64 - 1)). assert (0 <= j < 64) as Hj by lia.
  clearbody j. destruct (Z.testbit n j); [|by rewrite !andb_false_r].
  rewrite !andb_true_r. which_byte; reflexivity.
Qed.

(** The four bytes of a [c_store_int_t]. *)
Lemma int_bytes_compose n :
  let x := to_jint n in
  let piece s := to_jint (Z.shiftl (Z.shiftr x s mod 256) s) in
  Z.lor (Z.lor (Z.lor (piece 24) (piece 16)) (piece 8)) (piece 0) = x.
Proof.
  cbv zeta. apply Z.bits_inj'. intros i Hi.
  rewrite !Z.lor_spec. unfold to_jint.
  rewrite !piece_testbit by lia.
  rewrite !wrap_signed_testbit by lia.
  replace (Z.min (Z.min i (32 - 1)) (32 - 1)) with (Z.min i (32 - 1)) by lia.
  set (j := Z.min i (32 - 1)). assert (0 <= j < 32) as Hj by lia.
  clearbody j. destruct (Z.testbit n j); [|by rewrite !andb_false_r].
  rewrite !andb_true_r. which_byte; reflexivity.
Qed.

(** The two bytes of a [c_store_short_t], read without a sign. *)
Lemma short_bytes_compose x :
  Z.lor (Z.shiftl (Z.shiftr x 8 mod 256) 8) (Z.shiftl (Z.shiftr x 0 mod 256) 0)
  = x mod 65536.
Proof.
  apply Z.bits_inj'. intros i Hi.
  rewrite Z.lor_spec, !byte_testbit by lia.
  change 65536 with (2 ^ 16).
  destruct (Z.ltb_spec i 16).
  - rewrite Z.mod_pow2_bits_low by lia.
    destruct (Z.testbit x i); [|by rewrite !andb_false_r].
    rewrite !andb_true_r. which_byte; reflexivity.
  - rewrite Z.mod_pow2_bits_high by lia.
    which_byte; reflexivity.
Qed.

(** ** What [_splitLength] reserves *)

(** The reservation covers what [_splitValue] writes. *)
Definition reservation_covers (L : Z) : Prop :=
  L mod MAX_BYTES_BLOCK = 0
  \/ (L + (L / MAX_BYTES_BLOCK + 1) * 2) mod MAX_BYTES_BLOCK <> 0.

Lemma splitLength_cases L :
  _splitLength L
  = L + (L / MAX_BYTES_BLOCK + 1) * 2
    + (if (L + (L / MAX_BYTES_BLOCK + 1) * 2) mod MAX_BYTES_BLOCK =? 0
       then 0 else 2).
Proof. unfold _splitLength. cbv zeta. destruct (_ =? _); lia. Qed.

Lemma split_size_cases L :
  split_size L
  = L + (L / MAX_BYTES_BLOCK + 1) * 2
    + (if L mod MAX_BYTES_BLOCK =? 0 then 0 else 2).
Proof. unfold split_size. destruct (_ =? _); lia. Qed.

Lemma reservation_covers_iff L :
  reservation_covers L <-> split_size L <= _splitLength L.
Proof.
  unfold reservation_covers. rewrite splitLength_cases, split_size_cases.
  destruct (Z.eqb_spec ((L + (L / MAX_BYTES_BLOCK + 1) * 2) mod MAX_BYTES_BLOCK) 0);
    destruct (Z.eqb_spec (L mod MAX_BYTES_BLOCK) 0); lia.
Qed.

Lemma splitLength_nonneg L : 0 <= L -> 2 <= _splitLength L.
Proof.
  intros HL. rewrite splitLength_cases.
  pose proof (Z.div_pos L MAX_BYTES_BLOCK HL ltac:(done)).
  destruct (_ =? _); lia.
Qed.

Lemma split_size_ge L : 0 <= L -> L + 2 <= split_size L.
Proof.
  intros HL. rewrite split_size_cases.
  pose proof (Z.div_pos L MAX_BYTES_BLOCK HL ltac:(done)).
  destruct (_ =? _); lia.
Qed.

Lemma turns_suffice L :
  0 <= L ->
  L <= (Z.of_nat (Z.to_nat (L / MAX_BYTES_BLOCK) + 2) - 1) * MAX_BYTES_BLOCK.
Proof.
  intros HL.
  pose proof (Z.div_pos L MAX_BYTES_BLOCK HL ltac:(done)).
  pose proof (Z.div_mod L MAX_BYTES_BLOCK ltac:(done)).
  pose proof (Z.mod_pos_bound L MAX_BYTES_BLOCK ltac:(done)).
  unfold MAX_BYTES_BLOCK in *. lia.
Qed.

(** A payload split into a fresh value of type [code]. *)
Lemma split_into_fresh bytes L valueLength code :
  0 <= L <= Z.of_nat (length bytes) ->
  1 + split_size L <= valueLength ->
  - 128 <= code < 128 ->
  let storeValue :=
    put_byte (set_size (CStore_allocate_value valueLength) valueLength)
      0 code in
  let v := fst (_splitValue bytes L storeValue 0) in
  size v = valueLength
  /\ CStore_getValueType v = code
  /\ _joinValue v = Some (take (Z.to_nat L) bytes)
  /\ _joinedValueLength v = Some L.
Proof.
  intros HL Hroom Hcode storeValue v.
  pose proof (split_size_ge L ltac:(lia)) as Hpos.
  set (mem := value storeValue).
  assert (Z.of_nat (length mem) = valueLength) as Hmem.
  { unfold mem, storeValue. cbn [put_byte set_value set_size value
      CStore_allocate_value]. rewrite store_length, length_replicate. lia. }
  assert (mem !! 0%nat = Some code) as Htag.
  { unfold mem, storeValue. cbn [put_byte set_value set_size value
      CStore_allocate_value].
    rewrite (lookup_store_eq _ 0) by (rewrite length_replicate; lia).
    f_equal. apply wrap_signed_small; [done|]. cbn. lia. }
  pose proof (_splitValue_loop_reads_back
                (Z.to_nat (L / MAX_BYTES_BLOCK) + 2) bytes L mem (1 + 0)
                HL ltac:(lia) ltac:(lia) (turns_suffice L ltac:(lia)))
    as (Hlen & Hpre & Hjoin & Hcount).
  cbv zeta in Hlen, Hpre, Hjoin, Hcount.
  assert (v = set_value storeValue
                (fst (_splitValue_loop (Z.to_nat (L / MAX_BYTES_BLOCK) + 2)
                        bytes L mem (1 + 0)))) as Hv.
  { unfold v, _splitValue. fold mem. by destruct (_splitValue_loop _ _ _ _ _). }
  set (mem' := fst (_splitValue_loop _ _ _ _ _)) in *. clearbody mem' v.
  subst v. split; [done|]. split.
  { unfold CStore_getValueType. cbn [size set_value value].
    change (size storeValue) with valueLength.
    destruct (Z.eqb_spec valueLength 0); [lia|].
    change (load 0 mem' 0) with (default 0 (mem' !! 0%nat)).
    by rewrite (lookup_take_eq mem mem' 1 0 Hpre), Htag by lia. }
  split.
  - unfold _joinValue. cbn [value set_value].
    apply (Hjoin _ []). unfold MAX_BYTES_BLOCK. lia.
  - unfold _joinedValueLength. cbn [value set_value].
    apply (Hcount _ 0). unfold MAX_BYTES_BLOCK. lia.
Qed.

Lemma newValue_split bytes L (args : new_value_args) :
  0 <= L ->
  args = NewString bytes L \/ args = NewByteArray bytes L ->
  CStore_newValue args
  = Some (fst (_splitValue bytes L
                 (put_byte
                    (set_size (CStore_allocate_value (1 + _splitLength L))
                       (1 + _splitLength L))
                    0 (value_type_code (valueType_of args)))
                 0)).
Proof.
  intros HL Hargs. pose proof (splitLength_nonneg L HL) as Hpos.
  destruct Hargs as [-> | ->]; unfold CStore_newValue;
    cbn [newValue_length valueType_of];
    destruct (Z.eqb_spec (1 + _splitLength L) 0); (lia || done).
Qed.

(** X1: a string of [bytesLength] bytes handed to
    [CStore_newValue] is read back unchanged by [CStore_valueToString], in
    however many blocks it was split, whenever the reservation of
    [_splitLength] covers the blocks: [bytesLength] is a multiple of 65 534
    or [bytesLength + 2 * (bytesLength / 65534 + 1)] is not. *)
Theorem string_round_trip bytes bytesLength :
  0 <= bytesLength <= Z.of_nat (length bytes) ->
  reservation_covers bytesLength ->
  CStore_valueToString <$> CStore_newValue (NewString bytes bytesLength)
  = Some (true, Some (take (Z.to_nat bytesLength) bytes))
  /\ size <$> CStore_newValue (NewString bytes bytesLength)
     = Some (1 + _splitLength bytesLength).
Proof.
  intros HL Hcovers. apply reservation_covers_iff in Hcovers.
  rewrite (newValue_split bytes bytesLength) by (lia || by left).
  pose proof (split_into_fresh bytes bytesLength (1 + _splitLength bytesLength)
                (value_type_code VALUE_TYPE_STRING) HL ltac:(lia)
                ltac:(cbn; lia)) as (Hsize & Htype & Hjoin & _).
  cbv zeta in Hsize, Htype, Hjoin. cbn [valueType_of fmap option_fmap option_map].
  split; [|by rewrite Hsize].
  unfold CStore_valueToString. rewrite Htype, Hjoin.
  by rewrite Z.eqb_refl.
Qed.


(** X3: [_splitValue] writes no more than
    [_splitLength] reserved, except for the payload lengths that are not a
    multiple of 65 534 while [L + 2 * (L / 65534 + 1)] is one: for these it
    writes exactly two bytes, the terminator, past the reservation. *)
Theorem reservation_short_iff bytes L storeValue offset :
  0 <= L ->
  (split_written bytes L storeValue offset <= _splitLength L
   <-> reservation_covers L)
  /\ (~ reservation_covers L ->
      split_written bytes L storeValue offset = _splitLength L + 2).
Proof.
  intros HL. rewrite split_written_size by done.
  split; [symmetry; apply reservation_covers_iff|].
  unfold reservation_covers. rewrite splitLength_cases, split_size_cases.
  destruct (Z.eqb_spec ((L + (L / MAX_BYTES_BLOCK + 1) * 2) mod MAX_BYTES_BLOCK) 0);
    destruct (Z.eqb_spec (L mod MAX_BYTES_BLOCK) 0); lia.
Qed.

(** ** Values of fixed width *)

(** A value as [CStore_newValue] builds it for a type of fixed width:
    the type and the bytes of the number. *)
Definition fixed_value (valueType : value_type) (number : list Z)
    : c_store_value_t :=
  {| handle := 0; stamp := 0; deleted := 0; quality := 0;
     size := 1 + Z.of_nat (length number);
     value := value_type_code valueType :: (to_jbyte <$> number) |}.

Lemma newValue_eight n (args : new_value_args) :
  args = NewLong n \/ args = NewDouble n ->
  CStore_newValue args
  = Some (fixed_value (valueType_of args)
            (Z.shiftr (to_jlong n) <$> [56; 48; 40; 32; 24; 16; 8; 0])).
Proof. by intros [-> | ->]. Qed.

Lemma newValue_four n (args : new_value_args) :
  args = NewInteger n \/ args = NewFloat n ->
  CStore_newValue args
  = Some (fixed_value (valueType_of args)
            (Z.shiftr (to_jint n) <$> [24; 16; 8; 0])).
Proof. by intros [-> | ->]. Qed.

Lemma newValue_two i :
  CStore_newValue (NewShort i)
  = Some (fixed_value VALUE_TYPE_SHORT
            (Z.shiftr (to_jshort i) <$> [8; 0])).
Proof. done. Qed.

Lemma newValue_one i (args : new_value_args) :
  args = NewByte i \/ args = NewCharacter i ->
  CStore_newValue args
  = Some (fixed_value (valueType_of args) [to_jbyte i]).
Proof. by intros [-> | ->]. Qed.

Lemma newValue_boolean i :
  CStore_newValue (NewBoolean i)
  = Some (fixed_value VALUE_TYPE_BOOLEAN [to_jbyte (to_uchar i)]).
Proof. done. Qed.

Lemma getValueType_fixed valueType number :
  CStore_getValueType (fixed_value valueType number)
  = value_type_code valueType.
Proof.
  unfold CStore_getValueType, fixed_value. cbn [size value].
  destruct (Z.eqb_spec (1 + Z.of_nat (length number)) 0); [lia|done].
Qed.

Lemma value_type_of_code_code valueType :
  value_type_of_code (value_type_code valueType) = Some valueType.
Proof. by destruct valueType. Qed.

Lemma get_uchar_fixed valueType number i x :
  number !! i = Some x ->
  get_uchar (fixed_value valueType number) (Z.of_nat (S i)) = x mod 256.
Proof.
  intros Hx. unfold get_uchar, load, fixed_value. cbn [value].
  destruct (Z.leb_spec 0 (Z.of_nat (S i))); [|lia].
  rewrite Nat2Z.id.
  change ((value_type_code valueType :: (to_jbyte <$> number)) !! S i)
    with ((to_jbyte <$> number) !! i).
  rewrite list_lookup_fmap, Hx. cbn. apply to_uchar_to_jbyte.
Qed.

Lemma compose_long_fixed valueType n :
  compose_long
    (fixed_value valueType
       (Z.shiftr (to_jlong n) <$> [56; 48; 40; 32; 24; 16; 8; 0]))
  = to_jlong n.
Proof.
  unfold compose_long.
  erewrite (get_uchar_fixed _ _ 0), (get_uchar_fixed _ _ 1),
    (get_uchar_fixed _ _ 2), (get_uchar_fixed _ _ 3),
    (get_uchar_fixed _ _ 4), (get_uchar_fixed _ _ 5),
    (get_uchar_fixed _ _ 6), (get_uchar_fixed _ _ 7) by reflexivity.
  apply long_bytes_compose.
Qed.

Lemma compose_int_fixed valueType n :
  compose_int
    (fixed_value valueType (Z.shiftr (to_jint n) <$> [24; 16; 8; 0]))
  = to_jint n.
Proof.
  unfold compose_int.
  erewrite (get_uchar_fixed _ _ 0), (get_uchar_fixed _ _ 1),
    (get_uchar_fixed _ _ 2), (get_uchar_fixed _ _ 3) by reflexivity.
  apply int_bytes_compose.
Qed.

Section Numbers.
Variable strtol_any_base : list Z -> Z * bool.
Variable strtod : list Z -> Z * bool.
Variable double_to_long : Z -> Z.

(** X4: a LONG value reads back, through its eight
    big-endian bytes, as the 64-bit integer it was made from. *)
Theorem long_round_trip n :
  CStore_valueToLong strtol_any_base strtod double_to_long
    <$> CStore_newValue (NewLong n) = Some (true, Some (to_jlong n)).
Proof.
  rewrite (newValue_eight n) by (by left).
  cbn [fmap option_fmap option_map valueType_of]. f_equal.
  unfold CStore_valueToLong, valueToLong_switch.
  rewrite getValueType_fixed, value_type_of_code_code.
  by rewrite compose_long_fixed.
Qed.

(** X5: an INTEGER value reads back as the 32-bit
    integer it was made from, sign included. *)
Theorem integer_round_trip n :
  CStore_valueToLong strtol_any_base strtod double_to_long
    <$> CStore_newValue (NewInteger n) = Some (true, Some (to_jint n)).
Proof.
  rewrite (newValue_four n) by (by left).
  cbn [fmap option_fmap option_map valueType_of]. f_equal.
  unfold CStore_valueToLong, valueToLong_switch.
  rewrite getValueType_fixed, value_type_of_code_code.
  by rewrite compose_int_fixed.
Qed.

(** X6: the two bytes of a SHORT value are put
    together without a sign: a short that is not negative reads back as
    itself, a negative one as itself plus 65 536. *)
Theorem short_reads_back_unsigned i :
  CStore_valueToLong strtol_any_base strtod double_to_long
    <$> CStore_newValue (NewShort i)
  = Some (true,
          Some (if to_jshort i <? 0 then to_jshort i + 65536
                else to_jshort i)).
Proof.
  rewrite newValue_two.
  cbn [fmap option_fmap option_map valueType_of]. f_equal.
  unfold CStore_valueToLong, valueToLong_switch.
  rewrite getValueType_fixed, value_type_of_code_code. do 2 f_equal.
  erewrite (get_uchar_fixed _ _ 0), (get_uchar_fixed _ _ 1) by reflexivity.
  rewrite short_bytes_compose.
  pose proof (wrap_signed_range 16 i ltac:(done)) as Hrange.
  change (2 ^ (16 - 1)) with 32768 in Hrange. fold (to_jshort i) in Hrange.
  destruct (Z.ltb_spec (to_jshort i) 0).
  - symmetry. apply (Z.mod_unique _ _ (-1)); lia.
  - apply Z.mod_small. lia.
Qed.

(** X7: a BYTE value reads back as the signed
    byte it was made from, a BOOLEAN value as 1 when the low eight bits of
    the argument are not all zero and as 0 otherwise; a CHARACTER value
    has no integral reading. *)
Theorem byte_and_boolean_read_back i :
  CStore_valueToLong strtol_any_base strtod double_to_long
    <$> CStore_newValue (NewByte i) = Some (true, Some (to_jbyte i))
  /\ CStore_valueToLong strtol_any_base strtod double_to_long
       <$> CStore_newValue (NewBoolean i)
     = Some (true, Some (if i mod 256 =? 0 then 0 else 1))
  /\ CStore_valueToLong strtol_any_base strtod double_to_long
       <$> CStore_newValue (NewCharacter i) = Some (false, Some 0).
Proof.
  rewrite (newValue_one i (NewByte i)) by (by left).
  rewrite (newValue_one i (NewCharacter i)) by (by right).
  rewrite newValue_boolean.
  cbn [fmap option_fmap option_map valueType_of].
  unfold CStore_valueToLong, valueToLong_switch.
  rewrite !getValueType_fixed, !value_type_of_code_code.
  split; [|split]; [| |done].
  - do 3 f_equal. unfold fixed_value, load. cbn.
    apply wrap_signed_idem. done.
  - do 3 f_equal. unfold fixed_value, load. cbn [value].
    change (default 0 (_ !! Z.to_nat 1))
      with (to_jbyte (to_jbyte (to_uchar i))).
    unfold to_jbyte. rewrite wrap_signed_idem by done.
    unfold to_uchar, wrap_unsigned. change (2 ^ 8) with 256.
    pose proof (Z.mod_pos_bound i 256 ltac:(done)) as Hu.
    rewrite wrap_signed_cases by done.
    change (2 ^ 8) with 256. change (2 ^ (8 - 1)) with 128.
    rewrite Zmod_mod.
    change (0 <=? 1) with true. cbv iota.
    destruct (Z.ltb_spec (i mod 256) 128);
      destruct (Z.eqb_spec (i mod 256) 0);
      try match goal with
          | |- context [?a =? 0] => destruct (Z.eqb_spec a 0)
          end;
      (done || lia).
Qed.

(** X8: a DOUBLE value reads back with the 64 bits
    it was made from. *)
Theorem double_bits_round_trip bits :
  CStore_valueToDouble strtol_any_base strtod
    <$> CStore_newValue (NewDouble bits) = Some (true, Some (to_jlong bits)).
Proof.
  rewrite (newValue_eight bits) by (by right).
  cbn [fmap option_fmap option_map valueType_of]. f_equal.
  unfold CStore_valueToDouble.
  rewrite getValueType_fixed, value_type_of_code_code.
  by rewrite compose_long_fixed.
Qed.


(** C5 (the code departs from the claim): the sign of a SHORT is lost.
    The short -1 is stored as the bytes 255 and 255, and
    [CStore_valueToLong] puts them together as
    [(unsigned char) value[1] << 8 | (unsigned char) value[2]], without
    the sign: it reads back 65 535. The minimum -32 768 reads back
    32 768. *)
Theorem negative_short_reads_back_positive :
  CStore_valueToLong strtol_any_base strtod double_to_long
    <$> CStore_newValue (NewShort (-1)) = Some (true, Some 65535)
  /\ CStore_valueToLong strtol_any_base strtod double_to_long
       <$> CStore_newValue (NewShort (-32768)) = Some (true, Some 32768)
  /\ to_jshort (-1) = -1 /\ to_jshort (-32768) = -32768.
Proof. by vm_compute. Qed.
End Numbers.

(** ** States *)

(** A payload of one block: the block, then the terminator. *)
Lemma _splitValue_loop_one_block turns joined L mem p :
  0 < L <= MAX_BYTES_BLOCK -> 0 <= p ->
  L <= Z.of_nat (length joined) ->
  p + 2 + L <= Z.of_nat (length mem) ->
  let mem' := fst (_splitValue_loop (S (S turns)) joined L mem p) in
  length mem' = length mem
  /\ take (Z.to_nat p) mem' = take (Z.to_nat p) mem
  /\ block_length mem' p = Some L
  /\ take (Z.to_nat L) (drop (Z.to_nat (p + 2)) mem')
     = take (Z.to_nat L) joined.
Proof.
  intros HL Hp Hjoined Hroom.
  cbn [_splitValue_loop].
  destruct (Z.gtb_spec L MAX_BYTES_BLOCK) as [Hbig|_]; [lia|].
  destruct (Z.eqb_spec L 0) as [->|_]; [lia|].
  replace (L - L) with 0 by lia.
  change (0 >? MAX_BYTES_BLOCK) with false. cbv iota.
  change (0 =? 0) with true. cbv iota. cbn [fst].
  assert (Z.of_nat (length (take (Z.to_nat L) joined)) = L) as Hdata.
  { rewrite length_take. lia. }
  pose proof (block_written mem p L (take (Z.to_nat L) joined) Hp
                ltac:(unfold MAX_BYTES_BLOCK in *; lia) Hdata Hroom)
    as (Hlen & Hpre & Hblock & Hpayload).
  cbv zeta in Hlen, Hpre, Hblock, Hpayload.
  set (mem1 := memcpy _ _ _) in *. clearbody mem1.
  set (mem2 := store (store mem1 _ _) _ _).
  assert (take (Z.to_nat (p + 2 + L)) mem2 = take (Z.to_nat (p + 2 + L)) mem1)
    as Hframe.
  { unfold mem2. by rewrite !take_store by lia. }
  cbv zeta. split; [|split; [|split]].
  - unfold mem2. by rewrite !store_length.
  - rewrite <- Hpre. apply (f_equal (take (Z.to_nat p))) in Hframe.
    rewrite !take_take in Hframe.
    by replace (Z.to_nat p `min` Z.to_nat (p + 2 + L))%nat
      with (Z.to_nat p) in Hframe by lia.
  - rewrite <- Hblock. apply (block_length_take _ _ _ _ Hframe); lia.
  - rewrite <- Hpayload. apply (data_take _ _ _ _ _ Hframe). lia.
Qed.

Lemma splitLength_small L : 0 <= L < 65532 -> _splitLength L = L + 4.
Proof.
  intros HL. rewrite splitLength_cases. unfold MAX_BYTES_BLOCK.
  rewrite Z.div_small by lia. rewrite Z.mod_small by lia.
  destruct (Z.eqb_spec (L + (0 + 1) * 2) 0); lia.
Qed.

(** The text of a state, then its name: the second [_splitValue] starts on
    the terminator of the first. *)
Lemma split_text_then_name text name bytesLength valueLength code :
  (0 < length text <= 12)%nat ->
  0 <= bytesLength <= Z.of_nat (length name) ->
  Z.of_nat (length text) + 3 + split_size bytesLength <= valueLength ->
  - 128 <= code < 128 ->
  let storeValue :=
    put_byte (set_size (CStore_allocate_value valueLength) valueLength)
      0 code in
  let textLength := Z.of_nat (length text) in
  let v := fst (_splitValue text textLength storeValue 0) in
  let v :=
    fst (_splitValue name bytesLength v (_splitLength textLength - 2)) in
  size v = valueLength
  /\ CStore_getValueType v = code
  /\ _joinValue v = Some (text ++ take (Z.to_nat bytesLength) name)
  /\ _joinedValueLength v = Some (textLength + bytesLength).
Proof.
  intros Htext HL Hroom Hcode storeValue textLength v1 v.
  pose proof (split_size_ge bytesLength ltac:(lia)) as Hpos.
  set (mem := value storeValue).
  assert (Z.of_nat (length mem) = valueLength) as Hmem.
  { unfold mem, storeValue. cbn [put_byte set_value set_size value
      CStore_allocate_value]. rewrite store_length, length_replicate. lia. }
  assert (mem !! 0%nat = Some code) as Htag.
  { unfold mem, storeValue. cbn [put_byte set_value set_size value
      CStore_allocate_value].
    rewrite (lookup_store_eq _ 0) by (rewrite length_replicate; lia).
    f_equal. apply wrap_signed_small; [done|]. cbn. lia. }
  assert (Z.to_nat (textLength / MAX_BYTES_BLOCK) + 2 = 2)%nat as Hturns.
  { unfold textLength, MAX_BYTES_BLOCK. rewrite Z.div_small by lia. done. }
  pose proof (_splitValue_loop_one_block 0 text textLength mem (1 + 0)
                ltac:(unfold textLength, MAX_BYTES_BLOCK; lia) ltac:(lia)
                ltac:(unfold textLength; lia) ltac:(unfold textLength; lia))
    as (Hlen1 & Hpre1 & Hblock1 & Hdata1).
  cbv zeta in Hlen1, Hpre1, Hblock1, Hdata1.
  assert (v1 = set_value storeValue
                 (fst (_splitValue_loop 2 text textLength mem (1 + 0))))
    as Hv1.
  { unfold v1, _splitValue. fold mem. rewrite Hturns.
    by destruct (_splitValue_loop _ _ _ _ _). }
  set (mem1 := fst (_splitValue_loop 2 _ _ _ _)) in *. clearbody mem1 v1.
  assert (1 + (_splitLength textLength - 2) = 1 + 2 + textLength) as Hoffset.
  { rewrite splitLength_small by (unfold textLength; lia). lia. }
  pose proof (_splitValue_loop_reads_back
                (Z.to_nat (bytesLength / MAX_BYTES_BLOCK) + 2) name bytesLength
                mem1 (1 + 2 + textLength) HL ltac:(unfold textLength; lia)
                ltac:(unfold textLength in *; lia)
                (turns_suffice bytesLength ltac:(lia)))
    as (Hlen2 & Hpre2 & Hjoin & Hcount).
  cbv zeta in Hlen2, Hpre2, Hjoin, Hcount.
  assert (v = set_value v1
                (fst (_splitValue_loop
                        (Z.to_nat (bytesLength / MAX_BYTES_BLOCK) + 2)
                        name bytesLength mem1 (1 + 2 + textLength)))) as Hv.
  { unfold v, _splitValue. rewrite Hoffset. subst v1. cbn [value set_value].
    by destruct (_splitValue_loop _ _ _ _ _). }
  set (mem2 := fst (_splitValue_loop _ name _ _ _)) in *. clearbody mem2 v.
  subst v v1.
  assert (block_length mem2 1 = Some textLength) as Hblock2.
  { rewrite <- Hblock1. apply (block_length_take _ _ _ _ Hpre2); lia. }
  assert (take (Z.to_nat textLength) (drop (Z.to_nat (1 + 2)) mem2) = text)
    as Hdata2.
  { rewrite <- (take_ge text (Z.to_nat textLength))
      by (unfold textLength; lia).
    rewrite <- Hdata1. apply (data_take _ _ _ _ _ Hpre2). lia. }
  assert ((textLength =? 0) = false) as Hnz.
  { apply Z.eqb_neq. unfold textLength. lia. }
  split; [done|]. split.
  { unfold CStore_getValueType. cbn [size set_value value].
    change (size storeValue) with valueLength.
    destruct (Z.eqb_spec valueLength 0); [lia|].
    change (load 0 mem2 0) with (default 0 (mem2 !! 0%nat)).
    rewrite (lookup_take_eq mem1 mem2 _ 0 Hpre2) by lia.
    by rewrite (lookup_take_eq mem mem1 1 0 Hpre1), Htag by lia. }
  split.
  - unfold _joinValue. cbn [value set_value _joinValue_loop].
    rewrite Hblock2, Hnz.
    destruct (Z.ltb_spec (Z.of_nat (length mem2)) (1 + 2 + textLength));
      [lia|].
    rewrite Hdata2. cbn [app].
    apply (Hjoin _ text). unfold MAX_BYTES_BLOCK. lia.
  - unfold _joinedValueLength. cbn [value set_value _joinedValueLength_loop].
    rewrite Hblock2, Hnz.
    apply (Hcount _ (0 + textLength)). unfold MAX_BYTES_BLOCK. lia.
Qed.

(** The text before the name of a state: the decimal state code, if any. *)
Definition state_text (stateCode : option Z) : list Z :=
  match stateCode with
  | Some code => decimal_bytes (to_jint code)
  | None => []
  end.

Lemma newValue_state stateCode name bytesLength :
  let text := state_text stateCode in
  let textLength := Z.of_nat (length text) in
  let valueLength :=
    1 + _splitLength textLength + 1 + (_splitLength bytesLength - 2) in
  let storeValue :=
    if valueLength =? 0 then CStore_allocate_value valueLength
    else put_byte (set_size (CStore_allocate_value valueLength) valueLength)
           0 (value_type_code VALUE_TYPE_STATE) in
  let v := fst (_splitValue (text ++ [58]) (textLength + 1) storeValue 0) in
  let v :=
    fst (_splitValue name bytesLength v
           (_splitLength (textLength + 1) - 2)) in
  CStore_newValue (NewState stateCode (Some name) bytesLength)
  = if decide (_joinedValueLength v = Some (textLength + 1 + bytesLength))
    then Some v else None.
Proof. by destruct stateCode. Qed.

(** X10: a state made of a code and a name is stored as
    one split stream that joins back to the decimal code, a colon and the
    name: the second split starts on the terminator of the first, and the
    assertion on the joined length holds. *)
Theorem state_value_joins stateCode name bytesLength :
  (length (state_text stateCode) <= 11)%nat ->
  0 <= bytesLength <= Z.of_nat (length name) ->
  reservation_covers bytesLength ->
  _joinValue <$> CStore_newValue (NewState stateCode (Some name) bytesLength)
  = Some (Some (state_text stateCode ++ [58]
                ++ take (Z.to_nat bytesLength) name))
  /\ CStore_getValueType
       <$> CStore_newValue (NewState stateCode (Some name) bytesLength)
     = Some (value_type_code VALUE_TYPE_STATE).
Proof.
  intros Htext HL Hcovers. apply reservation_covers_iff in Hcovers.
  rewrite newValue_state. cbv zeta.
  set (text := state_text stateCode) in *.
  pose proof (splitLength_nonneg bytesLength ltac:(lia)) as Hpos.
  rewrite (splitLength_small (Z.of_nat (length text))) by lia.
  set (valueLength := 1 + _ + 1 + _).
  destruct (Z.eqb_spec valueLength 0) as [Hzero|_];
    [unfold valueLength in Hzero; lia|].
  pose proof (split_text_then_name (text ++ [58]) name bytesLength valueLength
                (value_type_code VALUE_TYPE_STATE)) as H.
  rewrite length_app in H. cbn [length] in H.
  replace (Z.of_nat (length text + 1)) with (Z.of_nat (length text) + 1)
    in H by lia.
  destruct H as (_ & Htype & Hjoin & Hcount);
    [lia|done|unfold valueLength; lia|cbn; lia|].
  rewrite decide_True by done.
  cbn [fmap option_fmap option_map]. rewrite Htype, Hjoin.
  by rewrite <- app_assoc.
Qed.

(** ** Examples *)

(** A payload of two blocks. *)
Definition long_payload : list Z := replicate (Z.to_nat 70000) 7.

Lemma string_round_trip_witness :
  CStore_valueToString <$> CStore_newValue (NewString long_payload 70000)
  = Some (true, Some (take (Z.to_nat 70000) long_payload))
  /\ size <$> CStore_newValue (NewString long_payload 70000)
     = Some (1 + _splitLength 70000).
Proof.
  apply (string_round_trip long_payload 70000).
  - by vm_compute.
  - right. by vm_compute.
Defined.


Lemma reservation_short_iff_witness :
  (split_written [] 131064 (CStore_allocate_value 0) 0 <= _splitLength 131064
   <-> reservation_covers 131064)
  /\ (~ reservation_covers 131064 ->
      split_written [] 131064 (CStore_allocate_value 0) 0
      = _splitLength 131064 + 2).
Proof. apply (reservation_short_iff [] 131064 (CStore_allocate_value 0) 0). lia. Defined.

Lemma state_value_joins_witness :
  _joinValue <$> CStore_newValue (NewState (Some (-12)) (Some [79; 78]) 2)
  = Some (Some [45; 49; 50; 58; 79; 78])
  /\ CStore_getValueType
       <$> CStore_newValue (NewState (Some (-12)) (Some [79; 78]) 2)
     = Some 113.
Proof.
  apply (state_value_joins (Some (-12)) [79; 78] 2).
  - vm_compute. lia.
  - cbn. lia.
  - right. by vm_compute.
Defined.

End Codec.

(** * store/HandlesMap.c *)

Module HandlesMap.

(** [capacity * LOAD_FACTOR], converted to a [size_t]: the factor is 0.75
    and the product is exact in a [double] for every capacity up to
    [MAXIMUM_CAPACITY], so the conversion yields the integer part. *)
Definition times_LOAD_FACTOR (capacity : Z) : Z := capacity * 3 / 4.

Definition MAXIMUM_CAPACITY : Z := Z.shiftl 1 30.

(** [INT_MAX] (the definition used outside of Windows). *)
Definition MAXIMUM_SIZE : Z := 2147483647.

(** [struct entry]; the [next] link is the rest of the chain. *)
Record entry := { key : Z; value : Z }.

Definition entry_t := list entry.

Record c_store_handles_map := {
  table : list entry_t;
  capacity : Z;
  size : Z;
  threshold : Z
}.

(** [hash_t] is an [unsigned int]. *)
Definition hash_t : Z -> Z := wrap_unsigned 32.

Definition _indexFor (map : c_store_handles_map) (key : Z) : Z :=
  let hash := hash_t key in
  let hash := hash_t (hash + hash_t (Z.lnot (hash_t (Z.shiftl hash 9)))) in
  let hash := Z.lxor hash (Z.shiftr hash 14) in
  let hash := hash_t (hash + hash_t (Z.shiftl hash 4)) in
  let hash := Z.lxor hash (Z.shiftr hash 10) in
  Z.land hash (capacity map - 1).

(** [map->table[index]] *)
Definition bucket (map : c_store_handles_map) (index : Z) : entry_t :=
  load [] (table map) index.

(** The [for] loop of [HandlesMap_create]: [capacity <<= 1] while it is
    below [initialCapacity]. *)
Fixpoint create_capacity (turns : nat) (capacity initialCapacity : Z) : Z :=
  match turns with
  | O => capacity
  | S turns' =>
      if capacity <? initialCapacity
      then create_capacity turns' (Z.shiftl capacity 1) initialCapacity
      else capacity
  end.

(** [HandlesMap_create]; [None] is a failed [ASSERT]. The division by the
    load factor and the conversion to [int] give the integer part of
    [initialLoadSize * 4 / 3]. *)
Definition HandlesMap_create (initialLoadSize : Z)
    : option c_store_handles_map :=
  let initialCapacity := 1 + initialLoadSize * 4 / 3 in
  if (initialLoadSize <? 0) || (MAXIMUM_CAPACITY <? initialCapacity)
  then None
  else
    let capacity := create_capacity 31 1 initialCapacity in
    Some {| table := replicate (Z.to_nat capacity) [];
            capacity := capacity;
            size := 0;
            threshold := times_LOAD_FACTOR capacity |}.

(** The walk along a chain shared by [HandlesMap_get] and
    [HandlesMap_put]. *)
Fixpoint chain_find (chain : entry_t) (k : Z) : option entry :=
  match chain with
  | [] => None
  | e :: next => if key e =? k then Some e else chain_find next k
  end.

Definition HandlesMap_get (map : c_store_handles_map) (k : Z) : Z :=
  match chain_find (bucket map (_indexFor map k)) k with
  | Some e => value e
  | None => 0
  end.

Definition HandlesMap_size (map : c_store_handles_map) : Z := size map.

(** [entry->value = value] on the first entry of the chain with key [k]. *)
Fixpoint chain_set (chain : entry_t) (k v : Z) : entry_t :=
  match chain with
  | [] => []
  | e :: next =>
      if key e =? k then {| key := k; value := v |} :: next
      else e :: chain_set next k v
  end.

(** The entries of the old table, in the order [_rehash] visits them
    (bucket by bucket, each chain from its head), pushed at the head of
    their new chain. *)
Definition rehash_push (capacity : Z) (tbl : list entry_t) (e : entry)
    : list entry_t :=
  let index :=
    _indexFor {| table := tbl; capacity := capacity; size := 0;
                 threshold := 0 |} (key e) in
  store tbl index (e :: load [] tbl index).

Definition _rehash (map : c_store_handles_map) : c_store_handles_map :=
  if capacity map =? MAXIMUM_CAPACITY then
    {| table := table map; capacity := capacity map; size := size map;
       threshold := MAXIMUM_SIZE |}
  else
    let capacity' := Z.shiftl (capacity map) 1 in
    {| table :=
         fold_left (rehash_push capacity')
           (concat (take (Z.to_nat (capacity map)) (table map)))
           (replicate (Z.to_nat capacity') []);
       capacity := capacity';
       size := size map;
       threshold := times_LOAD_FACTOR capacity' |}.

(** [HandlesMap_put]: the map afterwards and the value returned. *)
Definition HandlesMap_put (map : c_store_handles_map) (k v : Z)
    : c_store_handles_map * Z :=
  let index := _indexFor map k in
  match chain_find (bucket map index) k with
  | Some e =>
      ({| table := store (table map) index (chain_set (bucket map index) k v);
          capacity := capacity map; size := size map;
          threshold := threshold map |},
       value e)
  | None =>
      let map' :=
        {| table :=
             store (table map) index
               ({| key := k; value := v |} :: bucket map index);
           capacity := capacity map; size := size map + 1;
           threshold := threshold map |} in
      (if size map' >? threshold map' then _rehash map' else map', 0)
  end.

(** The walk of [HandlesMap_remove] past the head of a chain, where
    [previousEntry] is set: the chain without the entry found, and the
    value of that entry. *)
Fixpoint chain_unlink (chain : entry_t) (k : Z) : option (entry_t * Z) :=
  match chain with
  | [] => None
  | e :: next =>
      if key e =? k then Some (next, value e)
      else
        match chain_unlink next k with
        | Some (next', v) => Some (e :: next', v)
        | None => None
        end
  end.

(** [HandlesMap_remove]. When the entry found is the head of its chain,
    [previousEntry] is null and the source stores [NULL] in the bucket. *)
Definition HandlesMap_remove (map : c_store_handles_map) (k : Z)
    : c_store_handles_map * Z :=
  let index := _indexFor map k in
  match bucket map index with
  | [] => (map, 0)
  | e :: next =>
      if key e =? k then
        ({| table := store (table map) index [];
            capacity := capacity map; size := size map - 1;
            threshold := threshold map |},
         value e)
      else
        match chain_unlink next k with
        | Some (next', v) =>
            ({| table := store (table map) index (e :: next');
                capacity := capacity map; size := size map - 1;
                threshold := threshold map |},
             v)
        | None => (map, 0)
        end
  end.

(** The keys of [HandlesMap_keys]: every entry reachable from the table. *)
Definition HandlesMap_keys (map : c_store_handles_map) : list Z :=
  List.map key (concat (take (Z.to_nat (capacity map)) (table map))).

(** A sequence of calls on one map. *)
Inductive operation :=
| Put (k v : Z)
| Remove (k : Z).

Definition apply (map : c_store_handles_map) (op : operation)
    : c_store_handles_map :=
  match op with
  | Put k v => fst (HandlesMap_put map k v)
  | Remove k => fst (HandlesMap_remove map k)
  end.

Definition run (map : c_store_handles_map) (ops : list operation)
    : c_store_handles_map :=
  fold_left apply ops map.

(** ** Properties of the handles map *)

Definition power_of_two (c : Z) : Prop := exists n, 0 <= n /\ c = 2 ^ n.

Lemma power_of_two_double c : power_of_two c -> power_of_two (Z.shiftl c 1).
Proof.
  intros (n & Hn & ->). exists (n + 1). split; [lia|].
  rewrite Z.shiftl_mul_pow2, Z.pow_add_r by lia. lia.
Qed.

Lemma create_capacity_power_of_two turns :
  forall c initialCapacity,
    power_of_two c ->
    power_of_two (create_capacity turns c initialCapacity).
Proof.
  induction turns as [|turns IH]; intros c i Hc; cbn; [exact Hc|].
  destruct (c <? i); [apply IH, power_of_two_double|]; exact Hc.
Qed.

Lemma HandlesMap_create_capacity n map :
  HandlesMap_create n = Some map -> power_of_two (capacity map).
Proof.
  unfold HandlesMap_create. destruct (_ || _); [discriminate|].
  intros [= <-].
  apply (create_capacity_power_of_two 31 1).
  exists 0. split; [lia|reflexivity].
Qed.

Lemma _rehash_capacity map :
  power_of_two (capacity map) -> power_of_two (capacity (_rehash map)).
Proof.
  intros H. unfold _rehash. destruct (_ =? _); cbn [capacity]; [exact H|].
  now apply power_of_two_double.
Qed.

Lemma apply_capacity map op :
  power_of_two (capacity map) -> power_of_two (capacity (apply map op)).
Proof.
  intros H. destruct op as [k v|k]; cbn [apply].
  - unfold HandlesMap_put. destruct (chain_find _ _); cbn [fst capacity].
    + exact H.
    + destruct (_ >? _); [apply _rehash_capacity|]; exact H.
  - unfold HandlesMap_remove. destruct (bucket _ _) as [|e next]; [exact H|].
    destruct (_ =? _); [exact H|].
    destruct (chain_unlink _ _) as [[next' v]|]; exact H.
Qed.

(** The part of C2 that holds: the capacity stays a power of two through
    every sequence of puts and removes. *)
Lemma run_capacity ops :
  forall map,
    power_of_two (capacity map) -> power_of_two (capacity (run map ops)).
Proof.
  induction ops as [|op ops IH]; intros map H; [exact H|].
  apply IH, apply_capacity, H.
Qed.

(** C2 (the code departs from the claim): on a map created for two
    entries, keys 4 and 5 share a bucket; after [put(4, 40)], [put(5, 50)]
    and [remove(5)], which removes the head of that chain, key 4 is lost
    with it: [get(4)] returns 0 although 40 was put and never removed, and
    [size] is 1 while no key is left in the table. *)
Theorem HandlesMap_remove_head_loses_chain :
  exists map,
    HandlesMap_create 2 = Some map /\
    let map' := run map [Put 4 40; Put 5 50; Remove 5] in
    HandlesMap_get (run map [Put 4 40; Put 5 50]) 4 = 40 /\
    HandlesMap_get map' 4 = 0 /\
    HandlesMap_size map' = 1 /\
    HandlesMap_keys map' = [].
Proof.
  eexists. split; [reflexivity|]. vm_compute. repeat split.
Qed.

(** ** The table as a map *)

(** [HandlesMap_clear] *)
Definition HandlesMap_clear (map : c_store_handles_map)
    : c_store_handles_map :=
  {| table :=
       replicate (Z.to_nat (capacity map)) []
         ++ drop (Z.to_nat (capacity map)) (table map);
     capacity := capacity map; size := 0; threshold := threshold map |}.

(** The values of [HandlesMap_values], in the order of
    [HandlesMap_keys]. *)
Definition HandlesMap_values (map : c_store_handles_map) : list Z :=
  List.map value (concat (take (Z.to_nat (capacity map)) (table map))).

(** [HandlesMap_keys] and [HandlesMap_values] with their assertions: the
    array filled by the loop, or [None] when [ASSERT(index < mapSize)]
    fails in the loop or [ASSERT(index == mapSize)] after it. *)
Definition asserted (listing : c_store_handles_map -> list Z)
    (map : c_store_handles_map) : option (list Z) :=
  if Z.of_nat (length (listing map)) =? size map then Some (listing map)
  else None.

(** The bucket of a key in a table of the given capacity. *)
Definition slot (c : Z) (k : Z) : Z :=
  _indexFor {| table := []; capacity := c; size := 0; threshold := 0 |} k.

Lemma indexFor_slot map k : _indexFor map k = slot (capacity map) k.
Proof. reflexivity. Qed.

Lemma slot_range n k : 0 <= n -> 0 <= slot (2 ^ n) k < 2 ^ n.
Proof.
  intros Hn. unfold slot, _indexFor. cbn [capacity].
  rewrite Z.sub_1_r, <- Z.ones_equiv, Z.land_ones by done.
  apply Z.mod_pos_bound. lia.
Qed.

Section Arrays.
Context {A : Type}.

Lemma load_store_eq (d : A) mem i x :
  0 <= i < Z.of_nat (length mem) -> load d (store mem i x) i = x.
Proof.
  intros H. unfold load, store.
  destruct (Z.leb_spec 0 i); [|lia].
  rewrite list_lookup_insert_eq by lia. done.
Qed.

Lemma load_store_ne (d : A) mem i j x :
  i <> j -> load d (store mem i x) j = load d mem j.
Proof.
  intros H. unfold load, store.
  destruct (Z.leb_spec 0 i), (Z.leb_spec 0 j); try done.
  rewrite list_lookup_insert_ne by lia. done.
Qed.

Lemma length_store (mem : list A) i x : length (store mem i x) = length mem.
Proof. unfold store. destruct (0 <=? i); [apply length_insert|done]. Qed.

Lemma load_lookup (d : A) mem i x :
  mem !! i = Some x -> load d mem (Z.of_nat i) = x.
Proof.
  intros H. unfold load. destruct (Z.leb_spec 0 (Z.of_nat i)); [|lia].
  by rewrite Nat2Z.id, H.
Qed.

End Arrays.

#[local] Instance entry_eq_dec : EqDecision entry.
Proof. solve_decision. Defined.

(** The entries of a table, bucket by bucket. *)
Definition entries (map : c_store_handles_map) : list entry :=
  concat (table map).

(** What the functions keep true of a map: the capacity is a power of two
    up to [MAXIMUM_CAPACITY], the table has that many buckets, every entry
    is in the bucket of its key, and no key has two entries. *)
Record well_formed (map : c_store_handles_map) : Prop := {
  wf_capacity : exists n, 0 <= n <= 30 /\ capacity map = 2 ^ n;
  wf_table : Z.of_nat (length (table map)) = capacity map;
  wf_slot :
    forall i chain e,
      table map !! i = Some chain -> e ∈ chain ->
      slot (capacity map) (key e) = Z.of_nat i;
  wf_keys : NoDup (key <$> entries map)
}.

Lemma chain_find_Some chain k e :
  chain_find chain k = Some e -> e ∈ chain /\ key e = k.
Proof.
  induction chain as [|a chain IH]; [done|]. cbn.
  destruct (Z.eqb_spec (key a) k) as [E|_].
  - intros [= <-]. split; [by left|done].
  - intros H. apply IH in H as [H1 H2]. split; [by right|done].
Qed.

Lemma chain_find_None chain k :
  chain_find chain k = None <-> k ∉ key <$> chain.
Proof.
  induction chain as [|a chain IH]; cbn.
  - split; [intros _ H; by apply elem_of_nil in H|done].
  - destruct (Z.eqb_spec (key a) k) as [E|E].
    + split; [done|]. intros H. exfalso. apply H. subst k. by left.
    + rewrite IH, not_elem_of_cons. split; [intros H; split; [congruence|done]|by intros [_ H]].
Qed.

Lemma chain_find_unique chain e :
  NoDup (key <$> chain) -> e ∈ chain -> chain_find chain (key e) = Some e.
Proof.
  induction chain as [|a chain IH]; intros Hnd Hin.
  - by apply elem_of_nil in Hin.
  - cbn in *. apply NoDup_cons in Hnd as [Ha Hnd].
    apply elem_of_cons in Hin as [->|Hin].
    + by rewrite Z.eqb_refl.
    + destruct (Z.eqb_spec (key a) (key e)) as [E|_]; [|by apply IH].
      exfalso. apply Ha. rewrite E. by apply list_elem_of_fmap_2.
Qed.

(** *** Buckets and entries *)

Lemma bucket_lookup map i chain :
  table map !! i = Some chain -> bucket map (Z.of_nat i) = chain.
Proof. apply load_lookup. Qed.

Lemma elem_of_entries map e :
  e ∈ entries map <-> exists i chain, table map !! i = Some chain /\ e ∈ chain.
Proof.
  unfold entries. rewrite list_elem_of_In, in_concat. split.
  - intros (chain & Hc & He). apply list_elem_of_In in Hc, He.
    apply list_elem_of_lookup_1 in Hc as [i Hi]. eauto.
  - intros (i & chain & Hi & He). exists chain.
    split; apply list_elem_of_In; [by eapply list_elem_of_lookup_2|done].
Qed.

Lemma slot_lookup map k :
  well_formed map ->
  exists i chain,
    slot (capacity map) k = Z.of_nat i /\ table map !! i = Some chain.
Proof.
  intros [(n & Hn & Hc) Ht _ _].
  pose proof (slot_range n k ltac:(lia)) as Hr. rewrite <- Hc in Hr.
  destruct (lookup_lt_is_Some_2 (table map)
              (Z.to_nat (slot (capacity map) k))) as [chain Hi]; [lia|].
  exists (Z.to_nat (slot (capacity map) k)), chain. split; [lia|done].
Qed.

Lemma middle {A} (l : list A) i x :
  l !! i = Some x -> l = take i l ++ x :: drop (S i) l.
Proof. intros H. by rewrite take_drop_middle. Qed.

Lemma concat_middle {A} (l : list (list A)) i x :
  l !! i = Some x ->
  concat l = concat (take i l) ++ x ++ concat (drop (S i) l).
Proof.
  intros H. rewrite (middle l i x H) at 1.
  by rewrite concat_app, concat_cons.
Qed.

Lemma concat_insert {A} (l : list (list A)) i x y :
  l !! i = Some x ->
  concat (<[i := y]> l) = concat (take i l) ++ y ++ concat (drop (S i) l).
Proof.
  intros H. apply lookup_lt_Some in H.
  rewrite insert_take_drop by done. by rewrite concat_app, concat_cons.
Qed.

Lemma store_lookup {A} (mem : list A) i x :
  store mem (Z.of_nat i) x = <[i := x]> mem.
Proof.
  unfold store. destruct (Z.leb_spec 0 (Z.of_nat i)); [|lia].
  by rewrite Nat2Z.id.
Qed.

(** The bucket of a key holds the only entry the key can have. *)
Lemma get_entry map e :
  well_formed map -> e ∈ entries map ->
  chain_find (bucket map (_indexFor map (key e))) (key e) = Some e.
Proof.
  intros Hwf He. pose proof Hwf as [_ _ Hslot Hnd].
  apply elem_of_entries in He as (i & chain & Hi & He).
  rewrite indexFor_slot, (Hslot i chain e Hi He), (bucket_lookup _ _ _ Hi).
  apply chain_find_unique; [|done].
  unfold entries in Hnd. rewrite (concat_middle _ _ _ Hi) in Hnd.
  rewrite !fmap_app in Hnd.
  apply NoDup_app in Hnd as (_ & _ & Hnd). by apply NoDup_app in Hnd as [Hnd _].
Qed.

Lemma get_missing map k :
  well_formed map -> k ∉ key <$> entries map ->
  chain_find (bucket map (_indexFor map k)) k = None.
Proof.
  intros Hwf Hk. apply chain_find_None. intros Hin. apply Hk.
  destruct (slot_lookup map k Hwf) as (i & chain & Hs & Hi).
  rewrite indexFor_slot, Hs, (bucket_lookup _ _ _ Hi) in Hin.
  apply list_elem_of_fmap in Hin as (e & -> & He).
  apply list_elem_of_fmap_2, elem_of_entries. eauto.
Qed.

Lemma get_value map e :
  well_formed map -> e ∈ entries map -> HandlesMap_get map (key e) = value e.
Proof. intros Hwf He. unfold HandlesMap_get. by rewrite get_entry. Qed.

Lemma get_zero map k :
  well_formed map -> k ∉ key <$> entries map -> HandlesMap_get map k = 0.
Proof. intros Hwf Hk. unfold HandlesMap_get. by rewrite get_missing. Qed.

(** *** Replacing one bucket *)

(** A table with bucket [i] replaced, keeping the other fields apart from
    [size]. *)
Lemma replace_bucket map i chain chain' sz th :
  well_formed map -> table map !! i = Some chain ->
  (forall e, e ∈ chain' -> slot (capacity map) (key e) = Z.of_nat i) ->
  NoDup (key <$> chain') ->
  (forall e, e ∈ chain' -> key e ∈ key <$> chain
                           \/ key e ∉ key <$> entries map) ->
  let map' :=
    {| table := <[i := chain']> (table map); capacity := capacity map;
       size := sz; threshold := th |} in
  well_formed map'
  /\ (forall e, e ∈ entries map' <->
        e ∈ chain' \/ (e ∈ entries map /\ e ∉ chain)).
Proof.
  intros [Hcap Hlen Hslot Hnd] Hi Hslot' Hnd' Hnew map'.
  assert (forall e, e ∈ entries map' <->
            e ∈ chain' \/ (e ∈ entries map /\ e ∉ chain)) as Hmem.
  { intros e. unfold entries, map', entry_t in *. cbn [table].
    rewrite (concat_insert _ _ _ chain' Hi).
    unfold entries in Hnd. rewrite (concat_middle _ _ _ Hi) in Hnd |- *.
    rewrite !elem_of_app.
    rewrite !fmap_app in Hnd.
    apply NoDup_app in Hnd as (_ & Hdisj1 & Hnd).
    apply NoDup_app in Hnd as (_ & Hdisj2 & _).
    split.
    - intros [H|[H|H]]; [right|by left|right].
      + split; [by left|]. intros Hc.
        apply (Hdisj1 (key e)); [by apply list_elem_of_fmap_2|].
        apply elem_of_app. left. by apply list_elem_of_fmap_2.
      + split; [by right; right|]. intros Hc.
        apply (Hdisj2 (key e)); by apply list_elem_of_fmap_2.
    - intros [H|[[H|[H|H]] Hn]];
        [by right; left|by left|done|by right; right]. }
  split; [|exact Hmem]. clear Hmem. subst map'.
  split.
  - exact Hcap.
  - cbn [table capacity]. by rewrite length_insert.
  - cbn [table capacity]. intros j c e Hj He.
    destruct (decide (j = i)) as [->|Hne].
    + rewrite list_lookup_insert_eq in Hj by (by eapply lookup_lt_Some).
      injection Hj as <-. by apply Hslot'.
    + rewrite list_lookup_insert_ne in Hj by done. by eapply Hslot.
  - unfold entries, entry_t in *. cbn [table].
    rewrite (concat_insert _ _ _ chain' Hi).
    unfold entries in Hnd, Hnew. rewrite (concat_middle _ _ _ Hi) in Hnd, Hnew.
    rewrite !fmap_app in Hnd |- *.
    apply NoDup_app in Hnd as (Hnd1 & Hdisj1 & Hnd).
    apply NoDup_app in Hnd as (Hnd2 & Hdisj2 & Hnd3).
    apply NoDup_app. split; [done|]. split.
    + intros x Hx Hx'. apply elem_of_app in Hx' as [Hx'|Hx'].
      * apply list_elem_of_fmap in Hx' as (e & -> & He).
        destruct (Hnew e He) as [Hk|Hk].
        -- apply (Hdisj1 (key e) Hx). apply elem_of_app. by left.
        -- apply Hk. rewrite !fmap_app, !elem_of_app. by left.
      * apply (Hdisj1 x Hx). apply elem_of_app. by right.
    + apply NoDup_app. split; [done|]. split; [|done].
      intros x Hx Hx'. apply list_elem_of_fmap in Hx as (e & -> & He).
      destruct (Hnew e He) as [Hk|Hk].
      * by apply (Hdisj2 (key e)).
      * apply Hk. rewrite !fmap_app, !elem_of_app. by right; right.
Qed.

(** *** Chains *)

Lemma chain_set_keys chain k v :
  key <$> chain_set chain k v = key <$> chain.
Proof.
  induction chain as [|a chain IH]; [done|]. cbn.
  destruct (Z.eqb_spec (key a) k) as [E|_]; cbn; [by rewrite E|].
  by rewrite IH.
Qed.

Lemma elem_of_chain_set chain k v x :
  NoDup (key <$> chain) -> k ∈ key <$> chain ->
  x ∈ chain_set chain k v <->
  x = {| key := k; value := v |} \/ (x ∈ chain /\ key x <> k).
Proof.
  induction chain as [|a chain IH]; intros Hnd Hk.
  { by apply elem_of_nil in Hk. }
  cbn in *. apply NoDup_cons in Hnd as [Ha Hnd].
  destruct (Z.eqb_spec (key a) k) as [E|E].
  - rewrite !elem_of_cons. split.
    + intros [->|H]; [by left|]. right. split; [by right|].
      intros Hx. apply Ha. rewrite E, <- Hx. by apply list_elem_of_fmap_2.
    + intros [->|[[->|H] Hx]]; [by left|done|by right].
  - apply elem_of_cons in Hk as [Hk|Hk]; [done|].
    rewrite !elem_of_cons, (IH Hnd Hk). split.
    + intros [->|[->|[H Hx]]]; [right|by left|right]; (split; [|done]).
      * by left.
      * by right.
    + intros [->|[[->|H] Hx]]; [by right; left|by left|by right; right].
Qed.

Lemma chain_unlink_spec chain k :
  match chain_unlink chain k with
  | Some (chain', v) =>
      exists e, chain_find chain k = Some e /\ value e = v
                /\ key <$> chain' `sublist_of` key <$> chain
                /\ (forall x, x ∈ chain' -> x ∈ chain)
                /\ (NoDup (key <$> chain) -> k ∉ key <$> chain')
  | None => chain_find chain k = None
  end.
Proof.
  induction chain as [|a chain IH]; [done|]. cbn.
  destruct (Z.eqb_spec (key a) k) as [E|E].
  - exists a. repeat split; try done.
    + by apply sublist_cons.
    + intros x Hx. by right.
    + intros Hnd. apply NoDup_cons in Hnd as [Ha _]. by rewrite <- E.
  - destruct (chain_unlink chain k) as [[chain' v]|]; [|done].
    destruct IH as (e & Hf & Hv & Hs & Hin & Hk). exists e.
    repeat split; try done.
    + cbn. by apply sublist_skip.
    + intros x [->|Hx]%elem_of_cons; [by left|]. right. by apply Hin.
    + intros Hnd. apply NoDup_cons in Hnd as [_ Hnd]. cbn.
      apply not_elem_of_cons. split; [done|]. by apply Hk.
Qed.

(** *** What is returned *)

Lemma put_returns map k v : snd (HandlesMap_put map k v) = HandlesMap_get map k.
Proof.
  unfold HandlesMap_put, HandlesMap_get.
  by destruct (chain_find _ _).
Qed.

Lemma remove_returns map k :
  snd (HandlesMap_remove map k) = HandlesMap_get map k.
Proof.
  unfold HandlesMap_remove, HandlesMap_get.
  destruct (bucket map (_indexFor map k)) as [|e next]; [done|]. cbn.
  destruct (Z.eqb_spec (key e) k) as [_|_]; [done|].
  pose proof (chain_unlink_spec next k) as H.
  destruct (chain_unlink next k) as [[next' v]|].
  - by destruct H as (x & -> & <- & _).
  - by rewrite H.
Qed.

(** *** The invariant through the operations *)


Lemma well_formed_fields map map' :
  well_formed map -> table map' = table map -> capacity map' = capacity map ->
  well_formed map'.
Proof.
  intros [Hcap Hlen Hslot Hnd] Ht Hc.
  split; unfold entries; rewrite ?Ht, ?Hc; done.
Qed.

Lemma entries_fields map map' :
  table map' = table map -> entries map' = entries map.
Proof. unfold entries. by intros ->. Qed.

Lemma bucket_nodup map i chain :
  well_formed map -> table map !! i = Some chain -> NoDup (key <$> chain).
Proof.
  intros [_ _ _ Hnd] Hi. unfold entries, entry_t in *.
  rewrite (concat_middle _ _ _ Hi), !fmap_app in Hnd.
  apply NoDup_app in Hnd as (_ & _ & Hnd). by apply NoDup_app in Hnd as [Hnd _].
Qed.

Lemma find_in_entries map k :
  well_formed map ->
  chain_find (bucket map (_indexFor map k)) k = None ->
  k ∉ key <$> entries map.
Proof.
  intros Hwf Hnone Hin. apply list_elem_of_fmap in Hin as (e & -> & He).
  by rewrite (get_entry map e Hwf He) in Hnone.
Qed.

(** A new entry at the head of the bucket of its key. *)
Lemma push_entry tbl cap sz th sz' th' e :
  well_formed {| table := tbl; capacity := cap; size := sz;
                 threshold := th |} ->
  key e ∉ key <$> concat tbl ->
  well_formed {| table := rehash_push cap tbl e; capacity := cap;
                 size := sz'; threshold := th' |}
  /\ (forall x, x ∈ concat (rehash_push cap tbl e) <->
        x = e \/ x ∈ concat tbl).
Proof.
  intros Hwf Hk.
  destruct (slot_lookup _ (key e) Hwf) as (i & chain & Hs & Hi).
  cbn [table capacity] in Hs, Hi.
  unfold rehash_push. rewrite indexFor_slot. cbn [capacity]. cbv zeta.
  rewrite Hs, (load_lookup _ _ _ _ Hi), store_lookup.
  destruct (replace_bucket _ i chain (e :: chain) sz' th' Hwf Hi)
    as [Hwf' Hmem].
  - intros x [->|Hx]%elem_of_cons; [done|].
    by apply (wf_slot _ Hwf i chain).
  - cbn. apply NoDup_cons. split; [|by eapply bucket_nodup].
    intros Hin. apply Hk. apply list_elem_of_fmap in Hin as (x & -> & Hx).
    apply list_elem_of_fmap_2.
    change (x ∈ entries {| table := tbl; capacity := cap; size := sz;
                           threshold := th |}).
    apply elem_of_entries. eauto.
  - intros x [->|Hx]%elem_of_cons; [by right|]. left.
    by apply list_elem_of_fmap_2.
  - split; [exact Hwf'|]. intros x.
    specialize (Hmem x). unfold entries in Hmem. cbn [table] in Hmem.
    rewrite Hmem, elem_of_cons. split.
    + intros [[->|H]|[H _]]; [by left|right|by right].
      change (x ∈ entries {| table := tbl; capacity := cap; size := sz;
                             threshold := th |}).
      apply elem_of_entries. eauto.
    + intros [->|H]; [by left; left|].
      destruct (decide (x ∈ chain)); [by left; right|by right].
Qed.

Lemma fold_push es : forall tbl cap sz th,
  well_formed {| table := tbl; capacity := cap; size := sz;
                 threshold := th |} ->
  NoDup (key <$> es) ->
  (forall e, e ∈ es -> key e ∉ key <$> concat tbl) ->
  well_formed {| table := fold_left (rehash_push cap) es tbl;
                 capacity := cap; size := sz; threshold := th |}
  /\ (forall x, x ∈ concat (fold_left (rehash_push cap) es tbl) <->
        x ∈ es \/ x ∈ concat tbl).
Proof.
  induction es as [|e es IH]; intros tbl cap sz th Hwf Hnd Hnew.
  - split; [done|]. intros x. cbn. rewrite elem_of_nil. tauto.
  - cbn [fold_left]. cbn in Hnd. apply NoDup_cons in Hnd as [He Hnd].
    destruct (push_entry tbl cap sz th sz th e Hwf) as [Hwf' Hmem].
    { apply Hnew. by left. }
    destruct (IH (rehash_push cap tbl e) cap sz th Hwf' Hnd) as [Hwf'' Hmem'].
    { intros x Hx Hin. apply list_elem_of_fmap in Hin as (y & Hy & Hin).
      apply (Hmem y) in Hin as [->|Hin].
      - apply He. rewrite <- Hy. by apply list_elem_of_fmap_2.
      - apply (Hnew x); [by right|]. rewrite Hy.
        by apply list_elem_of_fmap_2. }
    split; [done|]. intros x. rewrite Hmem', elem_of_cons, (Hmem x). tauto.
Qed.

Lemma concat_replicate_nil {A} n : concat (replicate n (@nil A)) = [].
Proof. induction n; [done|]. done. Qed.

Lemma rehash_well_formed map :
  well_formed map ->
  well_formed (_rehash map)
  /\ (forall x, x ∈ entries (_rehash map) <-> x ∈ entries map).
Proof.
  intros Hwf. pose proof Hwf as [(n & Hn & Hcap) Hlen Hslot Hnd].
  unfold _rehash.
  destruct (Z.eqb_spec (capacity map) MAXIMUM_CAPACITY) as [Hmax|Hmax].
  { split; [by eapply well_formed_fields|done]. }
  assert (n < 30) as Hn'.
  { destruct (Z.eq_dec n 30) as [->|]; [|lia].
    exfalso. apply Hmax. by rewrite Hcap. }
  assert (Z.shiftl (capacity map) 1 = 2 ^ (n + 1)) as Hcap'.
  { rewrite Z.shiftl_mul_pow2, Hcap, Z.pow_add_r by lia. lia. }
  rewrite take_ge by lia.
  destruct (fold_push (concat (table map))
              (replicate (Z.to_nat (Z.shiftl (capacity map) 1)) [])
              (Z.shiftl (capacity map) 1) (size map)
              (times_LOAD_FACTOR (Z.shiftl (capacity map) 1)))
    as [Hwf' Hmem].
  - split; cbn [table capacity].
    + exists (n + 1). split; [lia|done].
    + rewrite length_replicate. rewrite Hcap'. lia.
    + intros i chain e Hi He. apply lookup_replicate in Hi as [-> _].
      by apply elem_of_nil in He.
    + unfold entries. cbn [table]. rewrite concat_replicate_nil.
      constructor.
  - exact Hnd.
  - intros e _. rewrite concat_replicate_nil. cbn. apply not_elem_of_nil.
  - split; [exact Hwf'|]. intros x. unfold entries at 1. cbn [table].
    rewrite Hmem, concat_replicate_nil, elem_of_nil. unfold entries. tauto.
Qed.

Lemma put_well_formed map k v :
  well_formed map ->
  well_formed (fst (HandlesMap_put map k v))
  /\ (forall x, x ∈ entries (fst (HandlesMap_put map k v)) <->
        x = {| key := k; value := v |}
        \/ (x ∈ entries map /\ key x <> k)).
Proof.
  intros Hwf. unfold HandlesMap_put.
  destruct (slot_lookup map k Hwf) as (i & chain & Hs & Hi).
  destruct (chain_find (bucket map (_indexFor map k)) k) as [e|] eqn:Hfind;
    cbn [fst].
  - rewrite indexFor_slot, Hs, (bucket_lookup _ _ _ Hi), store_lookup in *.
    pose proof (bucket_nodup map i chain Hwf Hi) as Hnd.
    assert (k ∈ key <$> chain) as Hk.
    { apply chain_find_Some in Hfind as [He <-].
      by apply list_elem_of_fmap_2. }
    destruct (replace_bucket map i chain (chain_set chain k v) (size map)
                (threshold map) Hwf Hi) as [Hwf' Hmem].
    + intros x [->|[Hx _]]%(elem_of_chain_set _ _ _ _ Hnd Hk); [done|].
      by apply (wf_slot map Hwf i chain).
    + by rewrite chain_set_keys.
    + intros x Hx. left. rewrite <- (chain_set_keys chain k v).
      by apply list_elem_of_fmap_2.
    + split; [exact Hwf'|]. intros x.
      rewrite Hmem, (elem_of_chain_set _ _ _ _ Hnd Hk). split.
      * intros [[->|[H Hx]]|[H Hx]]; [by left|right|right].
        -- split; [|done]. apply elem_of_entries. eauto.
        -- split; [done|]. intros Hkx.
           apply chain_find_Some in Hfind as [He <-].
           assert (x ∈ entries map) as Hx' by done.
           pose proof (get_entry map x Hwf H) as Hg.
           rewrite indexFor_slot, Hkx, Hs, (bucket_lookup _ _ _ Hi) in Hg.
           apply chain_find_Some in Hg as [Hg _]. done.
      * intros [->|[H Hx]]; [by left; left|].
        destruct (decide (x ∈ chain)); [left; right|right]; done.
  - pose proof (find_in_entries map k Hwf Hfind) as Hk.
    set (e := {| key := k; value := v |}).
    assert (store (table map) (_indexFor map k)
              (e :: bucket map (_indexFor map k))
            = rehash_push (capacity map) (table map) e) as Htable.
    { unfold rehash_push, bucket, _indexFor. cbn [capacity key e].
      reflexivity. }
    rewrite Htable.
    destruct map as [tbl cap sz th]. cbn [table capacity size threshold] in *.
    destruct (push_entry tbl cap sz th (sz + 1) th e Hwf Hk) as [Hwf1 Hmem1].
    assert (forall x,
              x ∈ concat (rehash_push cap tbl e) <->
              x = e \/ (x ∈ concat tbl /\ key x <> k)) as Hmem.
    { intros x. rewrite Hmem1. split; [|tauto].
      intros [->|H]; [by left|right]. split; [done|].
      intros Hx. apply Hk. rewrite <- Hx. by apply list_elem_of_fmap_2. }
    destruct (_ >? _).
    + destruct (rehash_well_formed _ Hwf1) as [Hwf2 Hmem2].
      split; [exact Hwf2|]. intros x. rewrite Hmem2. apply Hmem.
    + split; [exact Hwf1|]. exact Hmem.
Qed.

Lemma outside_bucket map k i chain x :
  well_formed map -> slot (capacity map) k = Z.of_nat i ->
  table map !! i = Some chain -> x ∈ entries map -> x ∉ chain ->
  key x <> k.
Proof.
  intros Hwf Hs Hi Hx Hout Hk.
  pose proof (get_entry map x Hwf Hx) as Hg.
  rewrite indexFor_slot, Hk, Hs, (bucket_lookup _ _ _ Hi) in Hg.
  by apply chain_find_Some in Hg as [Hg _].
Qed.

Lemma remove_well_formed map k :
  well_formed map ->
  well_formed (fst (HandlesMap_remove map k))
  /\ (forall x, x ∈ entries (fst (HandlesMap_remove map k)) ->
        x ∈ entries map /\ key x <> k).
Proof.
  intros Hwf. unfold HandlesMap_remove.
  destruct (slot_lookup map k Hwf) as (i & chain & Hs & Hi).
  pose proof (bucket_nodup map i chain Hwf Hi) as Hnd.
  assert (chain_find chain k = None ->
          forall x, x ∈ entries map -> x ∈ entries map /\ key x <> k)
    as Habsent.
  { intros Hnone x Hx. split; [done|]. intros Hk.
    pose proof (get_entry map x Hwf Hx) as Hg.
    rewrite indexFor_slot, Hk, Hs, (bucket_lookup _ _ _ Hi), Hnone in Hg.
    done. }
  rewrite indexFor_slot, Hs, (bucket_lookup _ _ _ Hi), store_lookup.
  destruct chain as [|e next]; cbn [fst].
  { split; [exact Hwf|]. apply Habsent. reflexivity. }
  destruct (Z.eqb_spec (key e) k) as [He|He]; cbn [fst].
  - destruct (replace_bucket map i (e :: next) [] (size map - 1)
                (threshold map) Hwf Hi) as [Hwf' Hmem].
    + intros x Hx. by apply elem_of_nil in Hx.
    + constructor.
    + intros x Hx. by apply elem_of_nil in Hx.
    + split; [exact Hwf'|]. intros x [Hx|[Hx Hout]]%Hmem.
      * by apply elem_of_nil in Hx.
      * split; [done|].
        exact (outside_bucket map k i (e :: next) x Hwf Hs Hi Hx Hout).
  - pose proof (chain_unlink_spec next k) as Hspec.
    destruct (chain_unlink next k) as [[next' v]|]; cbn [fst].
    + rewrite store_lookup.
      destruct Hspec as (found & Hf & _ & Hsub & Hin & Hk).
      cbn in Hnd. apply NoDup_cons in Hnd as [Hhead Hnd].
      destruct (replace_bucket map i (e :: next) (e :: next') (size map - 1)
                  (threshold map) Hwf Hi) as [Hwf' Hmem].
      * intros x Hx. apply (wf_slot map Hwf i (e :: next)); [done|].
        apply elem_of_cons in Hx as [->|Hx]; [by left|right; by apply Hin].
      * cbn. apply NoDup_cons. split.
        -- intros Hx. apply Hhead. by eapply elem_of_sublist.
        -- by eapply sublist_NoDup.
      * intros x Hx. left. apply list_elem_of_fmap_2.
        apply elem_of_cons in Hx as [->|Hx]; [by left|right; by apply Hin].
      * split; [exact Hwf'|]. intros x [Hx|[Hx Hout]]%Hmem.
        -- apply elem_of_cons in Hx as [->|Hx].
           ++ split; [|done]. apply elem_of_entries.
              exists i, (e :: next). split; [done|by left].
           ++ split.
              ** apply elem_of_entries. exists i, (e :: next).
                 split; [done|]. right. by apply Hin.
              ** intros Hkx. apply (Hk Hnd). rewrite <- Hkx.
                 by apply list_elem_of_fmap_2.
        -- split; [done|].
           exact (outside_bucket map k i (e :: next) x Hwf Hs Hi Hx Hout).
    + split; [done|]. apply Habsent. cbn.
      destruct (Z.eqb_spec (key e) k); done.
Qed.

Lemma clear_well_formed map :
  well_formed map ->
  well_formed (HandlesMap_clear map) /\ entries (HandlesMap_clear map) = [].
Proof.
  intros [Hcap Hlen Hslot Hnd]. unfold HandlesMap_clear.
  rewrite drop_ge, app_nil_r by lia.
  assert (entries {| table := replicate (Z.to_nat (capacity map)) [];
                     capacity := capacity map; size := 0;
                     threshold := threshold map |} = []) as Hempty.
  { unfold entries. cbn [table]. apply concat_replicate_nil. }
  split; [|done]. split; cbn [table capacity].
  - done.
  - rewrite length_replicate. destruct Hcap as (n & Hn & ->). lia.
  - intros i chain e Hi He. apply lookup_replicate in Hi as [-> _].
    by apply elem_of_nil in He.
  - rewrite Hempty. constructor.
Qed.

Lemma create_capacity_bounded turns : forall c initialCapacity,
  (exists n, 0 <= n <= 30 /\ c = 2 ^ n) ->
  initialCapacity <= MAXIMUM_CAPACITY ->
  exists n, 0 <= n <= 30 /\ create_capacity turns c initialCapacity = 2 ^ n.
Proof.
  induction turns as [|turns IH]; intros c i Hc Hi; [done|].
  cbn [create_capacity].
  destruct (Z.ltb_spec c i) as [Hlt|_]; [|done].
  apply IH; [|done]. destruct Hc as (n & Hn & ->).
  assert (n < 30) as Hn'.
  { destruct (Z.eq_dec n 30) as [->|]; [|lia].
    change MAXIMUM_CAPACITY with (2 ^ 30) in Hi. lia. }
  exists (n + 1). split; [lia|].
  rewrite Z.shiftl_mul_pow2, Z.pow_add_r by lia. lia.
Qed.

Lemma create_well_formed n map :
  HandlesMap_create n = Some map ->
  well_formed map /\ entries map = [] /\ size map = 0.
Proof.
  unfold HandlesMap_create. cbv zeta.
  destruct (Z.ltb_spec n 0) as [|Hn]; [done|].
  destruct (Z.ltb_spec MAXIMUM_CAPACITY (1 + n * 4 / 3)) as [|Hmax]; [done|].
  cbn [orb].
  destruct (create_capacity_bounded 31 1 (1 + n * 4 / 3)) as (j & Hj & Hc);
    [by exists 0|done|].
  set (c := create_capacity 31 1 (1 + n * 4 / 3)) in *. clearbody c.
  intros [= <-].
  assert (entries {| table := replicate (Z.to_nat c) []; capacity := c;
                     size := 0; threshold := times_LOAD_FACTOR c |} = [])
    as Hempty.
  { unfold entries. cbn [table]. apply concat_replicate_nil. }
  split; [|done]. split; cbn [table capacity].
  - eauto.
  - rewrite length_replicate, Hc. lia.
  - intros i chain e Hi He. apply lookup_replicate in Hi as [-> _].
    by apply elem_of_nil in He.
  - rewrite Hempty. constructor.
Qed.

(** ** Lookups after an operation *)

Lemma get_ext map map' k :
  well_formed map -> well_formed map' ->
  (forall x, key x = k -> x ∈ entries map' <-> x ∈ entries map) ->
  HandlesMap_get map' k = HandlesMap_get map k.
Proof.
  intros Hwf Hwf' Hsame.
  destruct (decide (k ∈ key <$> entries map)) as [Hin|Hout].
  - apply list_elem_of_fmap in Hin as (e & -> & He).
    rewrite (get_value map e Hwf He). apply get_value; [done|].
    by apply Hsame.
  - rewrite (get_zero map k Hwf Hout). apply get_zero; [done|].
    intros Hin. apply Hout.
    apply list_elem_of_fmap in Hin as (e & -> & He).
    apply list_elem_of_fmap_2. by apply Hsame.
Qed.

Lemma put_get_same map k v :
  well_formed map -> HandlesMap_get (fst (HandlesMap_put map k v)) k = v.
Proof.
  intros Hwf. destruct (put_well_formed map k v Hwf) as [Hwf' Hmem].
  apply (get_value _ {| key := k; value := v |} Hwf').
  apply Hmem. by left.
Qed.

Lemma put_get_other map k v k' :
  well_formed map -> k' <> k ->
  HandlesMap_get (fst (HandlesMap_put map k v)) k' = HandlesMap_get map k'.
Proof.
  intros Hwf Hk'. destruct (put_well_formed map k v Hwf) as [Hwf' Hmem].
  apply get_ext; [done|done|].
  intros x Hx. rewrite Hmem. split.
  - intros [->|[H _]]; [done|done].
  - intros H. right. split; [done|congruence].
Qed.

(** X11: on a well-formed map [HandlesMap_put] returns what
    [HandlesMap_get] gave for the key before (0 when it had no entry),
    afterwards [HandlesMap_get] gives the new value for that key and what
    it gave before for every other key, also when the put made the table
    grow; the map stays well-formed. *)
Theorem put_then_get map k v :
  well_formed map ->
  let map' := fst (HandlesMap_put map k v) in
  well_formed map'
  /\ snd (HandlesMap_put map k v) = HandlesMap_get map k
  /\ HandlesMap_get map' k = v
  /\ (forall k', k' <> k -> HandlesMap_get map' k' = HandlesMap_get map k').
Proof.
  intros Hwf map'. split; [by apply put_well_formed|].
  split; [apply put_returns|]. split; [by apply put_get_same|].
  intros k' Hk'. by apply put_get_other.
Qed.

(** X12: on a well-formed map [HandlesMap_remove] returns
    what [HandlesMap_get] gave for the key, afterwards [HandlesMap_get]
    gives 0 for it; a key of another bucket keeps its value, and any other
    key either keeps its value or reads 0 from then on (the entries behind
    a removed chain head go with it); the map stays well-formed. *)
Theorem remove_then_get map k :
  well_formed map ->
  let map' := fst (HandlesMap_remove map k) in
  well_formed map'
  /\ snd (HandlesMap_remove map k) = HandlesMap_get map k
  /\ HandlesMap_get map' k = 0
  /\ (forall k', HandlesMap_get map' k' = HandlesMap_get map k'
                 \/ HandlesMap_get map' k' = 0)
  /\ (forall k', _indexFor map k' <> _indexFor map k ->
                 HandlesMap_get map' k' = HandlesMap_get map k').
Proof.
  intros Hwf map'.
  destruct (remove_well_formed map k Hwf) as [Hwf' Hmem].
  fold map' in Hwf', Hmem.
  split; [done|]. split; [apply remove_returns|]. split; [|split].
  - apply get_zero; [done|]. intros Hin.
    apply list_elem_of_fmap in Hin as (e & He & Hin).
    apply Hmem in Hin as [_ Hk]. done.
  - intros k'.
    destruct (decide (k' ∈ key <$> entries map')) as [Hin|Hout].
    + left. apply list_elem_of_fmap in Hin as (e & -> & He).
      rewrite (get_value map' e Hwf' He). symmetry. apply get_value; [done|].
      by apply Hmem.
    + right. by apply get_zero.
  - intros k' Hk'. unfold map', HandlesMap_remove, HandlesMap_get.
    destruct (bucket map (_indexFor map k)) as [|e next]; [done|].
    destruct (key e =? k); cbn [fst].
    + unfold bucket, _indexFor at 1 3. cbn [table capacity].
      fold (_indexFor map k'). by rewrite load_store_ne.
    + destruct (chain_unlink next k) as [[next' v]|]; [|done]. cbn [fst].
      unfold bucket, _indexFor at 1 3. cbn [table capacity].
      fold (_indexFor map k'). by rewrite load_store_ne.
Qed.

(** ** Sequences of calls *)

Lemma apply_well_formed map op :
  well_formed map -> well_formed (apply map op).
Proof.
  intros Hwf. destruct op as [k v|k]; cbn [apply].
  - by apply put_well_formed.
  - by apply remove_well_formed.
Qed.

Lemma run_well_formed_from ops : forall map,
  well_formed map -> well_formed (run map ops).
Proof.
  induction ops as [|op ops IH]; intros map Hwf; [done|].
  apply IH, apply_well_formed, Hwf.
Qed.

(** The value of the last [Put] of a key in a sequence of calls. *)
Fixpoint last_put (ops : list operation) (k : Z) : option Z :=
  match ops with
  | [] => None
  | Put k' v :: ops =>
      match last_put ops k with
      | Some v' => Some v'
      | None => if k' =? k then Some v else None
      end
  | Remove _ :: ops => last_put ops k
  end.

Definition is_put (op : operation) : bool :=
  match op with Put _ _ => true | Remove _ => false end.

Lemma run_cons map op ops : run map (op :: ops) = run (apply map op) ops.
Proof. reflexivity. Qed.

Lemma puts_get ops : forall map k,
  well_formed map -> forallb is_put ops = true ->
  HandlesMap_get (run map ops) k
  = match last_put ops k with
    | Some v => v
    | None => HandlesMap_get map k
    end.
Proof.
  induction ops as [|op ops IH]; intros map k Hwf Hputs; [done|].
  cbn [forallb] in Hputs. apply andb_prop in Hputs as [Hop Hputs].
  destruct op as [k' v|]; [|discriminate].
  rewrite run_cons, (IH _ k (apply_well_formed map _ Hwf) Hputs).
  cbn [last_put apply].
  destruct (last_put ops k); [done|].
  destruct (Z.eqb_spec k' k) as [->|Hne].
  - by apply put_get_same.
  - by apply put_get_other.
Qed.

(** *** Counting the entries *)

Lemma length_concat_insert {A} (l : list (list A)) i x y :
  l !! i = Some x ->
  (length (concat (<[i := y]> l)) + length x
   = length (concat l) + length y)%nat.
Proof.
  intros H. rewrite (concat_insert _ _ _ y H), (concat_middle _ _ _ H).
  rewrite !length_app. lia.
Qed.

Lemma length_chain_set chain k v :
  length (chain_set chain k v) = length chain.
Proof.
  induction chain as [|a chain IH]; [done|]. cbn.
  destruct (key a =? k); cbn; [done|]. by rewrite IH.
Qed.

Lemma length_chain_unlink chain k chain' v :
  chain_unlink chain k = Some (chain', v) ->
  length chain = S (length chain').
Proof.
  revert chain'. induction chain as [|a chain IH]; intros chain'; [done|].
  cbn [chain_unlink]. destruct (key a =? k).
  { intros [= <- _]. reflexivity. }
  destruct (chain_unlink chain k) as [[c w]|]; [|discriminate].
  intros [= <- ->]. cbn [length]. by rewrite (IH c eq_refl).
Qed.

Lemma length_push tbl cap sz th e :
  well_formed {| table := tbl; capacity := cap; size := sz;
                 threshold := th |} ->
  length (concat (rehash_push cap tbl e)) = S (length (concat tbl)).
Proof.
  intros Hwf.
  destruct (slot_lookup _ (key e) Hwf) as (i & chain & Hs & Hi).
  cbn [table capacity] in Hs, Hi.
  unfold rehash_push. rewrite indexFor_slot. cbn [capacity]. cbv zeta.
  rewrite Hs, (load_lookup _ _ _ _ Hi), store_lookup.
  pose proof (length_concat_insert tbl i chain (e :: chain) Hi) as H.
  cbn [length] in H. unfold entry_t in *. lia.
Qed.

Lemma length_fold_push es : forall tbl cap sz th,
  well_formed {| table := tbl; capacity := cap; size := sz;
                 threshold := th |} ->
  NoDup (key <$> es) ->
  (forall e, e ∈ es -> key e ∉ key <$> concat tbl) ->
  length (concat (fold_left (rehash_push cap) es tbl))
  = (length es + length (concat tbl))%nat.
Proof.
  induction es as [|e es IH]; intros tbl cap sz th Hwf Hnd Hnew; [done|].
  cbn [fold_left length]. cbn in Hnd. apply NoDup_cons in Hnd as [He Hnd].
  destruct (push_entry tbl cap sz th sz th e Hwf) as [Hwf' Hmem].
  { apply Hnew. by left. }
  rewrite (IH _ cap sz th Hwf' Hnd), (length_push tbl cap sz th e Hwf);
    [lia|].
  intros x Hx Hin. apply list_elem_of_fmap in Hin as (y & Hy & Hin).
  apply (Hmem y) in Hin as [->|Hin].
  - apply He. rewrite <- Hy. by apply list_elem_of_fmap_2.
  - apply (Hnew x); [by right|]. rewrite Hy. by apply list_elem_of_fmap_2.
Qed.

Lemma rehash_count map :
  well_formed map -> length (entries (_rehash map)) = length (entries map).
Proof.
  intros Hwf. pose proof Hwf as [(n & Hn & Hcap) Hlen Hslot Hnd].
  unfold _rehash.
  destruct (Z.eqb_spec (capacity map) MAXIMUM_CAPACITY) as [Hmax|Hmax];
    [done|].
  assert (n < 30) as Hn'.
  { destruct (Z.eq_dec n 30) as [->|]; [|lia].
    exfalso. apply Hmax. by rewrite Hcap. }
  assert (Z.shiftl (capacity map) 1 = 2 ^ (n + 1)) as Hcap'.
  { rewrite Z.shiftl_mul_pow2, Hcap, Z.pow_add_r by lia. lia. }
  rewrite take_ge by lia. unfold entries at 1. cbn [table].
  rewrite (length_fold_push _ _ _ (size map)
             (times_LOAD_FACTOR (Z.shiftl (capacity map) 1))).
  - rewrite concat_replicate_nil. cbn [length]. unfold entries. lia.
  - split; cbn [table capacity].
    + exists (n + 1). split; [lia|done].
    + rewrite length_replicate. rewrite Hcap'. lia.
    + intros i chain e Hi He. apply lookup_replicate in Hi as [-> _].
      by apply elem_of_nil in He.
    + unfold entries. cbn [table]. rewrite concat_replicate_nil.
      constructor.
  - exact Hnd.
  - intros e _. rewrite concat_replicate_nil. cbn. apply not_elem_of_nil.
Qed.

(** How far [size] is above the number of entries. *)
Definition surplus (map : c_store_handles_map) : Z :=
  size map - Z.of_nat (length (entries map)).

Lemma rehash_size map : size (_rehash map) = size map.
Proof. unfold _rehash. by destruct (_ =? _). Qed.

Lemma put_surplus map k v :
  well_formed map -> surplus (fst (HandlesMap_put map k v)) = surplus map.
Proof.
  intros Hwf. unfold HandlesMap_put, surplus.
  destruct (slot_lookup map k Hwf) as (i & chain & Hs & Hi).
  destruct (chain_find (bucket map (_indexFor map k)) k) as [e|] eqn:Hfind;
    cbn [fst].
  - rewrite indexFor_slot, Hs, (bucket_lookup _ _ _ Hi), store_lookup.
    unfold entries. cbn [table size].
    pose proof (length_concat_insert (table map) i chain
                  (chain_set chain k v) Hi) as H.
    rewrite length_chain_set in H. unfold entry_t in *. lia.
  - pose proof (find_in_entries map k Hwf Hfind) as Hk.
    set (e := {| key := k; value := v |}).
    assert (store (table map) (_indexFor map k)
              (e :: bucket map (_indexFor map k))
            = rehash_push (capacity map) (table map) e) as ->.
    { unfold rehash_push, bucket, _indexFor. cbn [capacity key e].
      reflexivity. }
    destruct map as [tbl cap sz th]. cbn [table capacity size threshold] in *.
    destruct (push_entry tbl cap sz th (sz + 1) th e Hwf Hk) as [Hwf1 _].
    pose proof (length_push tbl cap sz th e Hwf) as Hlen.
    destruct (_ >? _).
    + rewrite rehash_size, (rehash_count _ Hwf1). unfold entries.
      cbn [table size]. unfold entries in Hk. lia.
    + unfold entries. cbn [table size]. lia.
Qed.

Lemma remove_surplus map k :
  well_formed map -> surplus map <= surplus (fst (HandlesMap_remove map k)).
Proof.
  intros Hwf. unfold HandlesMap_remove, surplus.
  destruct (slot_lookup map k Hwf) as (i & chain & Hs & Hi).
  rewrite indexFor_slot, Hs, (bucket_lookup _ _ _ Hi).
  destruct chain as [|e next]; cbn [fst]; [lia|].
  destruct (key e =? k); cbn [fst].
  - rewrite store_lookup. unfold entries. cbn [table size].
    pose proof (length_concat_insert (table map) i (e :: next) [] Hi) as H.
    cbn [length] in H. unfold entry_t in *. lia.
  - destruct (chain_unlink next k) as [[next' v]|] eqn:Hu; cbn [fst]; [|lia].
    rewrite store_lookup. unfold entries. cbn [table size].
    pose proof (length_concat_insert (table map) i (e :: next) (e :: next')
                  Hi) as H.
    apply length_chain_unlink in Hu.
    cbn [length] in H. unfold entry_t in *. lia.
Qed.

Lemma keys_entries map :
  well_formed map -> HandlesMap_keys map = key <$> entries map.
Proof.
  intros [_ Hlen _ _]. unfold HandlesMap_keys, entries.
  by rewrite take_ge by lia.
Qed.

Lemma surplus_apply_put map k v :
  well_formed map -> surplus (apply map (Put k v)) = surplus map.
Proof. apply put_surplus. Qed.

Lemma surplus_apply_remove map k :
  well_formed map -> surplus map <= surplus (apply map (Remove k)).
Proof. apply remove_surplus. Qed.

Lemma run_surplus ops : forall map,
  well_formed map ->
  surplus map <= surplus (run map ops)
  /\ (forallb is_put ops = true -> surplus (run map ops) = surplus map).
Proof.
  induction ops as [|op ops IH]; intros map Hwf; [done|].
  rewrite run_cons.
  destruct (IH _ (apply_well_formed map op Hwf)) as [Hle Heq].
  destruct op as [k v|k].
  - rewrite (surplus_apply_put map k v Hwf) in Hle, Heq. split; [done|].
    intros [_ H]%andb_prop. by apply Heq.
  - pose proof (surplus_apply_remove map k Hwf) as Hrm. split; [lia|].
    intros [H _]%andb_prop. discriminate H.
Qed.

(** X13: every map reached from [HandlesMap_create]
    by puts and removes is well-formed: its capacity is a power of two up
    to [MAXIMUM_CAPACITY], the table has that many buckets, every entry is
    in the bucket [_indexFor] gives for its key, and no key has two
    entries. *)
Theorem run_keeps_well_formed n map ops :
  HandlesMap_create n = Some map -> well_formed (run map ops).
Proof.
  intros Hc. apply run_well_formed_from.
  by destruct (create_well_formed n map Hc).
Qed.

(** X14: after any sequence of puts on a new map,
    [HandlesMap_get] gives for every key the value of its last put, and 0
    for a key that was never put. *)
Theorem puts_round_trip n map ops k :
  HandlesMap_create n = Some map -> forallb is_put ops = true ->
  HandlesMap_get (run map ops) k = default 0 (last_put ops k).
Proof.
  intros Hc Hputs.
  destruct (create_well_formed n map Hc) as (Hwf & Hempty & _).
  rewrite (puts_get ops map k Hwf Hputs).
  destruct (last_put ops k); [done|]. cbn.
  apply get_zero; [done|]. rewrite Hempty. cbn. apply not_elem_of_nil.
Qed.

(** X15: on every map reached from [HandlesMap_create] the
    keys listed by [HandlesMap_keys] are distinct and [HandlesMap_size] is
    not below their number; as long as nothing was removed the two are
    equal, so that the assertions of [HandlesMap_keys] and
    [HandlesMap_values] hold. *)
Theorem size_and_keys n map ops :
  HandlesMap_create n = Some map ->
  let map' := run map ops in
  NoDup (HandlesMap_keys map')
  /\ Z.of_nat (length (HandlesMap_keys map')) <= HandlesMap_size map'
  /\ (forallb is_put ops = true ->
      HandlesMap_size map' = Z.of_nat (length (HandlesMap_keys map'))
      /\ asserted HandlesMap_keys map' = Some (HandlesMap_keys map')
      /\ asserted HandlesMap_values map' = Some (HandlesMap_values map')).
Proof.
  intros Hc map'.
  destruct (create_well_formed n map Hc) as (Hwf & Hempty & Hsize).
  pose proof (run_well_formed_from ops map Hwf) as Hwf'. fold map' in Hwf'.
  destruct (run_surplus ops map Hwf) as [Hle Heq]. fold map' in Hle, Heq.
  assert (surplus map = 0) as H0.
  { unfold surplus. rewrite Hempty, Hsize. done. }
  assert (length (HandlesMap_values map') = length (HandlesMap_keys map'))
    as Hvalues.
  { unfold HandlesMap_values, HandlesMap_keys. by rewrite !length_map. }
  assert (length (HandlesMap_keys map') = length (entries map')) as Hkeys.
  { by rewrite (keys_entries map' Hwf'), length_fmap. }
  unfold HandlesMap_size. unfold surplus in Hle, Heq, H0.
  split; [rewrite (keys_entries map' Hwf'); apply Hwf'|].
  split; [lia|]. intros Hputs. specialize (Heq Hputs).
  assert (Z.of_nat (length (HandlesMap_keys map')) = size map') as Hsame
    by lia.
  split; [lia|]. unfold asserted.
  by rewrite Hvalues, Hsame, Z.eqb_refl.
Qed.

(** X16: after [HandlesMap_clear] the map is well-formed with
    the same capacity, every key reads 0, the size is 0 and no key is
    listed. *)
Theorem clear_empties map k :
  well_formed map ->
  let map' := HandlesMap_clear map in
  well_formed map' /\ capacity map' = capacity map
  /\ HandlesMap_get map' k = 0
  /\ HandlesMap_size map' = 0 /\ HandlesMap_keys map' = [].
Proof.
  intros Hwf map'.
  destruct (clear_well_formed map Hwf) as [Hwf' Hempty].
  fold map' in Hwf', Hempty.
  split; [done|]. split; [done|]. split; [|split; [done|]].
  - apply get_zero; [done|]. rewrite Hempty. cbn. apply not_elem_of_nil.
  - by rewrite (keys_entries map' Hwf'), Hempty.
Qed.

(** X17: on a well-formed map [HandlesMap_values] lists, in
    the order of [HandlesMap_keys], the value [HandlesMap_get] gives for
    each key. *)
Theorem keys_and_values map :
  well_formed map ->
  HandlesMap_get map <$> HandlesMap_keys map = HandlesMap_values map.
Proof.
  intros Hwf. rewrite (keys_entries map Hwf). unfold HandlesMap_values.
  pose proof Hwf as [_ Hlen _ _]. rewrite take_ge by lia.
  fold (entries map). rewrite <- list_fmap_compose.
  apply list_fmap_ext. intros i e He. cbn.
  apply get_value; [done|]. by eapply list_elem_of_lookup_2.
Qed.

(** A map to run the theorems on: room for two entries, three calls. *)
Definition small_map : c_store_handles_map :=
  run (default {| table := []; capacity := 0; size := 0; threshold := 0 |}
         (HandlesMap_create 2))
    [Put 4 40; Put 7 70; Put 4 41].

Lemma small_map_well_formed : well_formed small_map.
Proof.
  apply run_well_formed_from.
  by destruct (create_well_formed 2 _ eq_refl).
Qed.

Lemma run_keeps_well_formed_witness :
  well_formed
    (run {| table := [[]; []; []; []]; capacity := 4; size := 0;
            threshold := 3 |} [Put 4 40; Remove 4]).
Proof. apply (run_keeps_well_formed 2). reflexivity. Defined.

Lemma puts_round_trip_witness : HandlesMap_get small_map 4 = 41.
Proof.
  apply (puts_round_trip 2 _ [Put 4 40; Put 7 70; Put 4 41] 4);
    reflexivity.
Defined.

Lemma size_and_keys_witness :
  Z.of_nat (length (HandlesMap_keys small_map)) <= HandlesMap_size small_map.
Proof.
  apply (size_and_keys 2 _ [Put 4 40; Put 7 70; Put 4 41]). reflexivity.
Defined.

Lemma put_then_get_witness :
  HandlesMap_get (fst (HandlesMap_put small_map 5 50)) 5 = 50.
Proof. apply (put_then_get small_map 5 50), small_map_well_formed. Defined.

Lemma remove_then_get_witness :
  HandlesMap_get (fst (HandlesMap_remove small_map 4)) 4 = 0.
Proof. apply (remove_then_get small_map 4), small_map_well_formed. Defined.

Lemma clear_empties_witness :
  HandlesMap_get (HandlesMap_clear small_map) 4 = 0.
Proof. apply (clear_empties small_map 4), small_map_well_formed. Defined.

Lemma keys_and_values_witness :
  HandlesMap_get small_map <$> HandlesMap_keys small_map
  = HandlesMap_values small_map.
Proof. apply keys_and_values, small_map_well_formed. Defined.

End HandlesMap.

(** * lib/impl/rvpf_pipe.c *)

Module Pipe.

Local Open Scope nat_scope.

(** ** C strings in a buffer *)

(** [strspn(s, " ")] *)
Fixpoint strspn_space (s : list ascii) : nat :=
  match s with
  | [] => 0
  | c :: s' => if Ascii.eqb c " " then S (strspn_space s') else 0
  end.

(** [strcspn(s, " ")] *)
Fixpoint strcspn_space (s : list ascii) : nat :=
  match s with
  | [] => 0
  | c :: s' =>
      if Ascii.eqb c NUL || Ascii.eqb c " " then 0
      else S (strcspn_space s')
  end.

(** [strchr(s, ' ') != NULL] *)
Definition has_space (s : list ascii) : bool :=
  existsb (fun c => Ascii.eqb c " ") (c_str s).

(** [strcpy(mem + p, text)]: the characters of [text] and the NUL. *)
Fixpoint write_chars (mem : list ascii) (p : nat) (text : list ascii)
    : list ascii :=
  match text with
  | [] => mem
  | c :: text' => write_chars (<[p := c]> mem) (S p) text'
  end.

Definition strcpy (mem : list ascii) (p : nat) (text : list ascii)
    : list ascii :=
  write_chars mem p (c_str text ++ [NUL]).

(** ** Buffers *)

Definition INITIAL_CONTROL_BUFFER_CAPACITY : nat := 128.

(** [struct rvpf_pipe_buffer]; the field [at] is named [at_]. *)
Record rvpf_pipe_buffer := {
  at_ : list ascii;
  mark : nat;
  position : nat;
  limit : nat;
  capacity : nat
}.

Definition set_at (b : rvpf_pipe_buffer) (mem : list ascii) :=
  {| at_ := mem; mark := mark b; position := position b; limit := limit b;
     capacity := capacity b |}.

Definition set_limit (b : rvpf_pipe_buffer) (n : nat) :=
  {| at_ := at_ b; mark := mark b; position := position b; limit := n;
     capacity := capacity b |}.

Definition set_position (b : rvpf_pipe_buffer) (n : nat) :=
  {| at_ := at_ b; mark := mark b; position := n; limit := limit b;
     capacity := capacity b |}.

Definition set_mark (b : rvpf_pipe_buffer) (n : nat) :=
  {| at_ := at_ b; mark := n; position := position b; limit := limit b;
     capacity := capacity b |}.

(** The buffer of a fresh request: [capacity] zeroed bytes. *)
Definition new_buffer : rvpf_pipe_buffer :=
  {| at_ := replicate INITIAL_CONTROL_BUFFER_CAPACITY NUL;
     mark := 0; position := 0; limit := 0;
     capacity := INITIAL_CONTROL_BUFFER_CAPACITY |}.

Definition _resetBuffer (buffer : rvpf_pipe_buffer) : rvpf_pipe_buffer :=
  {| at_ := at_ buffer; mark := 0; position := 0; limit := 0;
     capacity := capacity buffer |}.

(** [_expandBuffer]: [realloc] keeps the old bytes, [memset] zeroes the
    new ones. *)
Definition _expandBuffer (buffer : rvpf_pipe_buffer) (size : nat)
    : rvpf_pipe_buffer :=
  if capacity buffer - limit buffer <? size then
    let size := if size <? capacity buffer then capacity buffer else size in
    let size := size + size in
    {| at_ := take size (at_ buffer)
              ++ replicate (size - capacity buffer) NUL;
       mark := mark buffer; position := position buffer;
       limit := limit buffer; capacity := size |}
  else buffer.

Definition _charToBuffer (c : ascii) (buffer : rvpf_pipe_buffer)
    : rvpf_pipe_buffer :=
  let buffer := _expandBuffer buffer 2 in
  let buffer := set_at buffer (<[limit buffer := c]> (at_ buffer)) in
  let buffer := set_limit buffer (S (limit buffer)) in
  set_at buffer (<[limit buffer := NUL]> (at_ buffer)).

Definition _stringToBuffer (text : list ascii) (buffer : rvpf_pipe_buffer)
    : rvpf_pipe_buffer :=
  let length := strlen text in
  let buffer := _expandBuffer buffer (length + 1) in
  let buffer := set_at buffer (strcpy (at_ buffer) (limit buffer) text) in
  set_limit buffer (limit buffer + length).

(** [snprintf(digits, sizeof(digits), "%i", value)] *)
Definition int_digits (value : Z) : list ascii :=
  chars (DecimalString.NilZero.string_of_int (Z.to_int value)).

Definition _intToBuffer (value : Z) (buffer : rvpf_pipe_buffer)
    : rvpf_pipe_buffer :=
  _stringToBuffer (int_digits value) buffer.

(** ** The process: standard streams, status, and the jump buffer *)

Definition RVPF_PIPE_STATUS_OK : Z := 0.
Definition RVPF_PIPE_STATUS_ERROR : Z := 1.
Definition RVPF_PIPE_STATUS_FATAL : Z := 2.

Record world := {
  stdin : list ascii;
  stdout : list ascii;
  rvpf_pipe_status : Z
}.

Definition set_stdin (w : world) (input : list ascii) : world :=
  {| stdin := input; stdout := stdout w;
     rvpf_pipe_status := rvpf_pipe_status w |}.

Definition fputs (text : list ascii) (w : world) : world :=
  {| stdin := stdin w; stdout := stdout w ++ text;
     rvpf_pipe_status := rvpf_pipe_status w |}.

Definition set_status (w : world) (status : Z) : world :=
  {| stdin := stdin w; stdout := stdout w; rvpf_pipe_status := status |}.

(** How a call ends: it returns, it leaves through
    [longjmp(rvpf_pipe_jmp_buf, 1)], or it dereferences a null pointer. *)
Inductive outcome (A : Type) :=
| Return (a : A) (w : world)
| Longjmp (w : world)
| Undefined.
Arguments Return {A} a w.
Arguments Longjmp {A} w.
Arguments Undefined {A}.

(** A call is a function of the process state. *)
Definition call (A : Type) : Type := world -> outcome A.

Definition ret {A} (a : A) : call A := fun w => Return a w.

Definition bind {A B} (m : call A) (k : A -> call B) : call B :=
  fun w =>
    match m w with
    | Return a w' => k a w'
    | Longjmp w' => Longjmp w'
    | Undefined => Undefined
    end.

Notation "x <~ m ;; k" := (bind m (fun x => k))
  (at level 100, m at next level, right associativity).

(** The messages go to the log, which is outside of the embedding. *)
Definition rvpf_pipe_error {A} : call A :=
  fun w => Longjmp (set_status w RVPF_PIPE_STATUS_ERROR).

Definition rvpf_pipe_fatal {A} : call A :=
  fun w => Longjmp (set_status w RVPF_PIPE_STATUS_FATAL).

Definition _stop {A} : call A :=
  fun w => Longjmp (set_status w RVPF_PIPE_STATUS_OK).

Definition rvpf_pipe_warn : call unit := ret tt.

Definition _flushBuffer (buffer : rvpf_pipe_buffer)
    : call rvpf_pipe_buffer :=
  fun w =>
    let w := fputs (string_at (at_ buffer) 0) w in
    let w := fputs [ascii_of_nat 10] w in
    Return (_resetBuffer buffer) w.

(** ** Reading lines and fields *)

(** [while (buffer->limit && isspace(buffer->at[buffer->limit - 1]))
    --buffer->limit;] *)
Fixpoint drop_trailing_spaces (mem : list ascii) (limit : nat) : nat :=
  match limit with
  | 0 => 0
  | S l => if isspace (peek mem l) then drop_trailing_spaces mem l else limit
  end.

(** The loop of [_nextLine], one turn for each character [fgetc] takes
    from the standard input: whether a line was found before the end of
    the input, the buffer, and the input left. *)
Fixpoint _nextLine_loop (input : list ascii) (buffer : rvpf_pipe_buffer)
    : bool * rvpf_pipe_buffer * list ascii :=
  match input with
  | [] => (false, buffer, [])
  | next :: input' =>
      if Ascii.eqb next LF then
        let buffer :=
          set_limit buffer
            (drop_trailing_spaces (at_ buffer) (limit buffer)) in
        if limit buffer =? 0 then _nextLine_loop input' buffer
        else (true, buffer, input')
      else if negb (Ascii.eqb next CR)
              && (negb (limit buffer =? 0) || negb (isspace next)) then
        let buffer := _expandBuffer buffer 2 in
        let buffer := set_at buffer (<[limit buffer := next]> (at_ buffer)) in
        _nextLine_loop input' (set_limit buffer (S (limit buffer)))
      else _nextLine_loop input' buffer
  end.

(** [_nextLine]: the line returned ([None] for [NULL], an offset into
    [buffer->at] otherwise) and the buffer. *)
Definition _nextLine (buffer : rvpf_pipe_buffer) (required : bool)
    : call (option nat * rvpf_pipe_buffer) :=
  fun w =>
    let buffer := _resetBuffer buffer in
    let '(found, buffer, input) := _nextLine_loop (stdin w) buffer in
    let w := set_stdin w input in
    if found then
      Return (Some 0, set_at buffer (<[limit buffer := NUL]> (at_ buffer))) w
    else
      let buffer := if limit buffer =? 0 then buffer else set_limit buffer 0 in
      if required then rvpf_pipe_error w
      else Return (None, buffer) w.

Definition _nextField (buffer : rvpf_pipe_buffer) (required last : bool)
    : call (option nat * rvpf_pipe_buffer) :=
  if limit buffer <=? position buffer then
    if required then rvpf_pipe_error
    else ret (None, set_mark buffer (position buffer))
  else
    let buffer :=
      if Ascii.eqb (peek (at_ buffer) (position buffer)) NUL
      then set_position buffer (S (position buffer)) else buffer in
    let buffer :=
      set_position buffer
        (position buffer
         + strspn_space (drop (position buffer) (at_ buffer))) in
    let buffer := set_mark buffer (position buffer) in
    let buffer :=
      if last then buffer
      else
        let buffer :=
          set_position buffer
            (position buffer
             + strcspn_space (drop (position buffer) (at_ buffer))) in
        if position buffer <? limit buffer
        then set_at buffer (<[position buffer := NUL]> (at_ buffer))
        else buffer in
    ret (Some (mark buffer), buffer).

(** [_firstLine]. A turn either ends the loop or flushes a line that
    [_nextLine] took from the input, so the turns are bounded by the
    length of the input. *)
Fixpoint _firstLine_loop (turns : nat) (buffer : rvpf_pipe_buffer)
    : call (option nat * rvpf_pipe_buffer) :=
  match turns with
  | 0 => fun _ => Undefined
  | S turns' =>
      r <~ _nextLine buffer false ;;
      let '(line, buffer) := r in
      match line with
      | None => ret (None, buffer)
      | Some p =>
          if has_space (drop p (at_ buffer)) then ret (line, buffer)
          else if decide (string_at (at_ buffer) p = chars "0")
          then ret (None, buffer)
          else
            buffer <~ _flushBuffer buffer ;;
            _firstLine_loop turns' buffer
      end
  end.

Definition _firstLine (buffer : rvpf_pipe_buffer)
    : call (option nat * rvpf_pipe_buffer) :=
  fun w => _firstLine_loop (S (length (stdin w))) buffer w.

(** ** Point values *)

(** What [pointValue->state] points at: the static [_deletedState], told
    apart by its address, or a string of the request. *)
Inductive state_ptr :=
| DeletedState
| StateText (text : list ascii).

Definition _deletedState : list ascii := chars "DELETED".

Definition state_chars (state : state_ptr) : list ascii :=
  match state with
  | DeletedState => _deletedState
  | StateText text => text
  end.

(** [struct rvpf_pipe_pointValue]; [None] is a null pointer. *)
Record rvpf_pipe_pointValue := {
  pointName : option (list ascii);
  stamp : option (list ascii);
  state : option state_ptr;
  value : option (list ascii)
}.

(** The zeroed structure [_alloc] returns. *)
Definition empty_pointValue : rvpf_pipe_pointValue :=
  {| pointName := None; stamp := None; state := None; value := None |}.

Definition set_pointName pv x :=
  {| pointName := x; stamp := stamp pv; state := state pv;
     value := value pv |}.
Definition set_stamp pv x :=
  {| pointName := pointName pv; stamp := x; state := state pv;
     value := value pv |}.
Definition set_state pv x :=
  {| pointName := pointName pv; stamp := stamp pv; state := x;
     value := value pv |}.
Definition set_value pv x :=
  {| pointName := pointName pv; stamp := stamp pv; state := state pv;
     value := x |}.

Definition rvpf_pipe_isValueDeleted (pointValue : option rvpf_pipe_pointValue)
    : bool :=
  match pointValue with
  | Some pv => if state pv is Some DeletedState then true else false
  | None => false
  end.

(** [_cloneString] of a string inside the buffer. *)
Definition _cloneString (mem : list ascii) (string : option nat)
    : option (list ascii) :=
  match string with
  | Some p => Some (string_at mem p)
  | None => None
  end.

(** How one of the two scanning loops of [_fillPointValue] ends: on the
    [break], with the memory as the loop left it and [next]; or on a
    [return] after the warning about the format. *)
Inductive scan :=
| ScanBreak (mem : list ascii) (next : nat)
| ScanReturn (mem : list ascii)
| ScanLost.

(** The loop over the state field. [next] and [stop] are offsets into
    [buffer->at]; the characters kept are written back through [stop].
    Every turn that does not end the loop moves [next] forward, and a NUL
    is read once [next] is past the block. *)
Fixpoint state_loop (turns : nat) (mem : list ascii) (next stop : nat)
    (leftBracketSeen rightBracketSeen : bool) : scan :=
  match turns with
  | 0 => ScanLost
  | S turns' =>
      let c := peek mem next in
      if Ascii.eqb c NUL then
        if negb rightBracketSeen then ScanReturn mem
        else ScanBreak (<[stop := NUL]> mem) next
      else if rightBracketSeen then
        if Ascii.eqb c "[" then
          state_loop turns' (<[stop := "["%char]> mem) (S next) (S stop)
            leftBracketSeen false
        else
          let mem := <[stop := NUL]> mem in
          let next := S next in
          ScanBreak mem (next + strspn_space (drop next mem))
      else if leftBracketSeen then
        if Ascii.eqb c "]" then
          state_loop turns' (<[stop := "]"%char]> mem) (S next) (S stop)
            false rightBracketSeen
        else ScanReturn mem
      else if Ascii.eqb c "[" then
        state_loop turns' mem (S next) stop true rightBracketSeen
      else if Ascii.eqb c "]" then
        state_loop turns' mem (S next) stop leftBracketSeen true
      else
        state_loop turns' (<[stop := c]> mem) (S next) (S stop)
          leftBracketSeen rightBracketSeen
  end.

(** The loop over the value field. *)
Fixpoint value_loop (turns : nat) (mem : list ascii) (next stop : nat)
    (quoteSeen : bool) : scan :=
  match turns with
  | 0 => ScanLost
  | S turns' =>
      let c := peek mem next in
      if Ascii.eqb c NUL then
        let mem := <[stop := NUL]> mem in
        if negb quoteSeen then ScanReturn mem else ScanBreak mem next
      else if quoteSeen then
        if Ascii.eqb c QUOTE then
          value_loop turns' (<[stop := QUOTE]> mem) (S next) (S stop) false
        else ScanReturn (<[stop := NUL]> mem)
      else if Ascii.eqb c QUOTE then
        value_loop turns' mem (S next) stop true
      else
        value_loop turns' (<[stop := c]> mem) (S next) (S stop) quoteSeen
  end.

(** The second half of [_fillPointValue], from the last [if (field)] on:
    the value field, or the dash that marks a deletion. *)
Definition fill_value (pointValue : rvpf_pipe_pointValue)
    (buffer : rvpf_pipe_buffer) (field : option nat)
    : call (rvpf_pipe_pointValue * rvpf_pipe_buffer) :=
  match field with
  | None => ret (pointValue, buffer)
  | Some field =>
      let c := peek (at_ buffer) field in
      if Ascii.eqb c QUOTE then
        let start := S field in
        match value_loop (S (length (at_ buffer))) (at_ buffer)
                start start false with
        | ScanBreak mem _ =>
            ret (set_value pointValue (Some (string_at mem start)),
                 set_at buffer mem)
        | ScanReturn mem =>
            _ <~ rvpf_pipe_warn ;; ret (pointValue, set_at buffer mem)
        | ScanLost => fun _ => Undefined
        end
      else if Ascii.eqb c "-" then
        ret (set_state pointValue (Some DeletedState), buffer)
      else ret (pointValue, buffer)
  end.

(** The middle of [_fillPointValue], from [if (field && *field == '[')]
    on: the state field, then the value field. *)
Definition fill_state (pointValue : rvpf_pipe_pointValue)
    (buffer : rvpf_pipe_buffer) (field : option nat)
    : call (rvpf_pipe_pointValue * rvpf_pipe_buffer) :=
  match field with
  | Some f =>
      if Ascii.eqb (peek (at_ buffer) f) "[" then
        let start := S f in
        match state_loop (S (length (at_ buffer))) (at_ buffer)
                start start false false with
        | ScanBreak mem next =>
            fill_value
              (set_state pointValue (Some (StateText (string_at mem start))))
              (set_at buffer mem) (Some next)
        | ScanReturn mem =>
            _ <~ rvpf_pipe_warn ;; ret (pointValue, set_at buffer mem)
        | ScanLost => fun _ => Undefined
        end
      else fill_value pointValue buffer field
  | None => fill_value pointValue buffer None
  end.

Definition _fillPointValue (pointValue : rvpf_pipe_pointValue)
    (buffer : rvpf_pipe_buffer) (stampRequired : bool)
    : call (rvpf_pipe_pointValue * rvpf_pipe_buffer) :=
  r <~ _nextField buffer true false ;;
  let '(field, buffer) := r in
  let pointValue :=
    set_pointName pointValue (_cloneString (at_ buffer) field) in
  r <~ _nextField buffer stampRequired false ;;
  let '(field, buffer) := r in
  r <~ match field with
       | Some _ =>
           let pointValue :=
             set_stamp pointValue (_cloneString (at_ buffer) field) in
           r <~ _nextField buffer false true ;;
           ret (pointValue, r)
       | None => ret (pointValue, (None, buffer))
       end ;;
  let '(pointValue, (field, buffer)) := r in
  fill_state pointValue buffer field.

(** ** Writing point values *)

(** The [for] loop over the characters of the state. *)
Fixpoint state_to_buffer (text : list ascii) (buffer : rvpf_pipe_buffer)
    : rvpf_pipe_buffer :=
  match text with
  | [] => buffer
  | c :: text' =>
      let buffer :=
        if Ascii.eqb c "[" then _charToBuffer "]" buffer
        else if Ascii.eqb c "]" then _charToBuffer "[" buffer
        else buffer in
      state_to_buffer text' (_charToBuffer c buffer)
  end.

(** The [for] loop over the characters of the value. *)
Fixpoint value_to_buffer (text : list ascii) (buffer : rvpf_pipe_buffer)
    : rvpf_pipe_buffer :=
  match text with
  | [] => buffer
  | c :: text' =>
      let buffer :=
        if Ascii.eqb c QUOTE then _charToBuffer QUOTE buffer else buffer in
      value_to_buffer text' (_charToBuffer c buffer)
  end.

(** [_pointValueToBuffer]; [None] when the point name or the stamp is a
    null pointer, which [strlen] dereferences. *)
Definition _pointValueToBuffer (pointValue : rvpf_pipe_pointValue)
    (buffer : rvpf_pipe_buffer) : option rvpf_pipe_buffer :=
  match pointName pointValue, stamp pointValue with
  | Some name, Some time =>
      let buffer := _stringToBuffer name buffer in
      let buffer := _charToBuffer " " buffer in
      let buffer := _stringToBuffer time buffer in
      let buffer :=
        match state pointValue with
        | Some st =>
            let buffer := _stringToBuffer (chars " [") buffer in
            let buffer := state_to_buffer (c_str (state_chars st)) buffer in
            _charToBuffer "]" buffer
        | None => buffer
        end in
      let buffer :=
        match value pointValue with
        | Some v =>
            let buffer := _stringToBuffer [" "%char; QUOTE] buffer in
            let buffer := value_to_buffer (c_str v) buffer in
            _charToBuffer QUOTE buffer
        | None => buffer
        end in
      Some buffer
  | _, _ => None
  end.

(** ** Requests *)

Record rvpf_pipe_request := {
  requestID : option (list ascii);
  version : Z;
  buffer : rvpf_pipe_buffer
}.

(** [struct rvpf_pipe_engineRequest]. The list [results] is the chain
    from [results.first] to [results.last]; [results_count] is the
    separate counter [results.count]. *)
Record rvpf_pipe_engineRequest := {
  control : rvpf_pipe_request;
  transformParams : list (list ascii);
  transformParams_count : Z;
  pointParams : list (list ascii);
  pointParams_count : Z;
  inputs : list rvpf_pipe_pointValue;
  inputs_count : Z;
  result : option rvpf_pipe_pointValue;
  results : list rvpf_pipe_pointValue;
  results_count : Z
}.

Definition set_result (r : rvpf_pipe_engineRequest) x :=
  {| control := control r;
     transformParams := transformParams r;
     transformParams_count := transformParams_count r;
     pointParams := pointParams r; pointParams_count := pointParams_count r;
     inputs := inputs r; inputs_count := inputs_count r;
     result := x; results := results r;
     results_count := results_count r |}.

Definition set_results (r : rvpf_pipe_engineRequest) l n :=
  {| control := control r;
     transformParams := transformParams r;
     transformParams_count := transformParams_count r;
     pointParams := pointParams r; pointParams_count := pointParams_count r;
     inputs := inputs r; inputs_count := inputs_count r;
     result := result r; results := l; results_count := n |}.

Definition is_empty_string (s : option (list ascii)) : bool :=
  match s with
  | Some text => if c_str text is [] then true else false
  | None => true
  end.

(** [while ((space = strchr(stamp, ' '))) *space = 'T';] *)
Definition spaces_to_T (text : list ascii) : list ascii :=
  List.map (fun c => if Ascii.eqb c " " then "T"%char else c) text.

Definition rvpf_pipe_addEngineResult
    (request : option rvpf_pipe_engineRequest)
    (pointName stamp state value : option (list ascii))
    : call rvpf_pipe_engineRequest :=
  match request with
  | None => rvpf_pipe_fatal
  | Some request =>
      if is_empty_string pointName then rvpf_pipe_error
      else if is_empty_string stamp then rvpf_pipe_error
      else
        let pointValues :=
          {| pointName := option_map c_str pointName;
             stamp := option_map (fun s => spaces_to_T (c_str s)) stamp;
             state := option_map (fun s => StateText (c_str s)) state;
             value := option_map c_str value |} in
        ret (set_results request (results request ++ [pointValues])
               (to_jint (results_count request + 1)))
  end.

(** [rvpf_pipe_clearEngineResults]: the seed result and the chain of
    extra results are freed; [results.count] is left as it was. *)
Definition rvpf_pipe_clearEngineResults
    (request : option rvpf_pipe_engineRequest)
    : call rvpf_pipe_engineRequest :=
  match request with
  | None => rvpf_pipe_fatal
  | Some request =>
      ret (set_results (set_result request None) [] (results_count request))
  end.

Definition rvpf_pipe_setEngineResultState
    (request : option rvpf_pipe_engineRequest) (state : option (list ascii))
    : call rvpf_pipe_engineRequest :=
  match request with
  | None => rvpf_pipe_fatal
  | Some request =>
      match result request with
      | None => rvpf_pipe_error
      | Some pv =>
          ret (set_result request
                 (Some (set_state pv
                          (option_map (fun s => StateText (c_str s)) state))))
      end
  end.

Definition rvpf_pipe_setEngineResultValue
    (request : option rvpf_pipe_engineRequest) (value : option (list ascii))
    : call rvpf_pipe_engineRequest :=
  match request with
  | None => rvpf_pipe_fatal
  | Some request =>
      match result request with
      | None => rvpf_pipe_error
      | Some pv =>
          ret (set_result request
                 (Some (set_value pv (option_map c_str value))))
      end
  end.

(** The [summary] computed at the head of [rvpf_pipe_endEngineRequest]. *)
Definition engine_summary (request : rvpf_pipe_engineRequest) : Z :=
  match result request with
  | Some pv =>
      if (if value pv is Some _ then true else false)
         || negb (results_count request =? 0)%Z
      then to_jint (1 + results_count request)
      else 0%Z
  | None =>
      if negb (results_count request =? 0)%Z then results_count request
      else (-1)%Z
  end.

(** A point value put in the buffer and flushed. *)
Definition send_pointValue (pointValue : rvpf_pipe_pointValue)
    (buffer : rvpf_pipe_buffer) : call rvpf_pipe_buffer :=
  match _pointValueToBuffer pointValue buffer with
  | Some buffer => _flushBuffer buffer
  | None => fun _ => Undefined
  end.

(** The [for] loop over the chain of extra results. *)
Fixpoint send_results (chain : list rvpf_pipe_pointValue)
    (buffer : rvpf_pipe_buffer) : call rvpf_pipe_buffer :=
  match chain with
  | [] => ret buffer
  | next :: chain' =>
      buffer <~ send_pointValue next buffer ;;
      send_results chain' buffer
  end.

(** [rvpf_pipe_endEngineRequest]; the request is freed at the end. *)
Definition rvpf_pipe_endEngineRequest
    (request : option rvpf_pipe_engineRequest) : call unit :=
  match request with
  | None => rvpf_pipe_fatal
  | Some request =>
      let summary := engine_summary request in
      let buffer := _resetBuffer (buffer (control request)) in
      match requestID (control request) with
      | None => fun _ => Undefined
      | Some id =>
          let buffer := _stringToBuffer id buffer in
          let buffer := _stringToBuffer (chars " ") buffer in
          let buffer := _intToBuffer summary buffer in
          buffer <~ _flushBuffer buffer ;;
          if (0 <? summary)%Z then
            buffer <~ send_results (results request) buffer ;;
            match result request with
            | Some pv => _ <~ send_pointValue pv buffer ;; ret tt
            | None => ret tt
            end
          else ret tt
      end
  end.

(** ** What a buffer holds *)

(** The buffer has [s] before its limit and room for at least one more
    byte. *)
Definition room (b : rvpf_pipe_buffer) (s : list ascii) : Prop :=
  exists junk,
    at_ b = s ++ junk /\ junk <> [] /\ limit b = length s /\
    capacity b = length (at_ b).

(** The buffer has [s] before its limit and a NUL at its limit. *)
Definition holds (b : rvpf_pipe_buffer) (s : list ascii) : Prop :=
  exists junk,
    at_ b = s ++ NUL :: junk /\ limit b = length s /\
    capacity b = length (at_ b).

Definition nul_free (s : list ascii) : Prop := NUL ∉ s.

Lemma holds_room b s : holds b s -> room b s.
Proof. intros (junk & H1 & H2 & H3). exists (NUL :: junk). done. Qed.

Lemma room_new_buffer : room new_buffer [].
Proof. exists (replicate 128 NUL). vm_compute. done. Qed.

Lemma room_reset b s : room b s -> room (_resetBuffer b) [].
Proof.
  intros (junk & H1 & H2 & H3 & H4). exists (at_ b). cbn.
  repeat split; try done. rewrite H1. destruct s, junk; done.
Qed.

Lemma c_str_nul_free s rest : nul_free s -> c_str (s ++ NUL :: rest) = s.
Proof.
  unfold nul_free. induction s as [|c s IH]; intros H; cbn; [done|].
  destruct (Ascii.eqb_spec c NUL) as [->|_].
  - exfalso. apply H. left.
  - f_equal. apply IH. intros ?. apply H. by right.
Qed.

Lemma c_str_id s : nul_free s -> c_str s = s.
Proof.
  unfold nul_free. induction s as [|c s IH]; intros H; cbn; [done|].
  destruct (Ascii.eqb_spec c NUL) as [->|_].
  - exfalso. apply H. left.
  - f_equal. apply IH. intros ?. apply H. by right.
Qed.

Lemma c_str_nul_free_self s : nul_free (c_str s).
Proof.
  unfold nul_free. induction s as [|c s IH]; cbn; [by intros ?%elem_of_nil|].
  destruct (Ascii.eqb_spec c NUL) as [->|Hc]; [by intros ?%elem_of_nil|].
  intros [?|?]%elem_of_cons; [congruence|done].
Qed.

Lemma holds_string_at b s : holds b s -> nul_free s -> string_at (at_ b) 0 = s.
Proof.
  intros (junk & -> & _) Hs. unfold string_at. rewrite drop_0.
  by apply c_str_nul_free.
Qed.

Lemma write_chars_app text :
  forall pre old post,
    length old = length text ->
    write_chars (pre ++ old ++ post) (length pre) text = pre ++ text ++ post.
Proof.
  induction text as [|c text IH]; intros pre old post Hlen.
  - destruct old; [done|discriminate].
  - destruct old as [|o old]; [discriminate|]. cbn [write_chars].
    replace (<[length pre:=c]> (pre ++ (o :: old) ++ post))
      with ((pre ++ [c]) ++ old ++ post).
    + replace (S (length pre)) with (length (pre ++ [c]))
        by (rewrite length_app; cbn; lia).
      rewrite IH by (cbn in Hlen; lia). by rewrite <- app_assoc.
    + rewrite <- app_assoc. cbn.
      rewrite insert_app_r_alt by lia.
      by replace (length pre - length pre) with 0 by lia.
Qed.

Lemma expand_room b s n :
  room b s -> 1 <= n ->
  exists junk,
    at_ (_expandBuffer b n) = s ++ junk /\ n <= length junk /\
    limit (_expandBuffer b n) = length s /\
    capacity (_expandBuffer b n) = length (at_ (_expandBuffer b n)) /\
    mark (_expandBuffer b n) = mark b /\
    position (_expandBuffer b n) = position b.
Proof.
  intros (junk & Hat & Hjunk & Hlim & Hcap) Hn. unfold _expandBuffer.
  assert (Hlen : length (at_ b) = length s + length junk)
    by (rewrite Hat, length_app; lia).
  destruct (Nat.ltb_spec (capacity b - limit b) n) as [Hsmall|Hbig].
  - set (size := if n <? capacity b then capacity b else n).
    assert (capacity b <= size /\ n <= size)
      by (subst size; destruct (Nat.ltb_spec n (capacity b)); lia).
    cbn. rewrite take_ge by lia.
    exists (junk ++ replicate (size + size - capacity b) NUL).
    rewrite Hat at 1. rewrite <- app_assoc.
    repeat split; try done.
    + rewrite length_app, length_replicate. lia.
    + rewrite length_app, length_replicate. lia.
  - exists junk. repeat split; try done. lia.
Qed.

Lemma charToBuffer_holds c b s :
  room b s -> holds (_charToBuffer c b) (s ++ [c]).
Proof.
  intros Hroom. unfold _charToBuffer.
  destruct (expand_room b s 2 Hroom ltac:(lia))
    as (junk & Hat & Hjunk & Hlim & Hcap & _).
  destruct junk as [|j0 [|j1 junk]]; cbn in Hjunk; try lia.
  remember (_expandBuffer b 2) as b' eqn:Hb'.
  unfold holds, set_limit, set_at. cbn [at_ limit capacity].
  rewrite Hlim, Hat.
  exists junk. repeat split.
  - rewrite insert_app_r_alt by lia.
    replace (length s - length s) with 0 by lia. cbn.
    rewrite insert_app_r_alt by lia.
    replace (S (length s) - length s) with 1 by lia. cbn.
    by rewrite <- app_assoc.
  - rewrite length_app. cbn. lia.
  - rewrite Hcap, Hat. by rewrite !length_insert.
Qed.

Lemma charToBuffer_cursor c b :
  mark (_charToBuffer c b) = mark b /\
  position (_charToBuffer c b) = position b.
Proof.
  unfold _charToBuffer, _expandBuffer. by destruct (_ <? _).
Qed.

Lemma stringToBuffer_holds text b s :
  room b s -> holds (_stringToBuffer text b) (s ++ c_str text).
Proof.
  intros Hroom. unfold _stringToBuffer, strcpy, strlen.
  destruct (expand_room b s (length (c_str text) + 1) Hroom ltac:(lia))
    as (junk & Hat & Hjunk & Hlim & Hcap & _).
  remember (_expandBuffer b (length (c_str text) + 1)) as b' eqn:Hb'.
  unfold holds, set_limit, set_at. cbn [at_ limit capacity].
  rewrite Hlim, Hat.
  rewrite <- (take_drop (length (c_str text) + 1) junk).
  rewrite write_chars_app
    by (rewrite length_take, length_app; cbn; lia).
  exists (drop (length (c_str text) + 1) junk). repeat split.
  - by rewrite <- !app_assoc.
  - by rewrite length_app.
  - rewrite Hcap, Hat. rewrite !length_app, length_drop. cbn. lia.
Qed.

Lemma stringToBuffer_cursor text b :
  mark (_stringToBuffer text b) = mark b /\
  position (_stringToBuffer text b) = position b.
Proof.
  unfold _stringToBuffer, _expandBuffer. by destruct (_ <? _).
Qed.

(** ** The line of a point value *)

(** What the writer puts for one character of a state: a bracket is
    preceded by the opposite bracket. *)
Definition escape_state (c : ascii) : list ascii :=
  if Ascii.eqb c "[" then ["]"; "["]%char
  else if Ascii.eqb c "]" then ["["; "]"]%char
  else [c].

(** What the writer puts for one character of a value: a quote is
    doubled. *)
Definition escape_value (c : ascii) : list ascii :=
  if Ascii.eqb c QUOTE then [QUOTE; QUOTE] else [c].

Definition state_field (state : option (list ascii)) : list ascii :=
  match state with
  | Some text => chars " [" ++ flat_map escape_state text ++ chars "]"
  | None => []
  end.

Definition value_field (value : option (list ascii)) : list ascii :=
  match value with
  | Some text =>
      [" "%char; QUOTE] ++ flat_map escape_value text ++ [QUOTE]
  | None => []
  end.

Definition pointValue_line (name time : list ascii)
    (state value : option (list ascii)) : list ascii :=
  name ++ chars " " ++ time ++ state_field state ++ value_field value.

Lemma state_to_buffer_holds text :
  forall b s,
    holds b s ->
    holds (state_to_buffer text b) (s ++ flat_map escape_state text).
Proof.
  induction text as [|c text IH]; intros b s Hb; cbn [state_to_buffer flat_map].
  - by rewrite app_nil_r.
  - rewrite app_assoc. apply IH. unfold escape_state.
    destruct (Ascii.eqb_spec c "[") as [->|_];
      [|destruct (Ascii.eqb_spec c "]") as [->|_]].
    + change (s ++ ["]"; "["]%char) with (s ++ ["]"%char] ++ ["["%char]).
      rewrite app_assoc.
      by apply charToBuffer_holds, holds_room, charToBuffer_holds, holds_room.
    + change (s ++ ["["; "]"]%char) with (s ++ ["["%char] ++ ["]"%char]).
      rewrite app_assoc.
      by apply charToBuffer_holds, holds_room, charToBuffer_holds, holds_room.
    + by apply charToBuffer_holds, holds_room.
Qed.

Lemma value_to_buffer_holds text :
  forall b s,
    holds b s ->
    holds (value_to_buffer text b) (s ++ flat_map escape_value text).
Proof.
  induction text as [|c text IH]; intros b s Hb; cbn [value_to_buffer flat_map].
  - by rewrite app_nil_r.
  - rewrite app_assoc. apply IH. unfold escape_value.
    destruct (Ascii.eqb_spec c QUOTE) as [->|_].
    + change (s ++ [QUOTE; QUOTE])
        with (s ++ [QUOTE] ++ [QUOTE]).
      rewrite app_assoc.
      by apply charToBuffer_holds, holds_room, charToBuffer_holds, holds_room.
    + by apply charToBuffer_holds, holds_room.
Qed.

Lemma state_to_buffer_cursor text :
  forall b,
    mark (state_to_buffer text b) = mark b /\
    position (state_to_buffer text b) = position b.
Proof.
  induction text as [|c text IH]; intros b; cbn [state_to_buffer]; [done|].
  destruct (IH (_charToBuffer c
                  (if Ascii.eqb c "[" then _charToBuffer "]" b
                   else if Ascii.eqb c "]" then _charToBuffer "[" b else b)))
    as [-> ->].
  destruct (Ascii.eqb c "["); [|destruct (Ascii.eqb c "]")];
    repeat (destruct (charToBuffer_cursor c b) as [-> ->] ||
            match goal with
            | |- context [mark (_charToBuffer ?x ?y)] =>
                destruct (charToBuffer_cursor x y) as [-> ->]
            end); done.
Qed.

Lemma value_to_buffer_cursor text :
  forall b,
    mark (value_to_buffer text b) = mark b /\
    position (value_to_buffer text b) = position b.
Proof.
  induction text as [|c text IH]; intros b; cbn [value_to_buffer]; [done|].
  destruct (IH (_charToBuffer c
                  (if Ascii.eqb c QUOTE then _charToBuffer QUOTE b else b)))
    as [-> ->].
  destruct (Ascii.eqb c QUOTE);
    repeat match goal with
           | |- context [mark (_charToBuffer ?x ?y)] =>
               destruct (charToBuffer_cursor x y) as [-> ->]
           end; done.
Qed.

(** The strings of a point value as the writer reads them. *)
Definition state_string (pv : rvpf_pipe_pointValue) : option (list ascii) :=
  option_map (fun st => c_str (state_chars st)) (state pv).

Definition value_string (pv : rvpf_pipe_pointValue) : option (list ascii) :=
  option_map c_str (value pv).

Definition line_of (pv : rvpf_pipe_pointValue) : list ascii :=
  pointValue_line (c_str (default [] (pointName pv)))
    (c_str (default [] (stamp pv))) (state_string pv) (value_string pv).

Lemma pointValueToBuffer_holds pv b s :
  room b s ->
  is_Some (pointName pv) -> is_Some (stamp pv) ->
  exists b',
    _pointValueToBuffer pv b = Some b' /\
    holds b' (s ++ line_of pv) /\
    mark b' = mark b /\ position b' = position b.
Proof.
  intros Hb [name Hname] [time Htime].
  unfold _pointValueToBuffer, line_of, pointValue_line, state_string,
    value_string.
  rewrite Hname, Htime. cbn [default]. eexists. split; [reflexivity|].
  pose proof (stringToBuffer_holds name b s Hb) as H1.
  pose proof (charToBuffer_holds " " _ _ (holds_room _ _ H1)) as H2.
  pose proof (stringToBuffer_holds time _ _ (holds_room _ _ H2)) as H3.
  set (b3 := _stringToBuffer time _) in *.
  assert (Hc3 : mark b3 = mark b /\ position b3 = position b).
  { subst b3.
    destruct (stringToBuffer_cursor time
                (_charToBuffer " " (_stringToBuffer name b))) as [-> ->].
    destruct (charToBuffer_cursor " " (_stringToBuffer name b)) as [-> ->].
    apply stringToBuffer_cursor. }
  set (b4 := match state pv with Some _ => _ | None => b3 end).
  assert (H4 : holds b4 (s ++ c_str name ++ chars " " ++ c_str time
                          ++ state_field
                               (option_map (fun st => c_str (state_chars st))
                                  (state pv)))
               /\ mark b4 = mark b /\ position b4 = position b).
  { subst b4. destruct (state pv) as [st|]; cbn [option_map state_field].
    - split.
      + pose proof (stringToBuffer_holds (chars " [") _ _
                      (holds_room _ _ H3)) as H.
        pose proof (state_to_buffer_holds (c_str (state_chars st)) _ _ H)
          as H'.
        pose proof (charToBuffer_holds "]" _ _ (holds_room _ _ H')) as H''.
        revert H''. rewrite <- ?app_assoc. by cbn.
      + destruct (charToBuffer_cursor "]"
                    (state_to_buffer (c_str (state_chars st))
                       (_stringToBuffer (chars " [") b3))) as [-> ->].
        destruct (state_to_buffer_cursor (c_str (state_chars st))
                    (_stringToBuffer (chars " [") b3)) as [-> ->].
        destruct (stringToBuffer_cursor (chars " [") b3) as [-> ->]. done.
    - split; [|done]. revert H3. rewrite <- ?app_assoc, ?app_nil_r. by cbn. }
  destruct H4 as (H4 & Hm4 & Hp4). clearbody b4.
  destruct (value pv) as [v|]; cbn [option_map value_field].
  - split.
    + pose proof (stringToBuffer_holds [" "%char; QUOTE] _ _
                    (holds_room _ _ H4)) as H.
      pose proof (value_to_buffer_holds (c_str v) _ _ H) as H'.
      pose proof (charToBuffer_holds QUOTE _ _ (holds_room _ _ H')) as H''.
      revert H''. rewrite <- ?app_assoc. by cbn.
    + destruct (charToBuffer_cursor QUOTE
                  (value_to_buffer (c_str v)
                     (_stringToBuffer [" "%char; QUOTE] b4))) as [-> ->].
      destruct (value_to_buffer_cursor (c_str v)
                  (_stringToBuffer [" "%char; QUOTE] b4)) as [-> ->].
      destruct (stringToBuffer_cursor [" "%char; QUOTE] b4) as [-> ->]. done.
  - split; [|done]. revert H4. rewrite <- ?app_assoc, ?app_nil_r. by cbn.
Qed.

Lemma nul_free_app s t : nul_free s -> nul_free t -> nul_free (s ++ t).
Proof. unfold nul_free. intros Hs Ht [?|?]%elem_of_app; tauto. Qed.

Lemma nul_free_flat_map (f : ascii -> list ascii) s :
  (forall c, c <> NUL -> nul_free (f c)) ->
  nul_free s -> nul_free (flat_map f s).
Proof.
  intros Hf. induction s as [|c s IH]; intros Hs; cbn.
  - by intros ?%elem_of_nil.
  - apply nul_free_app.
    + apply Hf. intros ->. apply Hs. left.
    + apply IH. intros ?. apply Hs. by right.
Qed.

Lemma nul_free_chars_lit (s : list ascii) :
  forallb (fun c => negb (Ascii.eqb c NUL)) s = true -> nul_free s.
Proof.
  unfold nul_free. induction s as [|c s IH]; cbn.
  - by intros _ ?%elem_of_nil.
  - intros [Hc Hs]%andb_prop [E|?]%elem_of_cons; [|by apply IH].
    subst c. discriminate Hc.
Qed.

Lemma nul_free_singleton c : c <> NUL -> nul_free [c].
Proof.
  intros Hc [E|H]%elem_of_cons; [by subst c|]. by apply elem_of_nil in H.
Qed.

Lemma nul_free_escape_state c : c <> NUL -> nul_free (escape_state c).
Proof.
  intros Hc. unfold escape_state.
  destruct (Ascii.eqb c "["); [by apply nul_free_chars_lit|].
  destruct (Ascii.eqb c "]"); [by apply nul_free_chars_lit|].
  by apply nul_free_singleton.
Qed.

Lemma nul_free_escape_value c : c <> NUL -> nul_free (escape_value c).
Proof.
  intros Hc. unfold escape_value.
  destruct (Ascii.eqb c QUOTE); [by apply nul_free_chars_lit|].
  by apply nul_free_singleton.
Qed.

Lemma nul_free_line_of pv : nul_free (line_of pv).
Proof.
  unfold line_of, pointValue_line, state_string, value_string.
  repeat apply nul_free_app; try apply c_str_nul_free_self;
    try (by apply nul_free_chars_lit).
  - destruct (state pv) as [st|]; cbn; [|by intros ?%elem_of_nil].
    apply (nul_free_app [" "; "["]%char); [by apply nul_free_chars_lit|].
    apply nul_free_app; [|by apply nul_free_chars_lit].
    apply nul_free_flat_map; [apply nul_free_escape_state|].
    apply c_str_nul_free_self.
  - destruct (value pv) as [v|]; cbn; [|by intros ?%elem_of_nil].
    apply (nul_free_app [" "%char; QUOTE]); [by apply nul_free_chars_lit|].
    apply nul_free_app; [|by apply nul_free_chars_lit].
    apply nul_free_flat_map; [apply nul_free_escape_value|].
    apply c_str_nul_free_self.
Qed.

(** ** Responses to engine requests *)

Lemma nul_free_string_of_uint u :
  nul_free (chars (DecimalString.NilZero.string_of_uint u)).
Proof.
  destruct u as [|u|u|u|u|u|u|u|u|u|u]; cbn;
    try (by apply nul_free_chars_lit);
    (apply (nul_free_app [_]); [by apply nul_free_chars_lit|]);
    induction u as [|u IH|u IH|u IH|u IH|u IH|u IH|u IH|u IH|u IH|u IH];
    cbn; try (by intros ?%elem_of_nil);
    (apply (nul_free_app [_]); [by apply nul_free_chars_lit|exact IH]).
Qed.

Lemma nul_free_int_digits z : nul_free (int_digits z).
Proof.
  unfold int_digits, DecimalString.NilZero.string_of_int.
  destruct (Z.to_int z) as [u|u].
  - apply nul_free_string_of_uint.
  - cbn. apply (nul_free_app ["-"%char]); [by apply nul_free_chars_lit|].
    apply nul_free_string_of_uint.
Qed.

Lemma flushBuffer_holds b s w :
  holds b s -> nul_free s ->
  _flushBuffer b w =
    Return (_resetBuffer b)
      {| stdin := stdin w; stdout := stdout w ++ s ++ [LF];
         rvpf_pipe_status := rvpf_pipe_status w |}.
Proof.
  intros Hb Hs. unfold _flushBuffer, fputs. cbn.
  rewrite (holds_string_at b s Hb Hs). by rewrite <- app_assoc.
Qed.

(** The response line of a request. *)
Definition response_line (id : list ascii) (summary : Z) : list ascii :=
  id ++ chars " " ++ int_digits summary.

(** The lines of a list of point values, each with its newline. *)
Definition lines_of (pvs : list rvpf_pipe_pointValue) : list ascii :=
  flat_map (fun pv => line_of pv ++ [LF]) pvs.

Definition has_name_and_stamp (pv : rvpf_pipe_pointValue) : Prop :=
  is_Some (pointName pv) /\ is_Some (stamp pv).

Lemma send_pointValue_stdout pv b s w :
  room b s -> s = [] -> has_name_and_stamp pv ->
  exists b',
    send_pointValue pv b w =
      Return b'
        {| stdin := stdin w; stdout := stdout w ++ line_of pv ++ [LF];
           rvpf_pipe_status := rvpf_pipe_status w |} /\
    room b' [].
Proof.
  intros Hb -> [Hn Ht]. unfold send_pointValue.
  destruct (pointValueToBuffer_holds pv b [] Hb Hn Ht)
    as (b' & -> & Hb' & _).
  exists (_resetBuffer b'). split.
  - apply flushBuffer_holds; [exact Hb'|apply nul_free_line_of].
  - eapply room_reset, holds_room, Hb'.
Qed.

Lemma send_results_stdout chain :
  forall b w,
    room b [] -> Forall has_name_and_stamp chain ->
    exists b',
      send_results chain b w =
        Return b'
          {| stdin := stdin w; stdout := stdout w ++ lines_of chain;
             rvpf_pipe_status := rvpf_pipe_status w |} /\
      room b' [].
Proof.
  induction chain as [|pv chain IH]; intros b w Hb Hall.
  - exists b. cbn. rewrite app_nil_r. by destruct w.
  - apply Forall_cons in Hall as [Hpv Hall]. cbn [send_results].
    destruct (send_pointValue_stdout pv b [] w Hb eq_refl Hpv)
      as (b1 & H1 & Hb1).
    unfold bind at 1. rewrite H1.
    destruct (IH b1 {| stdin := stdin w;
                       stdout := stdout w ++ line_of pv ++ [LF];
                       rvpf_pipe_status := rvpf_pipe_status w |} Hb1 Hall)
      as (b2 & H2 & Hb2).
    exists b2. split; [|done]. rewrite H2. cbn.
    by rewrite <- !app_assoc.
Qed.

(** The summary of the amended C1, from the seed result and the chain of
    extra results. *)
Definition expected_summary (request : rvpf_pipe_engineRequest) : Z :=
  let extras := Z.of_nat (length (results request)) in
  match result request with
  | None => if (extras =? 0)%Z then (-1)%Z else extras
  | Some seed =>
      match value seed with
      | None => if (extras =? 0)%Z then 0%Z else (1 + extras)%Z
      | Some _ => (1 + extras)%Z
      end
  end.

Lemma to_jint_small z : (- 2 ^ 31 <= z < 2 ^ 31)%Z -> to_jint z = z.
Proof.
  intros H. unfold to_jint, wrap_signed.
  rewrite Z.mod_small; lia.
Qed.

Lemma engine_summary_expected request :
  results_count request = Z.of_nat (length (results request)) ->
  (Z.of_nat (length (results request)) < 2 ^ 31 - 1)%Z ->
  engine_summary request = expected_summary request.
Proof.
  intros Hcount Hsmall. unfold engine_summary, expected_summary.
  rewrite Hcount.
  destruct (result request) as [seed|].
  - rewrite to_jint_small by lia.
    destruct (value seed); cbn [orb]; [done|].
    by destruct (Z.eqb_spec (Z.of_nat (length (results request))) 0).
  - by destruct (Z.eqb_spec (Z.of_nat (length (results request))) 0).
Qed.

Definition seed_list (request : rvpf_pipe_engineRequest)
    : list rvpf_pipe_pointValue :=
  match result request with
  | Some seed => [seed]
  | None => []
  end.

Lemma endEngineRequest_stdout request id s w :
  requestID (control request) = Some id ->
  room (buffer (control request)) s ->
  Forall has_name_and_stamp (results request ++ seed_list request) ->
  rvpf_pipe_endEngineRequest (Some request) w =
    Return tt
      {| stdin := stdin w;
         stdout :=
           stdout w
           ++ response_line (c_str id) (engine_summary request) ++ [LF]
           ++ (if (0 <? engine_summary request)%Z
               then lines_of (results request ++ seed_list request)
               else []);
         rvpf_pipe_status := rvpf_pipe_status w |}.
Proof.
  intros Hid Hb Hall. unfold rvpf_pipe_endEngineRequest. rewrite Hid.
  apply Forall_app in Hall as [Hres Hseed].
  pose proof (room_reset _ _ Hb) as H0.
  pose proof (stringToBuffer_holds id _ _ H0) as H1.
  pose proof (stringToBuffer_holds (chars " ") _ _ (holds_room _ _ H1)) as H2.
  pose proof (stringToBuffer_holds (int_digits (engine_summary request)) _ _
                (holds_room _ _ H2)) as H3.
  rewrite (c_str_id (int_digits _)) in H3 by apply nul_free_int_digits.
  change (c_str (chars " ")) with (chars " ") in H3.
  rewrite <- !app_assoc in H3. cbn [app] in H3.
  unfold bind at 1. unfold _intToBuffer.
  rewrite (flushBuffer_holds _ _ w H3).
  2:{ apply nul_free_app; [apply c_str_nul_free_self|].
      apply (nul_free_app [" "%char]); [by apply nul_free_chars_lit|].
      apply nul_free_int_digits. }
  destruct (0 <? engine_summary request)%Z.
  - unfold bind at 1.
    match goal with
    | |- context [send_results _ ?b ?w'] =>
        destruct (send_results_stdout (results request) b w'
                    (room_reset _ _ (holds_room _ _ H3)) Hres)
          as (b1 & -> & Hb1)
    end.
    unfold seed_list in *. destruct (result request) as [seed|].
    + apply Forall_cons in Hseed as [Hseed _]. cbn [stdin stdout rvpf_pipe_status].
      unfold bind.
      match goal with
      | |- context [send_pointValue _ _ ?w'] =>
          destruct (send_pointValue_stdout seed b1 [] w' Hb1 eq_refl Hseed)
            as (b2 & H2' & _)
      end.
      rewrite H2'. unfold ret, response_line, lines_of.
      rewrite flat_map_app. cbn [flat_map stdin stdout rvpf_pipe_status].
      by rewrite <- ?app_assoc, ?app_nil_r.
    + unfold ret, response_line. cbn [stdin stdout rvpf_pipe_status].
      by rewrite <- ?app_assoc, ?app_nil_r.
  - unfold ret, response_line. by rewrite <- ?app_assoc, ?app_nil_r.
Qed.

(** C4 (amended): in the line [_pointValueToBuffer] writes, the state is
    put between brackets with every '[' of it written as the two
    characters ']' '[' and every ']' as '[' ']', and the value between
    quotes with every quote doubled; the other characters are written as
    they are. *)
Theorem pointValueToBuffer_escapes pv b :
  room b [] ->
  is_Some (pointName pv) -> is_Some (stamp pv) ->
  (exists b',
     _pointValueToBuffer pv b = Some b' /\
     string_at (at_ b') 0 =
       c_str (default [] (pointName pv)) ++ chars " "
       ++ c_str (default [] (stamp pv))
       ++ state_field (state_string pv) ++ value_field (value_string pv)) /\
  escape_state "[" = ["]"; "["]%char /\
  escape_state "]" = ["["; "]"]%char /\
  escape_value QUOTE = [QUOTE; QUOTE] /\
  (forall c, c <> "["%char -> c <> "]"%char -> escape_state c = [c]) /\
  (forall c, c <> QUOTE -> escape_value c = [c]).
Proof.
  intros Hb Hn Ht. split; [|repeat split].
  - destruct (pointValueToBuffer_holds pv b [] Hb Hn Ht) as (b' & E & H & _).
    exists b'. split; [exact E|].
    apply (holds_string_at b' _ H), nul_free_line_of.
  - intros c H1 H2. unfold escape_state.
    destruct (Ascii.eqb_spec c "["); [done|].
    by destruct (Ascii.eqb_spec c "]").
  - intros c H. unfold escape_value. by destruct (Ascii.eqb_spec c QUOTE).
Qed.

Definition bracketed_pointValue : rvpf_pipe_pointValue :=
  {| pointName := Some (chars "P"); stamp := Some (chars "S");
     state := Some (StateText (chars "[x]"));
     value := Some (chars "a" ++ [QUOTE] ++ chars "b") |}.

Lemma pointValueToBuffer_escapes_witness :
  exists b',
    _pointValueToBuffer bracketed_pointValue new_buffer = Some b' /\
    string_at (at_ b') 0 =
      chars "P S [][x[]] " ++ [QUOTE] ++ chars "a" ++ [QUOTE; QUOTE]
      ++ chars "b" ++ [QUOTE].
Proof.
  exact (proj1 (pointValueToBuffer_escapes bracketed_pointValue new_buffer
                  room_new_buffer
                  (ex_intro _ (chars "P") eq_refl)
                  (ex_intro _ (chars "S") eq_refl))).
Defined.

(** The escapes of the state as C4 words them: each bracket replaced by
    the opposite bracket, twice. *)
Definition doubled_escape_state (c : ascii) : list ascii :=
  if Ascii.eqb c "[" then ["]"; "]"]%char
  else if Ascii.eqb c "]" then ["["; "["]%char
  else [c].

(** C4 as stated fails: the state "[x]" is written "[][x[]]", not
    "[]]x[[]". *)
Lemma state_brackets_are_not_doubled :
  let pv :=
    {| pointName := Some (chars "P"); stamp := Some (chars "S");
       state := Some (StateText (chars "[x]")); value := None |} in
  option_map (fun b => string_at (at_ b) 0)
    (_pointValueToBuffer pv new_buffer) = Some (chars "P S [][x[]]") /\
  chars "P S [][x[]]" <>
    chars "P S [" ++ flat_map doubled_escape_state (chars "[x]") ++ chars "]".
Proof. split; [reflexivity|discriminate]. Qed.

(** C1 (amended): on a request whose counter of extra results agrees with
    the chain, [rvpf_pipe_endEngineRequest] writes the request ID, a space
    and a summary that is -1 when the result was cleared and there is no
    extra result, the count of extra results when the result was cleared
    and there are some, 0 when the seed result is still there without a
    value and without extra results, and 1 plus the count of extra results
    otherwise; when the summary is positive the extra results follow, then
    the seed result if it is still there. *)
Theorem endEngineRequest_summary request id s w :
  requestID (control request) = Some id ->
  room (buffer (control request)) s ->
  Forall has_name_and_stamp (results request ++ seed_list request) ->
  results_count request = Z.of_nat (length (results request)) ->
  (Z.of_nat (length (results request)) < 2 ^ 31 - 1)%Z ->
  rvpf_pipe_endEngineRequest (Some request) w =
    Return tt
      {| stdin := stdin w;
         stdout :=
           stdout w
           ++ response_line (c_str id) (expected_summary request) ++ [LF]
           ++ (if (0 <? expected_summary request)%Z
               then lines_of (results request ++ seed_list request)
               else []);
         rvpf_pipe_status := rvpf_pipe_status w |}.
Proof.
  intros Hid Hb Hall Hcount Hsmall.
  rewrite <- (engine_summary_expected request Hcount Hsmall).
  by eapply endEngineRequest_stdout.
Qed.

(** A request "42" whose seed result is still there, without a value and
    without extra results. *)
Definition seed_only_request : rvpf_pipe_engineRequest :=
  {| control :=
       {| requestID := Some (chars "42"); version := 1;
          buffer := new_buffer |};
     transformParams := []; transformParams_count := 0;
     pointParams := []; pointParams_count := 0;
     inputs := []; inputs_count := 0;
     result :=
       Some {| pointName := Some (chars "P");
               stamp := Some (chars "2020-01-01T00:00:00");
               state := None; value := None |};
     results := []; results_count := 0 |}.

Definition idle_world : world :=
  {| stdin := []; stdout := []; rvpf_pipe_status := RVPF_PIPE_STATUS_OK |}.

Lemma endEngineRequest_summary_witness :
  rvpf_pipe_endEngineRequest (Some seed_only_request) idle_world =
    Return tt
      {| stdin := []; stdout := chars "42 0" ++ [LF];
         rvpf_pipe_status := RVPF_PIPE_STATUS_OK |}.
Proof.
  rewrite (endEngineRequest_summary seed_only_request (chars "42") []
             idle_world eq_refl room_new_buffer).
  - reflexivity.
  - repeat constructor; by eexists.
  - reflexivity.
  - reflexivity.
Defined.

(** C1 as stated fails: with the seed result present, no value and no
    extra results, the response is "42 0" and not "42 -1". *)
Lemma seed_without_value_reports_zero :
  exists w',
    rvpf_pipe_endEngineRequest (Some seed_only_request) idle_world =
      Return tt w' /\
    stdout w' = chars "42 0" ++ [LF] /\
    stdout w' <> response_line (chars "42") (-1) ++ [LF].
Proof.
  exists {| stdin := []; stdout := chars "42 0" ++ [LF];
            rvpf_pipe_status := RVPF_PIPE_STATUS_OK |}.
  split; [by vm_compute|]. split; [reflexivity|discriminate].
Qed.

(** ** Lines read from the standard input *)

(** White space other than the newline. *)
Definition blank (c : ascii) : Prop := isspace c = true /\ c <> LF.

(** A line without its carriage returns. *)
Definition strip_cr (s : list ascii) : list ascii :=
  List.filter (fun c => negb (Ascii.eqb c CR)) s.

(** A text that starts and ends with a character that is no white
    space. *)
Definition trimmed (s : list ascii) : Prop :=
  (exists a tail, s = a :: tail /\ isspace a = false) /\
  (exists front z, s = front ++ [z] /\ isspace z = false).

Lemma nextLine_loop_blank ws :
  forall input b,
    limit b = 0 -> Forall blank ws ->
    _nextLine_loop (ws ++ input) b = _nextLine_loop input b.
Proof.
  induction ws as [|c ws IH]; intros input b Hlim Hws; [done|].
  apply Forall_cons in Hws as [[Hsp Hlf] Hws]. cbn [app _nextLine_loop].
  destruct (Ascii.eqb_spec c LF) as [?|_]; [done|].
  rewrite Hlim, Hsp. cbn. rewrite andb_false_r. by apply IH.
Qed.

(** One character stored by the loop. *)
Lemma store_room b s c :
  room b s ->
  let b1 := _expandBuffer b 2 in
  let b2 := set_at b1 (<[limit b1 := c]> (at_ b1)) in
  room (set_limit b2 (S (limit b2))) (s ++ [c]) /\
  mark (set_limit b2 (S (limit b2))) = mark b /\
  position (set_limit b2 (S (limit b2))) = position b.
Proof.
  intros Hroom.
  destruct (expand_room b s 2 Hroom ltac:(lia))
    as (junk & Hat & Hjunk & Hlim & Hcap & Hm & Hp).
  destruct junk as [|j0 [|j1 junk]]; cbn in Hjunk; try lia.
  remember (_expandBuffer b 2) as b1 eqn:Hb1. cbn zeta.
  unfold room, set_limit, set_at. cbn [at_ limit capacity mark position].
  split; [|done]. exists (j1 :: junk). rewrite Hlim, Hat.
  rewrite insert_app_r_alt by lia.
  replace (length s - length s) with 0 by lia. cbn [insert list_insert].
  split; [by rewrite <- app_assoc|]. split; [done|]. split.
  - rewrite length_app. cbn. lia.
  - rewrite Hcap, Hat. rewrite !length_app. cbn. lia.
Qed.

Lemma nextLine_loop_store body :
  forall input b s,
    room b s -> s <> [] -> LF ∉ body ->
    exists b',
      _nextLine_loop (body ++ input) b = _nextLine_loop input b' /\
      room b' (s ++ strip_cr body) /\
      mark b' = mark b /\ position b' = position b.
Proof.
  induction body as [|c body IH]; intros input b s Hroom Hs Hlf.
  - exists b. cbn. by rewrite app_nil_r.
  - cbn [app _nextLine_loop].
    destruct (Ascii.eqb_spec c LF) as [->|_];
      [exfalso; apply Hlf; left|].
    assert (Hlim : (limit b =? 0) = false).
    { destruct Hroom as (junk & _ & _ & -> & _).
      destruct s; [done|]. by cbn. }
    assert (Hlf' : LF ∉ body) by (intros ?; apply Hlf; by right).
    rewrite Hlim. cbn [negb orb]. rewrite andb_true_r.
    cbn [strip_cr List.filter].
    destruct (Ascii.eqb_spec c CR) as [->|Hcr]; cbn [negb].
    + by apply IH.
    + destruct (store_room b s c Hroom) as (Hroom' & Hm & Hp).
      destruct (IH input _ (s ++ [c]) Hroom') as (b' & E & Hb' & Hm' & Hp');
        [by destruct s|done|].
      exists b'. split; [exact E|]. rewrite <- app_assoc in Hb'.
      split; [exact Hb'|]. by rewrite Hm', Hp'.
Qed.

Lemma isspace_LF : isspace LF = true.
Proof. reflexivity. Qed.

Lemma isspace_CR : isspace CR = true.
Proof. reflexivity. Qed.

Lemma peek_app_r pre c post : peek (pre ++ c :: post) (length pre) = c.
Proof. unfold peek. by rewrite list_lookup_middle. Qed.

Lemma drop_trailing_spaces_app ws :
  forall x junk,
    Forall (fun c => isspace c = true) ws ->
    (x = [] \/ exists front z, x = front ++ [z] /\ isspace z = false) ->
    drop_trailing_spaces (x ++ ws ++ junk) (length x + length ws) = length x.
Proof.
  induction ws as [|c ws IH] using rev_ind; intros x junk Hws Hx.
  - cbn. rewrite Nat.add_0_r.
    destruct Hx as [->|(front & z & -> & Hz)]; [done|].
    rewrite length_app. cbn [length]. rewrite Nat.add_1_r.
    cbn [drop_trailing_spaces]. rewrite <- app_assoc. cbn [app].
    by rewrite peek_app_r, Hz.
  - apply Forall_app in Hws as [Hws Hc].
    apply Forall_cons in Hc as [Hc _].
    rewrite length_app. cbn [length].
    replace (length x + (length ws + 1)) with (S (length x + length ws))
      by lia.
    cbn [drop_trailing_spaces].
    replace (x ++ (ws ++ [c]) ++ junk) with ((x ++ ws) ++ c :: junk)
      by (by rewrite <- !app_assoc).
    replace (length x + length ws) with (length (x ++ ws))
      by (by rewrite length_app).
    rewrite peek_app_r, Hc.
    rewrite length_app, <- app_assoc.
    change (c :: junk) with ([c] ++ junk).
    by apply IH.
Qed.

Lemma strip_cr_blank ws :
  Forall blank ws -> Forall (fun c => isspace c = true) (strip_cr ws).
Proof.
  induction ws as [|c ws IH]; intros H; cbn; [constructor|].
  apply Forall_cons in H as [[Hc _] H].
  destruct (negb (Ascii.eqb c CR)); [constructor|]; auto.
Qed.

Lemma strip_cr_app s t : strip_cr (s ++ t) = strip_cr s ++ strip_cr t.
Proof. apply List.filter_app. Qed.

Lemma strip_cr_trimmed body :
  trimmed body ->
  (exists a tail, strip_cr body = a :: tail /\ isspace a = false) /\
  (exists front z, strip_cr body = front ++ [z] /\ isspace z = false).
Proof.
  intros [(a & tail & Ea & Ha) (front & z & Ez & Hz)]. split.
  - exists a, (strip_cr tail). rewrite Ea. cbn.
    destruct (Ascii.eqb_spec a CR) as [->|_]; [by rewrite isspace_CR in Ha|].
    done.
  - exists (strip_cr front), z. rewrite Ez, strip_cr_app. cbn.
    destruct (Ascii.eqb_spec z CR) as [->|_]; [by rewrite isspace_CR in Hz|].
    done.
Qed.

(** The line [_nextLine] returns: the first line of the input that is not
    blank, without its carriage returns and the white space around it. *)
Lemma nextLine_line ws body ws' rest b s required w :
  stdin w = ws ++ body ++ ws' ++ LF :: rest ->
  Forall blank ws -> Forall blank ws' -> trimmed body -> LF ∉ body ->
  room b s ->
  exists b',
    _nextLine b required w = Return (Some 0, b') (set_stdin w rest) /\
    holds b' (strip_cr body) /\ mark b' = 0 /\ position b' = 0.
Proof.
  intros Hin Hws Hws' Htrim Hlf Hroom. unfold _nextLine. rewrite Hin.
  rewrite nextLine_loop_blank by done.
  pose proof (strip_cr_trimmed body Htrim) as [_ Hlast].
  destruct Htrim as [(a & tail & -> & Ha) _].
  cbn [app _nextLine_loop].
  destruct (Ascii.eqb_spec a LF) as [->|_]; [by rewrite isspace_LF in Ha|].
  destruct (Ascii.eqb_spec a CR) as [->|Hcr]; [by rewrite isspace_CR in Ha|].
  rewrite Ha. cbn [negb andb orb]. rewrite orb_true_r.
  destruct (store_room (_resetBuffer b) [] a (room_reset _ _ Hroom))
    as (Hroom1 & Hm1 & Hp1).
  match type of Hroom1 with room ?b1 _ => set (bb := b1) in * end.
  assert (Hlf' : LF ∉ tail ++ ws').
  { intros [H|H]%elem_of_app.
    - apply Hlf. by right.
    - rewrite Forall_forall in Hws'. by destruct (Hws' _ H). }
  rewrite (app_assoc tail ws').
  destruct (nextLine_loop_store (tail ++ ws') (LF :: rest) bb ([] ++ [a])
              Hroom1 (ltac:(done)) Hlf') as (b2 & -> & Hroom2 & Hm2 & Hp2).
  cbn [_nextLine_loop]. rewrite Ascii.eqb_refl.
  destruct Hroom2 as (junk & Hat & Hjunk & Hlim & Hcap).
  assert (Hbody : strip_cr (a :: tail) = a :: strip_cr tail).
  { cbn. by destruct (Ascii.eqb_spec a CR). }
  rewrite Hbody in Hlast. rewrite strip_cr_app in Hat, Hlim.
  cbn [app] in Hat, Hlim.
  set (x := a :: strip_cr tail) in *.
  assert (Hat' : at_ b2 = x ++ strip_cr ws' ++ junk)
    by (rewrite Hat; subst x; cbn [app]; by rewrite <- app_assoc).
  assert (Hlim' : limit b2 = length x + length (strip_cr ws'))
    by (rewrite Hlim; subst x; cbn [length]; by rewrite length_app).
  clear Hat Hlim.
  assert (Hdrop : drop_trailing_spaces (at_ b2) (limit b2) = length x).
  { rewrite Hat', Hlim'.
    apply drop_trailing_spaces_app; [by apply strip_cr_blank|by right]. }
  unfold set_limit at 1. cbn [limit]. rewrite Hdrop.
  replace (length x =? 0) with false by (by subst x).
  eexists. split; [reflexivity|].
  unfold holds, set_limit, set_at. cbn [at_ limit capacity mark position].
  rewrite Hbody. fold x. split; [|by rewrite Hm2, Hp2, Hm1, Hp1].
  destruct (strip_cr ws' ++ junk) as [|j' junk'] eqn:E.
  { apply app_eq_nil in E as [_ ->]. done. }
  exists junk'. rewrite Hat', insert_app_r_alt by lia.
  replace (length x - length x) with 0 by lia. cbn [insert list_insert].
  split; [done|]. split; [done|].
  rewrite Hcap, Hat'. rewrite !length_app. by cbn.
Qed.

Lemma nextLine_blank_line ws rest b required w :
  stdin w = ws ++ LF :: rest -> Forall blank ws ->
  _nextLine b required w = _nextLine b required (set_stdin w rest).
Proof.
  intros Hin Hws. unfold _nextLine. rewrite Hin.
  rewrite nextLine_loop_blank by done.
  cbn [_nextLine_loop]. rewrite Ascii.eqb_refl. reflexivity.
Qed.

Lemma nextLine_loop_length input :
  forall b found b' rest,
    _nextLine_loop input b = (found, b', rest) ->
    if found then length rest < length input else rest = [].
Proof.
  induction input as [|c input IH]; intros b found b' rest; cbn.
  - by intros [= <- <- <-].
  - destruct (Ascii.eqb c LF).
    + destruct (_ =? 0).
      * intros H. specialize (IH _ _ _ _ H). destruct found; [lia|done].
      * intros [= <- <- <-]. lia.
    + destruct (_ && _); intros H; specialize (IH _ _ _ _ H);
        destruct found; try lia; done.
Qed.

Lemma nextLine_consumes b required w line b' w' :
  _nextLine b required w = Return (Some line, b') w' ->
  length (stdin w') < length (stdin w).
Proof.
  unfold _nextLine.
  destruct (_nextLine_loop (stdin w) (_resetBuffer b))
    as [[found b1] rest] eqn:E.
  apply nextLine_loop_length in E.
  destruct found.
  - by intros [= <- <- <-].
  - destruct required; [discriminate|]. intros [=].
Qed.

(** The turns [_firstLine] allows are never used up. *)
Lemma firstLine_loop_turns n :
  forall m b w,
    length (stdin w) < n -> length (stdin w) < m ->
    _firstLine_loop n b w = _firstLine_loop m b w.
Proof.
  induction n as [|n IH]; intros m b w Hn Hm; [lia|].
  destruct m as [|m]; [lia|]. cbn [_firstLine_loop]. unfold bind at 1 3.
  destruct (_nextLine b false w) as [[line b1] w1| |] eqn:E; try done.
  destruct line as [p|]; [|done].
  apply nextLine_consumes in E.
  destruct (has_space _); [done|]. destruct (decide _); [done|].
  unfold bind, _flushBuffer. apply IH; cbn; lia.
Qed.

Lemma has_space_holds b s :
  holds b s -> nul_free s -> " "%char ∉ s ->
  has_space (drop 0 (at_ b)) = false.
Proof.
  intros (junk & -> & _) Hnul Hsp. unfold has_space.
  rewrite drop_0, c_str_nul_free by done.
  apply not_true_is_false. intros (c & Hin & Hc)%existsb_exists.
  apply Ascii.eqb_eq in Hc as ->. apply Hsp. by apply list_elem_of_In.
Qed.

Lemma elem_of_strip_cr c s : c ∈ strip_cr s -> c ∈ s.
Proof.
  unfold strip_cr. rewrite !list_elem_of_In, List.filter_In. tauto.
Qed.

Lemma strip_cr_id s : CR ∉ s -> strip_cr s = s.
Proof.
  induction s as [|c s IH]; intros H; cbn; [done|].
  destruct (Ascii.eqb_spec c CR) as [->|_]; [exfalso; apply H; left|].
  cbn. f_equal. apply IH. intros ?. apply H. by right.
Qed.

(** Without a required line, [_nextLine] always returns, and writes
    nothing. *)
Lemma nextLine_optional b w :
  exists line b' w',
    _nextLine b false w = Return (line, b') w' /\ stdout w' = stdout w.
Proof.
  unfold _nextLine.
  destruct (_nextLine_loop (stdin w) (_resetBuffer b)) as [[found b1] rest].
  destruct found; eexists _, _, _; split; reflexivity.
Qed.

(** [_firstLine] returns, and what it wrote comes after what the standard
    output had. *)
Lemma firstLine_loop_returns n :
  forall b w,
    length (stdin w) < n ->
    exists line b' w' more,
      _firstLine_loop n b w = Return (line, b') w' /\
      stdout w' = stdout w ++ more.
Proof.
  induction n as [|n IH]; intros b w Hn; [lia|].
  cbn [_firstLine_loop]. unfold bind at 1.
  destruct (nextLine_optional b w) as (line & b1 & w1 & E & Hout).
  rewrite E. destruct line as [p|].
  - apply nextLine_consumes in E.
    destruct (has_space _).
    { eexists _, _, _, []. split; [reflexivity|]. by rewrite app_nil_r. }
    destruct (decide _).
    { eexists _, _, _, []. split; [reflexivity|]. by rewrite app_nil_r. }
    unfold bind, _flushBuffer.
    match goal with
    | |- context [_firstLine_loop n ?b2 ?w2] =>
        destruct (IH b2 w2) as (line & b' & w' & more & -> & Hw');
          [cbn; lia|]
    end.
    eexists _, _, _, _. split; [reflexivity|].
    rewrite Hw'. cbn [stdout fputs]. rewrite Hout, <- !app_assoc.
    reflexivity.
  - eexists _, _, _, []. split; [reflexivity|]. by rewrite app_nil_r.
Qed.

(** C9 (amended): while [_firstLine] scans, a line that is not blank, has
    no space and no NUL in it and is not "0" once its carriage returns
    and the white space around it are taken off, is written to the
    standard output in that trimmed form, followed by a newline, and the
    scan goes on with the rest of the input: the call returns what the
    scan of the rest returns, and the standard output it leaves has the
    trimmed line and the newline right after what was there before. The
    line is written as it was read when there was nothing to take off.
    A blank line is skipped and nothing is written for it: the call
    returns what the scan of the rest of the input returns. *)
Theorem firstLine_echoes_trimmed_line b s w :
  room b s ->
  (forall ws body ws' rest,
     stdin w = ws ++ body ++ ws' ++ LF :: rest ->
     Forall blank ws -> Forall blank ws' -> trimmed body ->
     LF ∉ body -> NUL ∉ body -> " "%char ∉ body ->
     strip_cr body <> chars "0" ->
     (exists b1 line b' w' more,
        room b1 [] /\
        _firstLine b w = Return (line, b') w' /\
        _firstLine b1
          {| stdin := rest;
             stdout := stdout w ++ strip_cr body ++ [LF];
             rvpf_pipe_status := rvpf_pipe_status w |} =
          Return (line, b') w' /\
        stdout w' = stdout w ++ strip_cr body ++ [LF] ++ more) /\
     (CR ∉ body -> strip_cr body = body)) /\
  (forall ws rest,
     stdin w = ws ++ LF :: rest -> Forall blank ws ->
     exists line b' w',
       _firstLine b w = Return (line, b') w' /\
       _firstLine b (set_stdin w rest) = Return (line, b') w').
Proof.
  intros Hroom. split.
  - intros ws body ws' rest Hin Hws Hws' Htrim Hlf Hnul Hsp Hzero.
    split; [|apply strip_cr_id].
    destruct (nextLine_line ws body ws' rest b s false w Hin Hws Hws' Htrim
                Hlf Hroom) as (b1 & E & Hb1 & _).
    assert (Hnul' : nul_free (strip_cr body))
      by (intros ?%elem_of_strip_cr; by apply Hnul).
    assert (Hsp' : " "%char ∉ strip_cr body)
      by (intros ?%elem_of_strip_cr; by apply Hsp).
    set (w1 := {| stdin := rest;
                  stdout := stdout w ++ strip_cr body ++ [LF];
                  rvpf_pipe_status := rvpf_pipe_status w |}).
    assert (Hstep : _firstLine b w = _firstLine (_resetBuffer b1) w1).
    { unfold _firstLine at 1. cbn [_firstLine_loop]. unfold bind at 1.
      rewrite E. rewrite (has_space_holds b1 _ Hb1 Hnul' Hsp').
      rewrite (holds_string_at b1 _ Hb1 Hnul').
      destruct (decide _) as [?|_]; [done|].
      unfold bind. rewrite (flushBuffer_holds b1 _ _ Hb1 Hnul').
      unfold _firstLine. apply firstLine_loop_turns; cbn; [|lia].
      rewrite Hin, !length_app. cbn. lia. }
    destruct (firstLine_loop_returns (S (length (stdin w1)))
                (_resetBuffer b1) w1)
      as (line & b' & w' & more & Hret & Hout); [lia|].
    exists (_resetBuffer b1), line, b', w', more.
    split; [eapply room_reset, holds_room, Hb1|].
    split; [by rewrite Hstep|]. split; [exact Hret|].
    rewrite Hout. subst w1. cbn [stdout]. by rewrite <- !app_assoc.
  - intros ws rest Hin Hws.
    destruct (firstLine_loop_returns (S (length (stdin (set_stdin w rest))))
                b (set_stdin w rest))
      as (line & b' & w' & more & Hret & _); [lia|].
    exists line, b', w'. split; [|exact Hret].
    rewrite <- Hret. unfold _firstLine.
    rewrite (firstLine_loop_turns (S (length (stdin (set_stdin w rest))))
               (S (length (stdin w))) b (set_stdin w rest)).
    + cbn [_firstLine_loop]. unfold bind at 1 3.
      by rewrite (nextLine_blank_line ws rest b false w Hin Hws).
    + lia.
    + cbn. rewrite Hin, length_app. cbn. lia.
Qed.

Definition TAB : ascii := ascii_of_nat 9.

Lemma firstLine_echoes_trimmed_line_witness :
  exists b1 line b' w' more,
    room b1 [] /\
    _firstLine new_buffer
      {| stdin := [TAB] ++ chars "abc" ++ [CR] ++ LF :: chars "0";
         stdout := []; rvpf_pipe_status := RVPF_PIPE_STATUS_OK |} =
      Return (line, b') w' /\
    _firstLine b1
      {| stdin := chars "0"; stdout := [] ++ strip_cr (chars "abc") ++ [LF];
         rvpf_pipe_status := RVPF_PIPE_STATUS_OK |} =
      Return (line, b') w' /\
    stdout w' = [] ++ strip_cr (chars "abc") ++ [LF] ++ more.
Proof.
  refine (proj1 (proj1 (firstLine_echoes_trimmed_line new_buffer []
                   {| stdin := [TAB] ++ chars "abc" ++ [CR] ++ LF :: chars "0";
                      stdout := []; rvpf_pipe_status := RVPF_PIPE_STATUS_OK |}
                   room_new_buffer)
                 [TAB] (chars "abc") [CR] (chars "0") eq_refl _ _ _ _ _ _ _)).
  - repeat constructor; discriminate.
  - repeat constructor; discriminate.
  - split; [by exists "a"%char, (chars "bc")|by exists (chars "ab"), "c"%char].
  - intros H. repeat (apply elem_of_cons in H as [H|H]; [discriminate H|]).
    by apply elem_of_nil in H.
  - intros H. repeat (apply elem_of_cons in H as [H|H]; [discriminate H|]).
    by apply elem_of_nil in H.
  - intros H. repeat (apply elem_of_cons in H as [H|H]; [discriminate H|]).
    by apply elem_of_nil in H.
  - discriminate.
Defined.

(** C9 as stated fails: the line made of a TAB and "abc" has no space in
    it and is not "0", and what is written back is "abc", without the
    TAB. *)
Lemma line_not_echoed_verbatim :
  exists b' w',
    _firstLine new_buffer
      {| stdin := [TAB] ++ chars "abc" ++ [LF]; stdout := [];
         rvpf_pipe_status := RVPF_PIPE_STATUS_OK |} =
      Return (None, b') w' /\
    stdout w' = chars "abc" ++ [LF] /\
    stdout w' <> [TAB] ++ chars "abc" ++ [LF].
Proof.
  eexists _, {| stdin := []; stdout := chars "abc" ++ [LF];
              rvpf_pipe_status := RVPF_PIPE_STATUS_OK |}.
  split; [by vm_compute|]. split; [reflexivity|discriminate].
Qed.

(** ** Fields taken from a line *)

(** A field that [_nextField] returns whole: not empty, without space
    and without NUL. *)
Definition word (s : list ascii) : Prop :=
  s <> [] /\ (" "%char ∉ s) /\ nul_free s.

Lemma insert_middle {A} (pre : list A) x y post :
  <[length pre := x]> (pre ++ y :: post) = pre ++ x :: post.
Proof.
  rewrite insert_app_r_alt by lia.
  by replace (length pre - length pre) with 0 by lia.
Qed.

Lemma strcspn_space_word s t post :
  " "%char ∉ s -> nul_free s -> t = " "%char \/ t = NUL ->
  strcspn_space (s ++ t :: post) = length s.
Proof.
  intros Hsp Hnul Ht. induction s as [|c s IH]; cbn.
  - by destruct Ht as [-> | ->].
  - destruct (Ascii.eqb_spec c NUL) as [->|_]; [exfalso; apply Hnul; left|].
    destruct (Ascii.eqb_spec c " ") as [->|_]; [exfalso; apply Hsp; left|].
    cbn. f_equal. apply IH.
    + intros ?. apply Hsp. by right.
    + intros ?. apply Hnul. by right.
Qed.

Lemma strspn_space_head c s : c <> " "%char -> strspn_space (c :: s) = 0.
Proof. intros H. cbn. by destruct (Ascii.eqb_spec c " "). Qed.

Lemma word_head s :
  word s -> exists c s', s = c :: s' /\ c <> " "%char /\ c <> NUL.
Proof.
  intros (Hne & Hsp & Hnul). destruct s as [|c s']; [done|].
  exists c, s'. split; [done|]. split; intros ->.
  - apply Hsp. left.
  - apply Hnul. left.
Qed.

(** A field that is not the last one: [skip] is the NUL left at the end
    of the field before, or nothing at the start of the line; the field
    ends on the space or NUL [t], where a NUL is stored. *)
Lemma nextField_word b pre skip s t post required w :
  at_ b = pre ++ skip ++ s ++ t :: post ->
  position b = length pre ->
  skip = [] \/ skip = [NUL] ->
  word s ->
  t = " "%char \/ t = NUL ->
  length pre < limit b ->
  (t = " "%char -> length pre + length skip + length s < limit b) ->
  exists b',
    _nextField b required false w =
      Return (Some (length pre + length skip), b') w /\
    at_ b' = pre ++ skip ++ s ++ NUL :: post /\
    position b' = length pre + length skip + length s /\
    limit b' = limit b /\ capacity b' = capacity b.
Proof.
  intros Hat Hpos Hskip Hword Ht Hlim Hlim'.
  destruct (word_head s Hword) as (c & s' & Es & Hc1 & Hc2).
  destruct Hword as (_ & Hsp & Hnul).
  unfold _nextField.
  destruct (Nat.leb_spec (limit b) (position b)) as [?|_]; [lia|].
  set (b1 := if Ascii.eqb (peek (at_ b) (position b)) NUL
             then set_position b (S (position b)) else b).
  assert (H1 : at_ b1 = at_ b /\ limit b1 = limit b /\
               capacity b1 = capacity b /\
               position b1 = length pre + length skip).
  { assert (Hpeek : peek (at_ b) (position b)
                      = match skip with [] => c | _ => NUL end).
    { rewrite Hpos, Hat. destruct Hskip as [-> | ->]; cbn [app].
      - rewrite Es. cbn [app]. apply peek_app_r.
      - apply peek_app_r. }
    subst b1. rewrite Hpeek.
    destruct Hskip as [-> | ->]; cbn [length].
    - destruct (Ascii.eqb_spec c NUL); [done|]. repeat split; lia.
    - cbn. repeat split; lia. }
  destruct H1 as (Hat1 & Hlim1 & Hcap1 & Hpos1). clearbody b1.
  assert (Hdrop : drop (length pre + length skip) (at_ b)
                  = s ++ t :: post).
  { rewrite Hat, app_assoc.
    replace (length pre + length skip) with (length (pre ++ skip))
      by (by rewrite length_app).
    by rewrite drop_app_length. }
  unfold ret. cbn [position at_ limit set_position set_mark mark].
  assert (Hsp0 : strspn_space (s ++ t :: post) = 0)
    by (rewrite Es; cbn [app]; by apply strspn_space_head).
  rewrite Hat1, Hpos1, Hdrop, Hsp0, Nat.add_0_r, Hdrop.
  rewrite strcspn_space_word by done.
  assert (Hmid : pre ++ skip ++ s ++ t :: post
                 = (pre ++ skip ++ s) ++ t :: post)
    by (by rewrite <- !app_assoc).
  assert (Hlen : length (pre ++ skip ++ s)
                 = length pre + length skip + length s)
    by (rewrite !length_app; lia).
  destruct (Nat.ltb_spec (length pre + length skip + length s) (limit b1))
    as [Hlt|Hge]; (eexists; split; [reflexivity|]);
    cbn [at_ position limit capacity set_at set_position set_mark].
  - rewrite ?Hat1, Hat, Hmid, <- Hlen, insert_middle, <- !app_assoc.
    repeat split; done.
  - destruct Ht as [-> | ->]; [specialize (Hlim' eq_refl); lia|].
    rewrite ?Hat1, ?Hat. repeat split; done.
Qed.

(** The last field, which starts after the NUL left at the end of the
    stamp. *)
Lemma nextField_last b pre c post w :
  at_ b = pre ++ NUL :: c :: post ->
  position b = length pre -> length pre < limit b -> c <> " "%char ->
  _nextField b false true w =
    Return (Some (S (length pre)),
            set_mark (set_position b (S (length pre))) (S (length pre))) w.
Proof.
  intros Hat Hpos Hlim Hc. unfold _nextField.
  destruct (Nat.leb_spec (limit b) (position b)) as [?|_]; [lia|].
  assert (Hdrop : drop (S (length pre)) (at_ b) = c :: post).
  { rewrite Hat.
    change (pre ++ NUL :: c :: post) with (pre ++ [NUL] ++ c :: post).
    rewrite app_assoc.
    replace (S (length pre)) with (length (pre ++ [NUL]))
      by (rewrite length_app; cbn; lia).
    by rewrite drop_app_length. }
  assert (Hpeek : peek (at_ b) (position b) = NUL)
    by (rewrite Hpos, Hat; apply peek_app_r).
  rewrite Hpeek. cbn [Ascii.eqb Bool.eqb NUL zero].
  cbn [position at_ set_position]. rewrite Hpos, Hdrop.
  rewrite strspn_space_head by done. rewrite Nat.add_0_r.
  reflexivity.
Qed.

Lemma nextField_none b w :
  limit b <= position b ->
  _nextField b false true w = Return (None, set_mark b (position b)) w.
Proof.
  intros H. unfold _nextField.
  by destruct (Nat.leb_spec (limit b) (position b)); [|lia].
Qed.

Lemma string_at_middle pre s post :
  nul_free s -> string_at (pre ++ s ++ NUL :: post) (length pre) = s.
Proof.
  intros H. unfold string_at. rewrite drop_app_length.
  by apply c_str_nul_free.
Qed.

(** ** The scanning loops of [_fillPointValue] *)

Lemma insert_window {A} (pre V post : list A) x :
  V <> [] ->
  <[length pre := x]> (pre ++ V ++ post) = (pre ++ [x]) ++ tl V ++ post.
Proof.
  intros HV. destruct V as [|v V]; [done|]. cbn [app tl].
  by rewrite insert_middle, <- app_assoc.
Qed.

Lemma peek_window pre W c post :
  peek (pre ++ W ++ c :: post) (length pre + length W) = c.
Proof.
  rewrite app_assoc, <- length_app. apply peek_app_r.
Qed.

Lemma state_step_plain n mem next stop c :
  peek mem next = c -> c <> NUL -> c <> "["%char -> c <> "]"%char ->
  state_loop (S n) mem next stop false false =
    state_loop n (<[stop := c]> mem) (S next) (S stop) false false.
Proof.
  intros H H0 H1 H2. cbn [state_loop negb]. rewrite H.
  destruct (Ascii.eqb_spec c NUL); [done|].
  destruct (Ascii.eqb_spec c "["); [done|].
  by destruct (Ascii.eqb_spec c "]").
Qed.

Lemma state_step_right n mem next stop :
  peek mem next = "]"%char ->
  state_loop (S n) mem next stop false false =
    state_loop n mem (S next) stop false true.
Proof. intros H. cbn [state_loop]. by rewrite H. Qed.

Lemma state_step_left n mem next stop :
  peek mem next = "["%char ->
  state_loop (S n) mem next stop false false =
    state_loop n mem (S next) stop true false.
Proof. intros H. cbn [state_loop]. by rewrite H. Qed.

Lemma state_step_after_right n mem next stop :
  peek mem next = "["%char ->
  state_loop (S n) mem next stop false true =
    state_loop n (<[stop := "["%char]> mem) (S next) (S stop) false false.
Proof. intros H. cbn [state_loop]. by rewrite H. Qed.

Lemma state_step_after_left n mem next stop :
  peek mem next = "]"%char ->
  state_loop (S n) mem next stop true false =
    state_loop n (<[stop := "]"%char]> mem) (S next) (S stop) false false.
Proof. intros H. cbn [state_loop]. by rewrite H. Qed.

Lemma state_step_end n mem next stop c :
  peek mem next = c -> c <> "["%char ->
  state_loop (S n) mem next stop false true =
    if Ascii.eqb c NUL then ScanBreak (<[stop := NUL]> mem) next
    else ScanBreak (<[stop := NUL]> mem)
           (S next + strspn_space (drop (S next) (<[stop := NUL]> mem))).
Proof.
  intros H H'. cbn [state_loop negb]. rewrite H.
  destruct (Ascii.eqb_spec c NUL); [done|].
  by destruct (Ascii.eqb_spec c "[").
Qed.

Lemma drop_past {A} (l : list A) x post n :
  n = S (length l) -> drop n (l ++ x :: post) = post.
Proof.
  intros ->. change (l ++ x :: post) with (l ++ [x] ++ post).
  rewrite app_assoc.
  replace (S (length l)) with (length (l ++ [x]))
    by (rewrite length_app; cbn; lia).
  apply drop_app_length.
Qed.

Lemma drop_to_rest {A} (pre t junk rest : list A) x c0 n :
  n = S (length pre + length t + 1 + length junk) ->
  drop n (pre ++ t ++ x :: junk ++ c0 :: rest) = rest.
Proof.
  intros ->.
  replace (pre ++ t ++ x :: junk ++ c0 :: rest)
    with ((pre ++ t ++ x :: junk) ++ c0 :: rest)
    by (rewrite <- !app_assoc; reflexivity).
  apply drop_past. rewrite !length_app. cbn. lia.
Qed.

(** The loop over the state reads back what [state_to_buffer] wrote:
    [pre] is what lies before [stop], [W] the bytes between [stop] and
    [next], [c0] the character after the closing bracket. *)
Lemma state_loop_decode t :
  forall turns pre W c0 rest,
    nul_free t ->
    length (flat_map escape_state t) + 2 <= turns ->
    c0 <> "["%char ->
    exists junk,
      state_loop turns
        (pre ++ W ++ flat_map escape_state t ++ "]"%char :: c0 :: rest)
        (length pre + length W) (length pre) false false =
      ScanBreak (pre ++ t ++ NUL :: junk ++ c0 :: rest)
        (if Ascii.eqb c0 NUL
         then length pre + length W + length (flat_map escape_state t) + 1
         else length pre + length W + length (flat_map escape_state t) + 2
              + strspn_space rest) /\
      length junk + length t = length W + length (flat_map escape_state t).
Proof.
  induction t as [|c t IH]; intros turns pre W c0 rest Hnul Hturns Hc0.
  - cbn [flat_map app length] in *.
    destruct turns as [|[|turns]]; try lia.
    rewrite state_step_right by apply peek_window.
    rewrite (state_step_end _ _ _ _ c0).
    2:{ replace (pre ++ W ++ "]"%char :: c0 :: rest)
          with (pre ++ (W ++ ["]"%char]) ++ c0 :: rest)
          by (by rewrite <- app_assoc).
        replace (S (length pre + length W))
          with (length pre + length (W ++ ["]"%char]))
          by (rewrite length_app; cbn; lia).
        apply peek_window. }
    2: done.
    replace (pre ++ W ++ "]"%char :: c0 :: rest)
      with (pre ++ (W ++ ["]"%char]) ++ c0 :: rest)
      by (by rewrite <- app_assoc).
    rewrite insert_window by (by destruct W).
    exists (tl (W ++ ["]"%char])).
    assert (Hlen : length (tl (W ++ ["]"%char])) = length W)
      by (destruct W; cbn; [done|]; rewrite length_app; cbn; lia).
    split; [|lia].
    rewrite <- (app_assoc pre [NUL]). cbn [app].
    destruct (Ascii.eqb c0 NUL); f_equal; [lia|].
    rewrite (drop_to_rest pre [] (tl (W ++ ["]"%char])) rest NUL c0);
      [lia|cbn; lia].
  - assert (Hc : c <> NUL) by (intros ->; apply Hnul; left).
    assert (Hnul' : nul_free t) by (intros ?; apply Hnul; by right).
    cbn [flat_map] in *. rewrite length_app in Hturns.
    assert (E : escape_state c
                = if Ascii.eqb c "[" then ["]"; "["]%char
                  else if Ascii.eqb c "]" then ["["; "]"]%char else [c])
      by reflexivity.
    destruct (Ascii.eqb_spec c "[") as [->|Hc1];
      [|destruct (Ascii.eqb_spec c "]") as [->|Hc2]];
      rewrite E in *; clear E; rewrite length_app; cbn [app length] in *.
    + destruct turns as [|[|turns]]; try lia.
      rewrite state_step_right by apply peek_window.
      rewrite state_step_after_right.
      2:{ replace (pre ++ W ++ "]"%char :: "["%char :: flat_map escape_state t
                     ++ "]"%char :: c0 :: rest)
            with (pre ++ (W ++ ["]"%char]) ++ "["%char
                    :: flat_map escape_state t ++ "]"%char :: c0 :: rest)
            by (by rewrite <- app_assoc).
          replace (S (length pre + length W))
            with (length pre + length (W ++ ["]"%char]))
            by (rewrite length_app; cbn; lia).
          apply peek_window. }
      replace (pre ++ W ++ "]"%char :: "["%char :: flat_map escape_state t
                 ++ "]"%char :: c0 :: rest)
        with (pre ++ (W ++ ["]"; "["]%char)
                ++ flat_map escape_state t ++ "]"%char :: c0 :: rest)
        by (by rewrite <- app_assoc).
      rewrite insert_window by (by destruct W).
      set (W' := tl (W ++ ["]"; "["]%char)).
      assert (HW' : length W' = S (length W))
        by (subst W'; destruct W; cbn; [done|]; rewrite length_app; cbn; lia).
      replace (S (S (length pre + length W)))
        with (length (pre ++ ["["%char]) + length W')
        by (rewrite length_app, HW'; cbn; lia).
      replace (S (length pre)) with (length (pre ++ ["["%char]))
        by (rewrite length_app; cbn; lia).
      destruct (IH turns (pre ++ ["["%char]) W' c0 rest Hnul' ltac:(lia) Hc0)
        as (junk & -> & Hjunk).
      exists junk. split; [|lia].
      rewrite <- (app_assoc pre ["["%char]). cbn [app].
      rewrite length_app, HW'. cbn [length].
      destruct (Ascii.eqb c0 NUL); f_equal; lia.
    + destruct turns as [|[|turns]]; try lia.
      rewrite state_step_left by apply peek_window.
      rewrite state_step_after_left.
      2:{ replace (pre ++ W ++ "["%char :: "]"%char :: flat_map escape_state t
                     ++ "]"%char :: c0 :: rest)
            with (pre ++ (W ++ ["["%char]) ++ "]"%char
                    :: flat_map escape_state t ++ "]"%char :: c0 :: rest)
            by (by rewrite <- app_assoc).
          replace (S (length pre + length W))
            with (length pre + length (W ++ ["["%char]))
            by (rewrite length_app; cbn; lia).
          apply peek_window. }
      replace (pre ++ W ++ "["%char :: "]"%char :: flat_map escape_state t
                 ++ "]"%char :: c0 :: rest)
        with (pre ++ (W ++ ["["; "]"]%char)
                ++ flat_map escape_state t ++ "]"%char :: c0 :: rest)
        by (by rewrite <- app_assoc).
      rewrite insert_window by (by destruct W).
      set (W' := tl (W ++ ["["; "]"]%char)).
      assert (HW' : length W' = S (length W))
        by (subst W'; destruct W; cbn; [done|]; rewrite length_app; cbn; lia).
      replace (S (S (length pre + length W)))
        with (length (pre ++ ["]"%char]) + length W')
        by (rewrite length_app, HW'; cbn; lia).
      replace (S (length pre)) with (length (pre ++ ["]"%char]))
        by (rewrite length_app; cbn; lia).
      destruct (IH turns (pre ++ ["]"%char]) W' c0 rest Hnul' ltac:(lia) Hc0)
        as (junk & -> & Hjunk).
      exists junk. split; [|lia].
      rewrite <- (app_assoc pre ["]"%char]). cbn [app].
      rewrite length_app, HW'. cbn [length].
      destruct (Ascii.eqb c0 NUL); f_equal; lia.
    + destruct turns as [|turns]; try lia.
      rewrite (state_step_plain _ _ _ _ c) by (done || apply peek_window).
      replace (pre ++ W ++ c :: flat_map escape_state t
                 ++ "]"%char :: c0 :: rest)
        with (pre ++ (W ++ [c])
                ++ flat_map escape_state t ++ "]"%char :: c0 :: rest)
        by (by rewrite <- app_assoc).
      rewrite insert_window by (by destruct W).
      set (W' := tl (W ++ [c])).
      assert (HW' : length W' = length W)
        by (subst W'; destruct W; cbn; [done|]; rewrite length_app; cbn; lia).
      replace (S (length pre + length W))
        with (length (pre ++ [c]) + length W')
        by (rewrite length_app, HW'; cbn; lia).
      replace (S (length pre)) with (length (pre ++ [c]))
        by (rewrite length_app; cbn; lia).
      destruct (IH turns (pre ++ [c]) W' c0 rest Hnul' ltac:(lia) Hc0)
        as (junk & -> & Hjunk).
      exists junk. split; [|lia].
      rewrite <- (app_assoc pre [c]). cbn [app].
      rewrite length_app, HW'. cbn [length].
      destruct (Ascii.eqb c0 NUL); f_equal; lia.
Qed.

Lemma value_step_plain n mem next stop c :
  peek mem next = c -> c <> NUL -> c <> QUOTE ->
  value_loop (S n) mem next stop false =
    value_loop n (<[stop := c]> mem) (S next) (S stop) false.
Proof.
  intros H H0 H1. cbn [value_loop negb]. rewrite H.
  destruct (Ascii.eqb_spec c NUL); [done|].
  by destruct (Ascii.eqb_spec c QUOTE).
Qed.

Lemma value_step_quote n mem next stop :
  peek mem next = QUOTE ->
  value_loop (S n) mem next stop false = value_loop n mem (S next) stop true.
Proof. intros H. cbn [value_loop]. by rewrite H. Qed.

Lemma value_step_after_quote n mem next stop :
  peek mem next = QUOTE ->
  value_loop (S n) mem next stop true =
    value_loop n (<[stop := QUOTE]> mem) (S next) (S stop) false.
Proof. intros H. cbn [value_loop]. by rewrite H. Qed.

Lemma value_step_end n mem next stop :
  peek mem next = NUL ->
  value_loop (S n) mem next stop true = ScanBreak (<[stop := NUL]> mem) next.
Proof. intros H. cbn [value_loop]. by rewrite H. Qed.

(** The loop over the value reads back what [value_to_buffer] wrote. *)
Lemma value_loop_decode v :
  forall turns pre W rest,
    nul_free v ->
    length (flat_map escape_value v) + 2 <= turns ->
    exists junk,
      value_loop turns
        (pre ++ W ++ flat_map escape_value v ++ QUOTE :: NUL :: rest)
        (length pre + length W) (length pre) false =
      ScanBreak (pre ++ v ++ NUL :: junk ++ NUL :: rest)
        (length pre + length W + length (flat_map escape_value v) + 1) /\
      length junk + length v = length W + length (flat_map escape_value v).
Proof.
  induction v as [|c v IH]; intros turns pre W rest Hnul Hturns.
  - cbn [flat_map app length] in *.
    destruct turns as [|[|turns]]; try lia.
    rewrite value_step_quote by apply peek_window.
    rewrite value_step_end.
    2:{ replace (pre ++ W ++ QUOTE :: NUL :: rest)
          with (pre ++ (W ++ [QUOTE]) ++ NUL :: rest)
          by (by rewrite <- app_assoc).
        replace (S (length pre + length W))
          with (length pre + length (W ++ [QUOTE]))
          by (rewrite length_app; cbn; lia).
        apply peek_window. }
    replace (pre ++ W ++ QUOTE :: NUL :: rest)
      with (pre ++ (W ++ [QUOTE]) ++ NUL :: rest)
      by (by rewrite <- app_assoc).
    rewrite insert_window by (by destruct W).
    exists (tl (W ++ [QUOTE])).
    assert (Hlen : length (tl (W ++ [QUOTE])) = length W)
      by (destruct W; cbn; [done|]; rewrite length_app; cbn; lia).
    split; [|lia].
    rewrite <- (app_assoc pre [NUL]). cbn [app]. f_equal. lia.
  - assert (Hc : c <> NUL) by (intros ->; apply Hnul; left).
    assert (Hnul' : nul_free v) by (intros ?; apply Hnul; by right).
    cbn [flat_map] in *. rewrite length_app in Hturns.
    assert (E : escape_value c
                = if Ascii.eqb c QUOTE then [QUOTE; QUOTE] else [c])
      by reflexivity.
    destruct (Ascii.eqb_spec c QUOTE) as [->|Hc1];
      rewrite E in *; clear E; rewrite length_app; cbn [app length] in *.
    + destruct turns as [|[|turns]]; try lia.
      rewrite value_step_quote by apply peek_window.
      rewrite value_step_after_quote.
      2:{ replace (pre ++ W ++ QUOTE :: QUOTE :: flat_map escape_value v
                     ++ QUOTE :: NUL :: rest)
            with (pre ++ (W ++ [QUOTE]) ++ QUOTE
                    :: flat_map escape_value v ++ QUOTE :: NUL :: rest)
            by (by rewrite <- app_assoc).
          replace (S (length pre + length W))
            with (length pre + length (W ++ [QUOTE]))
            by (rewrite length_app; cbn; lia).
          apply peek_window. }
      replace (pre ++ W ++ QUOTE :: QUOTE :: flat_map escape_value v
                 ++ QUOTE :: NUL :: rest)
        with (pre ++ (W ++ [QUOTE; QUOTE])
                ++ flat_map escape_value v ++ QUOTE :: NUL :: rest)
        by (by rewrite <- app_assoc).
      rewrite insert_window by (by destruct W).
      set (W' := tl (W ++ [QUOTE; QUOTE])).
      assert (HW' : length W' = S (length W))
        by (subst W'; destruct W; cbn; [done|]; rewrite length_app; cbn; lia).
      replace (S (S (length pre + length W)))
        with (length (pre ++ [QUOTE]) + length W')
        by (rewrite length_app, HW'; cbn; lia).
      replace (S (length pre)) with (length (pre ++ [QUOTE]))
        by (rewrite length_app; cbn; lia).
      destruct (IH turns (pre ++ [QUOTE]) W' rest Hnul' ltac:(lia))
        as (junk & -> & Hjunk).
      exists junk. split; [|lia].
      rewrite <- (app_assoc pre [QUOTE]). cbn [app].
      rewrite length_app, HW'. cbn [length]. f_equal. lia.
    + destruct turns as [|turns]; try lia.
      rewrite (value_step_plain _ _ _ _ c) by (done || apply peek_window).
      replace (pre ++ W ++ c :: flat_map escape_value v
                 ++ QUOTE :: NUL :: rest)
        with (pre ++ (W ++ [c])
                ++ flat_map escape_value v ++ QUOTE :: NUL :: rest)
        by (by rewrite <- app_assoc).
      rewrite insert_window by (by destruct W).
      set (W' := tl (W ++ [c])).
      assert (HW' : length W' = length W)
        by (subst W'; destruct W; cbn; [done|]; rewrite length_app; cbn; lia).
      replace (S (length pre + length W))
        with (length (pre ++ [c]) + length W')
        by (rewrite length_app, HW'; cbn; lia).
      replace (S (length pre)) with (length (pre ++ [c]))
        by (rewrite length_app; cbn; lia).
      destruct (IH turns (pre ++ [c]) W' rest Hnul' ltac:(lia))
        as (junk & -> & Hjunk).
      exists junk. split; [|lia].
      rewrite <- (app_assoc pre [c]). cbn [app].
      rewrite length_app, HW'. cbn [length]. f_equal. lia.
Qed.

(** [fill_value] on a quoted value written by the writer. *)
Lemma fill_value_decode pv b pre x junk0 w :
  at_ b = pre ++ QUOTE :: flat_map escape_value x ++ QUOTE :: NUL :: junk0 ->
  nul_free x ->
  exists b',
    fill_value pv b (Some (length pre)) w =
      Return (set_value pv (Some x), b') w.
Proof.
  intros Hat Hnul. unfold fill_value.
  assert (Hpeek : peek (at_ b) (length pre) = QUOTE)
    by (rewrite Hat; apply peek_app_r).
  rewrite Hpeek. change (Ascii.eqb QUOTE QUOTE) with true. cbn iota.
  assert (Hat' : at_ b = (pre ++ [QUOTE]) ++ []
                          ++ flat_map escape_value x ++ QUOTE :: NUL :: junk0)
    by (rewrite Hat, <- app_assoc; reflexivity).
  assert (Hstart : S (length pre) = length (pre ++ [QUOTE]))
    by (rewrite length_app; cbn; lia).
  rewrite Hstart.
  destruct (value_loop_decode x (S (length (at_ b))) (pre ++ [QUOTE]) []
              junk0 Hnul) as (junk & E & Hjunk).
  { rewrite Hat'. repeat (rewrite ?length_app; cbn [length]). lia. }
  cbn [length] in E. rewrite Nat.add_0_r in E.
  rewrite <- Hat' in E. rewrite E.
  eexists. unfold ret. do 3 f_equal.
  by rewrite string_at_middle.
Qed.

Lemma fill_value_end pv b f w :
  peek (at_ b) f = NUL -> fill_value pv b (Some f) w = Return (pv, b) w.
Proof. intros H. unfold fill_value. by rewrite H. Qed.

Lemma c_str_option_id (o : option (list ascii)) :
  (forall x, o = Some x -> nul_free x) -> option_map c_str o = o.
Proof.
  intros H. destruct o as [x|]; [|done]. cbn. f_equal. by apply c_str_id, H.
Qed.

(** [fill_state] on the state and value fields written by the writer. *)
Lemma fill_state_decode pv b pre t v junk0 w :
  at_ b = pre ++ "["%char :: flat_map escape_state t ++ "]"%char
              :: value_field v ++ NUL :: junk0 ->
  nul_free t -> (forall x, v = Some x -> nul_free x) ->
  exists b',
    fill_state pv b (Some (length pre)) w =
      Return (match v with
              | Some _ => set_value (set_state pv (Some (StateText t))) v
              | None => set_state pv (Some (StateText t))
              end, b') w.
Proof.
  intros Hat Ht Hv. unfold fill_state.
  assert (Hpeek : peek (at_ b) (length pre) = "["%char)
    by (rewrite Hat; apply peek_app_r).
  rewrite Hpeek. change (Ascii.eqb "[" "[") with true. cbn iota zeta.
  assert (Htail : exists c0 rest,
             value_field v ++ NUL :: junk0 = c0 :: rest /\
             c0 <> "["%char).
  { destruct v; cbn; eexists _, _; (split; [reflexivity|done]). }
  destruct Htail as (c0 & rest & Etail & Hc0).
  set (pre' := pre ++ ["["%char]).
  assert (Hat' : at_ b = pre' ++ [] ++ flat_map escape_state t
                           ++ "]"%char :: c0 :: rest).
  { rewrite Hat, <- Etail. subst pre'. by rewrite <- app_assoc. }
  assert (Hstart : S (length pre) = length pre')
    by (subst pre'; rewrite length_app; cbn; lia).
  rewrite Hstart.
  destruct (state_loop_decode t (S (length (at_ b))) pre' [] c0 rest Ht)
    as (junk & E & Hjunk); [|done|].
  { rewrite Hat'. repeat (rewrite ?length_app; cbn [length]). lia. }
  cbn [length] in E, Hjunk. rewrite Nat.add_0_r in E. rewrite <- Hat' in E.
  rewrite E. rewrite string_at_middle by done.
  destruct v as [x|]; cbn in Etail; injection Etail as <- <-.
  - change (Ascii.eqb " " NUL) with false. cbn iota.
    rewrite strspn_space_head by done. rewrite Nat.add_0_r.
    destruct (fill_value_decode (set_state pv (Some (StateText t)))
                (set_at b (pre' ++ t ++ NUL :: junk ++ " "%char :: QUOTE
                             :: flat_map escape_value x
                             ++ [QUOTE] ++ NUL :: junk0))
                (pre' ++ t ++ NUL :: junk ++ [" "%char]) x junk0 w)
      as (b' & E').
    + cbn [at_ set_at]. rewrite <- !app_assoc. cbn [app].
      by rewrite <- !app_assoc.
    + by apply Hv.
    + exists b'. rewrite <- E'. f_equal.
      * f_equal. rewrite <- !app_assoc. reflexivity.
      * f_equal. repeat (rewrite ?length_app; cbn [length]). lia.
  - change (Ascii.eqb NUL NUL) with true. cbn iota.
    eexists. apply fill_value_end. cbn [at_ set_at].
    replace (pre' ++ t ++ NUL :: junk ++ NUL :: junk0)
      with ((pre' ++ t ++ NUL :: junk) ++ NUL :: junk0)
      by (rewrite <- !app_assoc; reflexivity).
    replace (length pre' + length (flat_map escape_state t) + 1)
      with (length (pre' ++ t ++ NUL :: junk))
      by (repeat (rewrite ?length_app; cbn [length]); lia).
    apply peek_app_r.
Qed.

(** The parser on the line the writer makes of a point value. *)
Lemma fillPointValue_decode name time st v b junk0 stampRequired w :
  at_ b = name ++ chars " " ++ time ++ state_field st ++ value_field v
          ++ NUL :: junk0 ->
  limit b = length (name ++ chars " " ++ time ++ state_field st
                      ++ value_field v) ->
  position b = 0 ->
  word name -> word time ->
  (forall t, st = Some t -> nul_free t) ->
  (forall x, v = Some x -> nul_free x) ->
  exists b',
    _fillPointValue empty_pointValue b stampRequired w =
      Return ({| pointName := Some name; stamp := Some time;
                 state := option_map StateText st; value := v |}, b') w.
Proof.
  intros Hat Hlim Hpos Hname Htime Hst Hv.
  pose proof Hname as (_ & _ & Hname0). pose proof Htime as (_ & _ & Htime0).
  (* the rest of the line after the stamp: empty, or a space and more *)
  assert (Htail : exists t post,
             state_field st ++ value_field v ++ NUL :: junk0 = t :: post /\
             (t = " "%char \/ t = NUL) /\
             (t = NUL -> st = None /\ v = None /\ post = junk0)).
  { destruct st as [t|]; [|destruct v as [x|]]; cbn.
    - eexists _, _. split; [reflexivity|]. split; [by left|done].
    - eexists _, _. split; [reflexivity|]. split; [by left|done].
    - eexists _, _. split; [reflexivity|]. split; [by right|done]. }
  destruct Htail as (t0 & post & Etail & Ht0 & Hend).
  assert (Hlen : limit b = length name + 1 + length time
                          + length (state_field st ++ value_field v))
    by (rewrite Hlim, !length_app; cbn; lia).
  unfold _fillPointValue.
  (* the point name *)
  destruct (nextField_word b [] [] name " " 
              (time ++ state_field st ++ value_field v ++ NUL :: junk0)
              true w) as (b2 & E2 & Hat2 & Hpos2 & Hlim2 & Hcap2);
    try done; try (by left).
  { cbn. rewrite Hlen. lia. }
  { intros _. cbn. lia. }
  unfold bind at 1. rewrite E2. cbn [app length Nat.add] in Hat2, Hpos2.
  cbn [_cloneString Nat.add length].
  (* the stamp *)
  destruct (nextField_word b2 name [NUL] time t0 post stampRequired w)
    as (b3 & E3 & Hat3 & Hpos3 & Hlim3 & Hcap3); try done; try (by right).
  { rewrite Hat2. cbn [app]. by rewrite Etail. }
  { rewrite Hlim2, Hlen. lia. }
  { intros ->. rewrite Hlim2, Hlen. cbn [length].
    destruct st as [t|]; [|destruct v as [x|]]; cbn in Etail |- *;
      try discriminate; rewrite ?length_app; cbn; lia. }
  unfold bind at 1. rewrite E3. cbn [length] in Hat3, Hpos3, E3 |- *.
  cbn [_cloneString].
  assert (Hn : string_at (at_ b2) 0 = name).
  { rewrite Hat2. apply (string_at_middle [] name). exact Hname0. }
  assert (Ht : string_at (at_ b3) (length name + 1) = time).
  { rewrite Hat3. cbn [app].
    replace (name ++ NUL :: time ++ NUL :: post)
      with ((name ++ [NUL]) ++ time ++ NUL :: post)
      by (by rewrite <- app_assoc).
    replace (length name + 1) with (length (name ++ [NUL]))
      by (rewrite length_app; cbn; lia).
    by apply string_at_middle. }
  rewrite Hn, Ht. unfold set_pointName, set_stamp, empty_pointValue.
  cbn [pointName stamp state value].
  (* the last field *)
  destruct Ht0 as [-> | ->].
  - set (pre := name ++ NUL :: time).
    assert (Hpre : length pre = length name + 1 + length time)
      by (subst pre; rewrite length_app; cbn; lia).
    assert (Hc : exists c post', post = c :: post' /\ c <> " "%char).
    { destruct st as [t|]; [|destruct v as [x|]]; cbn in Etail;
        try discriminate; injection Etail as <-;
        eexists _, _; (split; [reflexivity|done]). }
    destruct Hc as (c & post' & -> & Hc).
    assert (Hat3' : at_ b3 = pre ++ NUL :: c :: post').
    { rewrite Hat3. subst pre. cbn [app]. by rewrite <- app_assoc. }
    unfold bind at 1. unfold bind at 1.
    rewrite (nextField_last b3 pre c post' w Hat3'); [|lia| |done].
    2:{ rewrite Hlim3, Hlim2, Hlen, Hpre.
        destruct st as [t|]; [|destruct v as [x|]]; cbn in Etail |- *;
          try discriminate; rewrite ?length_app; cbn; lia. }
    unfold ret.
    set (b4 := set_mark _ _).
    assert (Hat4 : at_ b4 = (pre ++ [NUL]) ++ c :: post')
      by (subst b4; cbn [at_ set_mark set_position];
          rewrite Hat3', <- app_assoc; reflexivity).
    replace (S (length pre)) with (length (pre ++ [NUL]))
      by (rewrite length_app; cbn; lia).
    destruct st as [t|]; cbn [option_map].
    + cbn in Etail. injection Etail as <- <-.
      destruct (fill_state_decode
                  {| pointName := Some name; stamp := Some time;
                     state := None; value := None |}
                  b4 (pre ++ [NUL]) t v junk0 w) as (b' & E').
      * rewrite Hat4. by rewrite <- !app_assoc.
      * by apply Hst.
      * exact Hv.
      * exists b'. rewrite E'. by destruct v.
    + destruct v as [x|]; cbn in Etail; [|discriminate].
      injection Etail as <- <-.
      unfold fill_state. rewrite Hat4, peek_app_r.
      change (Ascii.eqb QUOTE "[") with false. cbn iota.
      destruct (fill_value_decode
                  {| pointName := Some name; stamp := Some time;
                     state := None; value := None |}
                  b4 (pre ++ [NUL]) x junk0 w) as (b' & E').
      * rewrite Hat4. by rewrite <- !app_assoc.
      * by apply Hv.
      * exists b'. exact E'.
  - destruct (Hend eq_refl) as (-> & -> & ->).
    unfold bind at 1. unfold bind at 1.
    rewrite nextField_none.
    2:{ rewrite Hpos3, Hlim3, Hlim2, Hlen. cbn. lia. }
    unfold ret. cbn [fill_state fill_value option_map]. eexists. reflexivity.
Qed.

(** C3 (amended): a point value whose point name and stamp are not empty
    and have no space in them, whose state is absent or a text (not the
    DELETED sentinel), and whose strings are C strings, is given back by
    [_fillPointValue] from the line [_pointValueToBuffer] writes for it,
    whatever brackets and quotes its state and value hold. *)
Theorem pointValue_round_trip name time st v b stampRequired w :
  room b [] -> position b = 0 ->
  word name -> word time ->
  (forall t, st = Some t -> nul_free t) ->
  (forall x, v = Some x -> nul_free x) ->
  let pv :=
    {| pointName := Some name; stamp := Some time;
       state := option_map StateText st; value := v |} in
  exists b1 b2,
    _pointValueToBuffer pv b = Some b1 /\
    _fillPointValue empty_pointValue b1 stampRequired w = Return (pv, b2) w.
Proof.
  intros Hb Hpos Hname Htime Hst Hv pv.
  destruct (pointValueToBuffer_holds pv b [] Hb) as (b1 & E & H1 & _ & Hp1);
    [by eexists|by eexists|].
  assert (Hline : line_of pv
                  = name ++ chars " " ++ time ++ state_field st
                      ++ value_field v).
  { unfold line_of, pointValue_line, state_string, value_string. subst pv.
    cbn -[c_str state_field value_field chars option_map].
    destruct Hname as (_ & _ & Hn), Htime as (_ & _ & Ht).
    rewrite (c_str_id name Hn), (c_str_id time Ht), (c_str_option_id v Hv).
    destruct st as [t|]; cbn [option_map state_chars]; [|done].
    by rewrite (c_str_id t (Hst t eq_refl)). }
  cbn [app] in H1. rewrite Hline in H1.
  destruct H1 as (junk0 & Hat & Hlim & _).
  destruct (fillPointValue_decode name time st v b1 junk0 stampRequired w)
    as (b2 & E2); try done.
  - rewrite Hat. by rewrite <- !app_assoc.
  - congruence.
  - by exists b1, b2.
Qed.

Lemma not_elem_of_chars (c : ascii) (s : list ascii) :
  forallb (fun x => negb (Ascii.eqb x c)) s = true -> c ∉ s.
Proof.
  induction s as [|x s IH]; cbn.
  - by intros _ ?%elem_of_nil.
  - intros [Hx Hs]%andb_prop [E|?]%elem_of_cons; [|by apply IH].
    subst x. by rewrite Ascii.eqb_refl in Hx.
Qed.

Lemma word_chars (s : list ascii) :
  s <> [] ->
  forallb (fun x => negb (Ascii.eqb x " ")) s = true ->
  forallb (fun x => negb (Ascii.eqb x NUL)) s = true -> word s.
Proof.
  intros H0 H1 H2. split; [done|]. split; by apply not_elem_of_chars.
Qed.

Lemma pointValue_round_trip_witness :
  exists b1 b2,
    _pointValueToBuffer
      {| pointName := Some (chars "P"); stamp := Some (chars "2020-01-01");
         state := Some (StateText (chars "a]b["));
         value := Some (chars "x" ++ [QUOTE] ++ chars "y") |} new_buffer
      = Some b1 /\
    _fillPointValue empty_pointValue b1 true idle_world =
      Return ({| pointName := Some (chars "P");
                 stamp := Some (chars "2020-01-01");
                 state := Some (StateText (chars "a]b["));
                 value := Some (chars "x" ++ [QUOTE] ++ chars "y") |}, b2)
        idle_world.
Proof.
  apply (pointValue_round_trip (chars "P") (chars "2020-01-01")
           (Some (chars "a]b[")) (Some (chars "x" ++ [QUOTE] ++ chars "y"))
           new_buffer true idle_world room_new_buffer eq_refl).
  - by apply word_chars.
  - by apply word_chars.
  - intros t [= <-]. by apply not_elem_of_chars.
  - intros x [= <-]. by apply not_elem_of_chars.
Defined.

(** C3 as stated fails: the point name "a b" has no bracket and no quote
    in it, and the line written for it is read back as the point "a" with
    the stamp "b". *)
Lemma point_name_with_space_is_split :
  let pv :=
    {| pointName := Some (chars "a b"); stamp := Some (chars "S");
       state := None; value := None |} in
  exists b1 b2 pv',
    _pointValueToBuffer pv new_buffer = Some b1 /\
    _fillPointValue empty_pointValue b1 true idle_world =
      Return (pv', b2) idle_world /\
    pointName pv' = Some (chars "a") /\ stamp pv' = Some (chars "b") /\
    pv' <> pv.
Proof.
  eexists _, _,
    {| pointName := Some (chars "a"); stamp := Some (chars "b");
       state := None; value := None |}.
  split; [reflexivity|]. split; [by vm_compute|]. by repeat split.
Qed.

(** ** Results added to, and cleared from, an engine request *)

(** The arguments of one call of [rvpf_pipe_addEngineResult]: the point
    name, the stamp, the state and the value. *)
Definition addition : Type :=
  list ascii * list ascii * option (list ascii) * option (list ascii).

(** The calls of [rvpf_pipe_addEngineResult] for a list of results, one
    after the other. *)
Fixpoint add_results (additions : list addition)
    (request : rvpf_pipe_engineRequest) : call rvpf_pipe_engineRequest :=
  match additions with
  | [] => ret request
  | (pointName, stamp, state, value) :: additions' =>
      request <~ rvpf_pipe_addEngineResult (Some request)
                   (Some pointName) (Some stamp) state value ;;
      add_results additions' request
  end.

(** The point value that a call leaves at the end of the chain. *)
Definition added (a : addition) : rvpf_pipe_pointValue :=
  let '(pointName, stamp, state, value) := a in
  {| pointName := Some (c_str pointName);
     stamp := Some (spaces_to_T (c_str stamp));
     state := option_map (fun s => StateText (c_str s)) state;
     value := option_map c_str value |}.

(** The point name and the stamp are not empty strings. *)
Definition named_and_stamped (a : addition) : Prop :=
  let '(pointName, stamp, _, _) := a in
  c_str pointName <> [] /\ c_str stamp <> [].

Lemma is_empty_string_false (s : list ascii) :
  c_str s <> [] -> is_empty_string (Some s) = false.
Proof. unfold is_empty_string. by destruct (c_str s). Qed.

Lemma add_results_chain additions :
  forall request w,
    Forall named_and_stamped additions ->
    (0 <= results_count request)%Z ->
    (results_count request + Z.of_nat (length additions) < 2 ^ 31)%Z ->
    add_results additions request w
    = Return
        (set_results request (results request ++ (added <$> additions))
           (results_count request + Z.of_nat (length additions)))
        w.
Proof.
  induction additions as [|[[[pointName stamp] state] value] additions IH];
    intros request w Hall Hpos Hsmall.
  - cbn. rewrite app_nil_r, Z.add_0_r. by destruct request.
  - apply Forall_cons in Hall as [[Hname Hstamp] Hall].
    cbn [add_results]. unfold bind, rvpf_pipe_addEngineResult.
    rewrite (is_empty_string_false _ Hname), (is_empty_string_false _ Hstamp).
    unfold ret. cbn [length] in Hsmall.
    rewrite to_jint_small by lia.
    rewrite IH; [|done|cbn [results_count set_results]; lia
                 |cbn [results_count set_results]; unfold addition in *; lia].
    cbn [results results_count set_results fmap list_fmap added length].
    rewrite <- app_assoc. cbn [app]. unfold addition in *.
    replace (results_count request + 1 + Z.of_nat (length additions))%Z
      with (results_count request + Z.of_nat (S (length additions)))%Z by lia.
    reflexivity.
Qed.

(** X18: the results added to an engine
    request with [rvpf_pipe_addEngineResult] are kept in the order of the
    calls, each with the blanks of its stamp replaced by the letter T;
    [rvpf_pipe_endEngineRequest] then announces one result more than were
    added and writes their lines in that order, the line of the seed
    result last. *)
Theorem added_results_are_sent_in_order request id s seed additions w :
  requestID (control request) = Some id ->
  room (buffer (control request)) s ->
  result request = Some seed -> has_name_and_stamp seed ->
  results request = [] -> results_count request = 0%Z ->
  additions <> [] -> Forall named_and_stamped additions ->
  (Z.of_nat (length additions) < 2 ^ 31 - 1)%Z ->
  (request <~ add_results additions request ;;
   rvpf_pipe_endEngineRequest (Some request)) w
  = Return tt
      {| stdin := stdin w;
         stdout :=
           stdout w
           ++ response_line (c_str id) (1 + Z.of_nat (length additions))
           ++ [LF] ++ lines_of ((added <$> additions) ++ [seed]);
         rvpf_pipe_status := rvpf_pipe_status w |}.
Proof.
  intros Hid Hroom Hseed Hnamed Hresults Hcount Hne Hall Hsmall.
  unfold bind at 1.
  rewrite add_results_chain by (rewrite ?Hcount; (done || lia)).
  rewrite Hresults, Hcount. cbn [app]. rewrite Z.add_0_l.
  set (request' := set_results request _ _).
  assert (engine_summary request' = (1 + Z.of_nat (length additions))%Z)
    as Hsummary.
  { unfold engine_summary, request'. cbn [result results_count set_results].
    rewrite Hseed.
    destruct (Z.eqb_spec (Z.of_nat (length additions)) 0) as [Hzero|_].
    - destruct additions; [done|]. cbn [length] in Hzero. lia.
    - rewrite orb_true_r. apply to_jint_small. lia. }
  rewrite (endEngineRequest_stdout request' id s w Hid Hroom).
  - rewrite Hsummary.
    destruct (Z.ltb_spec 0 (1 + Z.of_nat (length additions))); [|lia].
    unfold seed_list, request'. cbn [result results set_results].
    by rewrite Hseed.
  - unfold seed_list, request'. cbn [result results set_results].
    rewrite Hseed. apply Forall_app. split; [|by apply Forall_singleton].
    apply Forall_fmap, Forall_forall.
    intros [[[pointName stamp] state] value] _. by split.
Qed.

(** X19: [rvpf_pipe_clearEngineResults]
    frees the seed result and the results added, and leaves their counter
    as it is: after it, on a request to which results had been added,
    [rvpf_pipe_endEngineRequest] announces that many results and writes
    none. *)
Theorem cleared_results_are_still_counted request id s w :
  requestID (control request) = Some id ->
  room (buffer (control request)) s ->
  (0 < results_count request)%Z ->
  (request <~ rvpf_pipe_clearEngineResults (Some request) ;;
   rvpf_pipe_endEngineRequest (Some request)) w
  = Return tt
      {| stdin := stdin w;
         stdout :=
           stdout w ++ response_line (c_str id) (results_count request)
           ++ [LF];
         rvpf_pipe_status := rvpf_pipe_status w |}.
Proof.
  intros Hid Hroom Hcount.
  unfold bind at 1, rvpf_pipe_clearEngineResults, ret.
  set (request' := set_results _ _ _).
  assert (engine_summary request' = results_count request) as Hsummary.
  { unfold engine_summary, request'.
    cbn [result results_count set_results set_result].
    destruct (Z.eqb_spec (results_count request) 0); [lia|done]. }
  rewrite (endEngineRequest_stdout request' id s w Hid Hroom).
  - rewrite Hsummary.
    destruct (Z.ltb_spec 0 (results_count request)); [|lia].
    unfold lines_of. by cbn.
  - constructor.
Qed.

(** A request "7" with its seed result, nothing added yet. *)
Definition fresh_request : rvpf_pipe_engineRequest :=
  {| control :=
       {| requestID := Some (chars "7"); version := 1;
          buffer := new_buffer |};
     transformParams := []; transformParams_count := 0;
     pointParams := []; pointParams_count := 0;
     inputs := []; inputs_count := 0;
     result :=
       Some {| pointName := Some (chars "P");
               stamp := Some (chars "2020-01-01T00:00:00");
               state := None; value := None |};
     results := []; results_count := 0 |}.

Lemma added_results_are_sent_in_order_witness :
  (request <~ add_results
                [(chars "A", chars "2020-01-01 00:00:01", None,
                  Some (chars "1"));
                 (chars "B", chars "2020-01-01 00:00:02", None, None)]
                fresh_request ;;
   rvpf_pipe_endEngineRequest (Some request)) idle_world
  = Return tt
      {| stdin := [];
         stdout :=
           chars "7 3" ++ [LF]
           ++ chars "A 2020-01-01T00:00:01 " ++ [QUOTE] ++ chars "1"
           ++ [QUOTE] ++ [LF]
           ++ chars "B 2020-01-01T00:00:02" ++ [LF]
           ++ chars "P 2020-01-01T00:00:00" ++ [LF];
         rvpf_pipe_status := RVPF_PIPE_STATUS_OK |}.
Proof.
  rewrite (added_results_are_sent_in_order fresh_request (chars "7") []
             {| pointName := Some (chars "P");
                stamp := Some (chars "2020-01-01T00:00:00");
                state := None; value := None |}
             [(chars "A", chars "2020-01-01 00:00:01", None,
               Some (chars "1"));
              (chars "B", chars "2020-01-01 00:00:02", None, None)]
             idle_world eq_refl room_new_buffer eq_refl).
  - reflexivity.
  - split; by eexists.
  - reflexivity.
  - reflexivity.
  - discriminate.
  - repeat constructor; discriminate.
  - cbn. lia.
Defined.

(** The request "7" after two results were added. *)
Definition request_with_results : rvpf_pipe_engineRequest :=
  set_results fresh_request
    [added (chars "A", chars "2020-01-01 00:00:01", None, Some (chars "1"));
     added (chars "B", chars "2020-01-01 00:00:02", None, None)] 2.

Lemma cleared_results_are_still_counted_witness :
  (request <~ rvpf_pipe_clearEngineResults (Some request_with_results) ;;
   rvpf_pipe_endEngineRequest (Some request)) idle_world
  = Return tt
      {| stdin := []; stdout := chars "7 2" ++ [LF];
         rvpf_pipe_status := RVPF_PIPE_STATUS_OK |}.
Proof.
  rewrite (cleared_results_are_still_counted request_with_results
             (chars "7") [] idle_world eq_refl room_new_buffer).
  - reflexivity.
  - reflexivity.
Defined.

End Pipe.

(** * lib/impl/rvpf_ssl.c *)

Module Ssl.

Local Open Scope nat_scope.

Definition RVPF_SSL_OK : Z := 0.
Definition RVPF_SSL_ASK_ERR : Z := 1.
Definition RVPF_SSL_ILLEGAL_STATE : Z := 2.
Definition RVPF_SSL_ILLEGAL_ARG : Z := 3.
Definition RVPF_SSL_INTERNAL_ERROR : Z := 4.
Definition RVPF_SSL_SERVER_CLOSED : Z := 5.
Definition RVPF_SSL_BAD_ADDRESS : Z := 6.
Definition RVPF_SSL_UNKNOWN_HOST : Z := 7.
Definition RVPF_SSL_UNTRUSTED_HOST : Z := 8.
Definition RVPF_SSL_UNKNOWN_ERROR : Z := 9.
Definition RVPF_SSL_STATUS_CODES : Z := 10.

(** ** The other side: the library, the system and the peer *)

(** What a read on the connection gives: the bytes that have arrived, or
    a negative return value. *)
Inductive arrival :=
| Bytes (data : list ascii)
| ReadError (code : Z).

(** The answers the TLS library, the socket layer and the peer give to
    the calls of this file, and what was written on the connection.
    [write_results] scripts the return values of the next writes (a
    positive value is the number of bytes taken; with no script left a
    write takes all it is given); [incoming] is what the next reads
    find. *)
Record network := {
  bio_new_ok : bool;
  connect_ok : bool;
  verify_locations_ok : bool;
  certificate_ok : bool;
  private_key_ok : bool;
  cipher_list_ok : bool;
  ssl_new_ok : bool;
  handshake_ok : bool;
  peer_certificate : bool;
  ctx_new_ok : bool;
  socket_ok : bool;
  host_known : bool;
  close_ok : bool;
  write_results : list Z;
  written : list ascii;
  incoming : list arrival
}.

Definition set_stream (net : network) (results : list Z)
    (out : list ascii) (inc : list arrival) : network :=
  {| bio_new_ok := bio_new_ok net; connect_ok := connect_ok net;
     verify_locations_ok := verify_locations_ok net;
     certificate_ok := certificate_ok net;
     private_key_ok := private_key_ok net;
     cipher_list_ok := cipher_list_ok net; ssl_new_ok := ssl_new_ok net;
     handshake_ok := handshake_ok net;
     peer_certificate := peer_certificate net;
     ctx_new_ok := ctx_new_ok net; socket_ok := socket_ok net;
     host_known := host_known net; close_ok := close_ok net;
     write_results := results; written := out; incoming := inc |}.

(** [SSL_write], [BIO_write] or [send] of the first [size] bytes of
    [data]: the value returned and the connection afterwards. *)
Definition write_bytes (net : network) (data : list ascii) (size : nat)
    : Z * network :=
  match write_results net with
  | [] =>
      (Z.of_nat size,
       set_stream net [] (written net ++ take size data) (incoming net))
  | count :: results =>
      if (count <=? 0)%Z then
        (count, set_stream net results (written net) (incoming net))
      else
        let n := Nat.min (Z.to_nat count) size in
        (Z.of_nat n,
         set_stream net results (written net ++ take n data) (incoming net))
  end.

(** [SSL_read], [BIO_read] or [recv] into a buffer of [size] bytes: the
    value returned, the bytes stored, and the connection afterwards. With
    nothing left to arrive the peer has closed and the read returns 0. *)
Definition read_bytes (net : network) (size : nat)
    : Z * list ascii * network :=
  match incoming net with
  | [] => (0%Z, [], net)
  | ReadError code :: inc =>
      (code, [], set_stream net (write_results net) (written net) inc)
  | Bytes data :: inc =>
      let now := take size data in
      let later := drop size data in
      (Z.of_nat (length now), now,
       set_stream net (write_results net) (written net)
         (if later is [] then inc else Bytes later :: inc))
  end.

(** ** The context *)

(** [struct rvpf_ssl_context], with the fields of both builds: [bio],
    [ctx] and [ssl] tell whether the pointer is set. *)
Record rvpf_ssl_context := {
  host : option (list ascii);
  port : Z;
  bio : bool;
  ctx : bool;
  ssl : bool;
  trustFile : option (list ascii);
  trustDirectory : option (list ascii);
  certificateFile : option (list ascii);
  socket : Z;
  status : Z;
  errorMessage : option (list ascii)
}.

Definition set_status (c : rvpf_ssl_context) (s : Z) : rvpf_ssl_context :=
  {| host := host c; port := port c; bio := bio c; ctx := ctx c;
     ssl := ssl c; trustFile := trustFile c;
     trustDirectory := trustDirectory c;
     certificateFile := certificateFile c; socket := socket c;
     status := s; errorMessage := errorMessage c |}.

Definition set_address (c : rvpf_ssl_context) (h : option (list ascii))
    (p : Z) : rvpf_ssl_context :=
  {| host := h; port := p; bio := bio c; ctx := ctx c;
     ssl := ssl c; trustFile := trustFile c;
     trustDirectory := trustDirectory c;
     certificateFile := certificateFile c; socket := socket c;
     status := status c; errorMessage := errorMessage c |}.

Definition set_connection (c : rvpf_ssl_context) (b s : bool) (fd : Z)
    : rvpf_ssl_context :=
  {| host := host c; port := port c; bio := b; ctx := ctx c;
     ssl := s; trustFile := trustFile c;
     trustDirectory := trustDirectory c;
     certificateFile := certificateFile c; socket := fd;
     status := status c; errorMessage := errorMessage c |}.

Definition set_ctx (c : rvpf_ssl_context) (x : bool) : rvpf_ssl_context :=
  {| host := host c; port := port c; bio := bio c; ctx := x;
     ssl := ssl c; trustFile := trustFile c;
     trustDirectory := trustDirectory c;
     certificateFile := certificateFile c; socket := socket c;
     status := status c; errorMessage := errorMessage c |}.

Definition set_files (c : rvpf_ssl_context)
    (tf td cf : option (list ascii)) : rvpf_ssl_context :=
  {| host := host c; port := port c; bio := bio c; ctx := ctx c;
     ssl := ssl c; trustFile := tf; trustDirectory := td;
     certificateFile := cf; socket := socket c;
     status := status c; errorMessage := errorMessage c |}.

(** ** Addresses *)

Definition isdigit (c : ascii) : bool :=
  let n := nat_of_ascii c in (48 <=? n) && (n <=? 57).

Definition digit_value (c : ascii) : Z := Z.of_nat (nat_of_ascii c - 48).

(** The digits at the head of a string: their value on top of [acc], and
    what follows them. *)
Fixpoint digits_value (s : list ascii) (acc : Z) : Z * list ascii :=
  match s with
  | c :: s' =>
      if isdigit c then digits_value s' (acc * 10 + digit_value c)%Z
      else (acc, s)
  | [] => (acc, [])
  end.

Fixpoint skip_spaces (s : list ascii) : list ascii :=
  match s with
  | c :: s' => if isspace c then skip_spaces s' else s
  | [] => []
  end.

Definition ULONG_MAX : Z := (2 ^ 64 - 1)%Z.

(** [strtoul(s, &end, 10)] on an LP64 system: the value and what [end]
    points at. A number larger than [ULONG_MAX] gives [ULONG_MAX],
    whatever its sign; below that, a minus sign negates the value in the
    unsigned type. *)
Definition strtoul (s : list ascii) : Z * list ascii :=
  let s1 := skip_spaces s in
  let '(negative, s2) :=
    match s1 with
    | c :: r =>
        if Ascii.eqb c "-" then (true, r)
        else if Ascii.eqb c "+" then (false, r)
        else (false, s1)
    | [] => (false, s1)
    end in
  match s2 with
  | c :: _ =>
      if isdigit c then
        let '(v, rest) := digits_value s2 0 in
        (if (ULONG_MAX <? v)%Z then ULONG_MAX
         else if negative then wrap_unsigned 64 (- v) else v, rest)
      else (0%Z, s)
  | [] => (0%Z, s)
  end.

(** [strrchr(s, ':')] as an offset. *)
Fixpoint strrchr_colon (s : list ascii) : option nat :=
  match s with
  | [] => None
  | c :: s' =>
      match strrchr_colon s' with
      | Some i => Some (S i)
      | None => if Ascii.eqb c ":" then Some 0 else None
      end
  end.

Section Build.

(** Whether the file is compiled with [SSL_ENABLED]. *)
Variable SSL_ENABLED : bool.

Definition rvpf_ssl_create : rvpf_ssl_context :=
  {| host := None; port := 0; bio := false; ctx := false; ssl := false;
     trustFile := None; trustDirectory := None; certificateFile := None;
     socket := if SSL_ENABLED then 0%Z else (-1)%Z;
     status := RVPF_SSL_OK; errorMessage := None |}.

Definition rvpf_ssl_clearError (context : rvpf_ssl_context)
    : rvpf_ssl_context :=
  set_status context RVPF_SSL_OK.

Definition rvpf_ssl_failed (context : rvpf_ssl_context) : bool :=
  negb (status context =? RVPF_SSL_OK)%Z.

Definition rvpf_ssl_succeeded (context : rvpf_ssl_context) : bool :=
  (status context =? RVPF_SSL_OK)%Z.

Definition rvpf_ssl_status (context : rvpf_ssl_context) : Z :=
  (- status context)%Z.

Definition rvpf_ssl_isOpen (context : rvpf_ssl_context) : bool :=
  if SSL_ENABLED then bio context else (0 <=? socket context)%Z.

(** [rvpf_ssl_close]: the status returned, and the context. *)
Definition rvpf_ssl_close (context : rvpf_ssl_context) (net : network)
    : Z * rvpf_ssl_context :=
  let context :=
    if SSL_ENABLED then
      if ssl context then set_connection context false false (socket context)
      else if bio context
      then set_connection context false (ssl context) (socket context)
      else context
    else if (0 <=? socket context)%Z then
      let context :=
        if close_ok net then context
        else set_status context RVPF_SSL_ASK_ERR in
      set_connection context (bio context) (ssl context) (-1)
    else context in
  (status context, context).

(** [_saveString] *)
Definition _saveString (source : option (list ascii)) (length : nat)
    : option (list ascii) :=
  match source with
  | Some text => Some (take length (c_str text))
  | None => None
  end.

(** [_initCTX] *)
Definition _initCTX (context : rvpf_ssl_context) (net : network)
    : rvpf_ssl_context :=
  if SSL_ENABLED then
    if ctx context then context
    else if ctx_new_ok net then set_ctx context true
    else set_status context RVPF_SSL_ASK_ERR
  else context.

Definition rvpf_ssl_setCertificate (context : rvpf_ssl_context)
    (filePath : option (list ascii)) (net : network) : rvpf_ssl_context :=
  if rvpf_ssl_succeeded context then
    let context := _initCTX context net in
    if SSL_ENABLED then
      set_files context (trustFile context) (trustDirectory context)
        (_saveString filePath
           (if filePath is Some f then strlen f else 0))
    else context
  else context.

Definition rvpf_ssl_setTrust (context : rvpf_ssl_context)
    (filePath directoryPath : option (list ascii)) (net : network)
    : rvpf_ssl_context :=
  if rvpf_ssl_succeeded context then
    let context := _initCTX context net in
    if SSL_ENABLED then
      set_files context
        (_saveString filePath
           (if filePath is Some f then strlen f else 0))
        (_saveString directoryPath
           (if directoryPath is Some d then strlen d else 0))
        (certificateFile context)
    else context
  else context.

(** [rvpf_ssl_send]: the value returned, the context and the
    connection. *)
Definition rvpf_ssl_send (context : rvpf_ssl_context)
    (buffer : option (list ascii)) (size : nat) (net : network)
    : Z * rvpf_ssl_context * network :=
  if rvpf_ssl_failed context then (0%Z, context, net)
  else
    match buffer with
    | None => (0%Z, set_status context RVPF_SSL_ILLEGAL_ARG, net)
    | Some data =>
        if size <? 1 then (0%Z, set_status context RVPF_SSL_ILLEGAL_ARG, net)
        else
          let '(count, net) := write_bytes net data size in
          let context :=
            if (count <=? 0)%Z then
              set_status context
                (if (count =? -1)%Z then RVPF_SSL_ASK_ERR
                 else RVPF_SSL_INTERNAL_ERROR)
            else context in
          (to_jint count, context, net)
    end.

(** [rvpf_ssl_receive]: the value returned, the bytes stored in the
    buffer ([buffer] tells whether the pointer is set), the context and
    the connection. *)
Definition rvpf_ssl_receive (context : rvpf_ssl_context)
    (buffer : bool) (size : nat) (net : network)
    : Z * list ascii * rvpf_ssl_context * network :=
  if rvpf_ssl_failed context then (0%Z, [], context, net)
  else if negb buffer || (size <? 1) then
    (0%Z, [], set_status context RVPF_SSL_ILLEGAL_ARG, net)
  else
    let '(count, data, net) := read_bytes net size in
    let context :=
      if (count <? 0)%Z then
        set_status context
          (if (count =? -1)%Z then RVPF_SSL_ASK_ERR
           else RVPF_SSL_INTERNAL_ERROR)
      else if (count =? 0)%Z then set_status context RVPF_SSL_SERVER_CLOSED
      else context in
    (to_jint count, data, context, net).

(** The connection part of [rvpf_ssl_open] under [SSL_ENABLED]. *)
Definition open_secure (context : rvpf_ssl_context) (net : network)
    : rvpf_ssl_context :=
  let secure := ctx context in
  let verified :=
    (if trustFile context is Some _ then true else false)
    || (if trustDirectory context is Some _ then true else false) in
  let certified := if certificateFile context is Some _ then true else false in
  let context :=
    set_connection context (bio_new_ok net) (ssl context) (socket context) in
  let context :=
    if bio context then context else set_status context RVPF_SSL_ASK_ERR in
  let context :=
    if rvpf_ssl_succeeded context then
      if connect_ok net then context
      else set_status context RVPF_SSL_ASK_ERR
    else context in
  let context :=
    if verified && rvpf_ssl_succeeded context then
      if verify_locations_ok net then context
      else set_status context RVPF_SSL_ASK_ERR
    else context in
  let context :=
    if certified && rvpf_ssl_succeeded context then
      if certificate_ok net then context
      else set_status context RVPF_SSL_ASK_ERR
    else context in
  let context :=
    if certified && rvpf_ssl_succeeded context then
      if private_key_ok net then context
      else set_status context RVPF_SSL_ASK_ERR
    else context in
  let context :=
    if secure && rvpf_ssl_succeeded context then
      if cipher_list_ok net then context
      else set_status context RVPF_SSL_ASK_ERR
    else context in
  let context :=
    if secure && rvpf_ssl_succeeded context then
      if ssl_new_ok net
      then set_connection context (bio context) true (socket context)
      else set_status context RVPF_SSL_ASK_ERR
    else context in
  if secure && rvpf_ssl_succeeded context then
    if negb (handshake_ok net) then set_status context RVPF_SSL_ASK_ERR
    else if verified then
      if peer_certificate net then context
      else set_status context RVPF_SSL_UNTRUSTED_HOST
    else context
  else context.

(** The connection part of [rvpf_ssl_open] without [SSL_ENABLED] (and not
    on Windows); the descriptor returned by [socket] is 3. *)
Definition open_plain (context : rvpf_ssl_context) (net : network)
    : rvpf_ssl_context :=
  let context :=
    set_connection context (bio context) (ssl context)
      (if socket_ok net then 3 else -1) in
  let context :=
    if (socket context =? -1)%Z then set_status context RVPF_SSL_ASK_ERR
    else context in
  if rvpf_ssl_succeeded context then
    if negb (host_known net) then set_status context RVPF_SSL_UNKNOWN_HOST
    else if connect_ok net then context
    else set_status context RVPF_SSL_ASK_ERR
  else context.

(** [rvpf_ssl_open]: the status returned, and the context. *)
Definition rvpf_ssl_open (context : rvpf_ssl_context)
    (address : option (list ascii)) (net : network)
    : Z * rvpf_ssl_context :=
  if rvpf_ssl_isOpen context then
    (RVPF_SSL_ILLEGAL_STATE, set_status context RVPF_SSL_ILLEGAL_STATE)
  else
    let context := set_status context RVPF_SSL_OK in
    let address := option_map c_str address in
    let pointer :=
      match address with
      | Some a => strrchr_colon a
      | None => None
      end in
    let context :=
      if pointer is None then set_status context RVPF_SSL_BAD_ADDRESS
      else context in
    let '(hostname, length) :=
      match address, pointer with
      | Some a, Some (S p) => (a, S p)
      | _, _ => (chars "127.0.0.1", strlen (chars "127.0.0.1"))
      end in
    let context :=
      match address, pointer with
      | Some a, Some p =>
          if rvpf_ssl_succeeded context then
            let '(n, rest) := strtoul (drop (S p) a) in
            let context := set_address context (host context) (to_jint n) in
            if negb (if rest is [] then true else false)
               || (port context =? 0)%Z
            then set_status context RVPF_SSL_BAD_ADDRESS
            else context
          else context
      | _, _ => context
      end in
    let context :=
      if rvpf_ssl_succeeded context then
        set_address context (_saveString (Some hostname) length)
          (port context)
      else context in
    if rvpf_ssl_failed context then (status context, context)
    else
      let context :=
        if SSL_ENABLED then open_secure context net
        else open_plain context net in
      let context :=
        if rvpf_ssl_failed context then snd (rvpf_ssl_close context net)
        else context in
      (status context, context).

End Build.

(** ** The latched status *)

(** The calls that do nothing on a failed context. *)
Inductive guarded_call :=
| Send (buffer : option (list ascii)) (size : nat)
| Receive (buffer : bool) (size : nat)
| SetTrust (filePath directoryPath : option (list ascii))
| SetCertificate (filePath : option (list ascii)).

(** One call: the value returned (0 for the two setters, which return
    nothing), the context and the connection. *)
Definition perform (SSL_ENABLED : bool) (call : guarded_call)
    (context : rvpf_ssl_context) (net : network)
    : Z * rvpf_ssl_context * network :=
  match call with
  | Send buffer size => rvpf_ssl_send context buffer size net
  | Receive buffer size =>
      let '(count, _, context, net) :=
        rvpf_ssl_receive context buffer size net in
      (count, context, net)
  | SetTrust filePath directoryPath =>
      (0%Z, rvpf_ssl_setTrust SSL_ENABLED context filePath directoryPath net,
       net)
  | SetCertificate filePath =>
      (0%Z, rvpf_ssl_setCertificate SSL_ENABLED context filePath net, net)
  end.

(** A sequence of calls: the values returned, the context and the
    connection at the end. *)
Fixpoint perform_all (SSL_ENABLED : bool) (calls : list guarded_call)
    (context : rvpf_ssl_context) (net : network)
    : list Z * rvpf_ssl_context * network :=
  match calls with
  | [] => ([], context, net)
  | call :: calls' =>
      let '(r, context, net) := perform SSL_ENABLED call context net in
      let '(rs, context, net) :=
        perform_all SSL_ENABLED calls' context net in
      (r :: rs, context, net)
  end.

Lemma failed_status context :
  status context <> RVPF_SSL_OK ->
  rvpf_ssl_failed context = true /\ rvpf_ssl_succeeded context = false.
Proof.
  intros H. unfold rvpf_ssl_failed, rvpf_ssl_succeeded.
  by destruct (Z.eqb_spec (status context) RVPF_SSL_OK).
Qed.

Lemma perform_failed SSL_ENABLED call context net :
  status context <> RVPF_SSL_OK ->
  perform SSL_ENABLED call context net = (0%Z, context, net).
Proof.
  intros H. destruct (failed_status context H) as [Hf Hs].
  destruct call; cbn [perform];
    unfold rvpf_ssl_send, rvpf_ssl_receive, rvpf_ssl_setTrust,
      rvpf_ssl_setCertificate; by rewrite ?Hf, ?Hs.
Qed.

Lemma perform_all_failed SSL_ENABLED calls context net :
  status context <> RVPF_SSL_OK ->
  perform_all SSL_ENABLED calls context net =
    (List.map (fun _ => 0%Z) calls, context, net).
Proof.
  intros H. induction calls as [|call calls IH]; cbn; [done|].
  by rewrite perform_failed, IH.
Qed.

(** C7 (amended): once the status of a context is not OK, every send,
    receive, setTrust and setCertificate on it returns without an effect
    on the context or on the connection, the status staying as it is,
    until [rvpf_ssl_clearError] sets it back to OK. [rvpf_ssl_open] is not
    such a call: on a context that is not open it starts by setting the
    status to OK, so that it does what it does on a cleared context; on
    an open context it sets ILLEGAL_STATE. *)
Theorem failed_context_short_circuits SSL_ENABLED context net :
  status context <> RVPF_SSL_OK ->
  (forall calls,
     perform_all SSL_ENABLED calls context net =
       (List.map (fun _ => 0%Z) calls, context, net)) /\
  (forall buffer size,
     rvpf_ssl_send context buffer size net = (0%Z, context, net)) /\
  (forall buffer size,
     rvpf_ssl_receive context buffer size net = (0%Z, [], context, net)) /\
  status (rvpf_ssl_clearError context) = RVPF_SSL_OK /\
  (forall address,
     rvpf_ssl_isOpen SSL_ENABLED context = false ->
     rvpf_ssl_open SSL_ENABLED context address net =
       rvpf_ssl_open SSL_ENABLED (rvpf_ssl_clearError context) address net) /\
  (forall address,
     rvpf_ssl_isOpen SSL_ENABLED context = true ->
     rvpf_ssl_open SSL_ENABLED context address net =
       (RVPF_SSL_ILLEGAL_STATE,
        set_status context RVPF_SSL_ILLEGAL_STATE)).
Proof.
  intros H. destruct (failed_status context H) as [Hf Hs].
  split; [intros calls; by apply perform_all_failed|].
  split; [intros buffer size; unfold rvpf_ssl_send; by rewrite Hf|].
  split; [intros buffer size; unfold rvpf_ssl_receive; by rewrite Hf|].
  split; [reflexivity|]. split.
  - intros address Hopen. unfold rvpf_ssl_open.
    assert (Hopen' : rvpf_ssl_isOpen SSL_ENABLED (rvpf_ssl_clearError context)
                     = false) by exact Hopen.
    by rewrite Hopen, Hopen'.
  - intros address Hopen. unfold rvpf_ssl_open. by rewrite Hopen.
Qed.

(** A network where every call succeeds and nothing arrives. *)
Definition willing_network : network :=
  {| bio_new_ok := true; connect_ok := true; verify_locations_ok := true;
     certificate_ok := true; private_key_ok := true; cipher_list_ok := true;
     ssl_new_ok := true; handshake_ok := true; peer_certificate := true;
     ctx_new_ok := true; socket_ok := true; host_known := true;
     close_ok := true; write_results := []; written := []; incoming := [] |}.

(** The context after a failed [rvpf_ssl_open]: the address has no
    port. *)
Definition context_with_bad_address : rvpf_ssl_context :=
  snd (rvpf_ssl_open false (rvpf_ssl_create false) (Some (chars "nohost"))
         willing_network).

Lemma failed_context_short_circuits_witness :
  status context_with_bad_address = RVPF_SSL_BAD_ADDRESS /\
  rvpf_ssl_send context_with_bad_address (Some (chars "<login/>")) 8
    willing_network = (0%Z, context_with_bad_address, willing_network).
Proof.
  split; [reflexivity|].
  apply (failed_context_short_circuits false context_with_bad_address
           willing_network).
  discriminate.
Defined.

(** C7 as stated fails for [rvpf_ssl_open]: on the context left with
    BAD_ADDRESS by a first call, a second call with a good address, and no
    [rvpf_ssl_clearError] in between, connects and leaves the status
    OK. *)
Lemma open_does_not_short_circuit :
  let '(_, context) :=
    rvpf_ssl_open false context_with_bad_address
      (Some (chars "localhost:11000")) willing_network in
  status context_with_bad_address = RVPF_SSL_BAD_ADDRESS /\
  status context = RVPF_SSL_OK /\
  rvpf_ssl_isOpen false context = true /\
  host context = Some (chars "localhost") /\ port context = 11000%Z.
Proof. vm_compute. repeat split. Qed.

(** ** Opening a connection *)





(** Takes the next [let] of a definition out of the goal. *)
Ltac pull_let y :=
  lazymatch goal with
  | |- ?P (let x := ?e in @?body x) =>
      set (y := e); change (P (body y)); cbv beta
  end.





Section Opening.
Variable SSL_ENABLED : bool.

(** The context is not open. *)
Definition closed (c : rvpf_ssl_context) : Prop :=
  rvpf_ssl_isOpen SSL_ENABLED c = false.



Lemma closed_if (b : bool) c1 c2 :
  closed c1 -> closed c2 -> closed (if b then c1 else c2).
Proof. by destruct b. Qed.







End Opening.




(** ** The address given to [rvpf_ssl_open] *)

Lemma strrchr_colon_none (s : list ascii) :
  ":"%char ∉ s -> strrchr_colon s = None.
Proof.
  induction s as [|c s IH]; intros H; cbn; [done|].
  rewrite IH by (intros ?; apply H; by right).
  destruct (Ascii.eqb_spec c ":") as [->|_]; [|done].
  exfalso. apply H. left.
Qed.

Lemma strrchr_colon_last (s t : list ascii) :
  ":"%char ∉ t -> strrchr_colon (s ++ ":"%char :: t) = Some (length s).
Proof.
  intros H. induction s as [|c s IH]; cbn.
  - by rewrite strrchr_colon_none.
  - by rewrite IH.
Qed.

Lemma isdigit_not_colon c : isdigit c = true -> c <> ":"%char.
Proof. by intros H ->. Qed.

Lemma digits_no_colon (digits : list ascii) :
  Forall (fun c => isdigit c = true) digits -> ":"%char ∉ digits.
Proof.
  intros H Hin. rewrite Forall_forall in H.
  by apply (isdigit_not_colon _ (H _ Hin)).
Qed.

Lemma digits_no_nul (digits : list ascii) :
  Forall (fun c => isdigit c = true) digits -> NUL ∉ digits.
Proof.
  intros H Hin. rewrite Forall_forall in H.
  by pose proof (H _ Hin).
Qed.

Lemma digits_value_all (digits : list ascii) :
  Forall (fun c => isdigit c = true) digits ->
  forall acc, snd (digits_value digits acc) = [].
Proof.
  induction 1 as [|c digits Hc _ IH]; intros acc; cbn; [done|].
  by rewrite Hc.
Qed.

Lemma isdigit_not_space c : isdigit c = true -> isspace c = false.
Proof.
  unfold isdigit, isspace. intros H.
  apply andb_true_iff in H as [H1 H2].
  apply Nat.leb_le in H1, H2.
  destruct (Nat.eqb_spec (nat_of_ascii c) 32); [lia|].
  destruct (Nat.leb_spec 9 (nat_of_ascii c));
    destruct (Nat.leb_spec (nat_of_ascii c) 13); cbn; (done || lia).
Qed.

Lemma isdigit_not_sign c :
  isdigit c = true -> Ascii.eqb c "-" = false /\ Ascii.eqb c "+" = false.
Proof.
  intros H. split; apply Ascii.eqb_neq; by intros ->.
Qed.

(** [strtoul] on a string of digits. *)
Lemma strtoul_digits (digits : list ascii) :
  digits <> [] -> Forall (fun c => isdigit c = true) digits ->
  strtoul digits = (Z.min (digits_value digits 0).1 ULONG_MAX, []).
Proof.
  intros Hne Hall. pose proof (digits_value_all digits Hall 0%Z) as Hrest.
  destruct digits as [|c digits]; [done|].
  apply Forall_cons in Hall as [Hc Hall].
  unfold strtoul. cbn [skip_spaces]. rewrite (isdigit_not_space c Hc).
  destruct (isdigit_not_sign c Hc) as [-> ->]. rewrite Hc.
  destruct (digits_value (c :: digits) 0) as [v rest]. cbn in Hrest.
  subst rest. cbn [fst]. f_equal.
  destruct (Z.ltb_spec ULONG_MAX v); lia.
Qed.

(** The host and the port of a context. *)
Definition addressed (h : option (list ascii)) (p : Z)
    (c : rvpf_ssl_context) : Prop :=
  host c = h /\ port c = p.

Lemma addressed_set_status h p c s :
  addressed h p c -> addressed h p (set_status c s).
Proof. intros H. exact H. Qed.

Lemma addressed_set_connection h p c b s fd :
  addressed h p c -> addressed h p (set_connection c b s fd).
Proof. intros H. exact H. Qed.

Lemma addressed_if h p (b : bool) c1 c2 :
  addressed h p c1 -> addressed h p c2 ->
  addressed h p (if b then c1 else c2).
Proof. by destruct b. Qed.

Ltac addressed_ok :=
  lazymatch goal with
  | |- addressed _ _ (if _ then _ else _) =>
      apply addressed_if; addressed_ok
  | |- addressed _ _ (set_status _ _) =>
      apply addressed_set_status; addressed_ok
  | |- addressed _ _ (set_connection _ _ _ _) =>
      apply addressed_set_connection; addressed_ok
  | |- _ => assumption
  end.

Ltac addressed_step c H c' :=
  pull_let c';
  let H' := fresh "H" in
  lazymatch type of H with
  | addressed ?h ?p _ =>
      assert (addressed h p c') as H' by (subst c'; addressed_ok)
  end;
  clearbody c'; clear H; try clear c; rename H' into H.

Lemma open_secure_addressed h p c net :
  addressed h p c -> addressed h p (open_secure c net).
Proof.
  intros H. cbv delta [open_secure] beta.
  pull_let secure. pull_let verified. pull_let certified.
  addressed_step c H c1. addressed_step c1 H c2. addressed_step c2 H c3.
  addressed_step c3 H c4. addressed_step c4 H c5. addressed_step c5 H c6.
  addressed_step c6 H c7. addressed_step c7 H c8.
  addressed_ok.
Qed.

Lemma open_plain_addressed h p c net :
  addressed h p c -> addressed h p (open_plain c net).
Proof.
  intros H. cbv delta [open_plain] beta.
  addressed_step c H c1. addressed_step c1 H c2.
  addressed_ok.
Qed.

Lemma close_addressed SSL_ENABLED h p c net :
  addressed h p c -> addressed h p (rvpf_ssl_close SSL_ENABLED c net).2.
Proof.
  intros H. unfold rvpf_ssl_close. cbn [snd].
  destruct SSL_ENABLED; [addressed_ok|].
  destruct (0 <=? socket c)%Z; [|done].
  apply addressed_set_connection. addressed_ok.
Qed.

Lemma open_without_colon SSL_ENABLED context address net :
  rvpf_ssl_isOpen SSL_ENABLED context = false ->
  (if address is Some a then ":"%char ∉ c_str a else True) ->
  rvpf_ssl_open SSL_ENABLED context address net
  = (RVPF_SSL_BAD_ADDRESS, set_status context RVPF_SSL_BAD_ADDRESS).
Proof.
  intros Hclosed Haddress. unfold rvpf_ssl_open. rewrite Hclosed.
  destruct address as [a|]; cbn [option_map].
  - by rewrite (strrchr_colon_none _ Haddress).
  - done.
Qed.

Lemma drop_after {A} (s : list A) c t : drop (S (length s)) (s ++ c :: t) = t.
Proof. induction s as [|x s IH]; [done|exact IH]. Qed.

Lemma take_before {A} (s : list A) c t : take (length s) (s ++ c :: t) = s.
Proof. by rewrite take_app_length. Qed.

Lemma connection_addressed (SSL_ENABLED : bool) h p c net :
  addressed h p c ->
  let c' := if SSL_ENABLED then open_secure c net else open_plain c net in
  let c' :=
    if rvpf_ssl_failed c' then (rvpf_ssl_close SSL_ENABLED c' net).2
    else c' in
  addressed h p (status c', c').2.
Proof.
  intros H. cbv zeta. cbn [snd].
  assert (addressed h p
            (if SSL_ENABLED then open_secure c net else open_plain c net))
    as H'.
  { destruct SSL_ENABLED;
      [by apply open_secure_addressed|by apply open_plain_addressed]. }
  destruct (rvpf_ssl_failed _); [by apply close_addressed|done].
Qed.

Lemma open_with_port SSL_ENABLED context hostname digits net :
  rvpf_ssl_isOpen SSL_ENABLED context = false ->
  NUL ∉ hostname -> digits <> [] ->
  Forall (fun c => isdigit c = true) digits ->
  (0 < (digits_value digits 0).1 < 2 ^ 31)%Z ->
  addressed
    (Some (if hostname is [] then chars "127.0.0.1" else hostname))
    (digits_value digits 0).1
    (rvpf_ssl_open SSL_ENABLED context
       (Some (hostname ++ ":"%char :: digits)) net).2.
Proof.
  intros Hclosed Hhost Hne Hdigits Hport.
  assert (c_str (hostname ++ ":"%char :: digits) = hostname ++ ":"%char :: digits)
    as Hstr.
  { apply Pipe.c_str_id. intros [H|H]%elem_of_app; [done|].
    apply elem_of_cons in H as [H|H]; [done|].
    by apply (digits_no_nul digits Hdigits). }
  assert (to_jint (Z.min (digits_value digits 0).1 ULONG_MAX)
          = (digits_value digits 0).1) as Hvalue.
  { unfold ULONG_MAX. rewrite Z.min_l by lia.
    apply Pipe.to_jint_small. lia. }
  cbv delta [rvpf_ssl_open] beta. rewrite Hclosed. cbv iota.
  cbn [option_map]. rewrite Hstr.
  rewrite (strrchr_colon_last hostname digits (digits_no_colon _ Hdigits)).
  cbv zeta.
  rewrite drop_after, (strtoul_digits digits Hne Hdigits).
  change (rvpf_ssl_succeeded (set_status context RVPF_SSL_OK)) with true.
  cbv iota. cbn [negb orb port set_address set_status]. rewrite Hvalue.
  destruct (Z.eqb_spec (digits_value digits 0).1 0) as [Hzero|_]; [lia|].
  set (p := (digits_value digits 0).1) in *. clearbody p.
  match goal with
  | |- context [rvpf_ssl_succeeded ?c] =>
      change (rvpf_ssl_succeeded c) with true
  end.
  cbv iota.
  destruct hostname as [|x hostname].
  - cbn [length]. cbv iota.
    match goal with
    | |- context [rvpf_ssl_failed ?c] => change (rvpf_ssl_failed c) with false
    end.
    cbv iota. by apply connection_addressed.
  - cbn [length]. cbv iota.
    match goal with
    | |- context [rvpf_ssl_failed ?c] => change (rvpf_ssl_failed c) with false
    end.
    cbv iota. apply connection_addressed. split; [|done].
    cbn [host set_address _saveString]. rewrite Hstr. f_equal.
    apply (take_before (x :: hostname)).
Qed.

(** X21: [rvpf_ssl_open] splits its address at the
    last colon: with a port made of digits, of a value between 1 and
    2^31 - 1, the context gets the text before the colon as host
    (127.0.0.1 when there is none) and the value as port, whatever becomes
    of the connection; an address that is null or has no colon is refused
    with BAD_ADDRESS, the context being otherwise left as it was. *)
Theorem open_splits_address SSL_ENABLED context net :
  rvpf_ssl_isOpen SSL_ENABLED context = false ->
  (forall hostname digits,
     NUL ∉ hostname -> digits <> [] ->
     Forall (fun c => isdigit c = true) digits ->
     (0 < (digits_value digits 0).1 < 2 ^ 31)%Z ->
     let result :=
       rvpf_ssl_open SSL_ENABLED context
         (Some (hostname ++ ":"%char :: digits)) net in
     host result.2
     = Some (if hostname is [] then chars "127.0.0.1" else hostname)
     /\ port result.2 = (digits_value digits 0).1)
  /\ (forall address,
       (if address is Some a then ":"%char ∉ c_str a else True) ->
       rvpf_ssl_open SSL_ENABLED context address net
       = (RVPF_SSL_BAD_ADDRESS, set_status context RVPF_SSL_BAD_ADDRESS)).
Proof.
  intros Hclosed. split.
  - intros hostname digits Hhost Hne Hdigits Hport.
    by apply open_with_port.
  - intros address Haddress. by apply open_without_colon.
Qed.

Lemma open_splits_address_witness :
  let result :=
    rvpf_ssl_open false (rvpf_ssl_create false)
      (Some (chars "historian.example:11000")) willing_network in
  host result.2 = Some (chars "historian.example")
  /\ port result.2 = 11000%Z.
Proof.
  apply (proj1 (open_splits_address false (rvpf_ssl_create false)
                  willing_network eq_refl)
           (chars "historian.example") (chars "11000")).
  - by apply Pipe.nul_free_chars_lit.
  - done.
  - repeat constructor.
  - by vm_compute.
Defined.

End Ssl.

(** * lib/impl/rvpf_xpvpc.c *)

Module Xpvpc.

Local Open Scope nat_scope.

Definition MIN_BUFFER_SIZE : nat := 256.

Definition RVPF_XPVPC_OK : Z := 0.
Definition RVPF_XPVPC_ILLEGAL_STATE : Z := 1.
Definition RVPF_XPVPC_ILLEGAL_ARG : Z := 2.
Definition RVPF_XPVPC_INTERNAL_ERROR : Z := 3.
Definition RVPF_XPVPC_UNEXPECTED_RESPONSE : Z := 4.
Definition RVPF_XPVPC_MISMATCHED_ID : Z := 5.
Definition RVPF_XPVPC_UNKNOWN_ERROR : Z := 6.
Definition RVPF_XPVPC_STATUS_CODES : Z := 7.

Definition RESPONSE_START : list ascii := chars "<done ref='".
Definition RESPONSE_END : list ascii := chars "'/>".

(** [struct rvpf_xpvpc_context] *)
Record rvpf_xpvpc_context := {
  client : option (list ascii);
  id : Z;
  pending : Z;
  ssl : Ssl.rvpf_ssl_context;
  buffer : list ascii;
  size : nat;
  limit : nat;
  position : nat;
  status : Z
}.

Definition set_status (c : rvpf_xpvpc_context) (s : Z) :=
  {| client := client c; id := id c; pending := pending c; ssl := ssl c;
     buffer := buffer c; size := size c; limit := limit c;
     position := position c; status := s |}.

Definition set_ssl (c : rvpf_xpvpc_context) (x : Ssl.rvpf_ssl_context) :=
  {| client := client c; id := id c; pending := pending c; ssl := x;
     buffer := buffer c; size := size c; limit := limit c;
     position := position c; status := status c |}.

Definition set_id (c : rvpf_xpvpc_context) (n : Z) :=
  {| client := client c; id := n; pending := pending c; ssl := ssl c;
     buffer := buffer c; size := size c; limit := limit c;
     position := position c; status := status c |}.

Definition set_pending (c : rvpf_xpvpc_context) (n : Z) :=
  {| client := client c; id := id c; pending := n; ssl := ssl c;
     buffer := buffer c; size := size c; limit := limit c;
     position := position c; status := status c |}.

Definition set_client (c : rvpf_xpvpc_context) (x : option (list ascii)) :=
  {| client := x; id := id c; pending := pending c; ssl := ssl c;
     buffer := buffer c; size := size c; limit := limit c;
     position := position c; status := status c |}.

(** The buffer and its three cursors. *)
Definition set_text (c : rvpf_xpvpc_context) (mem : list ascii)
    (sz lim pos : nat) :=
  {| client := client c; id := id c; pending := pending c; ssl := ssl c;
     buffer := mem; size := sz; limit := lim; position := pos;
     status := status c |}.

(** The file-scope variables that are written after start-up. *)
Record statics := { _autoFlush : Z }.

Definition initial_statics : statics := {| _autoFlush := 0 |}.

(** What [state] points at in [rvpf_xpvpc_sendValue]: the static
    [_deletedState], told apart by its address, or a string of the
    caller. *)
Inductive state_ptr :=
| DeletedState
| StateText (text : list ascii).

(** ** The text buffer *)

(** The functions that add to the buffer return [None] when their
    behaviour is undefined.

    [_addChar]. When [position >= size - 1] the block is reallocated to
    twice its size, and the [memset(buffer + size, '\0', size)] that
    follows is given the new size: it starts at the end of the new block
    and writes [size] bytes past it. *)
Definition _addChar (context : rvpf_xpvpc_context) (c : ascii)
    : option rvpf_xpvpc_context :=
  if negb (status context =? RVPF_XPVPC_OK)%Z then Some context
  else if size context - 1 <=? position context then None
  else
    let mem := <[position context := c]> (buffer context) in
    let mem := <[S (position context) := NUL]> mem in
    Some
      (set_text context mem (size context) (limit context)
         (S (position context))).

(** The [while] loop of [_addText]. *)
Fixpoint add_chars (context : rvpf_xpvpc_context) (text : list ascii)
    : option rvpf_xpvpc_context :=
  match text with
  | [] => Some context
  | c :: text' =>
      context ← _addChar context c;
      add_chars context text'
  end.

Definition _addText (context : rvpf_xpvpc_context) (text : list ascii)
    : option rvpf_xpvpc_context :=
  if negb (status context =? RVPF_XPVPC_OK)%Z then Some context
  else add_chars context (c_str text).

(** The first loop of [_addLong]: the characters put in its array of 20,
    lowest digit first; [None] when the array is full. The remainder and
    the quotient are those of C, which round toward zero. *)
Fixpoint long_digits (room : nat) (n : Z) : option (list ascii) :=
  match room with
  | 0 => None
  | S room' =>
      let d := ascii_of_nat (Z.to_nat ((Z.rem n 10 + 48) mod 256)) in
      let n := Z.quot n 10 in
      if (0 <? n)%Z then
        match long_digits room' n with
        | Some ds => Some (d :: ds)
        | None => None
        end
      else Some [d]
  end.

Definition _addLong (context : rvpf_xpvpc_context) (n : Z)
    : option rvpf_xpvpc_context :=
  if negb (status context =? RVPF_XPVPC_OK)%Z then Some context
  else
    match long_digits 20 n with
    | None => Some (set_status context RVPF_XPVPC_INTERNAL_ERROR)
    | Some ds => add_chars context (rev ds)
    end.

Fixpoint trim_left (text : list ascii) : list ascii :=
  match text with
  | c :: text' => if isspace c then trim_left text' else text
  | [] => []
  end.

(** The text between [start] and [end] in [_addEncoded]. *)
Definition trim (text : list ascii) : list ascii :=
  rev (trim_left (rev (trim_left text))).

Section Build.

(** Whether [rvpf_ssl.c] is compiled with [SSL_ENABLED], and whether a
    plain [char] is signed. *)
Variable SSL_ENABLED : bool.
Variable CHAR_IS_SIGNED : bool.

(** The value of a [char] in a comparison or as an argument. *)
Definition char_value (c : ascii) : Z :=
  let n := Z.of_nat (nat_of_ascii c) in
  if CHAR_IS_SIGNED && (128 <=? n)%Z then (n - 256)%Z else n.

(** The [switch] of [_addEncoded] for one character. *)
Definition add_encoded_char (quote : ascii) (context : rvpf_xpvpc_context)
    (next : ascii) : option rvpf_xpvpc_context :=
  if Ascii.eqb next "<" then _addText context (chars "&lt;")
  else if Ascii.eqb next ">" then _addText context (chars "&gt;")
  else if Ascii.eqb next "&" then _addText context (chars "&amp;")
  else if Ascii.eqb next QUOTE then
    if Ascii.eqb quote next then _addText context (chars "&quot;")
    else _addChar context next
  else if Ascii.eqb next "'" then
    if Ascii.eqb quote next then _addText context (chars "&apos;")
    else _addChar context next
  else if Ascii.eqb next (ascii_of_nat 9) || Ascii.eqb next LF
          || Ascii.eqb next CR then _addChar context next
  else if (char_value next <? 32)%Z then
    context ← _addText context (chars "&#");
    context ← _addLong context (char_value next);
    _addChar context ";"
  else _addChar context next.

(** The [while (text != end)] loop of [_addEncoded]. *)
Fixpoint add_encoded (quote : ascii) (context : rvpf_xpvpc_context)
    (text : list ascii) : option rvpf_xpvpc_context :=
  match text with
  | [] => Some context
  | next :: text' =>
      context ← add_encoded_char quote context next;
      add_encoded quote context text'
  end.

Definition _addEncoded (context : rvpf_xpvpc_context)
    (text : option (list ascii)) (quote : ascii)
    : option rvpf_xpvpc_context :=
  if negb (status context =? RVPF_XPVPC_OK)%Z then Some context
  else
    match text with
    | None => Some context
    | Some text => add_encoded quote context (trim (c_str text))
    end.

(** The [while] loop of [_match]. *)
Fixpoint _match (context : rvpf_xpvpc_context) (text : list ascii)
    : rvpf_xpvpc_context :=
  match text with
  | [] => context
  | c :: text' =>
      if (limit context <=? position context)
         || negb (Ascii.eqb (peek (buffer context) (position context)) c)
      then set_status context RVPF_XPVPC_UNEXPECTED_RESPONSE
      else
        _match
          (set_text context (buffer context) (size context) (limit context)
             (S (position context))) text'
  end.

Definition _resetText (context : rvpf_xpvpc_context) : rvpf_xpvpc_context :=
  set_text context (buffer context) (size context) (position context) 0.

Definition rvpf_xpvpc_isOpen (context : rvpf_xpvpc_context) : bool :=
  Ssl.rvpf_ssl_isOpen SSL_ENABLED (ssl context).

Definition rvpf_xpvpc_failed (context : rvpf_xpvpc_context) : bool :=
  negb (status context =? RVPF_XPVPC_OK)%Z
  || Ssl.rvpf_ssl_failed (ssl context).

Definition rvpf_xpvpc_succeeded (context : rvpf_xpvpc_context) : bool :=
  (status context =? RVPF_XPVPC_OK)%Z
  && Ssl.rvpf_ssl_succeeded (ssl context).

Definition rvpf_xpvpc_status (context : rvpf_xpvpc_context) : Z :=
  if negb (status context =? RVPF_XPVPC_OK)%Z then status context
  else Ssl.rvpf_ssl_status (ssl context).

(** ** Sending and receiving *)

(** The [while] loop of [_sendText]; a turn that does not end the loop
    moves [position] forward. *)
Fixpoint _sendText_loop (turns : nat) (context : rvpf_xpvpc_context)
    (net : Ssl.network) : rvpf_xpvpc_context * Ssl.network :=
  match turns with
  | 0 => (context, net)
  | S turns' =>
      if position context <? limit context then
        let '(count, ssl', net) :=
          Ssl.rvpf_ssl_send (ssl context)
            (Some (drop (position context) (buffer context)))
            (limit context - position context) net in
        let context := set_ssl context ssl' in
        if Ssl.rvpf_ssl_failed (ssl context) then (context, net)
        else
          _sendText_loop turns'
            (set_text context (buffer context) (size context)
               (limit context) (position context + Z.to_nat count)) net
      else (context, net)
  end.

Definition _sendText (context : rvpf_xpvpc_context) (net : Ssl.network)
    : rvpf_xpvpc_context * Ssl.network :=
  if rvpf_xpvpc_failed context then (context, net)
  else
    let context := _resetText context in
    _sendText_loop (limit context) context net.

(** The [do ... while (--count > 0)] of [_receiveLine]: whether the
    newline was found, and the context. *)
Fixpoint scan_line (count : nat) (context : rvpf_xpvpc_context)
    : bool * rvpf_xpvpc_context :=
  match count with
  | 0 => (false, context)
  | S count' =>
      if Ascii.eqb (peek (buffer context) (limit context)) LF then
        (true,
         set_text context (<[limit context := NUL]> (buffer context))
           (size context) (limit context) (position context))
      else
        scan_line count'
          (set_text context (buffer context) (size context)
             (S (limit context)) (position context))
  end.

(** The [while] loop of [_receiveLine]; a turn that does not return moves
    [limit] forward. *)
Fixpoint _receiveLine_loop (turns : nat) (context : rvpf_xpvpc_context)
    (net : Ssl.network) : rvpf_xpvpc_context * Ssl.network :=
  match turns with
  | 0 => (context, net)
  | S turns' =>
      if limit context <? size context - 1 then
        let '(count, data, ssl', net) :=
          Ssl.rvpf_ssl_receive (ssl context) true
            (size context - 1 - limit context) net in
        let context :=
          set_text (set_ssl context ssl')
            (take (limit context) (buffer context) ++ data
               ++ drop (limit context + length data) (buffer context))
            (size context) (limit context) (position context) in
        if Ssl.rvpf_ssl_failed (ssl context) then (context, net)
        else if (Z.of_nat (size context) - 1
                 <=? Z.of_nat (limit context) + count)%Z then
          (set_status context RVPF_XPVPC_INTERNAL_ERROR, net)
        else
          let context :=
            set_text context
              (<[limit context + Z.to_nat count := NUL]> (buffer context))
              (size context) (limit context) (position context) in
          let '(found, context) :=
            scan_line (Nat.max 1 (Z.to_nat count)) context in
          if found then (context, net)
          else _receiveLine_loop turns' context net
      else
        (if size context <=? limit context
         then set_status context RVPF_XPVPC_UNEXPECTED_RESPONSE
         else context, net)
  end.

Definition _receiveLine (context : rvpf_xpvpc_context) (net : Ssl.network)
    : rvpf_xpvpc_context * Ssl.network :=
  if negb (status context =? RVPF_XPVPC_OK)%Z then (context, net)
  else
    let context :=
      set_text context (buffer context) (size context) 0 0 in
    _receiveLine_loop (S (size context)) context net.

(** The loop of [_verifyResponse] over the digits: [receivedId] and the
    context. The products and sums are those of a [long long]. *)
Fixpoint read_digits (turns : nat) (context : rvpf_xpvpc_context)
    (receivedId : Z) : Z * rvpf_xpvpc_context :=
  match turns with
  | 0 => (receivedId, context)
  | S turns' =>
      if position context <? limit context then
        let c := peek (buffer context) (position context) in
        if negb (Ssl.isdigit c) then (receivedId, context)
        else
          let receivedId := to_jlong (receivedId * 10) in
          let receivedId := to_jlong (receivedId + Ssl.digit_value c) in
          read_digits turns'
            (set_text context (buffer context) (size context)
               (limit context) (S (position context))) receivedId
      else (receivedId, context)
  end.

Definition _verifyResponse (context : rvpf_xpvpc_context) (expectedId : Z)
    (net : Ssl.network) : rvpf_xpvpc_context * Ssl.network :=
  let '(context, net) := _receiveLine context net in
  if negb (status context =? RVPF_XPVPC_OK)%Z then (context, net)
  else
    let context := _match context RESPONSE_START in
    if negb (status context =? RVPF_XPVPC_OK)%Z then (context, net)
    else
      let '(receivedId, context) :=
        read_digits (limit context) context 0 in
      let context := _match context RESPONSE_END in
      if negb (status context =? RVPF_XPVPC_OK)%Z then (context, net)
      else
        let context :=
          if negb (receivedId =? expectedId)%Z
          then set_status context RVPF_XPVPC_MISMATCHED_ID
          else context in
        (_resetText context, net).

(** ** The public functions *)

Definition CLIENT_ATTRIBUTE : list ascii := chars "client".
Definition DATA_ELEMENT : list ascii := chars "data".
Definition DELETED_VALUE_ELEMENT : list ascii := chars "deleted-value".
Definition FLUSH_ATTRIBUTE : list ascii := chars "flush".
Definition ID_ATTRIBUTE : list ascii := chars "id".
Definition LOGIN_ELEMENT : list ascii := chars "login".
Definition MESSAGES_ELEMENT : list ascii := chars "messages".
Definition PASSWORD_ATTRIBUTE : list ascii := chars "password".
Definition POINT_ELEMENT : list ascii := chars "point".
Definition POINT_VALUE_ELEMENT : list ascii := chars "point-value".
Definition STAMP_ELEMENT : list ascii := chars "stamp".
Definition STATE_ELEMENT : list ascii := chars "state".
Definition USER_ATTRIBUTE : list ascii := chars "user".
Definition VALUE_ELEMENT : list ascii := chars "value".

(** [rvpf_xpvpc_create]; the allocations are zeroed. *)
Definition rvpf_xpvpc_create : rvpf_xpvpc_context :=
  {| client := None; id := 0; pending := 0;
     ssl := Ssl.rvpf_ssl_create SSL_ENABLED;
     buffer := replicate MIN_BUFFER_SIZE NUL; size := MIN_BUFFER_SIZE;
     limit := 0; position := 0; status := RVPF_XPVPC_OK |}.

Definition rvpf_xpvpc_clearError (context : rvpf_xpvpc_context)
    : rvpf_xpvpc_context :=
  let context := _resetText context in
  let context := set_pending context 0 in
  let context := set_status context RVPF_XPVPC_OK in
  set_ssl context (Ssl.rvpf_ssl_clearError (ssl context)).

Definition rvpf_xpvpc_setClient (context : rvpf_xpvpc_context)
    (name : option (list ascii)) : rvpf_xpvpc_context :=
  set_client context (option_map c_str name).

(** [rvpf_xpvpc_flush]: the status returned, the context and the
    connection. *)
Definition rvpf_xpvpc_flush (context : rvpf_xpvpc_context)
    (net : Ssl.network)
    : option (Z * rvpf_xpvpc_context * Ssl.network) :=
  if rvpf_xpvpc_failed context then
    Some (rvpf_xpvpc_status context, context, net)
  else if negb (rvpf_xpvpc_isOpen context) then
    Some (RVPF_XPVPC_ILLEGAL_STATE,
          set_status context RVPF_XPVPC_ILLEGAL_STATE, net)
  else if negb (pending context =? 0)%Z then
    context ← _addText context (chars "</");
    context ← _addText context MESSAGES_ELEMENT;
    context ← _addText context (chars ">" ++ [LF]);
    let '(context, net) := _sendText context net in
    let '(context, net) := _verifyResponse context (id context) net in
    let context := set_pending context 0 in
    Some (status context, context, net)
  else Some (status context, context, net).

(** The part of [rvpf_xpvpc_login] that fills the buffer. The increment
    of [id] is that of a [long long] below its maximum; the model wraps
    it. *)
Definition add_login (context : rvpf_xpvpc_context)
    (user password : option (list ascii)) : option rvpf_xpvpc_context :=
  context ← _addChar context "<";
  context ← _addText context LOGIN_ELEMENT;
  context ← _addChar context " ";
  context ←
    match client context with
    | Some name =>
        context ← _addText context CLIENT_ATTRIBUTE;
        context ← _addText context (chars "='");
        context ← _addEncoded context (Some name) "'";
        _addText context (chars "' ")
    | None => Some context
    end;
  context ← _addText context ID_ATTRIBUTE;
  context ← _addText context (chars "='");
  let context := set_id context (to_jlong (id context + 1)) in
  context ← _addLong context (id context);
  context ← _addText context (chars "' ");
  context ← _addText context USER_ATTRIBUTE;
  context ← _addText context (chars "='");
  context ← _addEncoded context user "'";
  context ← _addText context (chars "' ");
  context ← _addText context PASSWORD_ATTRIBUTE;
  context ← _addText context (chars "='");
  context ← _addEncoded context password "'";
  _addText context (chars "'/>" ++ [LF]).

(** [rvpf_xpvpc_login] *)
Definition rvpf_xpvpc_login (context : rvpf_xpvpc_context)
    (user password : option (list ascii)) (net : Ssl.network)
    : option (Z * rvpf_xpvpc_context * Ssl.network) :=
  if rvpf_xpvpc_failed context then
    Some (rvpf_xpvpc_status context, context, net)
  else if negb (rvpf_xpvpc_isOpen context) then
    Some (RVPF_XPVPC_ILLEGAL_STATE,
          set_status context RVPF_XPVPC_ILLEGAL_STATE, net)
  else
    '(_, context, net) ← rvpf_xpvpc_flush context net;
    context ← add_login context user password;
    let '(context, net) := _sendText context net in
    let '(context, net) := _verifyResponse context (id context) net in
    Some (status context, context, net).

Definition rvpf_xpvpc_open (context : rvpf_xpvpc_context)
    (address : option (list ascii)) (net : Ssl.network)
    : Z * rvpf_xpvpc_context :=
  if Ssl.rvpf_ssl_isOpen SSL_ENABLED (ssl context) then
    (RVPF_XPVPC_ILLEGAL_STATE,
     set_status context RVPF_XPVPC_ILLEGAL_STATE)
  else
    let context := set_status context RVPF_XPVPC_OK in
    let '(result, ssl') :=
      Ssl.rvpf_ssl_open SSL_ENABLED (ssl context) address net in
    (result, set_ssl context ssl').

(** The element name chosen by [state == _deletedState]. *)
Definition value_element (state : option state_ptr) : list ascii :=
  match state with
  | Some DeletedState => DELETED_VALUE_ELEMENT
  | _ => POINT_VALUE_ELEMENT
  end.

(** The part of [rvpf_xpvpc_sendValue] that opens the batch when none is
    pending. *)
Definition open_messages (context : rvpf_xpvpc_context)
    : option rvpf_xpvpc_context :=
  if (pending context =? 0)%Z then
    context ← _addChar context "<";
    context ← _addText context MESSAGES_ELEMENT;
    context ← _addChar context " ";
    context ← _addText context ID_ATTRIBUTE;
    context ← _addText context (chars "='");
    let context := set_id context (to_jlong (id context + 1)) in
    context ← _addLong context (id context);
    context ← _addText context (chars "' ");
    context ← _addText context FLUSH_ATTRIBUTE;
    _addText context (chars "='yes'>" ++ [LF])
  else Some context.

(** The part of [rvpf_xpvpc_sendValue] that adds the element and counts
    it. *)
Definition add_value (context : rvpf_xpvpc_context)
    (point stamp : list ascii) (state : option state_ptr)
    (value : option (list ascii)) : option rvpf_xpvpc_context :=
  context ← _addText context (chars " <");
  context ← _addText context (value_element state);
  context ← _addText context (chars ">" ++ [LF]);
  context ← _addText context (chars "  <");
  context ← _addText context POINT_ELEMENT;
  context ← _addChar context ">";
  context ← _addEncoded context (Some point) NUL;
  context ← _addText context (chars "</");
  context ← _addText context POINT_ELEMENT;
  context ← _addText context (chars ">" ++ [LF]);
  context ← _addText context (chars "  <");
  context ← _addText context STAMP_ELEMENT;
  context ← _addChar context ">";
  context ← _addEncoded context (Some stamp) NUL;
  context ← _addText context (chars "</");
  context ← _addText context STAMP_ELEMENT;
  context ← _addText context (chars ">" ++ [LF]);
  context ←
    match state with
    | Some DeletedState => Some context
    | _ =>
        context ←
          match state with
          | Some (StateText text) =>
              context ← _addText context (chars "  <");
              context ← _addText context STATE_ELEMENT;
              context ← _addChar context ">";
              context ← _addEncoded context (Some text) NUL;
              context ← _addText context (chars "</");
              context ← _addText context STATE_ELEMENT;
              _addText context (chars ">" ++ [LF])
          | _ => Some context
          end;
        match value with
        | Some text =>
            let text := trim_left (c_str text) in
            context ← _addText context (chars "  <");
            context ← _addText context VALUE_ELEMENT;
            context ← _addChar context ">";
            context ← _addEncoded context (Some text) NUL;
            context ← _addText context (chars "</");
            context ← _addText context VALUE_ELEMENT;
            _addText context (chars ">" ++ [LF])
        | None => Some context
        end
    end;
  context ← _addText context (chars " </");
  context ← _addText context (value_element state);
  context ← _addText context (chars ">" ++ [LF]);
  Some (set_pending context (to_jint (pending context + 1))).

(** [rvpf_xpvpc_sendValue], reading [_autoFlush]. *)
Definition rvpf_xpvpc_sendValue (context : rvpf_xpvpc_context)
    (point stamp : option (list ascii)) (state : option state_ptr)
    (value : option (list ascii)) (globals : statics) (net : Ssl.network)
    : option (Z * rvpf_xpvpc_context * Ssl.network) :=
  if rvpf_xpvpc_failed context then
    Some (rvpf_xpvpc_status context, context, net)
  else if negb (rvpf_xpvpc_isOpen context) then
    Some (RVPF_XPVPC_ILLEGAL_STATE,
          set_status context RVPF_XPVPC_ILLEGAL_STATE, net)
  else
    match point, stamp with
    | Some point, Some stamp =>
        context ← open_messages context;
        context ← add_value context point stamp state value;
        if (0 <? _autoFlush globals)%Z
           && (_autoFlush globals <=? pending context)%Z then
          '(_, context, net) ← rvpf_xpvpc_flush context net;
          Some (status context, context, net)
        else Some (status context, context, net)
    | _, _ =>
        Some (RVPF_XPVPC_ILLEGAL_ARG,
              set_status context RVPF_XPVPC_ILLEGAL_ARG, net)
    end.

(** [rvpf_xpvpc_setAutoFlush], writing [_autoFlush]. *)
Definition rvpf_xpvpc_setAutoFlush (context : rvpf_xpvpc_context)
    (autoFlush : Z) (globals : statics) (net : Ssl.network)
    : option (rvpf_xpvpc_context * statics * Ssl.network) :=
  '(context, net) ←
    (if rvpf_xpvpc_isOpen context then
       '(_, context, net) ← rvpf_xpvpc_flush context net;
       Some (context, net)
     else Some (context, net));
  Some (context, {| _autoFlush := autoFlush |}, net).

Definition rvpf_xpvpc_close (context : rvpf_xpvpc_context)
    (net : Ssl.network)
    : option (Z * rvpf_xpvpc_context * Ssl.network) :=
  if negb (Ssl.rvpf_ssl_isOpen SSL_ENABLED (ssl context)) then
    let context := rvpf_xpvpc_clearError context in
    Some (status context, context, net)
  else
    '(context, net) ←
      (if rvpf_xpvpc_succeeded context then
         '(_, context, net) ← rvpf_xpvpc_flush context net;
         Some (context, net)
       else Some (set_status context RVPF_XPVPC_OK, net));
    let '(result, ssl') :=
      Ssl.rvpf_ssl_close SSL_ENABLED (ssl context) net in
    Some (result, set_ssl context ssl', net).

End Build.

(** ** Theory *)

(** ** The text being composed *)

(** The buffer is [size] bytes long, not smaller than at creation, and
    has room for the terminator. *)
Definition wf (c : rvpf_xpvpc_context) : Prop :=
  length (buffer c) = size c /\ position c < size c
  /\ MIN_BUFFER_SIZE <= size c.

(** What has been added since the last reset. *)
Definition text (c : rvpf_xpvpc_context) : list ascii :=
  take (position c) (buffer c).

(** [c'] is [c] with [s] added to its text, in the same block, [n] for
    [id] and [p] for [pending]. *)
Definition grown (s : list ascii) (n p : Z) (c c' : rvpf_xpvpc_context)
    : Prop :=
  wf c' /\ text c' = text c ++ s /\ status c' = RVPF_XPVPC_OK
  /\ id c' = n /\ pending c' = p /\ ssl c' = ssl c /\ client c' = client c
  /\ size c' = size c.

Lemma grown_refl c :
  wf c -> status c = RVPF_XPVPC_OK -> grown [] (id c) (pending c) c c.
Proof. intros. unfold grown. rewrite app_nil_r. auto 10. Qed.

Lemma grown_position s n p c x :
  wf c -> grown s n p c x -> position x = position c + length s.
Proof.
  intros (Hl' & Hlt' & _) ((Hl & Hlt & _) & Htext & _).
  apply (f_equal length) in Htext. unfold text in Htext.
  rewrite length_app, !length_take in Htext. lia.
Qed.

Lemma grown_trans s t n p n' p' c x x' :
  grown s n p c x -> grown t n' p' x x' -> grown (s ++ t) n' p' c x'.
Proof.
  intros (_ & Ht1 & _ & _ & _ & Hs1 & Hc1 & Hz1)
         (Hwf & Ht2 & Hst & Hid & Hp & Hs2 & Hc2 & Hz2).
  unfold grown. rewrite Ht2, Ht1, app_assoc.
  repeat split; try done; try apply Hwf; congruence.
Qed.

Lemma grown_set_id m s n p c x :
  grown s n p c x -> grown s m p c (set_id x m).
Proof.
  unfold grown, wf, text. cbn.
  intros ((? & ? & ?) & ? & ? & ? & ? & ? & ? & ?). by subst.
Qed.

Lemma grown_set_pending q s n p c x :
  grown s n p c x -> grown s n q c (set_pending x q).
Proof.
  unfold grown, wf, text. cbn.
  intros ((? & ? & ?) & ? & ? & ? & ? & ? & ? & ?). by subst.
Qed.

Lemma grown_incr_id s n p c x :
  grown s n p c x ->
  grown s (to_jlong (n + 1)) p c (set_id x (to_jlong (id x + 1))).
Proof.
  intros H. pose proof H as (_ & _ & _ & <- & _).
  eapply grown_set_id, H.
Qed.

Lemma grown_incr_pending s n p c x :
  grown s n p c x ->
  grown s n (to_jint (p + 1)) c (set_pending x (to_jint (pending x + 1))).
Proof.
  intros H. pose proof H as (_ & _ & _ & _ & <- & _).
  eapply grown_set_pending, H.
Qed.

(** How a call that is to add [t] to the text of [x] ends: with [t]
    added, in the same block, when [t] and the terminator fit the block;
    past the end of the reallocated block when they do not. *)
Definition adds (t : list ascii) (x : rvpf_xpvpc_context)
    (r : option rvpf_xpvpc_context) : Prop :=
  match r with
  | Some x' => grown t (id x) (pending x) x x'
  | None => size x <= position x + length t
  end.

Lemma adds_fits t x r :
  adds t x r -> position x + length t < size x ->
  exists x', r = Some x' /\ grown t (id x) (pending x) x x'.
Proof.
  destruct r as [x'|]; cbn [adds]; intros H Hfit; [by exists x'|lia].
Qed.

Lemma adds_overrun t x r :
  wf x -> adds t x r -> size x <= position x + length t -> r = None.
Proof.
  intros Hwf H Hover. destruct r as [x'|]; [|done]. cbn [adds] in H.
  pose proof (grown_position _ _ _ _ _ Hwf H) as Hp.
  destruct H as ((_ & Hlt & _) & _ & _ & _ & _ & _ & _ & Hsz). lia.
Qed.

Lemma adds_bind t u x r k :
  wf x -> adds t x r ->
  (forall x', grown t (id x) (pending x) x x' -> adds u x' (k x')) ->
  adds (t ++ u) x (r ≫= k).
Proof.
  intros Hwf Hr Hk. destruct r as [x'|]; cbn [mbind option_bind adds] in *.
  - specialize (Hk x' Hr).
    pose proof (grown_position _ _ _ _ _ Hwf Hr) as Hp.
    pose proof Hr as (_ & _ & _ & Hid & Hpe & _ & _ & Hsz).
    destruct (k x') as [x''|]; cbn [adds] in *.
    + rewrite Hid, Hpe in Hk. exact (grown_trans _ _ _ _ _ _ _ _ _ Hr Hk).
    + rewrite length_app. lia.
  - rewrite length_app. lia.
Qed.

Lemma grown_adds t r s n p c x x' :
  grown s n p c x -> adds t x r -> r = Some x' ->
  grown (s ++ t) n p c x'.
Proof.
  intros Hg Ha ->. cbn [adds] in Ha.
  pose proof Hg as (_ & _ & _ & Hid & Hp & _). rewrite Hid, Hp in Ha.
  exact (grown_trans _ _ _ _ _ _ _ _ _ Hg Ha).
Qed.

Lemma adds_addChar x ch :
  wf x -> status x = RVPF_XPVPC_OK -> adds [ch] x (_addChar x ch).
Proof.
  intros (Hlen & Hpos & Hmin) Hst. unfold _addChar. rewrite Hst.
  cbn [Z.eqb RVPF_XPVPC_OK negb].
  destruct (Nat.leb_spec (size x - 1) (position x)) as [E|E]; cbn [adds].
  - cbn [length]. lia.
  - unfold grown, wf, text. cbn. rewrite !length_insert.
    repeat split; try done; try lia.
    rewrite (take_S_r _ _ ch).
    + rewrite take_insert_ge by lia. by rewrite take_insert_ge by lia.
    + rewrite list_lookup_insert_ne by lia.
      apply list_lookup_insert_eq. lia.
Qed.

Lemma adds_add_chars t :
  forall x, wf x -> status x = RVPF_XPVPC_OK -> adds t x (add_chars x t).
Proof.
  induction t as [|ch t IH]; intros x Hwf Hst.
  - cbn. by apply grown_refl.
  - cbn [add_chars]. change (ch :: t) with ([ch] ++ t).
    apply adds_bind; [done|by apply adds_addChar|].
    intros x' Hg. apply IH; apply Hg.
Qed.

Lemma adds_addText x t :
  wf x -> status x = RVPF_XPVPC_OK -> adds (c_str t) x (_addText x t).
Proof.
  intros Hwf Hst. unfold _addText. rewrite Hst.
  cbn [Z.eqb RVPF_XPVPC_OK negb]. by apply adds_add_chars.
Qed.

Lemma long_digits_some room n :
  0 < room -> (n < 10 ^ Z.of_nat room)%Z ->
  exists ds, long_digits room n = Some ds.
Proof.
  revert n. induction room as [|room IH]; intros n Hroom Hn; [lia|].
  cbn [long_digits].
  destruct (Z.ltb_spec 0 (Z.quot n 10)) as [Hq|Hq]; [|eauto].
  assert (10 <= n)%Z as Hten.
  { destruct (Z.le_gt_cases 10 n) as [|Hlt]; [done|].
    destruct (Z.le_gt_cases 0 n).
    - rewrite Z.quot_small in Hq; lia.
    - pose proof (Z.quot_opp_l n 10 ltac:(lia)) as Ho.
      pose proof (Z.quot_pos (- n) 10 ltac:(lia) ltac:(lia)). lia. }
  destruct room as [|room].
  { change (10 ^ Z.of_nat 1)%Z with 10%Z in Hn. lia. }
  destruct (IH (Z.quot n 10)) as [ds ->]; [lia| |eauto].
  apply Z.quot_lt_upper_bound; [lia|lia|].
  rewrite <- Z.pow_succ_r by lia. by rewrite <- Nat2Z.inj_succ.
Qed.

(** The digits [_addLong] adds. *)
Definition decimal_of (n : Z) : list ascii :=
  match long_digits 20 n with
  | Some ds => rev ds
  | None => []
  end.

Lemma adds_addLong x m :
  (m < 2 ^ 63)%Z -> wf x -> status x = RVPF_XPVPC_OK ->
  adds (decimal_of m) x (_addLong x m).
Proof.
  intros Hm Hwf Hst. unfold _addLong, decimal_of. rewrite Hst.
  cbn [Z.eqb RVPF_XPVPC_OK negb].
  destruct (long_digits_some 20 m) as [ds ->]; [lia|lia|].
  by apply adds_add_chars.
Qed.

Lemma to_jlong_range z : (- 2 ^ 63 <= to_jlong z < 2 ^ 63)%Z.
Proof.
  unfold to_jlong, wrap_signed.
  pose proof (Z.mod_pos_bound (z + 2 ^ (64 - 1)) (2 ^ 64) ltac:(lia)).
  lia.
Qed.

Lemma to_jlong_small z : (- 2 ^ 63 <= z < 2 ^ 63)%Z -> to_jlong z = z.
Proof.
  intros H. unfold to_jlong, wrap_signed.
  rewrite Z.mod_small; lia.
Qed.

Section Encoding.
Variable CHAR_IS_SIGNED : bool.

(** What [_addEncoded] adds for one character. *)
Definition encoded_char (quote next : ascii) : list ascii :=
  if Ascii.eqb next "<" then chars "&lt;"
  else if Ascii.eqb next ">" then chars "&gt;"
  else if Ascii.eqb next "&" then chars "&amp;"
  else if Ascii.eqb next QUOTE then
    if Ascii.eqb quote next then chars "&quot;" else [next]
  else if Ascii.eqb next "'" then
    if Ascii.eqb quote next then chars "&apos;" else [next]
  else if Ascii.eqb next (ascii_of_nat 9) || Ascii.eqb next LF
          || Ascii.eqb next CR then [next]
  else if (char_value CHAR_IS_SIGNED next <? 32)%Z then
    chars "&#" ++ decimal_of (char_value CHAR_IS_SIGNED next) ++ [";"%char]
  else [next].

Definition encoded (quote : ascii) (t : option (list ascii)) : list ascii :=
  match t with
  | Some t => flat_map (encoded_char quote) (trim (c_str t))
  | None => []
  end.

Lemma char_value_range next :
  (char_value CHAR_IS_SIGNED next < 256)%Z.
Proof.
  unfold char_value.
  pose proof (nat_ascii_bounded next).
  destruct (CHAR_IS_SIGNED && _); lia.
Qed.

Lemma adds_add_encoded_char quote next x :
  wf x -> status x = RVPF_XPVPC_OK ->
  adds (encoded_char quote next) x
    (add_encoded_char CHAR_IS_SIGNED quote x next).
Proof.
  intros Hwf Hst. unfold add_encoded_char, encoded_char.
  destruct (Ascii.eqb next "<"); [exact (adds_addText x (chars "&lt;") Hwf Hst)|].
  destruct (Ascii.eqb next ">"); [exact (adds_addText x (chars "&gt;") Hwf Hst)|].
  destruct (Ascii.eqb next "&"); [exact (adds_addText x (chars "&amp;") Hwf Hst)|].
  destruct (Ascii.eqb next QUOTE).
  { destruct (Ascii.eqb quote next);
      [exact (adds_addText x (chars "&quot;") Hwf Hst)
      |exact (adds_addChar x next Hwf Hst)]. }
  destruct (Ascii.eqb next "'").
  { destruct (Ascii.eqb quote next);
      [exact (adds_addText x (chars "&apos;") Hwf Hst)
      |exact (adds_addChar x next Hwf Hst)]. }
  destruct (_ || _); [exact (adds_addChar x next Hwf Hst)|].
  destruct (_ <? _)%Z; [|exact (adds_addChar x next Hwf Hst)].
  apply adds_bind; [done|exact (adds_addText x (chars "&#") Hwf Hst)|].
  intros x1 H1. apply adds_bind; [apply H1| |].
  - apply adds_addLong; [|apply H1|apply H1].
    pose proof (char_value_range next). lia.
  - intros x2 H2. apply adds_addChar; apply H2.
Qed.

Lemma adds_add_encoded quote l :
  forall x, wf x -> status x = RVPF_XPVPC_OK ->
  adds (flat_map (encoded_char quote) l) x
    (add_encoded CHAR_IS_SIGNED quote x l).
Proof.
  induction l as [|a l IH]; intros x Hwf Hst.
  - cbn. by apply grown_refl.
  - cbn [add_encoded flat_map].
    apply adds_bind; [done|by apply adds_add_encoded_char|].
    intros x' Hg. apply IH; apply Hg.
Qed.

Lemma adds_addEncoded quote t x :
  wf x -> status x = RVPF_XPVPC_OK ->
  adds (encoded quote t) x (_addEncoded CHAR_IS_SIGNED x t quote).
Proof.
  intros Hwf Hst. unfold _addEncoded, encoded. rewrite Hst.
  cbn [Z.eqb RVPF_XPVPC_OK negb].
  destruct t as [t|]; [by apply adds_add_encoded|].
  cbn. by apply grown_refl.
Qed.

Lemma grown_addEncoded quote t s n p c x x' :
  grown s n p c x -> _addEncoded CHAR_IS_SIGNED x t quote = Some x' ->
  grown (s ++ encoded quote t) n p c x'.
Proof.
  intros Hg E. eapply grown_adds; [exact Hg| |exact E].
  apply adds_addEncoded; apply Hg.
Qed.

End Encoding.

Lemma grown_addChar ch s n p c x x' :
  grown s n p c x -> _addChar x ch = Some x' ->
  grown (s ++ [ch]) n p c x'.
Proof.
  intros Hg E. eapply grown_adds; [exact Hg| |exact E].
  apply adds_addChar; apply Hg.
Qed.

Lemma grown_addText t s n p c x x' :
  grown s n p c x -> _addText x t = Some x' ->
  grown (s ++ c_str t) n p c x'.
Proof.
  intros Hg E. eapply grown_adds; [exact Hg| |exact E].
  apply adds_addText; apply Hg.
Qed.

Lemma grown_addLong m s n p c x x' :
  (m < 2 ^ 63)%Z ->
  grown s n p c x -> _addLong x m = Some x' ->
  grown (s ++ decimal_of m) n p c x'.
Proof.
  intros Hm Hg E. eapply grown_adds; [exact Hg| |exact E].
  apply adds_addLong; [done|apply Hg|apply Hg].
Qed.

(** [grow Hg H] follows a sequence of additions that ended well, [H],
    from the context [Hg] is about. *)
Ltac grow Hg H :=
  cbv beta zeta iota in H;
  lazymatch type of H with
  | (_ ≫= _) = Some _ =>
      let x := fresh "x" in
      let E := fresh "E" in
      apply bind_Some in H as (x & E & H); grow Hg E; grow Hg H
  | _addText _ _ = Some _ =>
      eapply grown_addText in H; [|exact Hg]; clear Hg; rename H into Hg
  | _addChar _ _ = Some _ =>
      eapply grown_addChar in H; [|exact Hg]; clear Hg; rename H into Hg
  | _addEncoded _ _ _ _ = Some _ =>
      eapply grown_addEncoded in H; [|exact Hg]; clear Hg; rename H into Hg
  | _addLong (set_id _ _) _ = Some _ =>
      apply grown_incr_id in Hg; cbn [id set_id] in H;
      eapply grown_addLong in H; [|apply to_jlong_range|exact Hg];
      clear Hg; rename H into Hg
  | Some (set_pending _ _) = Some _ =>
      apply grown_incr_pending in Hg; injection H as <-
  | Some _ = Some _ => injection H as <-
  | context [match ?d with _ => _ end] => destruct d; grow Hg H
  end.

Lemma grown_open_messages c x :
  wf c -> status c = RVPF_XPVPC_OK -> open_messages c = Some x ->
  exists s,
    grown s (if (pending c =? 0)%Z then to_jlong (id c + 1) else id c)
      (pending c) c x.
Proof.
  intros Hwf Hst H. pose proof (grown_refl c Hwf Hst) as Hg.
  unfold open_messages in H. destruct (pending c =? 0)%Z.
  - grow Hg H. eexists. exact Hg.
  - injection H as <-. eexists. exact Hg.
Qed.

Lemma grown_add_value signed point stamp state value s n p c x x' :
  grown s n p c x ->
  add_value signed x point stamp state value = Some x' ->
  exists t, grown t n (to_jint (p + 1)) c x'.
Proof.
  intros Hg H. unfold add_value in H.
  destruct state as [[|st]|], value as [v|]; grow Hg H;
    eexists; exact Hg.
Qed.

Lemma grown_add_login signed user password c x :
  wf c -> status c = RVPF_XPVPC_OK ->
  add_login signed c user password = Some x ->
  exists t,
    grown t (to_jlong (id c + 1)) (pending c) c x /\ t <> [].
Proof.
  intros Hwf Hst H. pose proof (grown_refl c Hwf Hst) as Hg.
  unfold add_login in H. grow Hg H;
    (eexists; split; [exact Hg|]);
    intros E; apply (f_equal length) in E; rewrite !length_app in E;
    cbn [length] in E; lia.
Qed.

Lemma sendText_all c net :
  wf c -> status c = RVPF_XPVPC_OK ->
  Ssl.status (ssl c) = Ssl.RVPF_SSL_OK ->
  Ssl.write_results net = [] ->
  0 < position c -> (Z.of_nat (position c) < 2 ^ 31)%Z ->
  _sendText c net =
    (set_text c (buffer c) (size c) (position c) (position c),
     Ssl.set_stream net [] (Ssl.written net ++ text c) (Ssl.incoming net)).
Proof.
  intros (Hlen & Hpos & Hmin) Hst Hssl Hw Hp Hsmall.
  destruct c as [cl i pe sl buf sz lim pos st]. cbn in *. subst st.
  unfold _sendText, rvpf_xpvpc_failed, Ssl.rvpf_ssl_failed, _resetText,
    set_text.
  cbn [client id pending ssl buffer size limit position status].
  rewrite Hssl. cbn [Z.eqb RVPF_XPVPC_OK Ssl.RVPF_SSL_OK negb orb].
  destruct pos as [|pos]; [lia|].
  cbn [_sendText_loop].
  cbn [client id pending ssl buffer size limit position status set_ssl set_text].
  cbn [Nat.ltb Nat.leb].
  unfold Ssl.rvpf_ssl_send, Ssl.rvpf_ssl_failed.
  rewrite Hssl. cbn [Z.eqb Ssl.RVPF_SSL_OK negb Nat.sub Nat.ltb Nat.leb].
  unfold Ssl.write_bytes. rewrite Hw.
  destruct (Z.leb_spec (Z.of_nat (S pos)) 0) as [?|_]; [lia|].
  rewrite Pipe.to_jint_small by lia.
  cbn [client id pending ssl buffer size limit position status set_ssl set_text].
  unfold Ssl.rvpf_ssl_failed. rewrite Hssl.
  cbn [Z.eqb Ssl.RVPF_SSL_OK negb]. rewrite Nat2Z.id.
  cbn [drop Nat.add]. unfold text.
  cbn [client id pending ssl buffer size limit position status set_ssl set_text].
  destruct pos as [|pos']; cbn [_sendText_loop]; [done|].
  cbn [position limit set_text set_ssl]. by rewrite Nat.ltb_irrefl.
Qed.

(** ** Reading the acknowledgement *)

Lemma match_window s : forall pre post c,
  buffer c = pre ++ s ++ post -> position c = length pre ->
  length pre + length s <= limit c ->
  _match c s =
    set_text c (buffer c) (size c) (limit c) (length pre + length s).
Proof.
  induction s as [|a s IH]; intros pre post c Hbuf Hpos Hlim.
  - destruct c. cbn in *. subst. unfold set_text. cbn. f_equal. lia.
  - cbn [_match]. cbn [length] in Hlim.
    destruct (Nat.leb_spec (limit c) (position c)) as [?|_]; [lia|].
    rewrite Hbuf at 1. rewrite Hpos at 1. cbn [app].
    rewrite Pipe.peek_app_r, Ascii.eqb_refl. cbn [orb negb].
    rewrite (IH (pre ++ [a]) post).
    + unfold set_text. cbn. f_equal. rewrite length_app. cbn. lia.
    + cbn. by rewrite <- app_assoc.
    + cbn. rewrite length_app. cbn. lia.
    + cbn. rewrite length_app. cbn. lia.
Qed.

Lemma scan_line_found s : forall pre post count c,
  buffer c = pre ++ s ++ LF :: post -> limit c = length pre ->
  LF ∉ s -> length s < count ->
  scan_line count c =
    (true,
     set_text c (pre ++ s ++ NUL :: post) (size c)
       (length pre + length s) (position c)).
Proof.
  induction s as [|a s IH]; intros pre post count c Hbuf Hlim Hnl Hcount;
    (destruct count as [|count]; [cbn in Hcount; lia|]); cbn [scan_line].
  - rewrite Hbuf, Hlim. cbn [app]. rewrite Pipe.peek_app_r.
    rewrite Ascii.eqb_refl. rewrite Pipe.insert_middle.
    by rewrite Nat.add_0_r.
  - rewrite Hbuf at 1. rewrite Hlim at 1. cbn [app].
    rewrite Pipe.peek_app_r.
    destruct (Ascii.eqb_spec a LF) as [->|_].
    { exfalso. apply Hnl. by left. }
    rewrite (IH (pre ++ [a]) post).
    + unfold set_text. cbn. f_equal. f_equal.
      * by rewrite <- app_assoc.
      * rewrite length_app. cbn. lia.
    + cbn. by rewrite <- app_assoc.
    + cbn. rewrite length_app. cbn. lia.
    + intros ?. apply Hnl. by right.
    + cbn in Hcount. lia.
Qed.

(** The number a string of digits denotes, on top of [acc]. *)
Fixpoint ref_number (acc : Z) (ds : list ascii) : Z :=
  match ds with
  | [] => acc
  | d :: ds => ref_number (acc * 10 + Ssl.digit_value d) ds
  end.

Lemma digit_value_nonneg d : (0 <= Ssl.digit_value d)%Z.
Proof. unfold Ssl.digit_value. lia. Qed.

Lemma ref_number_ge ds : forall acc, (0 <= acc -> acc <= ref_number acc ds)%Z.
Proof.
  induction ds as [|d ds IH]; intros acc Hacc; cbn; [lia|].
  pose proof (digit_value_nonneg d).
  specialize (IH (acc * 10 + Ssl.digit_value d)%Z). lia.
Qed.

Lemma read_digits_window ds : forall pre a post turns c acc,
  buffer c = pre ++ ds ++ a :: post -> position c = length pre ->
  Forall (fun d => Ssl.isdigit d = true) ds -> Ssl.isdigit a = false ->
  length pre + length ds <= limit c -> length ds <= turns ->
  (0 <= acc)%Z -> (ref_number acc ds < 2 ^ 63)%Z ->
  read_digits turns c acc =
    (ref_number acc ds,
     set_text c (buffer c) (size c) (limit c) (length pre + length ds)).
Proof.
  induction ds as [|d ds IH];
    intros pre a post turns c acc Hbuf Hpos Hds Ha Hlim Hturns Hacc Hsmall.
  - assert (c = set_text c (buffer c) (size c) (limit c)
                  (length pre + length (@nil ascii))) as <-.
    { destruct c. cbn in *. subst. unfold set_text. cbn. f_equal. lia. }
    destruct turns as [|turns]; [done|]. cbn [read_digits].
    destruct (position c <? limit c); [|done].
    rewrite Hbuf, Hpos. cbn [app]. rewrite Pipe.peek_app_r, Ha. done.
  - destruct turns as [|turns]; [cbn in Hturns; lia|]. cbn [read_digits].
    cbn [length] in Hlim.
    destruct (Nat.ltb_spec (position c) (limit c)) as [_|?]; [|lia].
    assert (peek (buffer c) (position c) = d) as ->.
    { rewrite Hbuf, Hpos. cbn [app]. apply Pipe.peek_app_r. }
    apply Forall_cons in Hds as [Hd Hds]. rewrite Hd. cbn [negb].
    cbn [ref_number] in Hsmall.
    pose proof (digit_value_nonneg d) as Hd0.
    pose proof (ref_number_ge ds (acc * 10 + Ssl.digit_value d)%Z
                  ltac:(lia)) as Hge.
    rewrite (to_jlong_small (acc * 10)) by (clear -Hacc Hsmall Hd0 Hge; lia).
    rewrite to_jlong_small by (clear -Hacc Hsmall Hd0 Hge; lia).
    rewrite (IH (pre ++ [d]) a post).
    + cbn [ref_number]. unfold set_text. cbn. f_equal. f_equal.
      rewrite length_app. cbn. lia.
    + cbn. by rewrite <- app_assoc.
    + cbn. rewrite length_app. cbn. lia.
    + done.
    + done.
    + cbn. rewrite length_app. cbn. lia.
    + cbn in Hturns. lia.
    + lia.
    + done.
Qed.

Lemma receive_whole sl data rest size net :
  Ssl.status sl = Ssl.RVPF_SSL_OK ->
  Ssl.incoming net = Ssl.Bytes data :: rest ->
  0 < length data <= size -> (Z.of_nat (length data) < 2 ^ 31)%Z ->
  Ssl.rvpf_ssl_receive sl true size net =
    (Z.of_nat (length data), data, sl,
     Ssl.set_stream net (Ssl.write_results net) (Ssl.written net) rest).
Proof.
  intros Hssl Hin Hlen Hsmall.
  unfold Ssl.rvpf_ssl_receive, Ssl.rvpf_ssl_failed. rewrite Hssl.
  cbn [Z.eqb Ssl.RVPF_SSL_OK negb orb].
  destruct (Nat.ltb_spec size 1) as [?|_]; [lia|].
  unfold Ssl.read_bytes. rewrite Hin.
  rewrite take_ge by lia. rewrite drop_ge by lia.
  destruct (Z.ltb_spec (Z.of_nat (length data)) 0) as [?|_]; [lia|].
  destruct (Z.eqb_spec (Z.of_nat (length data)) 0) as [?|_]; [lia|].
  by rewrite Pipe.to_jint_small by lia.
Qed.

Lemma receiveLine_line line rest c net :
  status c = RVPF_XPVPC_OK -> Ssl.status (ssl c) = Ssl.RVPF_SSL_OK ->
  length (buffer c) = size c -> MIN_BUFFER_SIZE <= size c ->
  length line + 2 < MIN_BUFFER_SIZE ->
  LF ∉ line ->
  Ssl.incoming net = Ssl.Bytes (line ++ [LF]) :: rest ->
  exists tail,
    _receiveLine c net =
      (set_text c (line ++ NUL :: tail) (size c) (length line) 0,
       Ssl.set_stream net (Ssl.write_results net) (Ssl.written net) rest)
    /\ length (line ++ NUL :: tail) = size c.
Proof.
  intros Hst Hssl Hlen Hmin Hfit Hnl Hin.
  destruct c as [cl i pe sl buf sz lim pos st]. cbn in *. subst st.
  unfold MIN_BUFFER_SIZE in *.
  unfold _receiveLine.
  cbn [client id pending ssl buffer size limit position status set_ssl set_text].
  cbn [Z.eqb RVPF_XPVPC_OK negb].
  cbn [_receiveLine_loop].
  cbn [client id pending ssl buffer size limit position status set_ssl set_text].
  destruct (Nat.ltb_spec 0 (sz - 1)) as [_|?]; [|lia].
  assert (length (line ++ [LF]) = S (length line)) as Hdata.
  { rewrite length_app. cbn [length]. lia. }
  rewrite (receive_whole sl (line ++ [LF]) rest) by (rewrite ?Hdata; lia || done).
  cbn [client id pending ssl buffer size limit position status set_ssl set_text].
  unfold Ssl.rvpf_ssl_failed. rewrite Hssl.
  cbn [Z.eqb Ssl.RVPF_SSL_OK negb]. rewrite Hdata.
  destruct (Z.leb_spec (Z.of_nat sz - 1)
              (Z.of_nat 0 + Z.of_nat (S (length line)))) as [?|_]; [lia|].
  rewrite Nat2Z.id. cbn [take app Nat.add Nat.max].
  exists (<[0 := NUL]> (drop (S (length line)) buf)).
  assert (<[S (length line) := NUL]>
            (take 0 buf ++ (line ++ [LF]) ++ drop (S (length line)) buf)
          = [] ++ line ++ LF :: <[0 := NUL]> (drop (S (length line)) buf))
    as ->.
  { rewrite take_0. cbn [app]. rewrite <- app_assoc.
    rewrite insert_app_r_alt by lia.
    by replace (S (length line) - length line) with 1 by lia. }
  erewrite scan_line_found; [|reflexivity|reflexivity|done|cbn; lia].
  cbn [client id pending ssl buffer size limit position status set_ssl
       set_text app length Nat.add].
  split; [done|].
  rewrite length_app. cbn [length]. rewrite length_insert, length_drop. lia.
Qed.

(** The line that acknowledges a document, without its newline. *)
Definition acknowledgement (digits : list ascii) : list ascii :=
  RESPONSE_START ++ digits ++ RESPONSE_END.

Lemma isdigit_not_LF digits :
  Forall (fun d => Ssl.isdigit d = true) digits -> LF ∉ digits.
Proof.
  intros H Hin. rewrite Forall_forall in H. by apply H in Hin.
Qed.

Lemma acknowledgement_one_line digits :
  Forall (fun d => Ssl.isdigit d = true) digits ->
  LF ∉ acknowledgement digits.
Proof.
  intros H. unfold acknowledgement. rewrite !elem_of_app.
  intros [Hin|[Hin|Hin]].
  - vm_compute in Hin. by repeat (apply elem_of_cons in Hin as [Hin|Hin]; [done|]); apply elem_of_nil in Hin.
  - by apply isdigit_not_LF in Hin.
  - vm_compute in Hin. by repeat (apply elem_of_cons in Hin as [Hin|Hin]; [done|]); apply elem_of_nil in Hin.
Qed.

Lemma verifyResponse_acknowledged digits rest expected c net :
  status c = RVPF_XPVPC_OK -> Ssl.status (ssl c) = Ssl.RVPF_SSL_OK ->
  length (buffer c) = size c -> MIN_BUFFER_SIZE <= size c ->
  Forall (fun d => Ssl.isdigit d = true) digits ->
  (ref_number 0 digits < 2 ^ 63)%Z ->
  length (acknowledgement digits) + 2 < MIN_BUFFER_SIZE ->
  Ssl.incoming net = Ssl.Bytes (acknowledgement digits ++ [LF]) :: rest ->
  exists mem,
    _verifyResponse c expected net =
      (set_status
         (set_text c mem (size c) (length (acknowledgement digits)) 0)
         (if (ref_number 0 digits =? expected)%Z then RVPF_XPVPC_OK
          else RVPF_XPVPC_MISMATCHED_ID),
       Ssl.set_stream net (Ssl.write_results net) (Ssl.written net) rest)
    /\ length mem = size c.
Proof.
  intros Hst Hssl Hlen Hmin Hds Hsmall Hfit Hin.
  unfold _verifyResponse.
  destruct (receiveLine_line (acknowledgement digits) rest c net)
    as (tail & -> & Hmem); try done.
  { by apply acknowledgement_one_line. }
  exists (acknowledgement digits ++ NUL :: tail). split; [|done].
  destruct c as [cl i pe sl buf sz lim pos st].
  cbn [client id pending ssl buffer size limit position status] in *.
  subst st.
  cbn [client id pending ssl buffer size limit position status set_ssl
       set_text set_status].
  cbn [Z.eqb RVPF_XPVPC_OK negb].
  unfold acknowledgement in *.
  erewrite (match_window RESPONSE_START []
              (digits ++ RESPONSE_END ++ NUL :: tail));
    [|by cbn; rewrite <- !app_assoc|done
     |cbn [limit set_text length]; rewrite !length_app; cbn; lia].
  cbn [client id pending ssl buffer size limit position status set_ssl
       set_text set_status].
  cbn [Z.eqb RVPF_XPVPC_OK negb].
  assert (length (RESPONSE_START ++ digits ++ RESPONSE_END)
          = 11 + length digits + 3) as Hack.
  { rewrite !length_app. cbn. lia. }
  erewrite (read_digits_window digits RESPONSE_START "'"
              (chars "/>" ++ NUL :: tail));
    [|by cbn; rewrite <- !app_assoc|done|done|done
     |cbn [limit set_text]; rewrite Hack; cbn; lia
     |rewrite Hack; lia|done|done].
  cbn [client id pending ssl buffer size limit position status set_ssl
       set_text set_status].
  erewrite (match_window RESPONSE_END (RESPONSE_START ++ digits)
              (NUL :: tail));
    [|by cbn; rewrite <- !app_assoc
     |cbn [position set_text]; by rewrite length_app
     |cbn [limit set_text]; rewrite Hack, length_app; cbn; lia].
  cbn [client id pending ssl buffer size limit position status set_ssl
       set_text set_status].
  cbn [Z.eqb RVPF_XPVPC_OK negb].
  destruct (ref_number 0 digits =? expected)%Z; cbn [negb];
    unfold _resetText, set_status, set_text;
    cbn [client id pending ssl buffer size limit position status];
    do 2 f_equal; rewrite !length_app; cbn [length]; lia.
Qed.

(** ** What leaves [id] alone *)

Lemma addChar_id c ch c' : _addChar c ch = Some c' -> id c' = id c.
Proof.
  unfold _addChar. destruct (negb _); [by intros [= <-]|].
  destruct (_ <=? _); [done|]. by intros [= <-].
Qed.

Lemma add_chars_id t : forall c c', add_chars c t = Some c' -> id c' = id c.
Proof.
  induction t as [|ch t IH]; intros c c' H; cbn [add_chars] in H.
  - by injection H as <-.
  - apply bind_Some in H as (x & E & H).
    apply addChar_id in E. apply IH in H. congruence.
Qed.

Lemma addText_id c t c' : _addText c t = Some c' -> id c' = id c.
Proof.
  unfold _addText. destruct (negb _); [by intros [= <-]|].
  apply add_chars_id.
Qed.

Lemma addLong_id c n c' : _addLong c n = Some c' -> id c' = id c.
Proof.
  unfold _addLong. destruct (negb _); [by intros [= <-]|].
  destruct (long_digits 20 n); [apply add_chars_id|by intros [= <-]].
Qed.

Lemma add_encoded_char_id signed quote c next c' :
  add_encoded_char signed quote c next = Some c' -> id c' = id c.
Proof.
  unfold add_encoded_char. intros H.
  repeat lazymatch type of H with
  | context [if ?b then _ else _] => destruct b
  end;
  try (by apply addText_id in H); try (by apply addChar_id in H).
  apply bind_Some in H as (x1 & E1 & H).
  apply bind_Some in H as (x2 & E2 & H).
  apply addText_id in E1. apply addLong_id in E2. apply addChar_id in H.
  congruence.
Qed.

Lemma add_encoded_id signed quote l :
  forall c c', add_encoded signed quote c l = Some c' -> id c' = id c.
Proof.
  induction l as [|a l IH]; intros c c' H; cbn [add_encoded] in H.
  - by injection H as <-.
  - apply bind_Some in H as (x & E & H).
    apply add_encoded_char_id in E. apply IH in H. congruence.
Qed.

Lemma addEncoded_id signed c t quote c' :
  _addEncoded signed c t quote = Some c' -> id c' = id c.
Proof.
  unfold _addEncoded. destruct (negb _); [by intros [= <-]|].
  destruct t as [t|]; [apply add_encoded_id|by intros [= <-]].
Qed.

Lemma match_id t : forall c, id (_match c t) = id c.
Proof.
  induction t as [|a t IH]; intros c; [done|].
  cbn [_match]. destruct (_ || _); [done|]. by rewrite IH.
Qed.

Lemma sendText_loop_id turns : forall c net,
  id (fst (_sendText_loop turns c net)) = id c.
Proof.
  induction turns as [|turns IH]; intros c net; [done|].
  cbn [_sendText_loop]. destruct (position c <? limit c); [|done].
  destruct (Ssl.rvpf_ssl_send _ _ _ _) as [[count ssl'] net'].
  destruct (Ssl.rvpf_ssl_failed _); [done|]. by rewrite IH.
Qed.

Lemma sendText_id c net : id (fst (_sendText c net)) = id c.
Proof.
  unfold _sendText. destruct (rvpf_xpvpc_failed c); [done|].
  by rewrite sendText_loop_id.
Qed.

Lemma scan_line_id count : forall c, id (snd (scan_line count c)) = id c.
Proof.
  induction count as [|count IH]; intros c; [done|].
  cbn [scan_line]. destruct (Ascii.eqb _ _); [done|]. by rewrite IH.
Qed.

Lemma receiveLine_loop_id turns : forall c net,
  id (fst (_receiveLine_loop turns c net)) = id c.
Proof.
  induction turns as [|turns IH]; intros c net; [done|].
  cbn [_receiveLine_loop].
  destruct (limit c <? size c - 1);
    [|by destruct (size c <=? limit c)].
  destruct (Ssl.rvpf_ssl_receive _ _ _ _) as [[[count data] ssl'] net'].
  destruct (Ssl.rvpf_ssl_failed _); [done|].
  destruct (_ <=? _)%Z; [done|].
  match goal with
  | |- context [scan_line ?n ?x] =>
      pose proof (scan_line_id n x) as Hscan;
      destruct (scan_line n x) as [found x']
  end.
  cbn [snd] in Hscan. destruct found; [done|]. by rewrite IH.
Qed.

Lemma receiveLine_id c net : id (fst (_receiveLine c net)) = id c.
Proof.
  unfold _receiveLine. destruct (negb _); [done|].
  by rewrite receiveLine_loop_id.
Qed.

Lemma read_digits_id turns : forall c acc,
  id (snd (read_digits turns c acc)) = id c.
Proof.
  induction turns as [|turns IH]; intros c acc; [done|].
  cbn [read_digits]. destruct (position c <? limit c); [|done].
  destruct (negb _); [done|]. by rewrite IH.
Qed.

Lemma verifyResponse_id c expected net :
  id (fst (_verifyResponse c expected net)) = id c.
Proof.
  unfold _verifyResponse.
  pose proof (receiveLine_id c net) as H1.
  destruct (_receiveLine c net) as [c1 net1]. cbn [fst] in H1.
  destruct (negb (status c1 =? _)%Z); [done|].
  pose proof (match_id RESPONSE_START c1) as H2.
  destruct (negb (status (_match c1 _) =? _)%Z);
    [cbn [fst]; congruence|].
  match goal with
  | |- context [read_digits ?n ?x ?a] =>
      pose proof (read_digits_id n x a) as H3;
      destruct (read_digits n x a) as [received c3]
  end.
  cbn [snd] in H3.
  pose proof (match_id RESPONSE_END c3) as H4.
  destruct (negb (status (_match c3 _) =? _)%Z); cbn [fst];
    [congruence|].
  destruct (negb (received =? expected)%Z);
    cbn [id _resetText set_text set_status]; congruence.
Qed.

(** [ids H] follows a sequence of additions that ended well, [H], and
    leaves what each one does to [id]. *)
Ltac ids H :=
  cbv beta zeta iota in H;
  lazymatch type of H with
  | (_ ≫= _) = Some _ =>
      let x := fresh "x" in
      let E := fresh "E" in
      apply bind_Some in H as (x & E & H); ids E; ids H
  | _addText _ _ = Some _ => apply addText_id in H
  | _addChar _ _ = Some _ => apply addChar_id in H
  | _addEncoded _ _ _ _ = Some _ => apply addEncoded_id in H
  | _addLong _ _ = Some _ => apply addLong_id in H; cbn [id set_id] in H
  | Some _ = Some _ => injection H as <-
  | context [match ?d with _ => _ end] => destruct d; ids H
  end.

Section Counters.
Variable SSL_ENABLED CHAR_IS_SIGNED : bool.

Lemma flush_id c net r :
  rvpf_xpvpc_flush SSL_ENABLED c net = Some r -> id (snd (fst r)) = id c.
Proof.
  unfold rvpf_xpvpc_flush.
  destruct (rvpf_xpvpc_failed c); [by intros [= <-]|].
  destruct (negb (rvpf_xpvpc_isOpen _ _)); [by intros [= <-]|].
  destruct (negb (pending c =? 0)%Z); [|by intros [= <-]].
  intros H.
  apply bind_Some in H as (x1 & E1 & H).
  apply bind_Some in H as (x2 & E2 & H).
  apply bind_Some in H as (x3 & E3 & H).
  apply addText_id in E1, E2, E3.
  pose proof (sendText_id x3 net) as H1.
  destruct (_sendText x3 net) as [c1 net1]. cbn [fst] in H1.
  pose proof (verifyResponse_id c1 (id c1) net1) as H2.
  destruct (_verifyResponse c1 (id c1) net1) as [c2 net2].
  injection H as <-. cbn [fst snd id set_pending] in *. congruence.
Qed.

Lemma add_login_id c user password x :
  add_login CHAR_IS_SIGNED c user password = Some x ->
  id x = to_jlong (id c + 1).
Proof.
  intros H. unfold add_login in H. ids H; congruence.
Qed.

Lemma open_messages_id c x :
  open_messages c = Some x ->
  id x = if (pending c =? 0)%Z then to_jlong (id c + 1) else id c.
Proof.
  intros H. unfold open_messages in H.
  destruct (pending c =? 0)%Z; [|by injection H as <-].
  ids H; congruence.
Qed.

Lemma add_value_id c point stamp state value x :
  add_value CHAR_IS_SIGNED c point stamp state value = Some x ->
  id x = id c.
Proof.
  intros H. unfold add_value in H.
  destruct state as [[|st]|], value as [v|]; ids H;
    cbn [id set_pending]; congruence.
Qed.

Lemma login_id c user password net r :
  rvpf_xpvpc_failed c = false ->
  rvpf_xpvpc_isOpen SSL_ENABLED c = true ->
  rvpf_xpvpc_login SSL_ENABLED CHAR_IS_SIGNED c user password net = Some r ->
  id (snd (fst r)) = to_jlong (id c + 1).
Proof.
  intros Hf Ho. unfold rvpf_xpvpc_login. rewrite Hf, Ho. cbn [negb].
  intros H. apply bind_Some in H as ([[r0 c0] net0] & E0 & H).
  apply flush_id in E0. cbn [fst snd] in E0.
  apply bind_Some in H as (x & E & H). apply add_login_id in E.
  pose proof (sendText_id x net0) as H1.
  destruct (_sendText x net0) as [c1 net1]. cbn [fst] in H1.
  pose proof (verifyResponse_id c1 (id c1) net1) as H2.
  destruct (_verifyResponse c1 (id c1) net1) as [c2 net2].
  injection H as <-. cbn [fst snd] in *. congruence.
Qed.

Lemma sendValue_id c point stamp state value globals net r :
  rvpf_xpvpc_failed c = false ->
  rvpf_xpvpc_isOpen SSL_ENABLED c = true ->
  rvpf_xpvpc_sendValue SSL_ENABLED CHAR_IS_SIGNED c (Some point)
    (Some stamp) state value globals net = Some r ->
  id (snd (fst r))
  = if (pending c =? 0)%Z then to_jlong (id c + 1) else id c.
Proof.
  intros Hf Ho. unfold rvpf_xpvpc_sendValue. rewrite Hf, Ho. cbn [negb].
  intros H. apply bind_Some in H as (x1 & E1 & H).
  apply bind_Some in H as (x2 & E2 & H).
  apply open_messages_id in E1. apply add_value_id in E2.
  destruct (_ && _).
  - apply bind_Some in H as ([[r0 c0] net0] & E0 & H).
    apply flush_id in E0. injection H as <-. cbn [fst snd] in *.
    congruence.
  - injection H as <-. cbn [fst snd]. congruence.
Qed.

End Counters.

Section Session.
Variable SSL_ENABLED CHAR_IS_SIGNED : bool.

Lemma not_failed c :
  rvpf_xpvpc_failed c = false ->
  status c = RVPF_XPVPC_OK /\ Ssl.status (ssl c) = Ssl.RVPF_SSL_OK.
Proof.
  unfold rvpf_xpvpc_failed, Ssl.rvpf_ssl_failed. intros H.
  apply orb_false_elim in H as [H1 H2].
  apply negb_false_iff, Z.eqb_eq in H1.
  apply negb_false_iff, Z.eqb_eq in H2. done.
Qed.

Lemma grown_not_failed s n p c x :
  rvpf_xpvpc_failed c = false -> grown s n p c x ->
  rvpf_xpvpc_failed x = false.
Proof.
  intros Hf (_ & _ & Hst & _ & _ & Hssl & _).
  apply not_failed in Hf as [_ Hs].
  unfold rvpf_xpvpc_failed, Ssl.rvpf_ssl_failed. by rewrite Hst, Hssl, Hs.
Qed.

Lemma grown_isOpen s n p c x :
  grown s n p c x ->
  rvpf_xpvpc_isOpen SSL_ENABLED x = rvpf_xpvpc_isOpen SSL_ENABLED c.
Proof.
  intros (_ & _ & _ & _ & _ & Hssl & _).
  unfold rvpf_xpvpc_isOpen. by rewrite Hssl.
Qed.

(** A flush with nothing pending does nothing. *)
Lemma flush_nothing c net :
  rvpf_xpvpc_failed c = false -> rvpf_xpvpc_isOpen SSL_ENABLED c = true ->
  pending c = 0%Z ->
  rvpf_xpvpc_flush SSL_ENABLED c net = Some (status c, c, net).
Proof.
  intros Hf Ho Hp. unfold rvpf_xpvpc_flush. by rewrite Hf, Ho, Hp.
Qed.

(** A flush of a batch whose closing line fits the buffer. *)
Lemma flush_pending c net :
  rvpf_xpvpc_failed c = false -> rvpf_xpvpc_isOpen SSL_ENABLED c = true ->
  wf c -> pending c <> 0%Z -> position c + 12 < size c ->
  exists x,
    grown (chars "</messages>" ++ [LF]) (id c) (pending c) c x /\
    rvpf_xpvpc_flush SSL_ENABLED c net =
      (let '(c1, n1) := _sendText x net in
       let '(c2, n2) := _verifyResponse c1 (id c1) n1 in
       Some (status (set_pending c2 0), set_pending c2 0, n2)).
Proof.
  intros Hf Ho Hwf Hp Hfit.
  pose proof (not_failed c Hf) as [Hst Hssl].
  unfold rvpf_xpvpc_flush. rewrite Hf, Ho. cbn [negb].
  destruct (Z.eqb_spec (pending c) 0) as [?|_]; [done|]. cbn [negb].
  pose proof (grown_refl c Hwf Hst) as G0.
  destruct (adds_fits _ _ _ (adds_addText c (chars "</") Hwf Hst))
    as (x1 & E1 & _).
  { change (length (c_str (chars "</"))) with 2. lia. }
  pose proof (grown_addText _ _ _ _ _ _ _ G0 E1) as G1.
  pose proof (grown_position _ _ _ _ _ Hwf G1) as P1.
  change (length ([] ++ c_str (chars "</"))) with 2 in P1.
  pose proof G1 as (W1 & _ & S1 & _ & _ & _ & _ & Z1).
  destruct (adds_fits _ _ _ (adds_addText x1 MESSAGES_ELEMENT W1 S1))
    as (x2 & E2 & _).
  { change (length (c_str MESSAGES_ELEMENT)) with 8. lia. }
  pose proof (grown_addText _ _ _ _ _ _ _ G1 E2) as G2.
  pose proof (grown_position _ _ _ _ _ Hwf G2) as P2.
  change (length (([] ++ c_str (chars "</")) ++ c_str MESSAGES_ELEMENT))
    with 10 in P2.
  pose proof G2 as (W2 & _ & S2 & _ & _ & _ & _ & Z2).
  destruct (adds_fits _ _ _ (adds_addText x2 (chars ">" ++ [LF]) W2 S2))
    as (x3 & E3 & _).
  { change (length (c_str (chars ">" ++ [LF]))) with 2. lia. }
  pose proof (grown_addText _ _ _ _ _ _ _ G2 E3) as G3.
  rewrite E1. cbn [mbind option_bind]. rewrite E2. cbn [mbind option_bind].
  rewrite E3. cbn [mbind option_bind].
  exists x3. split; [exact G3|reflexivity].
Qed.

(** X22: flushing a pending batch on a healthy open context, when the
    closing [</messages>] line still fits the buffer, writes the composed
    text followed by that line, reads the acknowledgement, resets
    [pending] to zero, keeps [id], and returns [OK] when the acknowledged
    number is [id] and [MISMATCHED_ID] when it is not. *)
Theorem flush_sends_batch c digits rest net :
  rvpf_xpvpc_failed c = false -> rvpf_xpvpc_isOpen SSL_ENABLED c = true ->
  wf c -> pending c <> 0%Z ->
  position c + 12 < size c ->
  (Z.of_nat (position c) + 12 < 2 ^ 31)%Z ->
  Ssl.write_results net = [] ->
  Forall (fun d => Ssl.isdigit d = true) digits ->
  (ref_number 0 digits < 2 ^ 63)%Z ->
  length (acknowledgement digits) + 2 < MIN_BUFFER_SIZE ->
  Ssl.incoming net = Ssl.Bytes (acknowledgement digits ++ [LF]) :: rest ->
  exists c',
    rvpf_xpvpc_flush SSL_ENABLED c net =
      Some
        (status c', c',
         Ssl.set_stream net []
           (Ssl.written net ++ text c ++ chars "</messages>" ++ [LF]) rest)
    /\ status c' = (if (ref_number 0 digits =? id c)%Z then RVPF_XPVPC_OK
                    else RVPF_XPVPC_MISMATCHED_ID)
    /\ pending c' = 0%Z /\ id c' = id c /\ ssl c' = ssl c
    /\ position c' = 0.
Proof.
  intros Hf Ho Hwf Hp Hroom Hsmall Hw Hds Href Hfit Hin.
  pose proof (not_failed c Hf) as [Hst Hssl].
  destruct (flush_pending c net Hf Ho Hwf Hp Hroom) as (x & Hx & ->).
  pose proof (grown_position _ _ _ _ _ Hwf Hx) as Hposx.
  change (length (chars "</messages>" ++ [LF])) with 12 in Hposx.
  destruct Hx as (Hwfx & Htext & Hstx & Hidx & Hpx & Hsslx & Hclx & Hszx).
  assert (Ssl.status (ssl x) = Ssl.RVPF_SSL_OK) as Hsslx' by congruence.
  assert (0 < position x) as Hpos0 by (clear -Hposx; lia).
  assert (Z.of_nat (position x) < 2 ^ 31)%Z as Hbound
    by (clear -Hposx Hsmall; lia).
  rewrite (sendText_all x net Hwfx Hstx Hsslx' Hw Hpos0 Hbound).
  rewrite Htext.
  set (y := set_text x (buffer x) (size x) (position x) (position x)).
  set (net1 := Ssl.set_stream net [] _ _).
  destruct (verifyResponse_acknowledged digits rest (id y) y net1)
    as (mem & -> & Hmem); try done.
  { apply Hwfx. }
  { apply Hwfx. }
  eexists. split; [reflexivity|].
  cbn [status id pending ssl position set_status set_text set_pending y].
  rewrite Hidx. repeat split; try done.
Qed.

Lemma login_unfold c user password net :
  rvpf_xpvpc_failed c = false -> rvpf_xpvpc_isOpen SSL_ENABLED c = true ->
  pending c = 0%Z ->
  rvpf_xpvpc_login SSL_ENABLED CHAR_IS_SIGNED c user password net =
    (x ← add_login CHAR_IS_SIGNED c user password;
     let '(c1, n1) := _sendText x net in
     let '(c2, n2) := _verifyResponse c1 (id c1) n1 in
     Some (status c2, c2, n2)).
Proof.
  intros Hf Ho Hp.
  unfold rvpf_xpvpc_login. rewrite Hf, Ho. cbn [negb].
  by rewrite (flush_nothing c net Hf Ho Hp).
Qed.

(** X23: with no batch pending, when the login document fits the buffer
    ([add_login] ends well, with the context [x]), [rvpf_xpvpc_login]
    writes exactly the text composed, reads the acknowledgement, and
    returns [OK] when the acknowledged number is the incremented [id] and
    [MISMATCHED_ID] when it is not. *)
Theorem login_sends_document c user password x digits rest net :
  rvpf_xpvpc_failed c = false -> rvpf_xpvpc_isOpen SSL_ENABLED c = true ->
  wf c -> pending c = 0%Z ->
  add_login CHAR_IS_SIGNED c user password = Some x ->
  (Z.of_nat (position x) < 2 ^ 31)%Z ->
  Ssl.write_results net = [] ->
  Forall (fun d => Ssl.isdigit d = true) digits ->
  (ref_number 0 digits < 2 ^ 63)%Z ->
  length (acknowledgement digits) + 2 < MIN_BUFFER_SIZE ->
  Ssl.incoming net = Ssl.Bytes (acknowledgement digits ++ [LF]) :: rest ->
  exists c',
    rvpf_xpvpc_login SSL_ENABLED CHAR_IS_SIGNED c user password net =
      Some
        (status c', c',
         Ssl.set_stream net [] (Ssl.written net ++ text x) rest)
    /\ status c' = (if (ref_number 0 digits =? to_jlong (id c + 1))%Z
                    then RVPF_XPVPC_OK else RVPF_XPVPC_MISMATCHED_ID)
    /\ pending c' = 0%Z /\ id c' = to_jlong (id c + 1) /\ ssl c' = ssl c
    /\ position c' = 0.
Proof.
  intros Hf Ho Hwf Hp Hlogin Hsmall Hw Hds Href Hfit Hin.
  pose proof (not_failed c Hf) as [Hst Hssl].
  rewrite (login_unfold c user password net Hf Ho Hp).
  rewrite Hlogin. cbn [mbind option_bind].
  destruct (grown_add_login CHAR_IS_SIGNED user password c x Hwf Hst Hlogin)
    as (t & Hx & Ht).
  pose proof (grown_position _ _ _ _ _ Hwf Hx) as Hposx.
  destruct Hx as (Hwfx & Htext & Hstx & Hidx & Hpx & Hsslx & Hclx & Hszx).
  assert (0 < position x) as Hpos0.
  { destruct t as [|a t]; [exfalso; exact (Ht eq_refl)|].
    cbn [length] in Hposx. clear -Hposx. lia. }
  assert (Ssl.status (ssl x) = Ssl.RVPF_SSL_OK) as Hsslx' by congruence.
  rewrite (sendText_all x net Hwfx Hstx Hsslx' Hw Hpos0 Hsmall).
  set (y := set_text x (buffer x) (size x) (position x) (position x)).
  set (net1 := Ssl.set_stream net [] _ _).
  destruct (verifyResponse_acknowledged digits rest (id y) y net1)
    as (mem & -> & Hmem); try done.
  { apply Hwfx. }
  { apply Hwfx. }
  eexists. split; [reflexivity|].
  cbn [status id pending ssl position set_status set_text set_pending y].
  rewrite Hidx, Hpx. repeat split; try done.
Qed.

End Session.

(** ** The digits of a number *)

Lemma long_digits_length room : forall n ds,
  long_digits room n = Some ds -> 0 < length ds <= room.
Proof.
  induction room as [|room IH]; intros n ds H; [done|].
  cbn [long_digits] in H.
  destruct (0 <? Z.quot n 10)%Z.
  - destruct (long_digits room (Z.quot n 10)) as [ds'|] eqn:E; [|done].
    injection H as <-. apply IH in E. cbn. lia.
  - injection H as <-. cbn. lia.
Qed.

Lemma digit_of_rem n :
  (0 <= n)%Z ->
  let d := ascii_of_nat (Z.to_nat ((Z.rem n 10 + 48) mod 256)) in
  Ssl.isdigit d = true /\ Ssl.digit_value d = Z.rem n 10.
Proof.
  intros Hn d.
  pose proof (Z.rem_bound_pos n 10 Hn ltac:(lia)) as Hr.
  assert (nat_of_ascii d = Z.to_nat (Z.rem n 10 + 48)) as Hd.
  { unfold d. rewrite Z.mod_small by lia.
    apply nat_ascii_embedding. lia. }
  unfold Ssl.isdigit, Ssl.digit_value. rewrite Hd. split.
  - apply andb_true_intro. split; apply Nat.leb_le; lia.
  - lia.
Qed.

Lemma ref_number_snoc ds : forall acc d,
  ref_number acc (ds ++ [d]) = (ref_number acc ds * 10 + Ssl.digit_value d)%Z.
Proof. induction ds as [|a ds IH]; intros acc d; [done|]. cbn. apply IH. Qed.

Lemma long_digits_value room : forall n ds,
  (0 <= n)%Z -> long_digits room n = Some ds ->
  Forall (fun d => Ssl.isdigit d = true) ds /\ ref_number 0 (rev ds) = n.
Proof.
  induction room as [|room IH]; intros n ds Hn H; [done|].
  cbn [long_digits] in H.
  destruct (digit_of_rem n Hn) as [Hd Hv].
  pose proof (Z.quot_rem' n 10) as Hqr.
  destruct (Z.ltb_spec 0 (Z.quot n 10)) as [Hq|Hq].
  - destruct (long_digits room (Z.quot n 10)) as [ds'|] eqn:E; [|done].
    injection H as <-. apply IH in E as [Hds Hval]; [|lia]. split.
    + by constructor.
    + cbn [rev]. rewrite ref_number_snoc, Hval, Hv. lia.
  - injection H as <-. split; [by repeat constructor|].
    cbn. rewrite Hv.
    pose proof (Z.quot_pos n 10 Hn ltac:(lia)). lia.
Qed.

Lemma decimal_of_value n :
  (0 <= n < 2 ^ 63)%Z ->
  Forall (fun d => Ssl.isdigit d = true) (decimal_of n)
  /\ ref_number 0 (decimal_of n) = n /\ 0 < length (decimal_of n) <= 20.
Proof.
  intros Hn. unfold decimal_of.
  destruct (long_digits_some 20 n) as [ds E]; [lia|lia|]. rewrite E.
  destruct (long_digits_value 20 n ds) as [Hds Hv]; [lia|done|].
  apply long_digits_length in E.
  rewrite length_rev. split; [by apply Forall_rev|done].
Qed.

Section Documents.
Variable SSL_ENABLED CHAR_IS_SIGNED : bool.

(** X24: on a context that passes the guards, a call that stays within
    the buffer (it returns) leaves [id] as follows, whatever the peer
    does: [rvpf_xpvpc_login] one higher, [rvpf_xpvpc_sendValue] one higher
    when no batch is pending and unchanged otherwise, [rvpf_xpvpc_flush]
    unchanged. *)
Theorem document_ids c :
  rvpf_xpvpc_failed c = false -> rvpf_xpvpc_isOpen SSL_ENABLED c = true ->
  (- 2 ^ 63 <= id c < 2 ^ 63 - 1)%Z ->
  (forall user password net r,
     rvpf_xpvpc_login SSL_ENABLED CHAR_IS_SIGNED c user password net
     = Some r ->
     id (snd (fst r)) = (id c + 1)%Z)
  /\ (forall point stamp state value globals net r,
        rvpf_xpvpc_sendValue SSL_ENABLED CHAR_IS_SIGNED c (Some point)
          (Some stamp) state value globals net = Some r ->
        id (snd (fst r)) = if (pending c =? 0)%Z then (id c + 1)%Z else id c)
  /\ (forall net r,
        rvpf_xpvpc_flush SSL_ENABLED c net = Some r ->
        id (snd (fst r)) = id c).
Proof.
  intros Hf Ho Hid. split; [|split].
  - intros user password net r H.
    rewrite (login_id _ _ _ _ _ _ _ Hf Ho H). apply to_jlong_small. lia.
  - intros point stamp state value globals net r H.
    rewrite (sendValue_id _ _ _ _ _ _ _ _ _ _ Hf Ho H).
    destruct (pending c =? 0)%Z; [|done]. apply to_jlong_small. lia.
  - intros net r. apply flush_id.
Qed.

(** X25: when the next thing to arrive is a line
    [<done ref='N'/>] that fits the buffer, [_verifyResponse] consumes
    exactly that arrival, writes nothing, and sets [MISMATCHED_ID] exactly
    when [N] is not the expected id; the status stays [OK] otherwise, and
    [id], [pending] and the stream context are left alone. *)
Theorem acknowledgement_is_checked c expected digits rest net :
  status c = RVPF_XPVPC_OK -> Ssl.status (ssl c) = Ssl.RVPF_SSL_OK ->
  wf c ->
  Forall (fun d => Ssl.isdigit d = true) digits ->
  (ref_number 0 digits < 2 ^ 63)%Z ->
  length (acknowledgement digits) + 2 < MIN_BUFFER_SIZE ->
  Ssl.incoming net = Ssl.Bytes (acknowledgement digits ++ [LF]) :: rest ->
  let '(c', net') := _verifyResponse c expected net in
  Ssl.incoming net' = rest /\ Ssl.written net' = Ssl.written net
  /\ status c' = (if (ref_number 0 digits =? expected)%Z
                  then RVPF_XPVPC_OK else RVPF_XPVPC_MISMATCHED_ID)
  /\ (status c' = RVPF_XPVPC_MISMATCHED_ID
      <-> ref_number 0 digits <> expected)
  /\ id c' = id c /\ pending c' = pending c /\ ssl c' = ssl c
  /\ position c' = 0.
Proof.
  intros Hst Hssl (Hlen & _ & Hmin) Hds Href Hfit Hin.
  destruct (verifyResponse_acknowledged digits rest expected c net)
    as (mem & -> & _); try done.
  cbn [Ssl.incoming Ssl.written Ssl.set_stream status id pending ssl
       position set_status set_text].
  repeat split; try done.
  - destruct (Z.eqb_spec (ref_number 0 digits) expected); [|done].
    intros H. discriminate H.
  - intros H. by destruct (Z.eqb_spec (ref_number 0 digits) expected).
Qed.

Lemma queued_value c point stamp state value x queued :
  rvpf_xpvpc_failed c = false -> wf c ->
  (- 2 ^ 31 <= pending c + 1 < 2 ^ 31)%Z ->
  open_messages c = Some x ->
  add_value CHAR_IS_SIGNED x point stamp state value = Some queued ->
  rvpf_xpvpc_failed queued = false
  /\ rvpf_xpvpc_isOpen SSL_ENABLED queued = rvpf_xpvpc_isOpen SSL_ENABLED c
  /\ pending queued = (pending c + 1)%Z /\ wf queued
  /\ status queued = RVPF_XPVPC_OK.
Proof.
  intros Hf Hwf Hp Eo Ev.
  pose proof (not_failed c Hf) as [Hst Hssl].
  destruct (grown_open_messages c x Hwf Hst Eo) as (s & Hs).
  destruct (grown_add_value CHAR_IS_SIGNED point stamp state value
              _ _ _ _ _ _ Hs Ev) as (t & Ht).
  split; [by eapply grown_not_failed|].
  split; [by eapply grown_isOpen|].
  destruct Ht as (? & _ & ? & _ & -> & _).
  split; [by apply Pipe.to_jint_small|done].
Qed.

(** X26: the threshold that [rvpf_xpvpc_setAutoFlush] sets through one
    context is the one [rvpf_xpvpc_sendValue] reads on any other, as long
    as what is composed fits the buffer. After a
    [rvpf_xpvpc_setAutoFlush] on [c1] with [n >= 1] that returns, a
    [rvpf_xpvpc_sendValue] on a healthy open context [c2] that brings its
    [pending] to [n] or more, with room in the buffer for the element
    and for the closing line, ends with the flush of [c2] (the batch is
    closed and sent, and [pending] is back at zero), whereas with the
    initial threshold the same call only queues the value and leaves the
    connection alone. *)
Theorem autoFlush_is_shared c1 c2 n globals net1 net2 point stamp state
    value r1 queued :
  (1 <= n)%Z ->
  rvpf_xpvpc_setAutoFlush SSL_ENABLED c1 n globals net1 = Some r1 ->
  rvpf_xpvpc_failed c2 = false -> rvpf_xpvpc_isOpen SSL_ENABLED c2 = true ->
  wf c2 -> (n <= pending c2 + 1 < 2 ^ 31)%Z ->
  (x ← open_messages c2;
   add_value CHAR_IS_SIGNED x point stamp state value) = Some queued ->
  position queued + 12 < size queued ->
  let globals' := snd (fst r1) in
  _autoFlush globals' = n
  /\ pending queued = (pending c2 + 1)%Z
  /\ rvpf_xpvpc_sendValue SSL_ENABLED CHAR_IS_SIGNED c2 (Some point)
       (Some stamp) state value globals' net2
     = rvpf_xpvpc_flush SSL_ENABLED queued net2
  /\ (exists closed,
        grown (chars "</messages>" ++ [LF]) (id queued) (pending queued)
          queued closed
        /\ rvpf_xpvpc_flush SSL_ENABLED queued net2 =
             (let '(c', net') := _sendText closed net2 in
              let '(c', net') := _verifyResponse c' (id c') net' in
              Some (status c', set_pending c' 0, net')))
  /\ (exists c' net',
        rvpf_xpvpc_flush SSL_ENABLED queued net2 = Some (status c', c', net')
        /\ pending c' = 0%Z)
  /\ rvpf_xpvpc_sendValue SSL_ENABLED CHAR_IS_SIGNED c2 (Some point)
       (Some stamp) state value initial_statics net2
     = Some (RVPF_XPVPC_OK, queued, net2).
Proof.
  intros Hn Hset Hf Ho Hwf Hp Hq Hroom globals'.
  assert (globals' = {| _autoFlush := n |}) as Hg.
  { unfold globals'. unfold rvpf_xpvpc_setAutoFlush in Hset.
    apply bind_Some in Hset as ([c0 n0] & _ & Hset).
    cbv beta iota in Hset. by injection Hset as <-. }
  apply bind_Some in Hq as (x & Eo & Ev).
  destruct (queued_value c2 point stamp state value x queued Hf Hwf
              ltac:(lia) Eo Ev)
    as (Hqf & Hqo & Hqp & Hqwf & Hqst).
  rewrite Ho in Hqo.
  assert (pending queued <> 0%Z) as Hpending by lia.
  destruct (flush_pending SSL_ENABLED queued net2 Hqf Hqo Hqwf Hpending
              Hroom) as (y & Hy & Hflush).
  assert (exists c' net',
            rvpf_xpvpc_flush SSL_ENABLED queued net2
            = Some (status c', c', net') /\ pending c' = 0%Z) as Hdone.
  { rewrite Hflush. destruct (_sendText y net2) as [c' net'].
    destruct (_verifyResponse c' (id c') net') as [c'' net''].
    by eexists _, _. }
  split; [by rewrite Hg|]. split; [done|]. split; [|split; [|split]].
  - unfold rvpf_xpvpc_sendValue. rewrite Hf, Ho. cbn [negb].
    rewrite Eo. cbn [mbind option_bind]. rewrite Ev.
    cbn [mbind option_bind]. rewrite Hg. cbn [_autoFlush]. rewrite Hqp.
    destruct (Z.ltb_spec 0 n) as [_|?]; [|lia].
    destruct (Z.leb_spec n (pending c2 + 1)) as [_|?]; [|lia].
    cbn [andb]. destruct Hdone as (c' & net' & -> & _). reflexivity.
  - exists y. by split.
  - exact Hdone.
  - unfold rvpf_xpvpc_sendValue. rewrite Hf, Ho. cbn [negb].
    rewrite Eo. cbn [mbind option_bind]. rewrite Ev.
    cbn [mbind option_bind initial_statics _autoFlush Z.ltb Z.compare andb].
    by rewrite Hqst.
Qed.

End Documents.

(** ** What [_addEncoded] lets through *)

Definition all_ascii : list ascii := map ascii_of_nat (seq 0 256).

Lemma all_ascii_complete c : c ∈ all_ascii.
Proof.
  unfold all_ascii. rewrite <- (ascii_nat_embedding c).
  apply list_elem_of_fmap_2, elem_of_seq.
  pose proof (nat_ascii_bounded c). lia.
Qed.

(** One character is encoded without a raw angle bracket, and without
    the quote of the attribute when it is a 7-bit character or [char] is
    unsigned. *)
Definition safe_char (signed : bool) (quote next : ascii) : bool :=
  forallb (fun x => negb (Ascii.eqb x "<") && negb (Ascii.eqb x ">"))
    (encoded_char signed quote next)
  && (negb (Ascii.eqb quote "'" || Ascii.eqb quote QUOTE)
      || (signed && (128 <=? nat_of_ascii next))
      || forallb (fun x => negb (Ascii.eqb x quote))
           (encoded_char signed quote next)).

Lemma safe_char_all :
  forallb (fun signed =>
    forallb (fun quote => forallb (safe_char signed quote) all_ascii)
      all_ascii) [true; false] = true.
Proof. vm_compute. reflexivity. Qed.

Lemma safe_char_any signed quote next : safe_char signed quote next = true.
Proof.
  pose proof safe_char_all as H.
  rewrite forallb_forall in H.
  assert (In signed [true; false]) as Hs by (destruct signed; cbn; auto).
  apply H in Hs. rewrite forallb_forall in Hs.
  pose proof (all_ascii_complete quote) as Hq.
  apply list_elem_of_In in Hq. apply Hs in Hq.
  rewrite forallb_forall in Hq. apply Hq.
  apply list_elem_of_In, all_ascii_complete.
Qed.

Lemma c_str_subset x s : x ∈ c_str s -> x ∈ s.
Proof.
  induction s as [|a s IH]; [done|]. cbn.
  destruct (Ascii.eqb a NUL); [by intros ?%elem_of_nil|].
  intros [->|H]%elem_of_cons; [by left|]. right. by apply IH.
Qed.

Lemma trim_left_subset x s : x ∈ trim_left s -> x ∈ s.
Proof.
  induction s as [|a s IH]; [done|]. cbn.
  destruct (isspace a); [|done]. intros H. right. by apply IH.
Qed.

Lemma trim_subset x s : x ∈ trim s -> x ∈ s.
Proof.
  unfold trim. intros H.
  apply list_elem_of_In, in_rev, list_elem_of_In, trim_left_subset in H.
  apply list_elem_of_In, in_rev, list_elem_of_In in H.
  by apply trim_left_subset.
Qed.

(** X27: what [_addEncoded] adds never contains a raw
    [<] or [>]; it contains no raw attribute quote either when [char] is
    unsigned or the text is 7-bit. *)
Theorem encoded_has_no_markup signed quote text :
  ("<"%char ∉ encoded signed quote (Some text))
  /\ (">"%char ∉ encoded signed quote (Some text))
  /\ ((quote = "'"%char \/ quote = QUOTE) ->
      (signed = false \/ Forall (fun c => nat_of_ascii c < 128) text) ->
      quote ∉ encoded signed quote (Some text)).
Proof.
  unfold encoded.
  assert (forall x, x ∈ flat_map (encoded_char signed quote)
                          (trim (c_str text)) ->
            exists next, next ∈ text
              /\ x ∈ encoded_char signed quote next) as Hsplit.
  { intros x Hx. apply list_elem_of_In, in_flat_map in Hx as (next & Hn & Hx).
    exists next. split; [|by apply list_elem_of_In].
    by apply c_str_subset, trim_subset, list_elem_of_In. }
  split; [|split].
  - intros (next & _ & Hx)%Hsplit.
    pose proof (safe_char_any signed quote next) as Hsafe.
    apply andb_prop in Hsafe as [Hsafe _].
    rewrite forallb_forall in Hsafe.
    apply list_elem_of_In, Hsafe in Hx. by apply andb_prop in Hx as [Hx _].
  - intros (next & _ & Hx)%Hsplit.
    pose proof (safe_char_any signed quote next) as Hsafe.
    apply andb_prop in Hsafe as [Hsafe _].
    rewrite forallb_forall in Hsafe.
    apply list_elem_of_In, Hsafe in Hx. by apply andb_prop in Hx as [_ Hx].
  - intros Hq Hbytes (next & Hnext & Hx)%Hsplit.
    pose proof (safe_char_any signed quote next) as Hsafe.
    apply andb_prop in Hsafe as [_ Hsafe].
    apply orb_prop in Hsafe as [Hsafe|Hsafe];
      [apply orb_prop in Hsafe as [Hsafe|Hsafe]|].
    + destruct Hq as [->| ->]; by vm_compute in Hsafe.
    + apply andb_prop in Hsafe as [-> Hbig]. apply Nat.leb_le in Hbig.
      destruct Hbytes as [?|Hbytes]; [done|].
      rewrite Forall_forall in Hbytes. apply Hbytes in Hnext. lia.
    + rewrite forallb_forall in Hsafe.
      apply list_elem_of_In, Hsafe in Hx. by rewrite Ascii.eqb_refl in Hx.
Qed.

(** X28: on a healthy context, [_addChar] appends the character,
    [_addText] the string and [_addEncoded] the encoding of the trimmed
    string when, with the terminator, they fit what is left of the
    buffer: the earlier text is kept, the buffer is the same block, the
    status stays [OK], and [id], [pending] and the stream context are
    left alone. When they do not fit, the call runs into the [memset] of
    [_addChar], past the end of the reallocated block: no call enlarges
    the buffer with defined behaviour. *)
Theorem added_text_fits_or_overruns signed c :
  wf c -> status c = RVPF_XPVPC_OK ->
  (forall ch,
     (position c + 1 < size c ->
      exists c',
        _addChar c ch = Some c' /\ wf c' /\ text c' = text c ++ [ch]
        /\ position c' = position c + 1 /\ size c' = size c
        /\ status c' = RVPF_XPVPC_OK
        /\ id c' = id c /\ pending c' = pending c /\ ssl c' = ssl c)
     /\ (size c <= position c + 1 -> _addChar c ch = None))
  /\ (forall t,
        (position c + strlen t < size c ->
         exists c',
           _addText c t = Some c' /\ wf c' /\ text c' = text c ++ c_str t
           /\ position c' = position c + strlen t /\ size c' = size c
           /\ status c' = RVPF_XPVPC_OK
           /\ id c' = id c /\ pending c' = pending c /\ ssl c' = ssl c)
        /\ (size c <= position c + strlen t -> _addText c t = None))
  /\ (forall t quote,
        (position c + length (encoded signed quote t) < size c ->
         exists c',
           _addEncoded signed c t quote = Some c' /\ wf c'
           /\ text c' = text c ++ encoded signed quote t
           /\ position c' = position c + length (encoded signed quote t)
           /\ size c' = size c /\ status c' = RVPF_XPVPC_OK
           /\ id c' = id c /\ pending c' = pending c /\ ssl c' = ssl c)
        /\ (size c <= position c + length (encoded signed quote t) ->
            _addEncoded signed c t quote = None)).
Proof.
  intros Hwf Hst.
  assert (forall t r,
            adds t c r ->
            (position c + length t < size c ->
             exists c',
               r = Some c' /\ wf c' /\ text c' = text c ++ t
               /\ position c' = position c + length t /\ size c' = size c
               /\ status c' = RVPF_XPVPC_OK
               /\ id c' = id c /\ pending c' = pending c /\ ssl c' = ssl c)
            /\ (size c <= position c + length t -> r = None)) as Hadds.
  { intros t r H. split.
    - intros Hfit. destruct (adds_fits _ _ _ H Hfit) as (c' & E & Hg).
      exists c'. split; [exact E|].
      pose proof (grown_position _ _ _ _ _ Hwf Hg) as Hp.
      destruct Hg as (? & ? & ? & ? & ? & ? & ? & ?). done.
    - intros Hover. exact (adds_overrun _ _ _ Hwf H Hover). }
  split; [|split].
  - intros ch. apply (Hadds [ch]). by apply adds_addChar.
  - intros t. apply (Hadds (c_str t)). by apply adds_addText.
  - intros t quote. apply Hadds. by apply adds_addEncoded.
Qed.

(** X29: the digits [_addLong] writes for a non-negative
    [long long] are read back as the same number by the digit loop of
    [_verifyResponse]. *)
Theorem written_id_reads_back n c pre a post :
  (0 <= n < 2 ^ 63)%Z ->
  buffer c = pre ++ decimal_of n ++ a :: post ->
  position c = length pre -> Ssl.isdigit a = false ->
  length pre + length (decimal_of n) <= limit c ->
  fst (read_digits (limit c) c 0) = n.
Proof.
  intros Hn Hbuf Hpos Ha Hlim.
  destruct (decimal_of_value n Hn) as (Hds & Hv & _).
  assert (length (decimal_of n) <= limit c) as Hturns by lia.
  assert (ref_number 0 (decimal_of n) < 2 ^ 63)%Z as Hsmall
    by (rewrite Hv; lia).
  by rewrite (read_digits_window (decimal_of n) pre a post (limit c) c 0
                Hbuf Hpos Hds Ha Hlim Hturns ltac:(lia) Hsmall).
Qed.

Section Peer.
Variable SSL_ENABLED : bool.

Lemma verifyResponse_closed c expected net :
  status c = RVPF_XPVPC_OK -> Ssl.status (ssl c) = Ssl.RVPF_SSL_OK ->
  MIN_BUFFER_SIZE <= size c -> Ssl.incoming net = [] ->
  exists mem,
    _verifyResponse c expected net =
      (set_status
         (set_ssl (set_text c mem (size c) 0 0)
            (Ssl.set_status (ssl c) Ssl.RVPF_SSL_SERVER_CLOSED))
         RVPF_XPVPC_UNEXPECTED_RESPONSE, net).
Proof.
  intros Hst Hssl Hmin Hin. unfold MIN_BUFFER_SIZE in Hmin.
  destruct c as [cl i pe sl buf sz lim pos st].
  cbn [client id pending ssl buffer size limit position status] in *.
  subst st. unfold _verifyResponse, _receiveLine.
  cbn [client id pending ssl buffer size limit position status set_ssl
       set_text set_status].
  cbn [Z.eqb RVPF_XPVPC_OK negb].
  destruct sz as [|sz]; [lia|]. cbn [_receiveLine_loop].
  cbn [client id pending ssl buffer size limit position status set_ssl
       set_text set_status].
  destruct (Nat.ltb_spec 0 (S sz - 1)) as [_|?]; [|lia].
  unfold Ssl.rvpf_ssl_receive, Ssl.rvpf_ssl_failed. rewrite Hssl.
  cbn [Z.eqb Ssl.RVPF_SSL_OK negb orb].
  destruct (Nat.ltb_spec (S sz - 1 - 0) 1) as [?|_]; [lia|].
  unfold Ssl.read_bytes. rewrite Hin.
  cbn [Z.ltb Z.eqb Z.compare].
  cbn [client id pending ssl buffer size limit position status set_ssl
       set_text set_status Ssl.status Ssl.set_status
       Ssl.RVPF_SSL_SERVER_CLOSED Ssl.RVPF_SSL_OK Z.eqb negb].
  cbn [RESPONSE_START chars String.list_ascii_of_string _match
       limit position Nat.leb orb set_text set_status status
       RVPF_XPVPC_UNEXPECTED_RESPONSE RVPF_XPVPC_OK Z.eqb negb].
  eexists. reflexivity.
Qed.

End Peer.

Section ClosedPeer.
Variable SSL_ENABLED : bool.

(** X30: when the peer has closed after the batch was written (the
    closing line fitting the buffer), [rvpf_xpvpc_flush] returns
    [UNEXPECTED_RESPONSE], which is also what [rvpf_xpvpc_status] reports
    from then on, while the stream context holds [SERVER_CLOSED];
    [pending] is reset all the same. *)
Theorem flush_closed_peer c net :
  rvpf_xpvpc_failed c = false -> rvpf_xpvpc_isOpen SSL_ENABLED c = true ->
  wf c -> pending c <> 0%Z ->
  position c + 12 < size c ->
  (Z.of_nat (position c) + 12 < 2 ^ 31)%Z ->
  Ssl.write_results net = [] -> Ssl.incoming net = [] ->
  exists c' net',
    rvpf_xpvpc_flush SSL_ENABLED c net
    = Some (RVPF_XPVPC_UNEXPECTED_RESPONSE, c', net')
    /\ rvpf_xpvpc_status c' = RVPF_XPVPC_UNEXPECTED_RESPONSE
    /\ Ssl.status (ssl c') = Ssl.RVPF_SSL_SERVER_CLOSED
    /\ pending c' = 0%Z /\ id c' = id c
    /\ Ssl.written net'
       = Ssl.written net ++ text c ++ chars "</messages>" ++ [LF].
Proof.
  intros Hf Ho Hwf Hp Hroom Hsmall Hw Hin.
  pose proof (not_failed c Hf) as [Hst Hssl].
  destruct (flush_pending SSL_ENABLED c net Hf Ho Hwf Hp Hroom)
    as (x & Hx & ->).
  pose proof (grown_position _ _ _ _ _ Hwf Hx) as Hposx.
  change (length (chars "</messages>" ++ [LF])) with 12 in Hposx.
  destruct Hx as (Hwfx & Htext & Hstx & Hidx & Hpx & Hsslx & Hclx & Hszx).
  assert (Ssl.status (ssl x) = Ssl.RVPF_SSL_OK) as Hsslx' by congruence.
  assert (0 < position x) as Hpos0 by (clear -Hposx; lia).
  assert (Z.of_nat (position x) < 2 ^ 31)%Z as Hbound
    by (clear -Hposx Hsmall; lia).
  rewrite (sendText_all x net Hwfx Hstx Hsslx' Hw Hpos0 Hbound).
  rewrite Htext.
  set (y := set_text x (buffer x) (size x) (position x) (position x)).
  set (net1 := Ssl.set_stream net [] _ _).
  assert (MIN_BUFFER_SIZE <= size y) as Hmin by apply Hwfx.
  destruct (verifyResponse_closed y (id y) net1 Hstx Hsslx' Hmin Hin)
    as (mem & ->).
  eexists _, _. split; [reflexivity|].
  unfold rvpf_xpvpc_status.
  cbn [status id pending ssl position set_status set_text set_pending
       set_ssl y Ssl.status Ssl.set_status net1 Ssl.written Ssl.set_stream
       RVPF_XPVPC_UNEXPECTED_RESPONSE RVPF_XPVPC_OK Z.eqb negb].
  by rewrite Hidx.
Qed.

End ClosedPeer.

(** ** A session to run the theorems on *)

(** A peer that takes what is written and has these lines to say. *)
Definition peer_saying (lines : list (list ascii)) : Ssl.network :=
  Ssl.set_stream Ssl.willing_network [] []
    (map (fun line => Ssl.Bytes (line ++ [LF])) lines).

(** A context that was created and opened, without TLS. *)
Definition open_context : rvpf_xpvpc_context :=
  snd (rvpf_xpvpc_open false (rvpf_xpvpc_create false)
         (Some (chars "localhost:11001")) Ssl.willing_network).

(** The same with one value queued. *)
Definition batch_context : rvpf_xpvpc_context :=
  default open_context
    (x ← open_messages open_context;
     add_value true x (chars "P1") (chars "2020-01-01") None
       (Some (chars "12"))).

(** The same with a login document composed. *)
Definition login_context : rvpf_xpvpc_context :=
  default open_context
    (add_login true open_context (Some (chars "user"))
       (Some (chars "password"))).

(** The same with six bytes left in the buffer. *)
Definition filled_context : rvpf_xpvpc_context :=
  set_text open_context (buffer open_context) (size open_context) 0 250.

(** The batch with a second value queued. *)
Definition second_batch_context : rvpf_xpvpc_context :=
  default open_context
    (add_value true batch_context (chars "P1") (chars "2020-01-01") None
       (Some (chars "12"))).

Lemma open_context_healthy :
  rvpf_xpvpc_failed open_context = false
  /\ rvpf_xpvpc_isOpen false open_context = true.
Proof. split; vm_compute; reflexivity. Qed.

Lemma wf_open_context : wf open_context.
Proof. repeat split; vm_compute; lia. Qed.

Lemma batch_context_queued :
  (x ← open_messages open_context;
   add_value true x (chars "P1") (chars "2020-01-01") None
     (Some (chars "12"))) = Some batch_context.
Proof. vm_compute. reflexivity. Qed.

Lemma wf_batch_context : wf batch_context.
Proof. repeat split; vm_compute; lia. Qed.

Lemma login_context_composed :
  add_login true open_context (Some (chars "user"))
    (Some (chars "password")) = Some login_context.
Proof. vm_compute. reflexivity. Qed.

Lemma wf_filled_context : wf filled_context.
Proof. repeat split; vm_compute; lia. Qed.

Lemma document_ids_witness :
  exists r,
    rvpf_xpvpc_login false true open_context (Some (chars "user"))
      (Some (chars "password")) (peer_saying [chars "<done ref='1'/>"])
    = Some r
    /\ id (snd (fst r)) = 1%Z.
Proof.
  destruct open_context_healthy as [H1 H2].
  assert (- 2 ^ 63 <= id open_context < 2 ^ 63 - 1)%Z as H3
    by (change (id open_context) with 0%Z; lia).
  destruct (rvpf_xpvpc_login false true open_context (Some (chars "user"))
              (Some (chars "password"))
              (peer_saying [chars "<done ref='1'/>"])) as [r|] eqn:E;
    [|vm_compute in E; discriminate E].
  exists r. split; [reflexivity|].
  exact (proj1 (document_ids false true open_context H1 H2 H3) _ _ _ r E).
Defined.

Lemma acknowledgement_is_checked_witness :
  status (fst (_verifyResponse open_context 7
                 (peer_saying [chars "<done ref='8'/>"])))
  = RVPF_XPVPC_MISMATCHED_ID.
Proof.
  assert (wf open_context) as Hwf
    by (repeat split; vm_compute; lia).
  assert (Forall (fun d => Ssl.isdigit d = true) (chars "8")) as Hds
    by (repeat constructor).
  pose proof (acknowledgement_is_checked open_context 7 (chars "8") []
                (peer_saying [chars "<done ref='8'/>"])
                eq_refl eq_refl Hwf Hds ltac:(vm_compute; reflexivity)
                ltac:(vm_compute; lia) eq_refl) as H.
  destruct (_verifyResponse _ _ _) as [c' net'].
  destruct H as (_ & _ & H & _). exact H.
Defined.

Lemma flush_sends_batch_witness :
  exists c',
    rvpf_xpvpc_flush false batch_context
      (peer_saying [chars "<done ref='1'/>"])
    = Some
        (RVPF_XPVPC_OK, c',
         Ssl.set_stream Ssl.willing_network []
           (text batch_context ++ chars "</messages>" ++ [LF]) [])
    /\ pending c' = 0%Z.
Proof.
  assert (Forall (fun d => Ssl.isdigit d = true) (chars "1")) as Hds
    by (repeat constructor).
  destruct (flush_sends_batch false batch_context (chars "1") []
              (peer_saying [chars "<done ref='1'/>"]))
    as (c' & Hflush & Hstatus & Hpending & _);
    [vm_compute; reflexivity|vm_compute; reflexivity|apply wf_batch_context
    |vm_compute; discriminate|vm_compute; lia|vm_compute; reflexivity
    |reflexivity|exact Hds
    |vm_compute; reflexivity|vm_compute; lia|reflexivity|].
  exists c'. split; [|exact Hpending].
  rewrite Hflush, Hstatus. reflexivity.
Defined.

Lemma login_sends_document_witness :
  exists c',
    rvpf_xpvpc_login false true open_context (Some (chars "user"))
      (Some (chars "password")) (peer_saying [chars "<done ref='1'/>"])
    = Some
        (RVPF_XPVPC_OK, c',
         Ssl.set_stream Ssl.willing_network []
           (chars "<login id='1' user='user' password='password'/>"
              ++ [LF]) [])
    /\ id c' = 1%Z.
Proof.
  assert (Forall (fun d => Ssl.isdigit d = true) (chars "1")) as Hds
    by (repeat constructor).
  destruct (login_sends_document false true open_context
              (Some (chars "user")) (Some (chars "password")) login_context
              (chars "1") [] (peer_saying [chars "<done ref='1'/>"]))
    as (c' & Hlogin & Hstatus & _ & Hid & _);
    [vm_compute; reflexivity|vm_compute; reflexivity
    |apply wf_open_context|reflexivity|exact login_context_composed
    |vm_compute; reflexivity|reflexivity|exact Hds
    |vm_compute; reflexivity|vm_compute; lia|reflexivity|].
  exists c'. split; [|exact Hid].
  rewrite Hlogin, Hstatus. vm_compute. reflexivity.
Defined.

Lemma autoFlush_is_shared_witness :
  rvpf_xpvpc_sendValue false true open_context (Some (chars "P1"))
    (Some (chars "2020-01-01")) None (Some (chars "12"))
    {| _autoFlush := 1 |} (peer_saying [chars "<done ref='1'/>"])
  = rvpf_xpvpc_flush false batch_context
      (peer_saying [chars "<done ref='1'/>"])
  /\ exists c' net',
       rvpf_xpvpc_flush false batch_context
         (peer_saying [chars "<done ref='1'/>"])
       = Some (status c', c', net')
       /\ pending c' = 0%Z.
Proof.
  destruct (autoFlush_is_shared false true (rvpf_xpvpc_create false)
              open_context 1 initial_statics Ssl.willing_network
              (peer_saying [chars "<done ref='1'/>"])
              (chars "P1") (chars "2020-01-01") None (Some (chars "12"))
              (rvpf_xpvpc_create false, {| _autoFlush := 1 |},
               Ssl.willing_network)
              batch_context)
    as (_ & _ & Hsend & _ & Hdone & _);
    [lia|vm_compute; reflexivity|vm_compute; reflexivity
    |vm_compute; reflexivity|apply wf_open_context
    |change (pending open_context) with 0%Z; lia
    |exact batch_context_queued|vm_compute; lia|].
  split; [exact Hsend|exact Hdone].
Defined.

Lemma added_text_fits_or_overruns_witness :
  _addText filled_context (chars "messages") = None
  /\ (exists c',
        _addText filled_context (chars "id") = Some c'
        /\ position c' = 252)
  /\ (exists c',
        _addEncoded true open_context (Some (chars " a<b 'c' ")) "'"
        = Some c'
        /\ text c' = chars "a&lt;b &apos;c&apos;").
Proof.
  destruct (added_text_fits_or_overruns true filled_context
              wf_filled_context eq_refl) as (_ & Htext & _).
  destruct (added_text_fits_or_overruns true open_context wf_open_context
              eq_refl) as (_ & _ & Hencoded).
  split; [|split].
  - apply (proj2 (Htext (chars "messages"))). vm_compute. lia.
  - destruct (proj1 (Htext (chars "id"))) as (c' & E & _ & _ & Hp & _);
      [vm_compute; lia|].
    exists c'. split; [exact E|]. rewrite Hp. reflexivity.
  - destruct (proj1 (Hencoded (Some (chars " a<b 'c' ")) "'"%char))
      as (c' & E & _ & Ht & _); [vm_compute; lia|].
    exists c'. split; [exact E|]. rewrite Ht. vm_compute. reflexivity.
Defined.

Lemma written_id_reads_back_witness :
  fst (read_digits 15
         (set_text open_context
            (chars "<done ref='" ++ decimal_of 42 ++ chars "'/>") 256 15 11)
         0) = 42%Z.
Proof.
  apply (written_id_reads_back 42
           (set_text open_context
              (chars "<done ref='" ++ decimal_of 42 ++ chars "'/>") 256 15
              11)
           (chars "<done ref='") "'"%char (chars "/>"));
    [lia|reflexivity|reflexivity|reflexivity|vm_compute; lia].
Defined.

Lemma flush_closed_peer_witness :
  exists c' net',
    rvpf_xpvpc_flush false batch_context (peer_saying [])
    = Some (RVPF_XPVPC_UNEXPECTED_RESPONSE, c', net')
    /\ pending c' = 0%Z.
Proof.
  destruct (flush_closed_peer false batch_context (peer_saying []))
    as (c' & net' & E & _ & _ & Hp & _);
    [vm_compute; reflexivity|vm_compute; reflexivity|apply wf_batch_context
    |vm_compute; discriminate|vm_compute; lia|vm_compute; reflexivity
    |reflexivity|reflexivity|].
  exists c', net'. by split.
Defined.

(** ** Documents that outgrow the buffer *)

(** C8 (the code departs from the claim): composing a document that
    outgrows the buffer is undefined. On a context that was created and
    opened, [rvpf_xpvpc_login] with a password of 230 characters composes
    a document of more than 255 bytes: [_addChar] reaches the end of the
    256-byte buffer, reallocates it and runs its [memset] with the new
    size from the end of the new block on. The behaviour is undefined
    from there: nothing says that the document is written, or that an
    acknowledgement is read and compared with [id]. With a password of
    200 characters the document fits; it is written, the acknowledgement
    is read and [id] is 1. *)
Theorem long_login_outgrows_buffer :
  rvpf_xpvpc_login false true open_context (Some (chars "user"))
    (Some (replicate 230 "x"%char))
    (peer_saying [chars "<done ref='1'/>"]) = None
  /\ exists c',
       rvpf_xpvpc_login false true open_context (Some (chars "user"))
         (Some (replicate 200 "x"%char))
         (peer_saying [chars "<done ref='1'/>"])
       = Some
           (RVPF_XPVPC_OK, c',
            Ssl.set_stream Ssl.willing_network []
              (chars "<login id='1' user='user' password='"
                 ++ replicate 200 "x"%char ++ chars "'/>" ++ [LF]) [])
       /\ id c' = 1%Z.
Proof.
  split; [vm_compute; reflexivity|].
  exists
    (snd (fst (default (0%Z, open_context, Ssl.willing_network)
                 (rvpf_xpvpc_login false true open_context
                    (Some (chars "user")) (Some (replicate 200 "x"%char))
                    (peer_saying [chars "<done ref='1'/>"]))))).
  split; vm_compute; reflexivity.
Qed.

(** C10 (the code departs from the claim): composing a batch that
    outgrows the buffer before [pending] reaches the threshold is
    undefined. With the threshold set to 3 through a first context, the
    first and the second [rvpf_xpvpc_sendValue] on another context,
    created and opened, queue their values; the third, which would bring
    [pending] to 3, composes past the 255th byte: [_addChar] reallocates
    the buffer and runs its [memset] with the new size from the end of
    the new block on. The behaviour is undefined from there: nothing says
    that a flush follows. With the threshold set to 2 the second call
    ends with the flush. *)
Theorem third_value_outgrows_buffer :
  rvpf_xpvpc_setAutoFlush false (rvpf_xpvpc_create false) 3 initial_statics
    Ssl.willing_network
  = Some (rvpf_xpvpc_create false, {| _autoFlush := 3 |},
          Ssl.willing_network)
  /\ rvpf_xpvpc_sendValue false true open_context (Some (chars "P1"))
       (Some (chars "2020-01-01")) None (Some (chars "12"))
       {| _autoFlush := 3 |} (peer_saying [chars "<done ref='1'/>"])
     = Some (RVPF_XPVPC_OK, batch_context,
             peer_saying [chars "<done ref='1'/>"])
  /\ pending batch_context = 1%Z
  /\ rvpf_xpvpc_sendValue false true batch_context (Some (chars "P1"))
       (Some (chars "2020-01-01")) None (Some (chars "12"))
       {| _autoFlush := 3 |} (peer_saying [chars "<done ref='1'/>"])
     = Some (RVPF_XPVPC_OK, second_batch_context,
             peer_saying [chars "<done ref='1'/>"])
  /\ pending second_batch_context = 2%Z
  /\ rvpf_xpvpc_sendValue false true second_batch_context
       (Some (chars "P1")) (Some (chars "2020-01-01")) None
       (Some (chars "12")) {| _autoFlush := 3 |}
       (peer_saying [chars "<done ref='1'/>"])
     = None
  /\ exists c',
       rvpf_xpvpc_sendValue false true batch_context (Some (chars "P1"))
         (Some (chars "2020-01-01")) None (Some (chars "12"))
         {| _autoFlush := 2 |} (peer_saying [chars "<done ref='1'/>"])
       = Some
           (RVPF_XPVPC_OK, c',
            Ssl.set_stream Ssl.willing_network []
              (text second_batch_context ++ chars "</messages>" ++ [LF])
              [])
       /\ pending c' = 0%Z.
Proof.
  repeat (split; [vm_compute; reflexivity|]).
  exists
    (snd (fst (default (0%Z, open_context, Ssl.willing_network)
                 (rvpf_xpvpc_sendValue false true batch_context
                    (Some (chars "P1")) (Some (chars "2020-01-01")) None
                    (Some (chars "12")) {| _autoFlush := 2 |}
                    (peer_saying [chars "<done ref='1'/>"]))))).
  split; vm_compute; reflexivity.
Qed.

End Xpvpc.
